(** * prowgen: job configuration compiler

    A shallow embedding of the prowgen job compiler: the [config] package
    (reading, validating and converting a job-group document, matrix
    expansion) and the [decorator] package (requirement presets overlaid
    on a job), with the properties of its specification stated and
    settled against the embedding. *)

From Stdlib Require Import ZArith Ascii String List Lia Bool.
From stdpp Require Import base option list strings gmap fin_maps pretty.
From Ceres Require Ceres.

Local Open Scope string_scope.
Local Open Scope list_scope.

(** ** Outcomes

    The Go code ends a run in three ways: it returns, it exits the process
    ([os.Exit(1)] behind [exit], [log.Fatalf]), or the runtime panics (a
    write to a nil map, an index out of range, a nil dereference). *)

Inductive outcome (A : Type) : Type :=
  | Done (a : A)
  | Exit (msg : string)
  | Panic (msg : string).
Arguments Done {A} a.
Arguments Exit {A} msg.
Arguments Panic {A} msg.

Definition obind {A B} (x : outcome A) (f : A -> outcome B) : outcome B :=
  match x with
  | Done a => f a
  | Exit m => Exit m
  | Panic m => Panic m
  end.

(** ** The Go [strings] functions the code calls *)

Module GoStrings.

Fixpoint dropPrefix (p s : string) : option string :=
  match p, s with
  | EmptyString, _ => Some s
  | String a p', String b s' => if Ascii.eqb a b then dropPrefix p' s' else None
  | String _ _, EmptyString => None
  end.

Definition HasPrefix (s p : string) : bool :=
  match dropPrefix p s with Some _ => true | None => false end.

(** [strings.TrimPrefix(s, prefix)]: [s] without the leading [prefix], or
    [s] itself when it does not start with it. *)
Definition TrimPrefix (s p : string) : string :=
  match dropPrefix p s with Some r => r | None => s end.

Definition TrimSuffix (s p : string) : string :=
  String.rev (TrimPrefix (String.rev s) (String.rev p)).

(** [strings.ReplaceAll(s, old, new)] for a non-empty [old]: the
    occurrences of [old] are found left to right and do not overlap.
    [skip] counts the characters of a matched occurrence still to pass. *)
Fixpoint replaceFrom (old new s : string) (skip : nat) : string :=
  match s with
  | EmptyString => EmptyString
  | String c s' =>
      match skip with
      | S k => replaceFrom old new s' k
      | O => if HasPrefix s old
             then new +:+ replaceFrom old new s' (String.length old - 1)
             else String c (replaceFrom old new s' 0)
      end
  end.

Definition ReplaceAll (s old new : string) : string := replaceFrom old new s 0.

(** [strings.Split(s, sep)] for a non-empty [sep]; [cur] holds the
    characters of the current piece, latest first. *)
Fixpoint splitFrom (sep s : string) (skip : nat) (cur : string) : list string :=
  match s with
  | EmptyString => [String.rev cur]
  | String c s' =>
      match skip with
      | S k => splitFrom sep s' k cur
      | O => if HasPrefix s sep
             then String.rev cur :: splitFrom sep s' (String.length sep - 1) EmptyString
             else splitFrom sep s' 0 (String c cur)
      end
  end.

Definition Split (s sep : string) : list string := splitFrom sep s 0 EmptyString.

(** [strings.Join(elems, sep)] *)
Fixpoint Join (elems : list string) (sep : string) : string :=
  match elems with
  | [] => EmptyString
  | [e] => e
  | e :: rest => e +:+ sep +:+ Join rest sep
  end.

End GoStrings.

(** ** Matrix expansion ([applyMatrix] and what it calls) *)

Module Matrix.
Import GoStrings.

(** The character class [[_a-zA-Z0-9.-]] of [variableSubstitutionFormat]. *)
Definition isVarChar (c : ascii) : bool :=
  let n := nat_of_ascii c in
  Ascii.eqb c "_" || (Nat.leb 97 n && Nat.leb n 122) || (Nat.leb 65 n && Nat.leb n 90)
  || (Nat.leb 48 n && Nat.leb n 57) || Ascii.eqb c "." || Ascii.eqb c "-".

(** The longest run of class characters at the head of [s], and the rest. *)
Fixpoint spanVar (s : string) : string * string :=
  match s with
  | String c s' =>
      if isVarChar c then let (r, t) := spanVar s' in (String c r, t)
      else (EmptyString, s)
  | EmptyString => (EmptyString, EmptyString)
  end.

(** A match of [variableSubstitutionRegex] anchored at the head of [s]:
    [$(], one or more class characters, [)].  The class contains the dot
    and excludes the closing bracket, so the optional dotted groups of the
    pattern add no string and the run of class characters is the longest
    one. *)
Definition matchVarSub (s : string) : option string :=
  match s with
  | String "$" (String "(" t) =>
      match spanVar t with
      | (String c r, String ")" _) => Some ("$(" +:+ String c r +:+ ")")
      | _ => None
      end
  | _ => None
  end.

(** [variableSubstitutionRegex.FindAllString(value, -1)]: the leftmost
    matches, none overlapping another. *)
Fixpoint findAllFrom (s : string) (skip : nat) : list string :=
  match s with
  | EmptyString => []
  | String _ s' =>
      match skip with
      | S k => findAllFrom s' k
      | O => match matchVarSub s with
             | Some m => m :: findAllFrom s' (String.length m - 1)
             | None => findAllFrom s' 0
             end
      end
  end.

Definition FindAllString (value : string) : list string := findAllFrom value 0.

Definition stripVarSubExpression (expression : string) : string :=
  TrimSuffix (TrimPrefix expression "$(") ")".

(** One turn of the loop of [validateString]: [result] and [set]. *)
Definition validateStep (acc : list string * gset string) (expression : string)
  : list string * gset string :=
  let expression := stripVarSubExpression expression in
  if bool_decide (expression ∈ acc.2) then acc
  else (acc.1 ++ [expression], {[expression]} ∪ acc.2).

Definition validateString (value : string) : list string :=
  let expressions := FindAllString value in
  (fold_left validateStep expressions ([], ∅)).1.

Definition getVarSubstitutionExpressions (yamlStr : string) : list string :=
  validateString yamlStr.

Definition replace (str expKey expVal : string) : string :=
  ReplaceAll str ("$(matrix." +:+ expKey +:+ ")") expVal.

(** [resolveCombinations]: [combs] stands for [combs[start:]], and the
    value returned is the new content of [*res]. *)
Fixpoint resolveCombinations (combs : list string) (dest : string)
    (matrix : gmap string (list string)) (res : list string) : list string :=
  match combs with
  | [] => res ++ [dest]
  | c :: combs' =>
      let lst := default [] (matrix !! c) in
      fold_left (fun res v => resolveCombinations combs' (replace dest c v) matrix res)
                lst res
  end.

(** The axis names kept by the first loop of [applyMatrix]. *)
Definition matrixCombs (subsExps : list string) (matrix : gmap string (list string))
  : list string :=
  fold_left (fun combs exp =>
               let exp := TrimPrefix exp "matrix." in
               if bool_decide (is_Some (matrix !! exp)) then combs ++ [exp] else combs)
            subsExps [].

Definition applyMatrix (yamlStr : string) (matrix : gmap string (list string))
  : list string :=
  let subsExps := getVarSubstitutionExpressions yamlStr in
  if Nat.eqb (List.length subsExps) 0 then [yamlStr]
  else resolveCombinations (matrixCombs subsExps matrix) yamlStr matrix [].

End Matrix.

(** ** Results of library calls that return an [error] *)

Inductive goresult (A : Type) : Type :=
  | Ok (a : A)
  | Err (e : string).
Arguments Ok {A} a.
Arguments Err {A} e.

(** ** The Kubernetes and requirement types the code fills in

    Slices are kept by their contents.  A Go map that is only read or
    copied is kept by its contents as well, [None] being the nil map where
    the code tests for it. *)

Record EnvVar := mkEnvVar { EnvVar_Name : string; EnvVar_Value : string }.

Record Volume := mkVolume { Volume_Name : string; Volume_Source : string }.

Record VolumeMount := mkVolumeMount { VolumeMount_Name : string; VolumeMount_MountPath : string }.

(** [v1.ResourceRequirements]: a quantity is kept in thousandths of a unit
    (its [MilliValue]). *)
Record ResourceRequirements := mkResourceRequirements {
    Resources_Limits : gmap string Z;
    Resources_Requests : gmap string Z
  }.

Record Container := mkContainer {
    Container_Image : string;
    Container_ImagePullPolicy : string;
    Container_Command : list string;
    Container_Args : list string;
    Container_Env : list EnvVar;
    Container_VolumeMounts : list VolumeMount;
    Container_Resources : ResourceRequirements;
    Container_Privileged : option bool
  }.

Record PodSpec := mkPodSpec {
    PodSpec_Containers : list Container;
    PodSpec_Volumes : list Volume;
    PodSpec_NodeSelector : option (gmap string string);
    PodSpec_ServiceAccountName : string
  }.

(** Modelled from the spec: the type of a secret declaration is declared
    outside the sources at hand and the specification names no field of it;
    a secret is kept as the named string fields of its JSON object. *)
Record Secret := mkSecret { Secret_Fields : list (string * string) }.

(** Modelled from the spec: the declaration of [RequirementPreset] is
    outside the sources at hand.  The specification (3) names its parts:
    annotations, labels, environment variables, arguments, volumes, volume
    mounts, secrets and an optional partial pod specification; they are
    the fields [mergeRequirement] and [applySecrets] read. *)
Record RequirementPreset := mkRequirementPreset {
    Preset_Annotations : gmap string string;
    Preset_Labels : gmap string string;
    Preset_Env : list EnvVar;
    Preset_Args : list string;
    Preset_Volumes : list Volume;
    Preset_VolumeMounts : list VolumeMount;
    Preset_PodSpec : option PodSpec;
    Preset_Secrets : list Secret
  }.

(** The zero value a Go map lookup gives for an absent key. *)
Definition zeroResources : ResourceRequirements := mkResourceRequirements ∅ ∅.

Definition zeroPreset : RequirementPreset :=
  mkRequirementPreset ∅ ∅ [] [] [] [] None [].

Definition setArgs (c : Container) (args : list string) : Container :=
  mkContainer (Container_Image c) (Container_ImagePullPolicy c) (Container_Command c)
    args (Container_Env c) (Container_VolumeMounts c) (Container_Resources c)
    (Container_Privileged c).

Definition setEnv (c : Container) (env : list EnvVar) : Container :=
  mkContainer (Container_Image c) (Container_ImagePullPolicy c) (Container_Command c)
    (Container_Args c) env (Container_VolumeMounts c) (Container_Resources c)
    (Container_Privileged c).

Definition setVolumeMounts (c : Container) (vms : list VolumeMount) : Container :=
  mkContainer (Container_Image c) (Container_ImagePullPolicy c) (Container_Command c)
    (Container_Args c) (Container_Env c) vms (Container_Resources c)
    (Container_Privileged c).

Definition setContainers (spec : PodSpec) (cs : list Container) : PodSpec :=
  mkPodSpec cs (PodSpec_Volumes spec) (PodSpec_NodeSelector spec)
    (PodSpec_ServiceAccountName spec).

Definition setVolumes (spec : PodSpec) (vs : list Volume) : PodSpec :=
  mkPodSpec (PodSpec_Containers spec) vs (PodSpec_NodeSelector spec)
    (PodSpec_ServiceAccountName spec).

(** ** Package decorator: requirement presets laid over a job *)

Module Decorator.

(** The part of [config.JobBase] the package touches.  The functions
    write through the maps and the pod specification they are handed; the
    model returns the new contents. *)
Record JobBase := mkJobBase {
    JobBase_Annotations : option (gmap string string);
    JobBase_Labels : option (gmap string string);
    JobBase_Spec : option PodSpec
  }.

(** Modelled from the spec: the declaration of [spec.BaseConfig] is
    outside the sources at hand; of its fields the package reads the
    switch of the CPU-aware tuning (4.2). *)
Record BaseConfig := mkBaseConfig { AutoMaxProcs : bool }.

(** [for k, v := range src { dst[k] = v }]: a write to a nil map panics. *)
Definition assignAll (dst : option (gmap string string)) (src : gmap string string)
  : outcome (option (gmap string string)) :=
  if bool_decide (src = ∅) then Done dst
  else match dst with
       | Some m => Done (Some (src ∪ m))
       | None => Panic "assignment to entry in nil map"
       end.

Definition hasEnv (name : string) (env : list EnvVar) : bool :=
  existsb (fun e2 => String.eqb (EnvVar_Name e2) name) env.

(** The body of the loop over the containers for one preset variable. *)
Definition addEnv (e1 : EnvVar) (c : Container) : Container :=
  if hasEnv (EnvVar_Name e1) (Container_Env c) then c
  else setEnv c (Container_Env c ++ [e1]).

Definition hasVolume (name : string) (vs : list Volume) : bool :=
  existsb (fun vl2 => String.eqb (Volume_Name vl2) name) vs.

Definition addVolume (vs : list Volume) (vl1 : Volume) : list Volume :=
  if hasVolume (Volume_Name vl1) vs then vs else vs ++ [vl1].

Definition hasMount (path : string) (vms : list VolumeMount) : bool :=
  existsb (fun vm2 => String.eqb (VolumeMount_MountPath vm2) path) vms.

Definition addMount (vm1 : VolumeMount) (c : Container) : Container :=
  if hasMount (VolumeMount_MountPath vm1) (Container_VolumeMounts c) then c
  else setVolumeMounts c (Container_VolumeMounts c ++ [vm1]).

(** Modelled from the spec: [validate] of this package is declared
    outside the sources at hand; every name has to exist in the preset
    store, and a miss is an error. *)
Definition validate (input : string) (options : gset string) (description : string)
  : option string :=
  if bool_decide (input ∈ options) then None
  else Some ("'" +:+ input +:+ "' is not a valid " +:+ description).

Section Externals.

(** [mergo.Merge(dst, src)], the overlay of a partial pod specification. *)
Variable mergo_Merge : PodSpec -> PodSpec -> goresult PodSpec.

(** [json.Marshal] on the collected secrets. *)
Variable json_Marshal : list Secret -> goresult string.

(** The parts of [mergeRequirement] on the containers and the volumes,
    in the order of the source: arguments, environment, volumes,
    mounts. *)
Definition mergeContainers (spec : PodSpec) (req : RequirementPreset) : PodSpec :=
  let containers := PodSpec_Containers spec in
  let containers := map (fun c => setArgs c (Container_Args c ++ Preset_Args req)) containers in
  let containers := fold_left (fun cs e1 => map (addEnv e1) cs) (Preset_Env req) containers in
  let volumes := fold_left addVolume (Preset_Volumes req) (PodSpec_Volumes spec) in
  let containers := fold_left (fun cs vm1 => map (addMount vm1) cs)
                              (Preset_VolumeMounts req) containers in
  setVolumes (setContainers spec containers) volumes.

Definition mergeRequirement (annotations labels : option (gmap string string))
    (spec : PodSpec) (req : RequirementPreset)
  : outcome (option (gmap string string) * option (gmap string string) * PodSpec) :=
  obind (assignAll annotations (Preset_Annotations req)) (fun annotations =>
  obind (assignAll labels (Preset_Labels req)) (fun labels =>
  let spec := mergeContainers spec req in
  match Preset_PodSpec req with
  | Some overlay =>
      match mergo_Merge spec overlay with
      | Ok spec => Done (annotations, labels, spec)
      | Err e => Exit ("Unable to merge PodSpec: " +:+ e)
      end
  | None => Done (annotations, labels, spec)
  end)).

Fixpoint mergeRequirements (annotations labels : option (gmap string string))
    (spec : PodSpec) (requirements : list RequirementPreset)
  : outcome (option (gmap string string) * option (gmap string string) * PodSpec) :=
  match requirements with
  | [] => Done (annotations, labels, spec)
  | req :: rest =>
      obind (mergeRequirement annotations labels spec req) (fun r =>
        mergeRequirements r.1.1 r.1.2 r.2 rest)
  end.

Definition resolveRequirements (annotations labels : option (gmap string string))
    (spec : option PodSpec) (requirements : list RequirementPreset)
  : outcome (option (gmap string string) * option (gmap string string) * option PodSpec) :=
  match spec with
  | Some spec =>
      obind (mergeRequirements annotations labels spec requirements) (fun r =>
        Done (r.1.1, r.1.2, Some r.2))
  | None => Done (annotations, labels, None)
  end.

Definition collectSecrets (presets : list RequirementPreset) : list Secret :=
  fold_left (fun secrets req => secrets ++ Preset_Secrets req) presets [].

Definition applySecrets (job : JobBase) (presets : list RequirementPreset)
  : outcome JobBase :=
  let secrets := collectSecrets presets in
  if Nat.eqb (List.length secrets) 0 then Done job
  else match json_Marshal secrets with
       | Err e => Exit ("failed to marshal secrets: " +:+ e)
       | Ok marshal =>
           match JobBase_Spec job with
           | None => Panic "nil pointer dereference"
           | Some spec =>
               match PodSpec_Containers spec with
               | [c] =>
                   let c := setEnv c (Container_Env c ++ [mkEnvVar "GCP_SECRETS" marshal]) in
                   Done (mkJobBase (JobBase_Annotations job) (JobBase_Labels job)
                                   (Some (setContainers spec [c])))
               | _ => Exit "secrets only work with 1 container"
               end
           end
       end.

(** The arithmetic of line 76 is that of [float64]: numbers of 53
    significant bits, every result rounded to the nearest of them, to the
    one with an even last bit when two are equally near.  The numbers met
    here lie between a thousandth and 2^63 in size, far inside the range
    of the exponent, which is left out. *)

(** The integer nearest to [p / q], the even one of two that are equally
    near; [q] is positive. *)
Definition nearestEven (p q : Z) : Z :=
  let d := (p / q)%Z in
  let r := (p mod q)%Z in
  if (2 * r <? q)%Z then d
  else if (q <? 2 * r)%Z then (d + 1)%Z
  else if Z.even d then d else (d + 1)%Z.

(** [float64(m)] for a positive integer [m]: [m] rounded to 53
    significant bits. *)
Definition float64OfInt (m : Z) : Z :=
  let s := (Z.log2 m - 52)%Z in
  if (s <=? 0)%Z then m else (nearestEven m (2 ^ s) * 2 ^ s)%Z.

(** The quotient [p / q] of two positive integers that are floats, in
    [float64]: the pair [(n, s)] stands for [n / 2 ^ s], and for
    [n * 2 ^ (- s)] when [s] is negative; [52 - s] is the exponent of the
    quotient. *)
Definition float64Quot (p q : Z) : Z * Z :=
  let e0 := (Z.log2 p - Z.log2 q)%Z in
  let e := if (p * 2 ^ Z.max 0 (- e0) <? q * 2 ^ Z.max 0 e0)%Z then (e0 - 1)%Z else e0 in
  let s := (52 - e)%Z in
  (nearestEven (p * 2 ^ Z.max 0 s) (q * 2 ^ Z.max 0 (- s)), s).

(** [math.Ceil] and [math.Floor] of such a pair. *)
Definition ceilScaled (x : Z * Z) : Z :=
  if (0 <=? x.2)%Z then (- ((- x.1) / 2 ^ x.2))%Z else (x.1 * 2 ^ (- x.2))%Z.

Definition floorScaled (x : Z * Z) : Z :=
  if (0 <=? x.2)%Z then (x.1 / 2 ^ x.2)%Z else (x.1 * 2 ^ (- x.2))%Z.

(** [int(math.Ceil(float64(milli) / 1000))] for [milli] of type [int64];
    the arithmetic is symmetric in the sign, and the ceiling of a
    negative number is the negated floor of its absolute value. *)
Definition ceilCores (milli : Z) : Z :=
  match milli with
  | Z0 => 0%Z
  | Zpos _ => ceilScaled (float64Quot (float64OfInt milli) 1000)
  | Zneg _ => (- floorScaled (float64Quot (float64OfInt (- milli)) 1000))%Z
  end.

(** [c.Resources.Limits.Cpu().MilliValue()], zero when no limit is set.
    A quantity is kept in whole thousandths, so [IsZero] is the test of
    this value against zero; quantities with a finer part are outside
    the model. *)
Definition cpuLimit (c : Container) : Z :=
  default 0%Z (Resources_Limits (Container_Resources c) !! "cpu").

Definition applyAutoMaxProcs (baseConfig : BaseConfig) (job : JobBase)
  : outcome JobBase :=
  if negb (AutoMaxProcs baseConfig) then Done job
  else match JobBase_Spec job with
       | None => Panic "nil pointer dereference"
       | Some spec =>
           let containers :=
             map (fun c =>
                    if negb (Z.eqb (cpuLimit c) 0)
                    then setEnv c (Container_Env c
                                     ++ [mkEnvVar "GOMAXPROCS" (pretty (ceilCores (cpuLimit c)))])
                    else c)
                 (PodSpec_Containers spec) in
           Done (mkJobBase (JobBase_Annotations job) (JobBase_Labels job)
                           (Some (setContainers spec containers)))
       end.

Definition requirementErrors (requirements excludedRequirements : list string)
    (validRequirements : gset string) : list string :=
  omap (fun req => validate req validRequirements "requirements") requirements
  ++ omap (fun req => validate req validRequirements "excluded_requirements")
          excludedRequirements.

Definition ApplyRequirements (baseConfig : BaseConfig) (job : JobBase)
    (requirements excludedRequirements : list string)
    (presetMap : gmap string RequirementPreset) : outcome JobBase :=
  let validRequirements := dom presetMap in
  match requirementErrors requirements excludedRequirements validRequirements with
  | _ :: _ as errs =>
      Exit ("Requirements validation failed: " +:+ GoStrings.Join errs "; ")
  | [] =>
      let blocked : gset string := list_to_set excludedRequirements in
      let presets :=
        fold_left (fun presets req =>
                     if bool_decide (req ∈ blocked) then presets
                     else presets ++ [default zeroPreset (presetMap !! req)])
                  requirements [] in
      obind (resolveRequirements (JobBase_Annotations job) (JobBase_Labels job)
                                 (JobBase_Spec job) presets) (fun r =>
      obind (applySecrets (mkJobBase r.1.1 r.1.2 r.2) presets) (fun job =>
      applyAutoMaxProcs baseConfig job))
  end.

End Externals.

End Decorator.

(** ** Package config: the job-group compiler *)

Module Config.
Import GoStrings Matrix.

Definition TestGridDashboard : string := "testgrid-dashboards".
Definition TestGridAlertEmail : string := "testgrid-alert-email".
Definition TestGridNumFailures : string := "testgrid-num-failures-to-alert".
Definition DefaultAutogenHeader : string :=
  "# THIS FILE IS AUTOGENERATED, DO NOT EDIT IT MANUALLY.".
Definition DefaultResource : string := "default".
Definition ModifierHidden : string := "hidden".
Definition ModifierOptional : string := "optional".
Definition ModifierSkipped : string := "skipped".
Definition TypePostsubmit : string := "postsubmit".
Definition TypePresubmit : string := "presubmit".
Definition TypePeriodic : string := "periodic".

(** *** The store of shared maps

    A Go map is a reference.  The maps of the global configuration are
    stored, as they are, into the values built from them:
    [jb.Annotations = globalConfig.Annotations], [resources :=
    cli.GlobalConfig.Resources], and they are written through those
    names afterwards.  These maps live in a store and are named by a
    location; [None] is the nil map. *)

Abbreviation loc := nat.

Record Heap := mkHeap {
    strMaps : gmap loc (gmap string string);
    resMaps : gmap loc (gmap string ResourceRequirements);
    presetMaps : gmap loc (gmap string RequirementPreset)
  }.

Definition emptyHeap : Heap := mkHeap ∅ ∅ ∅.

(** Computations on the store that may exit or panic. *)
Definition M (A : Type) : Type := Heap -> outcome (A * Heap).

Definition ret {A} (a : A) : M A := fun h => Done (a, h).

Definition bind {A B} (m : M A) (f : A -> M B) : M B :=
  fun h => match m h with
           | Done (a, h') => f a h'
           | Exit e => Exit e
           | Panic e => Panic e
           end.

Definition lift {A} (x : outcome A) : M A :=
  fun h => match x with
           | Done a => Done (a, h)
           | Exit e => Exit e
           | Panic e => Panic e
           end.

Notation "x <- c ;; k" := (bind c (fun x => k))
  (at level 100, c at next level, right associativity).

Fixpoint foldM {A B} (f : B -> A -> M B) (l : list A) (b : B) : M B :=
  match l with
  | [] => ret b
  | a :: l' => b' <- f b a ;; foldM f l' b'
  end.

(** [make(map[string]string)] and a map literal: a new location. *)
Definition newStrMap (m : gmap string string) : M loc :=
  fun h => let l := fresh (dom (strMaps h)) in
           Done (l, mkHeap (<[l := m]> (strMaps h)) (resMaps h) (presetMaps h)).

Definition newResMap (m : gmap string ResourceRequirements) : M loc :=
  fun h => let l := fresh (dom (resMaps h)) in
           Done (l, mkHeap (strMaps h) (<[l := m]> (resMaps h)) (presetMaps h)).

Definition newPresetMap (m : gmap string RequirementPreset) : M loc :=
  fun h => let l := fresh (dom (presetMaps h)) in
           Done (l, mkHeap (strMaps h) (resMaps h) (<[l := m]> (presetMaps h))).

(** The content of a map; a nil map reads as the empty one. *)
Definition strMapAt (h : Heap) (l : loc) : gmap string string :=
  default ∅ (strMaps h !! l).

Definition resMapAt (h : Heap) (r : option loc) : gmap string ResourceRequirements :=
  match r with Some l => default ∅ (resMaps h !! l) | None => ∅ end.

Definition presetMapAt (h : Heap) (r : option loc) : gmap string RequirementPreset :=
  match r with Some l => default ∅ (presetMaps h !! l) | None => ∅ end.

Definition readStrMap (l : loc) : M (gmap string string) :=
  fun h => Done (strMapAt h l, h).

Definition setStrMap (l : loc) (m : gmap string string) : M unit :=
  fun h => Done (tt, mkHeap (<[l := m]> (strMaps h)) (resMaps h) (presetMaps h)).

(** [m[k] = v] *)
Definition writeStrMap (l : loc) (k v : string) : M unit :=
  fun h => Done (tt, mkHeap (<[l := <[k := v]> (strMapAt h l)]> (strMaps h))
                            (resMaps h) (presetMaps h)).

(** *** The configuration types *)

Record TestgridConfig := mkTestgridConfig {
    Testgrid_Enabled : bool;
    Testgrid_AlertEmail : string;
    Testgrid_NumFailuresToAlert : string
  }.

Record GlobalConfig := mkGlobalConfig {
    Global_AutogenHeader : string;
    Global_PathAliases : gmap string string;
    Global_Cluster : string;
    Global_NodeSelector : option (gmap string string);
    Global_TestgridConfig : TestgridConfig;
    Global_Annotations : option loc;
    Global_Labels : option loc;
    Global_Resources : option loc;
    Global_BaseRequirements : list string;
    Global_RequirementPresets : option loc
  }.

Record Client := mkClient { GlobalConfigOf : GlobalConfig }.

Record Job := mkJob {
    Job_Name : string;
    Job_Command : list string;
    Job_Env : list EnvVar;
    Job_Types : list string;
    Job_Timeout : option Z;
    Job_Repos : list string;
    Job_Image : string;
    Job_ImagePullPolicy : string;
    Job_DisableReleaseBranching : bool;
    Job_Interval : string;
    Job_Cron : string;
    Job_Regex : string;
    Job_MaxConcurrency : Z;
    Job_Cluster : string;
    Job_NodeSelector : option (gmap string string);
    Job_Annotations : option (gmap string string);
    Job_Labels : option (gmap string string);
    Job_Resources : string;
    Job_Modifiers : list string;
    Job_Requirements : list string
  }.

Record JobsConfig := mkJobsConfig {
    Jobs_Jobs : list Job;
    Jobs_Repo : string;
    Jobs_Org : string;
    Jobs_Branches : list string;
    Jobs_Matrix : gmap string (list string);
    Jobs_Env : list EnvVar;
    Jobs_Image : string;
    Jobs_ImagePullPolicy : string;
    Jobs_SupportReleaseBranching : bool;
    Jobs_Cluster : string;
    Jobs_NodeSelector : option (gmap string string);
    Jobs_Annotations : option (gmap string string);
    Jobs_Labels : option (gmap string string);
    Jobs_Resources : option loc;
    Jobs_Requirements : list string;
    Jobs_RequirementPresets : option loc
  }.

(** *** The descriptors of the scheduler that the code fills in *)

Record Refs := mkRefs {
    Refs_Org : string;
    Refs_Repo : string;
    Refs_BaseRef : string;
    Refs_PathAlias : string
  }.

Record UtilityConfig := mkUtilityConfig {
    Utility_Decorate : option bool;
    Utility_PathAlias : string;
    Utility_ExtraRefs : list Refs;
    Utility_DecorationTimeout : option Z
  }.

Record JobBase := mkJobBase {
    JobBase_Name : string;
    JobBase_MaxConcurrency : Z;
    JobBase_Spec : option PodSpec;
    JobBase_UtilityConfig : UtilityConfig;
    JobBase_Labels : loc;
    JobBase_Annotations : loc;
    JobBase_Cluster : string
  }.

Record Presubmit := mkPresubmit {
    Presubmit_JobBase : JobBase;
    Presubmit_AlwaysRun : bool;
    Presubmit_Optional : bool;
    Presubmit_SkipReport : bool;
    Presubmit_Branches : list string;
    Presubmit_RunIfChanged : string
  }.

Record Postsubmit := mkPostsubmit {
    Postsubmit_JobBase : JobBase;
    Postsubmit_Branches : list string;
    Postsubmit_RunIfChanged : string;
    Postsubmit_SkipReport : bool
  }.

Record Periodic := mkPeriodic {
    Periodic_JobBase : JobBase;
    Periodic_Interval : string;
    Periodic_Cron : string
  }.

Record JobConfig := mkJobConfig {
    PresubmitsStatic : gmap string (list Presubmit);
    PostsubmitsStatic : gmap string (list Postsubmit);
    Periodics : list Periodic
  }.

Definition setPathAlias (jb : JobBase) (pa : string) : JobBase :=
  let u := JobBase_UtilityConfig jb in
  mkJobBase (JobBase_Name jb) (JobBase_MaxConcurrency jb) (JobBase_Spec jb)
    (mkUtilityConfig (Utility_Decorate u) pa (Utility_ExtraRefs u)
                     (Utility_DecorationTimeout u))
    (JobBase_Labels jb) (JobBase_Annotations jb) (JobBase_Cluster jb).

Definition setSpec (jb : JobBase) (spec : option PodSpec) : JobBase :=
  mkJobBase (JobBase_Name jb) (JobBase_MaxConcurrency jb) spec
    (JobBase_UtilityConfig jb) (JobBase_Labels jb) (JobBase_Annotations jb)
    (JobBase_Cluster jb).

Definition setRepos (job : Job) (repos : list string) : Job :=
  mkJob (Job_Name job) (Job_Command job) (Job_Env job) (Job_Types job)
    (Job_Timeout job) repos (Job_Image job) (Job_ImagePullPolicy job)
    (Job_DisableReleaseBranching job) (Job_Interval job) (Job_Cron job)
    (Job_Regex job) (Job_MaxConcurrency job) (Job_Cluster job)
    (Job_NodeSelector job) (Job_Annotations job) (Job_Labels job)
    (Job_Resources job) (Job_Modifiers job) (Job_Requirements job).

(** *** Helpers of the package *)

Definition contains (slice : list string) (item : string) : bool :=
  let set : gset string := list_to_set slice in
  bool_decide (item ∈ set).

(** [mergeMaps]: a new map with the entries of [mp1], then those of
    [mp2] written over them. *)
Definition mergeMaps (mp1 : loc) (mp2 : gmap string string) : M loc :=
  m1 <- readStrMap mp1 ;;
  newStrMap (mp2 ∪ m1).

Definition validate (input : string) (options : list string) (description : string)
  : option string :=
  let valid := existsb (fun opt => String.eqb input opt) options in
  if negb valid
  then Some ("'" +:+ input +:+ "' is not a valid " +:+ description
             +:+ ". Must be one of " +:+ Join options ", ")
  else None.

(** [FilterReleaseBranchingJobs] *)
Definition FilterReleaseBranchingJobs (jobs : list Job) : list Job :=
  filter (fun j => Job_DisableReleaseBranching j = false) jobs.

Definition createContainer (jobConfig : JobsConfig) (job : Job) (resources : option loc)
  : M (list Container) :=
  fun h =>
    let img := Job_Image job in
    let img := if String.eqb img "" then Jobs_Image jobConfig else img in
    let imgPullPolicy := Job_ImagePullPolicy job in
    let imgPullPolicy :=
      if String.eqb imgPullPolicy "" then Jobs_ImagePullPolicy jobConfig
      else imgPullPolicy in
    let envs := Job_Env job in
    let envs := if Nat.eqb (List.length envs) 0 then Jobs_Env jobConfig
                else envs ++ Jobs_Env jobConfig in
    let jobResource := DefaultResource in
    let jobResource :=
      if negb (String.eqb (Job_Resources job) "") then Job_Resources job
      else jobResource in
    let res := match resMapAt h resources !! jobResource with
               | Some r => r
               | None => zeroResources
               end in
    Done ([mkContainer img imgPullPolicy (Job_Command job) [] envs [] res (Some true)], h).

(** One turn of the loop of [createExtraRefs]; [orgrepo[1]] panics when
    the repository has no slash. *)
Definition extraRef (defaultBranch : string) (pathAliases : gmap string string)
    (extraRepo : string) : outcome Refs :=
  let repobranch := Split extraRepo "@" in
  let branch := match repobranch with
                | _ :: b :: _ => b
                | _ => defaultBranch
                end in
  let orgrepo := Split (hd "" repobranch) "/" in
  match orgrepo with
  | org :: repo :: _ =>
      let pa := match pathAliases !! org with
                | Some pa => pa +:+ "/" +:+ repo
                | None => ""
                end in
      Done (mkRefs org repo branch pa)
  | _ => Panic "index out of range"
  end.

Fixpoint createExtraRefs (extraRepos : list string) (defaultBranch : string)
    (pathAliases : gmap string string) : outcome (list Refs) :=
  match extraRepos with
  | [] => Done []
  | extraRepo :: rest =>
      obind (extraRef defaultBranch pathAliases extraRepo) (fun ref =>
      obind (createExtraRefs rest defaultBranch pathAliases) (fun refs =>
      Done (ref :: refs)))
  end.

(** The three statements on the annotations (lines 627-635), which are
    the three on the labels as well (lines 637-645): the map of the
    global configuration is taken as it is, the maps of the job group and
    of the job are merged into a new one. *)
Definition layerMaps (made : loc) (glob : option loc)
    (group job : option (gmap string string)) : M loc :=
  let cur := match glob with Some l => l | None => made end in
  cur <- match group with
         | Some m => mergeMaps cur m
         | None => ret cur
         end ;;
  match job with
  | Some m => mergeMaps cur m
  | None => ret cur
  end.

(** The cluster of one tier takes over when it is neither empty nor
    ["default"]. *)
Definition layerCluster (cur tier : string) : string :=
  if negb (String.eqb tier "") && negb (String.eqb tier "default") then tier else cur.

Definition layerNodeSelector (cur tier : option (gmap string string))
  : option (gmap string string) :=
  match tier with Some _ => tier | None => cur end.

Definition createJobBase (globalConfig : GlobalConfig) (jobConfig : JobsConfig) (job : Job)
    (name branch : string) (resources : option loc) : M JobBase :=
  containers <- createContainer jobConfig job resources ;;
  extraRefs <- lift (createExtraRefs (Job_Repos job) branch
                                     (Global_PathAliases globalConfig)) ;;
  labels <- newStrMap ∅ ;;
  annotations <- newStrMap ∅ ;;
  let nodeSelector := layerNodeSelector None (Global_NodeSelector globalConfig) in
  let nodeSelector := layerNodeSelector nodeSelector (Jobs_NodeSelector jobConfig) in
  let nodeSelector := layerNodeSelector nodeSelector (Job_NodeSelector job) in
  annotations <- layerMaps annotations (Global_Annotations globalConfig)
                           (Jobs_Annotations jobConfig) (Job_Annotations job) ;;
  labels <- layerMaps labels (Global_Labels globalConfig)
                      (Jobs_Labels jobConfig) (Job_Labels job) ;;
  let cluster := layerCluster "" (Global_Cluster globalConfig) in
  let cluster := layerCluster cluster (Jobs_Cluster jobConfig) in
  let cluster := layerCluster cluster (Job_Cluster job) in
  ret (mkJobBase name (Job_MaxConcurrency job)
         (Some (mkPodSpec containers [] nodeSelector ""))
         (mkUtilityConfig (Some true) "" extraRefs (Job_Timeout job))
         labels annotations cluster).

Definition applyModifiersPresubmit (presubmit : Presubmit) (jobModifiers : list string)
  : Presubmit :=
  fold_left (fun p modifier =>
               if String.eqb modifier ModifierOptional then
                 mkPresubmit (Presubmit_JobBase p) (Presubmit_AlwaysRun p) true
                   (Presubmit_SkipReport p) (Presubmit_Branches p) (Presubmit_RunIfChanged p)
               else if String.eqb modifier ModifierHidden then
                 mkPresubmit (Presubmit_JobBase p) (Presubmit_AlwaysRun p)
                   (Presubmit_Optional p) true (Presubmit_Branches p)
                   (Presubmit_RunIfChanged p)
               else if String.eqb modifier ModifierSkipped then
                 mkPresubmit (Presubmit_JobBase p) false (Presubmit_Optional p)
                   (Presubmit_SkipReport p) (Presubmit_Branches p) (Presubmit_RunIfChanged p)
               else p)
            jobModifiers presubmit.

Definition applyModifiersPostsubmit (postsubmit : Postsubmit) (jobModifiers : list string)
  : Postsubmit :=
  fold_left (fun p modifier =>
               if String.eqb modifier ModifierOptional then p
               else if String.eqb modifier ModifierHidden then
                 mkPostsubmit (Postsubmit_JobBase p) (Postsubmit_Branches p)
                   (Postsubmit_RunIfChanged p) true
               else p)
            jobModifiers postsubmit.

(** The requirement names of one job (lines 304-309): the base
    requirements of the global configuration, then the names of the job
    and of the job group that are not there yet. *)
Definition jobRequirements (settings : GlobalConfig) (jobsConfig : JobsConfig) (job : Job)
  : list string :=
  fold_left (fun requirements req =>
               if negb (contains requirements req) then requirements ++ [req]
               else requirements)
            (Job_Requirements job ++ Jobs_Requirements jobsConfig)
            (Global_BaseRequirements settings).

(** The first loop of [applyRequirements]: [presetMap[req]] is the zero
    preset for a name the map does not hold. *)
Definition lookupPresets (presetMap : gmap string RequirementPreset)
    (requirements : list string) : list RequirementPreset :=
  map (fun req => default zeroPreset (presetMap !! req)) requirements.

(** The name of a compiled job: [fmt.Sprintf("%s_%s", job.Name,
    jobsConfig.Repo)], the branch unless it is master, the suffix of the
    trigger kind. *)
Definition jobName (job : Job) (jobsConfig : JobsConfig) (branch suffix : string)
  : string :=
  let name := Job_Name job +:+ "_" +:+ Jobs_Repo jobsConfig in
  let name := if negb (String.eqb branch "master") then name +:+ "_" +:+ branch
              else name in
  name +:+ suffix.

Section Externals.

(** [yaml.Marshal] and [yaml.Unmarshal] on a job. *)
Variable yaml_Marshal : Job -> goresult string.
Variable yaml_Unmarshal : string -> goresult Job.

(** [resolveRequirements] of this package, declared outside the sources
    at hand: it is handed the labels and the pod specification of the
    job and writes through them; here it returns their new contents. *)
Variable resolveRequirements :
  gmap string string -> option PodSpec -> list RequirementPreset ->
  outcome (gmap string string * option PodSpec).

(** [cron.Parse] and [time.ParseDuration], for the error they return. *)
Variable cron_Parse : string -> goresult unit.
Variable time_ParseDuration : string -> goresult unit.

Definition applyRequirements (job : JobBase) (requirements : list string)
    (presetMap : option loc) : M JobBase :=
  fun h =>
    let presets := lookupPresets (presetMapAt h presetMap) requirements in
    (labels <- readStrMap (JobBase_Labels job) ;;
     r <- lift (resolveRequirements labels (JobBase_Spec job) presets) ;;
     _ <- setStrMap (JobBase_Labels job) r.1 ;;
     ret (setSpec job r.2)) h.

Definition unmarshalJobs (expandedYamlStr : list string) : outcome (list Job) :=
  fold_left (fun jobs jobYaml =>
               obind jobs (fun jobs =>
                 match yaml_Unmarshal jobYaml with
                 | Ok job => Done (jobs ++ [job])
                 | Err e => Exit ("failed to unmarshal the yaml to Job: " +:+ e)
                 end))
            expandedYamlStr (Done []).

Definition applyMatrixJob (job : Job) (matrix : gmap string (list string))
  : outcome (list Job) :=
  match yaml_Marshal job with
  | Err e => Exit ("failed to marshal the given Job: " +:+ e)
  | Ok yamlStr => unmarshalJobs (applyMatrix yamlStr matrix)
  end.

(** The presubmit of one expanded job (lines 311-337). *)
Definition compilePresubmit (settings : GlobalConfig) (jobsConfig : JobsConfig)
    (branch : string) (job : Job) (requirements : list string)
    (testgridJobPrefix : string) : M Presubmit :=
  let name := jobName job jobsConfig branch "" in
  jb <- createJobBase settings jobsConfig job name branch (Jobs_Resources jobsConfig) ;;
  let jb := match Global_PathAliases settings !! Jobs_Org jobsConfig with
            | Some pa => setPathAlias jb (pa +:+ "/" +:+ Jobs_Repo jobsConfig)
            | None => jb
            end in
  let presubmit :=
    if negb (String.eqb (Job_Regex job) "")
    then mkPresubmit jb false false false ["^" +:+ branch +:+ "$"] (Job_Regex job)
    else mkPresubmit jb true false false ["^" +:+ branch +:+ "$"] "" in
  _ <- (if Testgrid_Enabled (Global_TestgridConfig settings)
        then writeStrMap (JobBase_Annotations jb) TestGridDashboard testgridJobPrefix
        else ret tt) ;;
  let presubmit := applyModifiersPresubmit presubmit (Job_Modifiers job) in
  jb <- applyRequirements (Presubmit_JobBase presubmit) requirements
                          (Global_RequirementPresets settings) ;;
  ret (mkPresubmit jb (Presubmit_AlwaysRun presubmit) (Presubmit_Optional presubmit)
         (Presubmit_SkipReport presubmit) (Presubmit_Branches presubmit)
         (Presubmit_RunIfChanged presubmit)).

(** The testgrid annotations of a postsubmit and of a periodic. *)
Definition writeTestgrid (testgridConfig : TestgridConfig) (annotations : loc)
    (dashboard : string) : M unit :=
  if Testgrid_Enabled testgridConfig then
    _ <- writeStrMap annotations TestGridDashboard dashboard ;;
    _ <- writeStrMap annotations TestGridAlertEmail (Testgrid_AlertEmail testgridConfig) ;;
    writeStrMap annotations TestGridNumFailures
                (Testgrid_NumFailuresToAlert testgridConfig)
  else ret tt.

(** The postsubmit of one expanded job (lines 339-366). *)
Definition compilePostsubmit (settings : GlobalConfig) (jobsConfig : JobsConfig)
    (branch : string) (job : Job) (requirements : list string)
    (testgridJobPrefix : string) : M Postsubmit :=
  let name := jobName job jobsConfig branch "_postsubmit" in
  jb <- createJobBase settings jobsConfig job name branch (Jobs_Resources jobsConfig) ;;
  let jb := match Global_PathAliases settings !! Jobs_Org jobsConfig with
            | Some pa => setPathAlias jb (pa +:+ "/" +:+ Jobs_Repo jobsConfig)
            | None => jb
            end in
  let postsubmit :=
    mkPostsubmit jb ["^" +:+ branch +:+ "$"]
      (if negb (String.eqb (Job_Regex job) "") then Job_Regex job else "") false in
  _ <- writeTestgrid (Global_TestgridConfig settings) (JobBase_Annotations jb)
                     (testgridJobPrefix +:+ "_postsubmit") ;;
  let postsubmit := applyModifiersPostsubmit postsubmit (Job_Modifiers job) in
  jb <- applyRequirements (Postsubmit_JobBase postsubmit) requirements
                          (Global_RequirementPresets settings) ;;
  ret (mkPostsubmit jb (Postsubmit_Branches postsubmit)
         (Postsubmit_RunIfChanged postsubmit) (Postsubmit_SkipReport postsubmit)).

(** The periodic of one expanded job (lines 368-391). *)
Definition compilePeriodic (settings : GlobalConfig) (jobsConfig : JobsConfig)
    (branch : string) (job : Job) (requirements : list string)
    (testgridJobPrefix : string) : M Periodic :=
  let name := jobName job jobsConfig branch "_periodic" in
  let job := if Nat.eqb (List.length (Job_Repos job)) 0
             then setRepos job [Jobs_Org jobsConfig +:+ "/" +:+ Jobs_Repo jobsConfig]
             else job in
  jb <- createJobBase settings jobsConfig job name branch (Jobs_Resources jobsConfig) ;;
  _ <- writeTestgrid (Global_TestgridConfig settings) (JobBase_Annotations jb)
                     (testgridJobPrefix +:+ "_periodic") ;;
  jb <- applyRequirements jb requirements (Global_RequirementPresets settings) ;;
  ret (mkPeriodic jb (Job_Interval job) (Job_Cron job)).

Definition selectsPresubmit (job : Job) : bool :=
  Nat.eqb (List.length (Job_Types job)) 0 || contains (Job_Types job) TypePresubmit.

Definition selectsPostsubmit (job : Job) : bool :=
  Nat.eqb (List.length (Job_Types job)) 0 || contains (Job_Types job) TypePostsubmit.

Definition selectsPeriodic (job : Job) : bool :=
  contains (Job_Types job) TypePeriodic.

(** The body of the loop over the expanded jobs (lines 293-392); [acc]
    holds [presubmits], [postsubmits] and [periodics]. *)
Definition convertJob (settings : GlobalConfig) (jobsConfig : JobsConfig)
    (branch : string) (acc : list Presubmit * list Postsubmit * list Periodic)
    (job : Job) : M (list Presubmit * list Postsubmit * list Periodic) :=
  let testgridJobPrefix := Jobs_Org jobsConfig in
  let testgridJobPrefix :=
    if negb (String.eqb branch "master") then testgridJobPrefix +:+ "_" +:+ branch
    else testgridJobPrefix in
  let testgridJobPrefix := testgridJobPrefix +:+ "_" +:+ Jobs_Repo jobsConfig in
  let requirements := jobRequirements settings jobsConfig job in
  presubmits <- (if selectsPresubmit job
                 then p <- compilePresubmit settings jobsConfig branch job requirements
                                            testgridJobPrefix ;;
                      ret (acc.1.1 ++ [p])
                 else ret acc.1.1) ;;
  postsubmits <- (if selectsPostsubmit job
                  then p <- compilePostsubmit settings jobsConfig branch job requirements
                                              testgridJobPrefix ;;
                       ret (acc.1.2 ++ [p])
                  else ret acc.1.2) ;;
  periodics <- (if selectsPeriodic job
                then p <- compilePeriodic settings jobsConfig branch job requirements
                                          testgridJobPrefix ;;
                     ret (acc.2 ++ [p])
                else ret acc.2) ;;
  ret (presubmits, postsubmits, periodics).

(** What the end of one turn of the outer loop stores into [output]
    (lines 394-402). *)
Definition storeOutput (jobsConfig : JobsConfig) (output : JobConfig)
    (acc : list Presubmit * list Postsubmit * list Periodic) : JobConfig :=
  let key := Jobs_Org jobsConfig +:+ "/" +:+ Jobs_Repo jobsConfig in
  mkJobConfig
    (if Nat.ltb 0 (List.length acc.1.1) then <[key := acc.1.1]> (PresubmitsStatic output)
     else PresubmitsStatic output)
    (if Nat.ltb 0 (List.length acc.1.2) then <[key := acc.1.2]> (PostsubmitsStatic output)
     else PostsubmitsStatic output)
    (if Nat.ltb 0 (List.length acc.2) then acc.2 else Periodics output).

Definition convertParent (settings : GlobalConfig) (jobsConfig : JobsConfig)
    (branch : string)
    (st : list Presubmit * list Postsubmit * list Periodic * JobConfig)
    (parentJob : Job)
  : M (list Presubmit * list Postsubmit * list Periodic * JobConfig) :=
  expandedJobs <- lift (applyMatrixJob parentJob (Jobs_Matrix jobsConfig)) ;;
  acc <- foldM (convertJob settings jobsConfig branch) expandedJobs st.1 ;;
  ret (acc, storeOutput jobsConfig st.2 acc).

Definition ConvertJobConfig (cli : Client) (jobsConfig : JobsConfig) (branch : string)
  : M JobConfig :=
  let settings := GlobalConfigOf cli in
  let output := mkJobConfig ∅ ∅ [] in
  st <- foldM (convertParent settings jobsConfig branch) (Jobs_Jobs jobsConfig)
              ([], [], [], output) ;;
  ret st.2.

(** [ReadJobConfig] from the unmarshalled document on: reading the file
    and parsing it (lines 165-172) are the work of the file system and
    of the YAML library, and [jobs] is their result. *)
Definition ReadJobConfig (cli : Client) (jobs : JobsConfig) : M JobsConfig :=
  let branches := if Nat.eqb (List.length (Jobs_Branches jobs)) 0 then ["master"]
                  else Jobs_Branches jobs in
  resources <- match Global_Resources (GlobalConfigOf cli) with
               | Some l => ret l
               | None => newResMap ∅
               end ;;
  _ <- (fun h => Done (tt, mkHeap (strMaps h)
                 (<[resources := resMapAt h (Jobs_Resources jobs)
                                   ∪ resMapAt h (Some resources)]> (resMaps h))
                 (presetMaps h))) ;;
  requirementPresets <- match Global_RequirementPresets (GlobalConfigOf cli) with
                        | Some l => ret l
                        | None => newPresetMap ∅
                        end ;;
  _ <- (fun h => Done (tt, mkHeap (strMaps h) (resMaps h)
                 (<[requirementPresets := presetMapAt h (Jobs_RequirementPresets jobs)
                                            ∪ presetMapAt h (Some requirementPresets)]>
                    (presetMaps h)))) ;;
  ret (mkJobsConfig (Jobs_Jobs jobs) (Jobs_Repo jobs) (Jobs_Org jobs) branches
         (Jobs_Matrix jobs) (Jobs_Env jobs) (Jobs_Image jobs)
         (Jobs_ImagePullPolicy jobs) (Jobs_SupportReleaseBranching jobs)
         (Jobs_Cluster jobs) (Jobs_NodeSelector jobs) (Jobs_Annotations jobs)
         (Jobs_Labels jobs) (Some resources) (Jobs_Requirements jobs)
         (Some requirementPresets)).

(** The check of the schedule of a periodic job (lines 247-261). *)
Definition validatePeriodic (fileName : string) (job : Job) : list string :=
  if contains (Job_Types job) TypePeriodic then
    if negb (String.eqb (Job_Cron job) "") && negb (String.eqb (Job_Interval job) "")
    then [fileName +:+ ": cron and interval cannot be both set in periodic "
            +:+ Job_Name job]
    else if String.eqb (Job_Cron job) "" && String.eqb (Job_Interval job) ""
    then [fileName +:+ ": cron and interval cannot be both empty in periodic "
            +:+ Job_Name job]
    else if negb (String.eqb (Job_Cron job) "")
    then match cron_Parse (Job_Cron job) with
         | Err e => [fileName +:+ ": invalid cron string " +:+ Job_Cron job
                       +:+ " in periodic " +:+ Job_Name job +:+ ": " +:+ e]
         | Ok _ => []
         end
    else if negb (String.eqb (Job_Interval job) "")
    then match time_ParseDuration (Job_Interval job) with
         | Err e => [fileName +:+ ": cannot parse duration " +:+ Job_Interval job
                       +:+ " in periodic " +:+ Job_Name job +:+ ": " +:+ e]
         | Ok _ => []
         end
    else []
  else [].

(** The errors one turn of the loop over the jobs appends
    (lines 228-272). *)
Definition validateJob (fileName : string)
    (resources : gmap string ResourceRequirements) (requirements : list string)
    (job : Job) : list string :=
  (if negb (String.eqb (Job_Resources job) "")
   then match resources !! Job_Resources job with
        | Some _ => []
        | None => [fileName +:+ ": job '" +:+ Job_Name job
                     +:+ "' has nonexistant resource '" +:+ Job_Resources job +:+ "'"]
        end
   else [])
  ++ omap (fun modifier => validate modifier [ModifierHidden; ModifierOptional; ModifierSkipped]
                               "status") (Job_Modifiers job)
  ++ omap (fun req => validate req requirements "requirements") (Job_Requirements job)
  ++ validatePeriodic fileName job
  ++ omap (fun t => validate t [TypePostsubmit; TypePresubmit; TypePeriodic] "type")
          (Job_Types job)
  ++ omap (fun repo => if negb (Nat.eqb (List.length (Split repo "/")) 2)
                       then Some (fileName +:+ ": repo " +:+ repo
                                    +:+ " not valid, should take form org/repo")
                       else None) (Job_Repos job).

(** The errors [ValidateJobConfig] collects, in the order it appends
    them.  The names of the presets come out of a map, in an order Go
    leaves open; it shows in the text of a message only. *)
Definition validationErrors (fileName : string) (jobsConfig : JobsConfig) (h : Heap)
  : list string :=
  let requirements :=
    map fst (map_to_list (presetMapAt h (Jobs_RequirementPresets jobsConfig))) in
  (if String.eqb (Jobs_Image jobsConfig) "" then [fileName +:+ ": image must be set"]
   else [])
  ++ omap (fun r => validate r requirements "requirements") (Jobs_Requirements jobsConfig)
  ++ flat_map (validateJob fileName (resMapAt h (Jobs_Resources jobsConfig)) requirements)
              (Jobs_Jobs jobsConfig).

Definition ValidateJobConfig (cli : Client) (fileName : string) (jobsConfig : JobsConfig)
  : M unit :=
  fun h =>
    match validationErrors fileName jobsConfig h with
    | [] => Done (tt, h)
    | errs => Exit ("validation failed: " +:+ Join errs "; ")
    end.

End Externals.

End Config.

(** ** Package config: the generated file

    [CheckConfig] and [WriteConfig] work on the file system and on the
    YAML text of a compiled configuration.  The file system is a state
    with the three calls the code makes on it; [yaml.Marshal] reads the
    maps of the job bases through the store. *)

Module ConfigFiles.
Import GoStrings Config.

Section Externals.

Variable Files : Type.
Variable ioutil_ReadFile : string -> Files -> goresult string.
Variable ioutil_WriteFile : string -> string -> Files -> goresult Files.
Variable os_MkdirAll : string -> Files -> goresult Files.
Variable filepath_Dir : string -> string.
Variable yaml_Marshal : JobConfig -> Heap -> goresult string.

(** [CheckConfig] returns an error, [None] being nil. *)
Definition CheckConfig (cli : Client) (jobs : JobConfig) (currentConfigFile : string)
    (fs : Files) (h : Heap) : option string :=
  match ioutil_ReadFile currentConfigFile fs with
  | Err err =>
      Some ("failed to read current config for " +:+ currentConfigFile +:+ ": " +:+ err)
  | Ok current =>
      match yaml_Marshal jobs h with
      | Err err => Some ("failed to marshal result: " +:+ err)
      | Ok newConfig =>
          let output := Global_AutogenHeader (GlobalConfigOf cli) +:+ newConfig in
          if negb (String.eqb current output)
          then Some ("generated config is different than file " +:+ currentConfigFile)
          else None
      end
  end.

Definition WriteConfig (cli : Client) (jobs : JobConfig) (fname : string)
    (fs : Files) (h : Heap) : outcome Files :=
  match yaml_Marshal jobs h with
  | Err err => Exit ("failed to marshal result: " +:+ err)
  | Ok bs =>
      let dir := filepath_Dir fname in
      match os_MkdirAll dir fs with
      | Err err => Exit ("failed to create directory: " +:+ dir +:+ ": " +:+ err)
      | Ok fs =>
          let output := Global_AutogenHeader (GlobalConfigOf cli) +:+ bs in
          match ioutil_WriteFile fname output fs with
          | Err err => Exit ("failed to write result: " +:+ err)
          | Ok fs => Done fs
          end
      end
  end.

End Externals.

End ConfigFiles.

(** ** Package config: the report of the differences

    What the functions print is kept as the list of the calls of
    [fmt.Println], each with its arguments.  Go leaves the order in which
    [range] visits the keys of a map open; the order of each map is a
    variable here, and a map that is visited twice is taken to be visited
    in the same order both times. *)

Module ConfigDiff.
Import GoStrings Config.

Definition newline : string := String (ascii_of_nat 10) EmptyString.

Definition presubmitName (job : Presubmit) : string := JobBase_Name (Presubmit_JobBase job).

Definition postsubmitName (job : Postsubmit) : string :=
  JobBase_Name (Postsubmit_JobBase job).

Section Externals.

(** The values of a map in the order [range] visits them. *)
Variable rangePresubmits : gmap string (list Presubmit) -> list (list Presubmit).
Variable rangePostsubmits : gmap string (list Postsubmit) -> list (list Postsubmit).

(** [pretty.Diff] on two presubmits and on two postsubmits. *)
Variable pretty_DiffPresubmit : Presubmit -> Presubmit -> list string.
Variable pretty_DiffPostsubmit : Postsubmit -> Postsubmit -> list string.

Definition getPresubmit (c : JobConfig) (jobName : string) : option Presubmit :=
  List.find (fun job => String.eqb (presubmitName job) jobName)
            (concat (rangePresubmits (PresubmitsStatic c))).

(** The body of the first loop of [diffConfigPresubmit] (lines 499-511). *)
Definition diffPresubmit (pj : JobConfig) (job : Presubmit) : list (list string) :=
  match getPresubmit pj (presubmitName job) with
  | None => [[newline +:+ "Created unknown presubmit job"; presubmitName job]]
  | Some current =>
      let diff := pretty_DiffPresubmit current job in
      (if Nat.ltb 0 (List.length diff) then [[newline +:+ "Diff for"; presubmitName job]]
       else [])
      ++ map (fun d => [d]) diff
  end.

Definition diffConfigPresubmit (result pj : JobConfig) : list (list string) :=
  let resultJobs := concat (rangePresubmits (PresubmitsStatic result)) in
  let known : gset string := list_to_set (map presubmitName resultJobs) in
  flat_map (diffPresubmit pj) resultJobs
  ++ flat_map (fun job => if bool_decide (presubmitName job ∈ known) then []
                          else [["Missing"; presubmitName job]])
              (concat (rangePresubmits (PresubmitsStatic pj))).

(** The body of the second loop of [diffConfigPostsubmit]
    (lines 531-550). *)
Definition diffPostsubmit (allCurrentPostsubmits : list Postsubmit) (job : Postsubmit)
  : list (list string) :=
  match List.find (fun ps => String.eqb (postsubmitName ps) (postsubmitName job))
                  allCurrentPostsubmits with
  | None => [[newline +:+ "Created unknown job:"; postsubmitName job]]
  | Some current =>
      let diff := pretty_DiffPostsubmit current job in
      (if Nat.ltb 0 (List.length diff) then [[newline +:+ "Diff for"; postsubmitName job]]
       else [])
      ++ map (fun d => [d]) diff
  end.

Definition diffConfigPostsubmit (result pj : JobConfig) : list (list string) :=
  let allCurrentPostsubmits := concat (rangePostsubmits (PostsubmitsStatic pj)) in
  let resultJobs := concat (rangePostsubmits (PostsubmitsStatic result)) in
  let known : gset string := list_to_set (map postsubmitName resultJobs) in
  flat_map (diffPostsubmit allCurrentPostsubmits) resultJobs
  ++ flat_map (fun job => if bool_decide (postsubmitName job ∈ known) then []
                          else [["Missing"; postsubmitName job]])
              allCurrentPostsubmits.

Definition DiffConfig (cli : Client) (result existing : JobConfig) : list (list string) :=
  [["Presubmit diff:"]]
  ++ diffConfigPresubmit result existing
  ++ [[newline +:+ newline +:+ "Postsubmit diff:"]]
  ++ diffConfigPostsubmit result existing.

End Externals.

End ConfigDiff.

(** ** Instances of the library calls, to run the code on concrete inputs

    The theorems below hold for every implementation of the library calls
    the sections above take as variables.  The instances here are the ones
    the closed examples are run with. *)

Module Instances.
Import Config.

(** An overlay in the manner of [mergo.Merge] without options: a field of
    the destination is filled in when it is empty, a populated one is
    kept, and the keys a map lacks are added. *)
Definition fillMerge (dst src : PodSpec) : goresult PodSpec :=
  Ok (mkPodSpec
        (match PodSpec_Containers dst with [] => PodSpec_Containers src | cs => cs end)
        (match PodSpec_Volumes dst with [] => PodSpec_Volumes src | vs => vs end)
        (match PodSpec_NodeSelector dst, PodSpec_NodeSelector src with
         | Some d, Some s => Some (d ∪ s)
         | Some d, None => Some d
         | None, s => s
         end)
        (if String.eqb (PodSpec_ServiceAccountName dst) ""
         then PodSpec_ServiceAccountName src
         else PodSpec_ServiceAccountName dst)).

Definition dquote : string := String (ascii_of_nat 34) EmptyString.

Definition jsonString (s : string) : string := dquote +:+ s +:+ dquote.

Definition jsonObject (fields : list (string * string)) : string :=
  "{" +:+ GoStrings.Join (map (fun kv => jsonString kv.1 +:+ ":" +:+ jsonString kv.2) fields) ","
      +:+ "}".

(** The JSON text of a list of secrets whose strings need no escape. *)
Definition jsonSecrets (secrets : list Secret) : goresult string :=
  Ok ("[" +:+ GoStrings.Join (map (fun s => jsonObject (Secret_Fields s)) secrets) ","
          +:+ "]").

Definition clearAnnotations (req : RequirementPreset) : RequirementPreset :=
  mkRequirementPreset ∅ (Preset_Labels req) (Preset_Env req) (Preset_Args req)
    (Preset_Volumes req) (Preset_VolumeMounts req) (Preset_PodSpec req)
    (Preset_Secrets req).

(** A resolver for the config package: the one of the decorator package,
    on the labels and the pod specification alone. *)
Definition labelResolver (labels : gmap string string) (spec : option PodSpec)
    (presets : list RequirementPreset) : outcome (gmap string string * option PodSpec) :=
  obind (Decorator.resolveRequirements fillMerge None (Some labels) spec
           (map clearAnnotations presets))
        (fun r => Done (default ∅ r.1.2, r.2)).

(** A text form of a job that is printed and parsed back in full: the
    fields of the job as one S-expression.  As in the YAML of the source,
    the strings of the job stand in the text as they are, and a map that
    is empty is left out. *)
Definition JobTuple : Type :=
  (string * list string * list (string * string) * list string * option Z * list string
   * string * string * bool * string * string * string * Z * string
   * option (list (string * string)) * option (list (string * string))
   * option (list (string * string)) * string * list string * list string)%type.

Definition mapPairs (m : option (gmap string string)) : option (list (string * string)) :=
  match m with
  | Some m => if bool_decide (m = ∅) then None else Some (map_to_list m)
  | None => None
  end.

Definition pairsMap (l : option (list (string * string))) : option (gmap string string) :=
  list_to_map <$> l.

Definition jobToTuple (j : Job) : JobTuple :=
  (Job_Name j, Job_Command j, map (fun e => (EnvVar_Name e, EnvVar_Value e)) (Job_Env j),
   Job_Types j, Job_Timeout j, Job_Repos j, Job_Image j, Job_ImagePullPolicy j,
   Job_DisableReleaseBranching j, Job_Interval j, Job_Cron j, Job_Regex j,
   Job_MaxConcurrency j, Job_Cluster j, mapPairs (Job_NodeSelector j),
   mapPairs (Job_Annotations j), mapPairs (Job_Labels j), Job_Resources j,
   Job_Modifiers j, Job_Requirements j).

Definition tupleToJob (t : JobTuple) : Job :=
  let '(name, command, env, types, timeout, repos, image, policy, drb, interval, cron,
        regex, maxc, cluster, ns, ann, lab, res, mods, reqs) := t in
  mkJob name command (map (fun p => mkEnvVar p.1 p.2) env) types timeout repos image policy
        drb interval cron regex maxc cluster (pairsMap ns) (pairsMap ann) (pairsMap lab)
        res mods reqs.

Definition sexpMarshal (j : Job) : goresult string :=
  Ok (CeresSerialize.to_string (jobToTuple j)).

Definition sexpUnmarshal (s : string) : goresult Job :=
  match CeresDeserialize.from_string s with
  | inr t => Ok (tupleToJob t)
  | inl _ => Err "cannot parse the job"
  end.

Definition isDigit (c : ascii) : bool :=
  Nat.leb 48 (nat_of_ascii c) && Nat.leb (nat_of_ascii c) 57.

Fixpoint dropDigits (s : string) : string :=
  match s with
  | String c s' => if isDigit c then dropDigits s' else s
  | EmptyString => EmptyString
  end.

(** Durations of one segment, digits and a unit: a fragment of the
    grammar of [time.ParseDuration]. *)
Definition parseDuration (s : string) : goresult unit :=
  match s with
  | String c _ =>
      if isDigit c && bool_decide (dropDigits s ∈ ["ns"; "us"; "ms"; "s"; "m"; "h"])
      then Ok tt else Err ("time: invalid duration " +:+ s)
  | EmptyString => Err "time: invalid duration"
  end.

(** Schedules of five fields, none empty, and the descriptors that start
    with an at sign: a fragment of the grammar of [cron.Parse]. *)
Definition parseCron (s : string) : goresult unit :=
  let fields := GoStrings.Split s " " in
  if GoStrings.HasPrefix s "@" && negb (String.eqb s "@")
  then Ok tt
  else if Nat.eqb (List.length fields) 5
          && forallb (fun f => negb (String.eqb f "")) fields
  then Ok tt else Err "Expected 5 or 6 fields".

End Instances.

(** ** Definitions the statements are written with *)

Module MatrixSpec.
Import GoStrings Matrix.

(** The number of values of an axis, and the product of these numbers
    over a list of axes. *)
Definition axisSize (matrix : gmap string (list string)) (axis : string) : nat :=
  List.length (default [] (matrix !! axis)).

Definition axisProduct (matrix : gmap string (list string)) (combs : list string) : nat :=
  fold_right (fun c n => axisSize matrix c * n) 1 combs.

(** Every character of [s] is of the class of the pattern. *)
Fixpoint allVarChars (s : string) : bool :=
  match s with
  | EmptyString => true
  | String c s' => isVarChar c && allVarChars s'
  end.

(** The axes a template refers to, in the words of the specification
    (4.1): the distinct placeholders of the exact form
    [$(matrix.<identifier>)], in the order of their first appearance, whose
    identifier is a key of the axis map. *)
Definition referencedAxes (yamlStr : string) (matrix : gmap string (list string))
  : list string :=
  omap (fun exp => match dropPrefix "matrix." exp with
                   | Some axis => if bool_decide (is_Some (matrix !! axis)) then Some axis else None
                   | None => None
                   end)
       (getVarSubstitutionExpressions yamlStr).

(** The expressions of a template that are the name of an axis without
    the [matrix.] in front. *)
Definition bareAxes (yamlStr : string) (matrix : gmap string (list string)) : list string :=
  filter (fun exp => HasPrefix exp "matrix." = false ∧ is_Some (matrix !! exp))
         (getVarSubstitutionExpressions yamlStr).

(** A template that names the axis [arch] twice, once in the matrix
    namespace and once bare, as a shell substitution. *)
Definition archTemplate : string := "name: build-$(matrix.arch)-$(matrix.os), command: [sh, -c, echo $(arch)]".
Definition archMatrix : gmap string (list string) := <["arch" := ["amd64"; "arm64"]]> (<["os" := ["linux"]]> ∅).

End MatrixSpec.

Module DecoratorSpec.
Import Decorator.

Definition nameIs (name : string) (e : EnvVar) : bool := String.eqb (EnvVar_Name e) name.

Definition appendEnv (env : list EnvVar) (e1 : EnvVar) : list EnvVar :=
  if hasEnv (EnvVar_Name e1) env then env else env ++ [e1].

Definition declaredEnv (presets : list RequirementPreset) : list EnvVar :=
  flat_map Preset_Env presets.

Definition keepsContainers (mergo_Merge : PodSpec -> PodSpec -> goresult PodSpec) : Prop :=
  forall dst src dst', mergo_Merge dst src = Ok dst' ->
    exists extra, PodSpec_Containers dst' = PodSpec_Containers dst ++ extra.

End DecoratorSpec.

Module ConfigSpec.
Import GoStrings Matrix Config.

Definition clusterOverrides (c : string) : bool :=
  negb (String.eqb c "") && negb (String.eqb c "default").

Definition wfGlobal (g : GlobalConfig) (h : Heap) : Prop :=
  (forall l, Global_Annotations g = Some l -> l ∈ dom (strMaps h))
  /\ (forall l, Global_Labels g = Some l -> l ∈ dom (strMaps h)).

Definition globalStrMap (h : Heap) (r : option loc) : gmap string string :=
  match r with Some l => strMapAt h l | None => ∅ end.

(** [h'] has the string maps of [h], unchanged, and maybe new ones. *)
Definition extends (h h' : Heap) : Prop :=
  dom (strMaps h) ⊆ dom (strMaps h')
  /\ (forall l, l ∈ dom (strMaps h) -> strMapAt h' l = strMapAt h l)
  /\ resMaps h' = resMaps h /\ presetMaps h' = presetMaps h.

Definition tierNodeSelector (g : GlobalConfig) (jc : JobsConfig) (job : Job)
  : option (gmap string string) :=
  match Job_NodeSelector job with
  | Some m => Some m
  | None => match Jobs_NodeSelector jc with
            | Some m => Some m
            | None => Global_NodeSelector g
            end
  end.

Definition tierCluster (g : GlobalConfig) (jc : JobsConfig) (job : Job) : string :=
  if clusterOverrides (Job_Cluster job) then Job_Cluster job
  else if clusterOverrides (Jobs_Cluster jc) then Jobs_Cluster jc
  else if clusterOverrides (Global_Cluster g) then Global_Cluster g
  else "".

Definition precedence (glob group job : gmap string string) (k : string) : option string :=
  match job !! k with
  | Some v => Some v
  | None => match group !! k with
            | Some v => Some v
            | None => glob !! k
            end
  end.

(** The job without a node selector, and the job as it is but for a
    node selector that is declared and empty.  The field is tagged
    [omitempty] (line 138), and a job reaches [createJobBase] only as the
    text that [applyMatrixJob] has marshalled and parsed back (lines 291
    and 719-733). *)
Definition withoutNodeSelector (job : Job) : Job :=
  mkJob (Job_Name job) (Job_Command job) (Job_Env job) (Job_Types job)
    (Job_Timeout job) (Job_Repos job) (Job_Image job) (Job_ImagePullPolicy job)
    (Job_DisableReleaseBranching job) (Job_Interval job) (Job_Cron job)
    (Job_Regex job) (Job_MaxConcurrency job) (Job_Cluster job)
    None (Job_Annotations job) (Job_Labels job)
    (Job_Resources job) (Job_Modifiers job) (Job_Requirements job).

Definition dropEmptySelector (job : Job) : Job :=
  if bool_decide (Job_NodeSelector job = Some ∅) then withoutNodeSelector job else job.

(** A marshaller leaves an empty node selector out: the text of the job
    is that of the job without one. *)
Definition omitsEmptySelector (yaml_Marshal : Job -> goresult string) (job : Job) : Prop :=
  Job_NodeSelector job = Some ∅ -> yaml_Marshal job = yaml_Marshal (withoutNodeSelector job).

(** The job group with other jobs. *)
Definition withJobs (jc : JobsConfig) (jobs : list Job) : JobsConfig :=
  mkJobsConfig jobs (Jobs_Repo jc) (Jobs_Org jc) (Jobs_Branches jc)
    (Jobs_Matrix jc) (Jobs_Env jc) (Jobs_Image jc) (Jobs_ImagePullPolicy jc)
    (Jobs_SupportReleaseBranching jc) (Jobs_Cluster jc) (Jobs_NodeSelector jc)
    (Jobs_Annotations jc) (Jobs_Labels jc) (Jobs_Resources jc) (Jobs_Requirements jc)
    (Jobs_RequirementPresets jc).

Definition wellFormedRepo (repo : string) : bool :=
  Nat.leb 2 (List.length (Split (hd "" (Split repo "@")) "/")).

Definition branchSuffix (branch : string) : string :=
  if String.eqb branch "master" then "" else "_" +:+ branch.

Definition presubmitNames (l : list Presubmit) : list string :=
  map (fun p => JobBase_Name (Presubmit_JobBase p)) l.

Definition postsubmitNames (l : list Postsubmit) : list string :=
  map (fun p => JobBase_Name (Postsubmit_JobBase p)) l.

Definition periodicNames (l : list Periodic) : list string :=
  map (fun p => JobBase_Name (Periodic_JobBase p)) l.

Definition presubmitsOf (jobsConfig : JobsConfig) (out : JobConfig) : list Presubmit :=
  default [] (PresubmitsStatic out !! (Jobs_Org jobsConfig +:+ "/" +:+ Jobs_Repo jobsConfig)).

Definition postsubmitsOf (jobsConfig : JobsConfig) (out : JobConfig) : list Postsubmit :=
  default [] (PostsubmitsStatic out !! (Jobs_Org jobsConfig +:+ "/" +:+ Jobs_Repo jobsConfig)).

Section ExpandJobs.
Variable yaml_Marshal : Job -> goresult string.
Variable yaml_Unmarshal : string -> goresult Job.

(** The expanded jobs of all the jobs of a group, in the order of the
    two loops of [ConvertJobConfig]. *)
Fixpoint expandJobs (jobs : list Job) (matrix : gmap string (list string))
  : outcome (list Job) :=
  match jobs with
  | [] => Done []
  | parentJob :: rest =>
      obind (applyMatrixJob yaml_Marshal yaml_Unmarshal parentJob matrix) (fun e =>
      obind (expandJobs rest matrix) (fun r => Done (e ++ r)))
  end.
End ExpandJobs.

Definition expectedNames (jc : JobsConfig) (branch : string) (sel : Job -> bool)
    (suffix : string) (jobs : list Job) : list string :=
  map (fun job => jobName job jc branch suffix) (List.filter sel jobs).

(** The lists [acc'] holds are those of [acc] with the descriptors of the
    jobs [jobs] after them. *)
Definition grows (jc : JobsConfig) (branch : string) (jobs : list Job)
    (acc acc' : list Presubmit * list Postsubmit * list Periodic) : Prop :=
  (exists ps, acc'.1.1 = acc.1.1 ++ ps
      /\ presubmitNames ps = expectedNames jc branch selectsPresubmit "" jobs)
  /\ (exists ps, acc'.1.2 = acc.1.2 ++ ps
      /\ postsubmitNames ps = expectedNames jc branch selectsPostsubmit "_postsubmit" jobs)
  /\ (exists ps, acc'.2 = acc.2 ++ ps
      /\ periodicNames ps = expectedNames jc branch selectsPeriodic "_periodic" jobs).

Definition reposWellFormed (job : Job) : Prop :=
  Forall (fun r => wellFormedRepo r = true) (Job_Repos job).

(** The output holds the three lists of the accumulator. *)
Definition stored (jc : JobsConfig)
    (st : list Presubmit * list Postsubmit * list Periodic * JobConfig) : Prop :=
  presubmitsOf jc st.2 = st.1.1.1 /\ postsubmitsOf jc st.2 = st.1.1.2
  /\ Periodics st.2 = st.1.2.

End ConfigSpec.

(** ** Inputs of the closed examples *)

Module Samples.
Import GoStrings Matrix Config Instances ConfigSpec.

Definition blankJob (name : string) (types : list string) : Job :=
  mkJob name ["make"; "test"] [] types None [] "" "" false "" "" "" 0 "" None None None ""
        [] [].

Definition withSchedule (job : Job) (cron interval : string) : Job :=
  mkJob (Job_Name job) (Job_Command job) (Job_Env job) (Job_Types job)
    (Job_Timeout job) (Job_Repos job) (Job_Image job) (Job_ImagePullPolicy job)
    (Job_DisableReleaseBranching job) interval cron
    (Job_Regex job) (Job_MaxConcurrency job) (Job_Cluster job)
    (Job_NodeSelector job) (Job_Annotations job) (Job_Labels job)
    (Job_Resources job) (Job_Modifiers job) (Job_Requirements job).

Definition withCommand (job : Job) (command : list string) : Job :=
  mkJob (Job_Name job) command (Job_Env job) (Job_Types job)
    (Job_Timeout job) (Job_Repos job) (Job_Image job) (Job_ImagePullPolicy job)
    (Job_DisableReleaseBranching job) (Job_Interval job) (Job_Cron job)
    (Job_Regex job) (Job_MaxConcurrency job) (Job_Cluster job)
    (Job_NodeSelector job) (Job_Annotations job) (Job_Labels job)
    (Job_Resources job) (Job_Modifiers job) (Job_Requirements job).

Definition withTiers (job : Job) (cluster : string)
    (nodeSelector annotations labels : option (gmap string string)) : Job :=
  mkJob (Job_Name job) (Job_Command job) (Job_Env job) (Job_Types job)
    (Job_Timeout job) (Job_Repos job) (Job_Image job) (Job_ImagePullPolicy job)
    (Job_DisableReleaseBranching job) (Job_Interval job) (Job_Cron job)
    (Job_Regex job) (Job_MaxConcurrency job) cluster
    nodeSelector annotations labels
    (Job_Resources job) (Job_Modifiers job) (Job_Requirements job).

Definition group (jobs : list Job) (branches : list string)
    (matrix : gmap string (list string)) : JobsConfig :=
  mkJobsConfig jobs "myrepo" "myorg" branches matrix [] "gcr.io/build:latest" "" false ""
               None None None None [] None.

Definition withGroupTiers (jc : JobsConfig) (cluster : string)
    (nodeSelector annotations labels : option (gmap string string)) : JobsConfig :=
  mkJobsConfig (Jobs_Jobs jc) (Jobs_Repo jc) (Jobs_Org jc) (Jobs_Branches jc)
    (Jobs_Matrix jc) (Jobs_Env jc) (Jobs_Image jc) (Jobs_ImagePullPolicy jc)
    (Jobs_SupportReleaseBranching jc) cluster nodeSelector annotations labels
    (Jobs_Resources jc) (Jobs_Requirements jc) (Jobs_RequirementPresets jc).

Definition withStores (jc : JobsConfig) (resources presets : option loc) : JobsConfig :=
  mkJobsConfig (Jobs_Jobs jc) (Jobs_Repo jc) (Jobs_Org jc) (Jobs_Branches jc)
    (Jobs_Matrix jc) (Jobs_Env jc) (Jobs_Image jc) (Jobs_ImagePullPolicy jc)
    (Jobs_SupportReleaseBranching jc) (Jobs_Cluster jc) (Jobs_NodeSelector jc)
    (Jobs_Annotations jc) (Jobs_Labels jc) resources (Jobs_Requirements jc) presets.

(** A global configuration with nothing set. *)
Definition plainGlobal : GlobalConfig :=
  mkGlobalConfig DefaultAutogenHeader ∅ "" None (mkTestgridConfig false "" "") None None
                 None [] None.

Definition withGlobalTiers (g : GlobalConfig) (cluster : string)
    (nodeSelector : option (gmap string string)) (annotations labels : option loc)
  : GlobalConfig :=
  mkGlobalConfig (Global_AutogenHeader g) (Global_PathAliases g) cluster nodeSelector
    (Global_TestgridConfig g) annotations labels (Global_Resources g)
    (Global_BaseRequirements g) (Global_RequirementPresets g).

(** The jobs of the naming example of the specification. *)
Definition unitTest : Job := blankJob "unit-test" [].

Definition nightly : Job :=
  withSchedule (blankJob "nightly" [TypePeriodic]) "0 3 * * *" "".

(** One job whose command, not its name, takes the value of an axis. *)
Definition lint : Job := withCommand (blankJob "lint" [TypePresubmit])
                                     ["make"; "lint-$(matrix.go)"].

Definition goMatrix : gmap string (list string) := {["go" := ["1.14"; "1.15"]]}.

(** The precedence example of the specification: the global annotations
    at location 0 of the store. *)
Definition tierHeap : Heap := mkHeap {[0 := {["a" := "1"]}]} ∅ ∅.

Definition tierGlobal : GlobalConfig :=
  withGlobalTiers plainGlobal "" (Some {["pool" := "build"]}) (Some 0) None.

Definition tierGroup : JobsConfig :=
  withGroupTiers (group [] ["master"] ∅) "" None
                 (Some (<["a" := "2"]> {["b" := "2"]})) None.

Definition tierJob : Job :=
  withTiers unitTest "" None (Some {["b" := "3"]}) None.

(** A job group that declares an empty node selector. *)
Definition emptySelectorGroup : JobsConfig :=
  withGroupTiers (group [] ["master"] ∅) "" (Some ∅) None None.

(** A job that declares an empty node selector. *)
Definition emptySelectorJob : Job := withTiers unitTest "" (Some ∅) None None.

(** A global configuration with testgrid on, one resource profile, one
    preset, and a base requirement that no preset defines. *)
Definition sharedHeap : Heap :=
  mkHeap {[0 := {["owner" := "infra"]}]}
         {[0 := {["default" := mkResourceRequirements {["cpu" := 1000%Z]} ∅]};
           1 := {["large" := mkResourceRequirements {["cpu" := 8000%Z]} ∅]}]}
         {[0 := {["docker" := mkRequirementPreset ∅ {["docker" := "true"]} [] [] [] [] None []]}]}.

Definition sharedGlobal : GlobalConfig :=
  mkGlobalConfig DefaultAutogenHeader ∅ "" None
    (mkTestgridConfig true "oncall@example.com" "3") (Some 0) None (Some 0)
    ["ghost"] (Some 0).

(** The unmarshalled document of a job group with a resource profile of
    its own. *)
Definition sharedDocument : JobsConfig :=
  withStores (group [unitTest] [] ∅) (Some 1) None.

(** A pod specification of one container that has a variable of its
    own, and presets of which two declare [X]. *)
Definition buildContainer : Container :=
  mkContainer "gcr.io/build:latest" "" ["make"] [] [mkEnvVar "HOME" "/root"] []
              zeroResources (Some true).

Definition buildSpec : PodSpec := mkPodSpec [buildContainer] [] None "".

Definition presetOne : RequirementPreset :=
  mkRequirementPreset ∅ ∅ [mkEnvVar "X" "1"] [] [] [] None [].

Definition presetTwo : RequirementPreset :=
  mkRequirementPreset ∅ ∅ [mkEnvVar "X" "2"; mkEnvVar "HOME" "/tmp"] [] [] [] None [].

Definition secretPreset : RequirementPreset :=
  mkRequirementPreset ∅ ∅ [] [] [] [] None
    [mkSecret [("name", "github-token"); ("project", "build-infra")]].

Definition secretJob : Decorator.JobBase :=
  Decorator.mkJobBase (Some ∅) (Some ∅) (Some buildSpec).

Definition sidecarJob : Decorator.JobBase :=
  Decorator.mkJobBase (Some ∅) (Some ∅)
    (Some (mkPodSpec [buildContainer; buildContainer] [] None "")).

(** A periodic job with both a cron schedule and an interval. *)
Definition clash : Job :=
  withSchedule (blankJob "clash" [TypePeriodic]) "0 3 * * *" "24h".

Definition scheduleGroup : JobsConfig := group [nightly; clash] ["master"] ∅.

(** The naming example of the specification on a release branch. *)
Definition namingGroup : JobsConfig :=
  group [unitTest; nightly] ["master"; "release-1.2"] ∅.

Definition lintGroup : JobsConfig := group [lint] ["master"] goMatrix.

Definition nightlyGroup : JobsConfig := group [nightly] ["master"; "release-1.2"] ∅.

(** A job that declares the cluster ["default"] in a group that sets one. *)
Definition clusterGroup : JobsConfig :=
  withGroupTiers (group [] ["master"] ∅) "build-cluster" None None None.

Definition defaultClusterJob : Job := withTiers unitTest "default" None None None.

(** [ConvertJobConfig] with the instances of the library calls. *)
Definition compile : Client -> JobsConfig -> string -> M JobConfig :=
  ConvertJobConfig sexpMarshal sexpUnmarshal labelResolver.

End Samples.

(** ** More definitions the statements are written with *)

Module ExpansionSpec.
Import GoStrings Matrix.

(** The number of times the character [c] stands in [s]. *)
Fixpoint countChar (c : ascii) (s : string) : nat :=
  match s with
  | EmptyString => 0
  | String d s' => (if Ascii.eqb c d then 1 else 0) + countChar c s'
  end.

(** The templates of a list of axes, the values of the first axis
    changing slowest. *)
Fixpoint expansions (matrix : gmap string (list string)) (combs : list string)
    (dest : string) : list string :=
  match combs with
  | [] => [dest]
  | c :: combs' =>
      flat_map (fun v => expansions matrix combs' (replace dest c v))
               (default [] (matrix !! c))
  end.

(** A template without any placeholder, and one with a shell substitution
    that names no axis. *)
Definition plainTemplate : string := "name: unit-test, command: [make, test]".
Definition shellTemplate : string := "name: unit-test, command: [sh, -c, echo $(date)]".

(** A template over two axes. *)
Definition osArchTemplate : string := "name: build-$(matrix.os)-$(matrix.arch)".
Definition osArchMatrix : gmap string (list string) :=
  <["os" := ["linux"; "darwin"]]> (<["arch" := ["amd64"; "arm64"]]> ∅).

End ExpansionSpec.
Module ValidationSpec.
Import GoStrings Config ExpansionSpec.

(** The part of [s] before the first [c]. *)
Fixpoint beforeChar (c : ascii) (s : string) : string :=
  match s with
  | EmptyString => EmptyString
  | String d s' => if Ascii.eqb c d then EmptyString else String d (beforeChar c s')
  end.

Section Parsers.
Variable cron_Parse : string -> goresult unit.
Variable time_ParseDuration : string -> goresult unit.

(** A periodic job has one of the two schedules, and the parser of that
    one takes it. *)
Definition scheduleAccepted (job : Job) : Prop :=
  (Job_Cron job <> "" /\ Job_Interval job = ""
   /\ exists u, cron_Parse (Job_Cron job) = Ok u)
  \/ (Job_Cron job = "" /\ Job_Interval job <> ""
      /\ exists u, time_ParseDuration (Job_Interval job) = Ok u).

Definition jobAccepted (resources : gmap string ResourceRequirements)
    (presets : gmap string RequirementPreset) (job : Job) : Prop :=
  (Job_Resources job = "" \/ is_Some (resources !! Job_Resources job))
  /\ Forall (fun m => m ∈ [ModifierHidden; ModifierOptional; ModifierSkipped])
            (Job_Modifiers job)
  /\ Forall (fun r => is_Some (presets !! r)) (Job_Requirements job)
  /\ (TypePeriodic ∈ Job_Types job -> scheduleAccepted job)
  /\ Forall (fun t => t ∈ [TypePostsubmit; TypePresubmit; TypePeriodic]) (Job_Types job)
  /\ Forall (fun repo => countChar "/" repo = 1) (Job_Repos job).

Definition groupAccepted (jobsConfig : JobsConfig) (h : Heap) : Prop :=
  Jobs_Image jobsConfig <> ""
  /\ Forall (fun r => is_Some (presetMapAt h (Jobs_RequirementPresets jobsConfig) !! r))
            (Jobs_Requirements jobsConfig)
  /\ Forall (jobAccepted (resMapAt h (Jobs_Resources jobsConfig))
                         (presetMapAt h (Jobs_RequirementPresets jobsConfig)))
            (Jobs_Jobs jobsConfig).

End Parsers.

(** The text of an extra repository, and the reference it stands for. *)
Definition repoText (org repo : string) (branch : option string) : string :=
  org +:+ "/" +:+ repo
  +:+ match branch with Some b => "@" +:+ b | None => "" end.

Definition refOf (defaultBranch : string) (pathAliases : gmap string string)
    (org repo : string) (branch : option string) : Refs :=
  mkRefs org repo (default defaultBranch branch)
         (match pathAliases !! org with
          | Some pa => pa +:+ "/" +:+ repo
          | None => ""
          end).

(** Neither a slash nor an at sign. *)
Definition plainWord (s : string) : Prop :=
  countChar "/" s = 0 /\ countChar "@" s = 0.

Definition plainRepo (spec : string * string * option string) : Prop :=
  plainWord spec.1.1 /\ plainWord spec.1.2
  /\ match spec.2 with Some b => countChar "@" b = 0 | None => True end.

End ValidationSpec.
Module CompileSpec.
Import GoStrings Matrix Config ConfigSpec.

(** The prefix of the testgrid dashboards of a job group on a branch
    (lines 298-302). *)
Definition testgridPrefix (jobsConfig : JobsConfig) (branch : string) : string :=
  (if negb (String.eqb branch "master") then Jobs_Org jobsConfig +:+ "_" +:+ branch
   else Jobs_Org jobsConfig) +:+ "_" +:+ Jobs_Repo jobsConfig.

(** [h'] has the maps of [h]; of the string maps of [h], only the
    annotations and the labels of the global configuration may have
    changed. *)
Definition keepsStore (g : GlobalConfig) (h h' : Heap) : Prop :=
  dom (strMaps h) ⊆ dom (strMaps h')
  /\ (forall l, l ∈ dom (strMaps h) ->
                Global_Annotations g <> Some l -> Global_Labels g <> Some l ->
                strMapAt h' l = strMapAt h l)
  /\ resMaps h' = resMaps h /\ presetMaps h' = presetMaps h.

(** The job base with the path alias of the organisation, when it has
    one (lines 322-324 and 350-352). *)
Definition withOrgAlias (g : GlobalConfig) (jobsConfig : JobsConfig) (jb : JobBase)
  : JobBase :=
  match Global_PathAliases g !! Jobs_Org jobsConfig with
  | Some pa => setPathAlias jb (pa +:+ "/" +:+ Jobs_Repo jobsConfig)
  | None => jb
  end.

(** The job a periodic is built from (lines 376-378). *)
Definition withOwnRepo (jobsConfig : JobsConfig) (job : Job) : Job :=
  if Nat.eqb (List.length (Job_Repos job)) 0
  then setRepos job [Jobs_Org jobsConfig +:+ "/" +:+ Jobs_Repo jobsConfig]
  else job.




Section Compiled.
Variable resolveRequirements :
  gmap string string -> option PodSpec -> list RequirementPreset ->
  outcome (gmap string string * option PodSpec).
Variable g : GlobalConfig.
Variable jobsConfig : JobsConfig.
Variable branch : string.

(** [p] is what the code compiles for [job], in some store. *)
Definition presubmitOf (p : Presubmit) (job : Job) : Prop :=
  exists h h',
    compilePresubmit resolveRequirements g jobsConfig branch job
      (jobRequirements g jobsConfig job) (testgridPrefix jobsConfig branch) h = Done (p, h').

Definition postsubmitOf (p : Postsubmit) (job : Job) : Prop :=
  exists h h',
    compilePostsubmit resolveRequirements g jobsConfig branch job
      (jobRequirements g jobsConfig job) (testgridPrefix jobsConfig branch) h = Done (p, h').

Definition periodicOf (p : Periodic) (job : Job) : Prop :=
  exists h h',
    compilePeriodic resolveRequirements g jobsConfig branch job
      (jobRequirements g jobsConfig job) (testgridPrefix jobsConfig branch) h = Done (p, h').

(** The lists of [acc'] are those of [acc] with, after them, one
    descriptor for each of the jobs [jobs] that selects the kind. *)
Definition tracks (jobs : list Job)
    (acc acc' : list Presubmit * list Postsubmit * list Periodic) : Prop :=
  (exists ps, acc'.1.1 = acc.1.1 ++ ps
      /\ Forall2 presubmitOf ps (List.filter selectsPresubmit jobs))
  /\ (exists ps, acc'.1.2 = acc.1.2 ++ ps
      /\ Forall2 postsubmitOf ps (List.filter selectsPostsubmit jobs))
  /\ (exists ps, acc'.2 = acc.2 ++ ps
      /\ Forall2 periodicOf ps (List.filter selectsPeriodic jobs)).

End Compiled.

(** The output holds the lists of the accumulator under the one key of
    the job group, and no key for an empty list. *)
Definition outputOf (jobsConfig : JobsConfig)
    (acc : list Presubmit * list Postsubmit * list Periodic) : JobConfig :=
  let key := Jobs_Org jobsConfig +:+ "/" +:+ Jobs_Repo jobsConfig in
  mkJobConfig (match acc.1.1 with [] => ∅ | l => {[key := l]} end)
              (match acc.1.2 with [] => ∅ | l => {[key := l]} end)
              acc.2.

(** The resolver that is handed zero presets whatever the names. *)
Definition onZeroPresets
    (resolveRequirements : gmap string string -> option PodSpec ->
                           list RequirementPreset ->
                           outcome (gmap string string * option PodSpec))
    (labels : gmap string string) (spec : option PodSpec)
    (presets : list RequirementPreset) : outcome (gmap string string * option PodSpec) :=
  resolveRequirements labels spec (map (fun _ => zeroPreset) presets).

End CompileSpec.
Module OverlaySpec.
Import Decorator DecoratorSpec.

Definition pathIs (path : string) (vm : VolumeMount) : bool :=
  String.eqb (VolumeMount_MountPath vm) path.

Definition volumeIs (name : string) (v : Volume) : bool :=
  String.eqb (Volume_Name v) name.

Definition appendMount (vms : list VolumeMount) (vm1 : VolumeMount) : list VolumeMount :=
  if hasMount (VolumeMount_MountPath vm1) vms then vms else vms ++ [vm1].

(** One preset laid over one container. *)
Definition overlayContainer (req : RequirementPreset) (c : Container) : Container :=
  mkContainer (Container_Image c) (Container_ImagePullPolicy c) (Container_Command c)
    (Container_Args c ++ Preset_Args req)
    (fold_left appendEnv (Preset_Env req) (Container_Env c))
    (fold_left appendMount (Preset_VolumeMounts req) (Container_VolumeMounts c))
    (Container_Resources c) (Container_Privileged c).

(** The presets of a list as one preset: the lists one after the other,
    the maps with the entries of a later preset over those of an earlier
    one. *)
Definition joinPresets (presets : list RequirementPreset) : RequirementPreset :=
  mkRequirementPreset
    (fold_left (fun m req => Preset_Annotations req ∪ m) presets ∅)
    (fold_left (fun m req => Preset_Labels req ∪ m) presets ∅)
    (flat_map Preset_Env presets) (flat_map Preset_Args presets)
    (flat_map Preset_Volumes presets) (flat_map Preset_VolumeMounts presets)
    None (flat_map Preset_Secrets presets).

(** The value the last preset that declares [k] gives it. *)
Definition lastDeclared (field : RequirementPreset -> gmap string string)
    (presets : list RequirementPreset) (k : string) : option string :=
  fold_left (fun acc req => match field req !! k with Some v => Some v | None => acc end)
            presets None.

(** No preset of the list has a partial pod specification. *)
Definition overlayFree (presets : list RequirementPreset) : Prop :=
  Forall (fun req => Preset_PodSpec req = None) presets.

End OverlaySpec.
Module ReportSpec.
Import GoStrings Config ConfigDiff.

(** [range] visits each value of the map once, in some order. *)
Definition visitsValues {V} (range : gmap string (list V) -> list (list V)) : Prop :=
  forall m, Permutation (range m) (map snd (map_to_list m)).

(** The configuration holds a presubmit, or a postsubmit, of this
    name. *)
Definition holdsPresubmit (c : JobConfig) (name : string) : Prop :=
  exists key jobs job,
    PresubmitsStatic c !! key = Some jobs /\ job ∈ jobs /\ presubmitName job = name.

Definition holdsPostsubmit (c : JobConfig) (name : string) : Prop :=
  exists key jobs job,
    PostsubmitsStatic c !! key = Some jobs /\ job ∈ jobs /\ postsubmitName job = name.

(** A file system that is a map from paths to contents, in which every
    directory can be made and every file written. *)
Definition mapRead (path : string) (fs : gmap string string) : goresult string :=
  match fs !! path with
  | Some content => Ok content
  | None => Err ("open " +:+ path +:+ ": no such file or directory")
  end.

Definition mapWrite (path content : string) (fs : gmap string string)
  : goresult (gmap string string) :=
  Ok (<[path := content]> fs).

Definition mapMkdirAll (path : string) (fs : gmap string string)
  : goresult (gmap string string) := Ok fs.

(** The directory of a path whose directory is ["jobs"]. *)
Definition jobsDir (path : string) : string := "jobs".

(** A text of a compiled configuration: the names of its periodics. *)
Definition periodicsText (jobs : JobConfig) (h : Heap) : goresult string :=
  Ok (Join (map (fun p => JobBase_Name (Periodic_JobBase p)) (Periodics jobs)) ",").

(** The visit of a map in the order of its keys, and a difference that
    is the two names when the cluster differs. *)
Definition inKeyOrder {V} (m : gmap string (list V)) : list (list V) :=
  map snd (map_to_list m).

Definition clusterDiffPresubmit (a b : Presubmit) : list string :=
  if String.eqb (JobBase_Cluster (Presubmit_JobBase a)) (JobBase_Cluster (Presubmit_JobBase b))
  then []
  else ["Cluster: " +:+ JobBase_Cluster (Presubmit_JobBase a) +:+ " != "
          +:+ JobBase_Cluster (Presubmit_JobBase b)].

Definition clusterDiffPostsubmit (a b : Postsubmit) : list string :=
  if String.eqb (JobBase_Cluster (Postsubmit_JobBase a))
                (JobBase_Cluster (Postsubmit_JobBase b))
  then []
  else ["Cluster: " +:+ JobBase_Cluster (Postsubmit_JobBase a) +:+ " != "
          +:+ JobBase_Cluster (Postsubmit_JobBase b)].

End ReportSpec.
(** ** More inputs of the closed examples *)

Module MoreSamples.
Import GoStrings Matrix Config Instances ConfigSpec Samples.

Definition withTriggers (job : Job) (regex : string) (modifiers : list string) : Job :=
  mkJob (Job_Name job) (Job_Command job) (Job_Env job) (Job_Types job)
    (Job_Timeout job) (Job_Repos job) (Job_Image job) (Job_ImagePullPolicy job)
    (Job_DisableReleaseBranching job) (Job_Interval job) (Job_Cron job)
    regex (Job_MaxConcurrency job) (Job_Cluster job)
    (Job_NodeSelector job) (Job_Annotations job) (Job_Labels job)
    (Job_Resources job) modifiers (Job_Requirements job).

Definition withContainer (job : Job) (image : string) (env : list EnvVar)
    (resources : string) : Job :=
  mkJob (Job_Name job) (Job_Command job) env (Job_Types job)
    (Job_Timeout job) (Job_Repos job) image (Job_ImagePullPolicy job)
    (Job_DisableReleaseBranching job) (Job_Interval job) (Job_Cron job)
    (Job_Regex job) (Job_MaxConcurrency job) (Job_Cluster job)
    (Job_NodeSelector job) (Job_Annotations job) (Job_Labels job)
    resources (Job_Modifiers job) (Job_Requirements job).

Definition withRequirements (job : Job) (requirements : list string) : Job :=
  mkJob (Job_Name job) (Job_Command job) (Job_Env job) (Job_Types job)
    (Job_Timeout job) (Job_Repos job) (Job_Image job) (Job_ImagePullPolicy job)
    (Job_DisableReleaseBranching job) (Job_Interval job) (Job_Cron job)
    (Job_Regex job) (Job_MaxConcurrency job) (Job_Cluster job)
    (Job_NodeSelector job) (Job_Annotations job) (Job_Labels job)
    (Job_Resources job) (Job_Modifiers job) requirements.

Definition withGroupEnv (jc : JobsConfig) (env : list EnvVar) : JobsConfig :=
  mkJobsConfig (Jobs_Jobs jc) (Jobs_Repo jc) (Jobs_Org jc) (Jobs_Branches jc)
    (Jobs_Matrix jc) env (Jobs_Image jc) (Jobs_ImagePullPolicy jc)
    (Jobs_SupportReleaseBranching jc) (Jobs_Cluster jc) (Jobs_NodeSelector jc)
    (Jobs_Annotations jc) (Jobs_Labels jc) (Jobs_Resources jc) (Jobs_Requirements jc)
    (Jobs_RequirementPresets jc).

(** A presubmit and postsubmit job that runs on changes under [docs/]
    and has the three modifiers. *)
Definition docsJob : Job :=
  withTriggers (blankJob "docs" [TypePresubmit; TypePostsubmit]) "^docs/"
               [ModifierOptional; ModifierHidden; ModifierSkipped].

Definition triggerGroup : JobsConfig := group [unitTest; docsJob] ["master"] ∅.

(** A job whose extra repository has its slash after the at sign. *)
Definition strayRepoJob : Job :=
  setRepos (blankJob "integ" [TypePresubmit]) ["myorg@main/tools"].

Definition strayRepoGroup : JobsConfig := group [strayRepoJob] ["master"] ∅.

(** A job group that declares the preset [docker] itself, read under a
    global configuration without presets. *)
Definition dockerPreset : RequirementPreset :=
  mkRequirementPreset ∅ {["docker" := "true"]} [] [] [] [] None [].

Definition groupPresetHeap : Heap := mkHeap ∅ ∅ {[0 := {["docker" := dockerPreset]}]}.

Definition dockerJob : Job :=
  withRequirements (blankJob "image" [TypePresubmit]) ["docker"].

Definition groupPresetDocument : JobsConfig :=
  withStores (group [dockerJob] ["master"] ∅) None (Some 0).

(** What [ReadJobConfig] makes of this document and this store: new
    maps at the locations 0 and 1. *)
Definition groupPresetRead : JobsConfig :=
  withStores (group [dockerJob] ["master"] ∅) (Some 0) (Some 1).

Definition groupPresetReadHeap : Heap :=
  mkHeap ∅ {[0 := ∅]}
         (<[1 := {["docker" := dockerPreset]}]> {[0 := {["docker" := dockerPreset]}]}).

(** Extra repositories, one with a branch and a path alias. *)
Definition repoSpecs : list (string * string * option string) :=
  [("kubernetes", "test-infra", None); ("istio", "proxy", Some "release-1.8")].

Definition istioAlias : gmap string string := {["istio" := "istio.io"]}.

(** A store with the annotations of the global configuration at
    location 0 and a map of another owner at location 1. *)
Definition twoMapHeap : Heap :=
  mkHeap (<[0 := {["owner" := "infra"]}]> {[1 := {["team" := "build"]}]}) ∅ ∅.

Definition testgridGlobal : GlobalConfig :=
  mkGlobalConfig DefaultAutogenHeader ∅ "" None
    (mkTestgridConfig true "oncall@example.com" "3") (Some 0) None None [] None.

(** A job with a variable that the job group declares as well. *)
Definition envJob : Job :=
  withContainer unitTest "" [mkEnvVar "GOFLAGS" "-mod=vendor"] "".

Definition envGroup : JobsConfig :=
  withGroupEnv (group [envJob] ["master"] ∅)
               [mkEnvVar "GOFLAGS" "-mod=mod"; mkEnvVar "CI" "true"].

(** Presets with arguments, mounts and volumes; the second mounts the
    path and names the volume of the first again. *)
Definition cachePreset : RequirementPreset :=
  mkRequirementPreset {["owner" := "cache"]} {["cache" := "on"]} [] ["--cache"]
    [mkVolume "cache" "emptyDir"] [mkVolumeMount "cache" "/cache"] None [].

Definition scratchPreset : RequirementPreset :=
  mkRequirementPreset {["owner" := "scratch"]} ∅ [] ["--verbose"]
    [mkVolume "cache" "hostPath"; mkVolume "scratch" "emptyDir"]
    [mkVolumeMount "scratch" "/cache"; mkVolumeMount "scratch" "/tmp"] None [].

(** Descriptors of a name and a cluster, and two configurations of
    which the first has [a] and [b], the second [b] and [c]. *)
Definition descriptor (name cluster : string) : JobBase :=
  mkJobBase name 0 None (mkUtilityConfig None "" [] None) 0 0 cluster.

Definition presubmitNamed (name cluster : string) : Presubmit :=
  mkPresubmit (descriptor name cluster) true false false [] "".

Definition postsubmitNamed (name cluster : string) : Postsubmit :=
  mkPostsubmit (descriptor name cluster) [] "" false.

Definition newerConfig : JobConfig :=
  mkJobConfig {["myorg/myrepo" := [presubmitNamed "a" ""; presubmitNamed "b" "build"]]}
              {["myorg/myrepo" := [postsubmitNamed "a_postsubmit" ""]]} [].

Definition olderConfig : JobConfig :=
  mkJobConfig {["myorg/myrepo" := [presubmitNamed "b" ""; presubmitNamed "c" ""]]}
              {["myorg/myrepo" := [postsubmitNamed "c_postsubmit" ""]]} [].

End MoreSamples.

(** ** Facts on strings *)

Module StringFacts.

Lemma string_app_cons x (a b : string) : String x a +:+ b = String x (a +:+ b).
Proof. reflexivity. Qed.

Lemma string_app_assoc (a b c : string) : (a +:+ b) +:+ c = a +:+ (b +:+ c).
Proof.
  induction a as [|x a IH]; [done|]. rewrite !string_app_cons. f_equal. exact IH.
Qed.

Lemma string_length_app (a b : string) :
  String.length (a +:+ b) = String.length a + String.length b.
Proof.
  induction a as [|x a IH]; [done|]. rewrite string_app_cons. simpl. f_equal. exact IH.
Qed.

Lemma string_app_inj_r (a b c : string) : a +:+ c = b +:+ c -> a = b.
Proof.
  revert b. induction a as [|x a IH]; intros [|y b] H.
  - done.
  - apply (f_equal String.length) in H. rewrite !string_length_app in H. simpl in H. lia.
  - apply (f_equal String.length) in H. rewrite !string_length_app in H. simpl in H. lia.
  - rewrite !string_app_cons in H. injection H as -> H. by rewrite (IH b H).
Qed.

End StringFacts.

(** ** The string functions on the examples of their documentation *)

Module GoStringsExamples.
Import GoStrings.

Example Split_ex1 : Split "a,b,c" "," = ["a"; "b"; "c"].
Proof. reflexivity. Qed.
Example Split_ex2 :
  Split "a man a plan a canal panama" "a " = [""; "man "; "plan "; "canal panama"].
Proof. reflexivity. Qed.
Example Split_ex3 : Split "" "/" = [""].
Proof. reflexivity. Qed.
Example ReplaceAll_ex : ReplaceAll "oink oink oink" "k" "ky" = "oinky oinky oinky".
Proof. reflexivity. Qed.
Example ReplaceAll_ex2 : ReplaceAll "aaaa" "aa" "b" = "bb".
Proof. reflexivity. Qed.
Example TrimPrefix_ex : TrimPrefix "matrix.arch" "matrix." = "arch" /\ TrimPrefix "arch" "matrix." = "arch".
Proof. split; reflexivity. Qed.
Example TrimSuffix_ex : TrimSuffix "$(arch)" ")" = "$(arch" /\ TrimSuffix "arch" ")" = "arch".
Proof. split; reflexivity. Qed.
Example Join_ex : Join ["foo"; "bar"; "baz"] ", " = "foo, bar, baz".
Proof. reflexivity. Qed.

End GoStringsExamples.

(** ** Matrix expansion: properties *)

Module MatrixProofs.
Import GoStrings Matrix MatrixSpec StringFacts.

(** *** The model of the pattern

    A match is [$(], a run of characters of the class that is not empty,
    and [)], and it is a prefix of the text it is found at. *)

Lemma spanVar_split s :
  s = (spanVar s).1 +:+ (spanVar s).2 /\ allVarChars (spanVar s).1 = true.
Proof.
  induction s as [|c s [IH1 IH2]]; [done|].
  cbn [spanVar]. destruct (isVarChar c) eqn:Hc.
  - destruct (spanVar s) as [r t]. cbn [fst snd] in *. rewrite string_app_cons.
    split; [by rewrite <- IH1|]. cbn [allVarChars]. by rewrite Hc, IH2.
  - done.
Qed.

Lemma matchVarSub_sound s m :
  matchVarSub s = Some m ->
  exists r rest,
    r <> EmptyString /\ allVarChars r = true
    /\ m = "$(" +:+ r +:+ ")" /\ s = m +:+ rest.
Proof.
  unfold matchVarSub.
  destruct s as [|c1 s1]; [done|].
  destruct c1 as [[] [] [] [] [] [] [] []]; try done.
  destruct s1 as [|c2 t]; [cbn; done|].
  destruct c2 as [[] [] [] [] [] [] [] []]; try (cbn; done).
  cbn [fst snd].
  destruct (spanVar_split t) as [Ht Hv].
  destruct (spanVar t) as [[|c r] [|d rest]]; try done.
  cbn [fst snd] in *.
  destruct d as [[] [] [] [] [] [] [] []]; try done.
  intros [= <-]. exists (String c r), rest. split; [done|]. split; [done|].
  split; [done|]. rewrite Ht, !string_app_assoc. reflexivity.
Qed.

Example FindAllString_ex :
  FindAllString "a $(matrix.a) $($(b) $() $(x.y-z) $(a b) $(q"
  = ["$(matrix.a)"; "$(b)"; "$(x.y-z)"].
Proof. reflexivity. Qed.

Example validateString_ex :
  validateString "$(matrix.a)-$(b)-$(matrix.a)" = ["matrix.a"; "b"].
Proof. vm_compute. reflexivity. Qed.

(** *** The number of expansions *)

Implicit Types (matrix : gmap string (list string)) (combs subsExps : list string)
  (yamlStr axis : string).

Lemma fold_resolve_length combs matrix (f : string -> string) :
  (forall dest res, List.length (resolveCombinations combs dest matrix res)
                    = List.length res + axisProduct matrix combs) ->
  forall lst res,
    List.length (fold_left (fun res v => resolveCombinations combs (f v) matrix res) lst res)
    = List.length res + List.length lst * axisProduct matrix combs.
Proof.
  intros IH lst. induction lst as [|v lst IHl]; intros res; simpl.
  - lia.
  - rewrite IHl, IH. lia.
Qed.

Lemma resolveCombinations_length combs matrix :
  forall dest res,
    List.length (resolveCombinations combs dest matrix res)
    = List.length res + axisProduct matrix combs.
Proof.
  induction combs as [|c combs IH]; intros dest res; simpl.
  - rewrite length_app. simpl. lia.
  - rewrite (fold_resolve_length combs matrix (fun v => replace dest c v) IH).
    unfold axisSize. lia.
Qed.

Lemma matrixCombs_fold subsExps matrix acc :
  fold_left (fun combs exp =>
               let exp := TrimPrefix exp "matrix." in
               if bool_decide (is_Some (matrix !! exp)) then combs ++ [exp] else combs)
            subsExps acc
  = acc ++ omap (fun exp => let exp := TrimPrefix exp "matrix." in
                            if bool_decide (is_Some (matrix !! exp)) then Some exp else None)
                subsExps.
Proof.
  revert acc. induction subsExps as [|e l IH]; intros acc; simpl.
  - by rewrite app_nil_r.
  - rewrite IH. destruct (bool_decide _); simpl.
    + by rewrite <- app_assoc.
    + done.
Qed.

Lemma applyMatrix_length yamlStr matrix :
  List.length (applyMatrix yamlStr matrix)
  = axisProduct matrix (matrixCombs (getVarSubstitutionExpressions yamlStr) matrix).
Proof.
  unfold applyMatrix.
  destruct (getVarSubstitutionExpressions yamlStr) as [|e l] eqn:E; simpl.
  - reflexivity.
  - rewrite resolveCombinations_length. reflexivity.
Qed.

Lemma axisProduct_zero matrix combs axis :
  axis ∈ combs -> axisSize matrix axis = 0 -> axisProduct matrix combs = 0.
Proof.
  induction combs as [|c combs IH]; intros Hin Hz.
  - by apply elem_of_nil in Hin.
  - simpl. apply elem_of_cons in Hin as [->|Hin].
    + rewrite Hz. lia.
    + rewrite (IH Hin Hz). lia.
Qed.

Lemma dropPrefix_TrimPrefix p s r : dropPrefix p s = Some r -> TrimPrefix s p = r.
Proof. unfold TrimPrefix. by intros ->. Qed.

Lemma referencedAxes_in_combs yamlStr matrix axis :
  axis ∈ referencedAxes yamlStr matrix ->
  axis ∈ matrixCombs (getVarSubstitutionExpressions yamlStr) matrix.
Proof.
  unfold referencedAxes, matrixCombs. rewrite matrixCombs_fold, app_nil_l.
  rewrite !list_elem_of_omap. intros (e & He & Hx).
  exists e. split; [done|]. cbv zeta.
  destruct (dropPrefix "matrix." e) as [r|] eqn:D; [|done].
  rewrite (dropPrefix_TrimPrefix _ _ _ D). done.
Qed.

Lemma applyMatrix_empty_axis yamlStr matrix axis :
  axis ∈ referencedAxes yamlStr matrix -> matrix !! axis = Some [] ->
  applyMatrix yamlStr matrix = [].
Proof.
  intros Hin Hm. apply length_zero_iff_nil. rewrite applyMatrix_length.
  apply (axisProduct_zero _ _ axis).
  - by apply referencedAxes_in_combs.
  - unfold axisSize. by rewrite Hm.
Qed.

Lemma matrixCombs_no_bare yamlStr matrix :
  bareAxes yamlStr matrix = [] ->
  matrixCombs (getVarSubstitutionExpressions yamlStr) matrix = referencedAxes yamlStr matrix.
Proof.
  unfold bareAxes, matrixCombs, referencedAxes. rewrite matrixCombs_fold, app_nil_l.
  induction (getVarSubstitutionExpressions yamlStr) as [|e l IH]; [done|].
  intros Hb. rewrite filter_cons in Hb. cbn [omap list_omap]. cbv zeta.
  unfold TrimPrefix, HasPrefix in *.
  destruct (dropPrefix "matrix." e) as [r|] eqn:D.
  - case_decide as Hd; [destruct Hd; done|].
    rewrite IH; done.
  - case_decide as Hd.
    + done.
    + rewrite bool_decide_eq_false_2; [by apply IH|]. intros Hs. apply Hd. done.
Qed.

Lemma applyMatrix_two_axes yamlStr matrix a b :
  bareAxes yamlStr matrix = [] ->
  referencedAxes yamlStr matrix = [a; b] ->
  List.length (applyMatrix yamlStr matrix) = axisSize matrix a * axisSize matrix b.
Proof.
  intros Hb Hr. rewrite applyMatrix_length, (matrixCombs_no_bare _ _ Hb), Hr. simpl. lia.
Qed.

(** C1 at a template that names an axis bare as well: the template
    refers to the two axes [arch], of two values, and [os], of one, by
    placeholders of the matrix namespace, and its command holds the shell
    substitution [$(arch)]; [applyMatrix] takes the bare name for a third
    axis and returns four templates, each of the two expansions twice,
    where the claim has two. *)
Theorem bare_axis_name_multiplies_jobs :
  referencedAxes archTemplate archMatrix = ["arch"; "os"]
  /\ axisSize archMatrix "arch" = 2 /\ axisSize archMatrix "os" = 1
  /\ matrixCombs (getVarSubstitutionExpressions archTemplate) archMatrix
     = ["arch"; "os"; "arch"]
  /\ applyMatrix archTemplate archMatrix
     = ["name: build-amd64-linux, command: [sh, -c, echo $(arch)]";
        "name: build-amd64-linux, command: [sh, -c, echo $(arch)]";
        "name: build-arm64-linux, command: [sh, -c, echo $(arch)]";
        "name: build-arm64-linux, command: [sh, -c, echo $(arch)]"].
Proof. vm_compute. repeat split. Qed.

End MatrixProofs.

(** ** Requirement presets: properties *)

Module DecoratorProofs.
Import Decorator DecoratorSpec.

Lemma hasEnv_app name env1 env2 :
  hasEnv name (env1 ++ env2) = hasEnv name env1 || hasEnv name env2.
Proof. unfold hasEnv. apply existsb_app. Qed.

Lemma hasEnv_filter name env :
  hasEnv name env = false -> List.filter (nameIs name) env = [].
Proof.
  induction env as [|e env IH]; simpl; [done|].
  unfold nameIs at 1. destruct (String.eqb (EnvVar_Name e) name); simpl; [done|]. apply IH.
Qed.

Lemma fold_appendEnv_prefix declared : forall env,
  exists added, fold_left appendEnv declared env = env ++ added
    /\ forall e, e ∈ added -> hasEnv (EnvVar_Name e) env = false /\ e ∈ declared.
Proof.
  induction declared as [|e1 rest IH]; intros env; simpl.
  - exists []. split; [by rewrite app_nil_r|]. intros e He. by apply elem_of_nil in He.
  - unfold appendEnv at 2. destruct (hasEnv (EnvVar_Name e1) env) eqn:Hh.
    + destruct (IH env) as (added & -> & Hadd). exists added. split; [done|].
      intros e He. destruct (Hadd e He). split; [done|]. by apply elem_of_cons; right.
    + destruct (IH (env ++ [e1])) as (added & -> & Hadd). exists (e1 :: added).
      split; [by rewrite <- app_assoc|].
      intros e He. apply elem_of_cons in He as [->|He].
      * split; [done|]. by apply elem_of_cons; left.
      * destruct (Hadd e He) as [Hn Hd]. rewrite hasEnv_app in Hn.
        apply orb_false_iff in Hn as [Hn _]. split; [done|]. by apply elem_of_cons; right.
Qed.

Lemma fold_appendEnv_filter name declared : forall env,
  List.filter (nameIs name) (fold_left appendEnv declared env)
  = if hasEnv name env then List.filter (nameIs name) env
    else match List.find (nameIs name) declared with
         | Some e => [e]
         | None => []
         end.
Proof.
  induction declared as [|e1 rest IH]; intros env; simpl.
  - destruct (hasEnv name env) eqn:Hh; [done|]. by apply hasEnv_filter.
  - rewrite IH. unfold appendEnv. unfold nameIs at 4.
    destruct (hasEnv (EnvVar_Name e1) env) eqn:H1.
    + destruct (hasEnv name env) eqn:Hh; [done|].
      destruct (String.eqb (EnvVar_Name e1) name) eqn:E; [|done].
      apply String.eqb_eq in E. congruence.
    + rewrite hasEnv_app, List.filter_app. simpl. rewrite orb_false_r.
      unfold nameIs at 2.
      destruct (String.eqb (EnvVar_Name e1) name) eqn:E.
      * apply String.eqb_eq in E. subst name. rewrite H1. simpl.
        by rewrite (hasEnv_filter _ _ H1).
      * rewrite orb_false_r. destruct (hasEnv name env); [by rewrite app_nil_r|done].
Qed.

Lemma assignAll_Some dst src : exists m, assignAll (Some dst) src = Done (Some m).
Proof. unfold assignAll. case_bool_decide; eexists; reflexivity. Qed.

Section Resolver.
Variable mergo_Merge : PodSpec -> PodSpec -> goresult PodSpec.
Hypothesis Hkeeps : keepsContainers mergo_Merge.

Lemma addEnv_env e1 c : Container_Env (addEnv e1 c) = appendEnv (Container_Env c) e1.
Proof. unfold addEnv, appendEnv. by destruct (hasEnv _ _). Qed.

Lemma addMount_env vm1 c : Container_Env (addMount vm1 c) = Container_Env c.
Proof. unfold addMount. by destruct (hasMount _ _). Qed.

Lemma fold_addEnv_lookup envs : forall (cs : list Container) i c,
  cs !! i = Some c ->
  exists c', fold_left (fun cs e1 => map (addEnv e1) cs) envs cs !! i = Some c'
    /\ Container_Env c' = fold_left appendEnv envs (Container_Env c).
Proof.
  induction envs as [|e1 rest IH]; intros cs i c Hc; simpl.
  - by exists c.
  - destruct (IH (map (addEnv e1) cs) i (addEnv e1 c)) as (c' & Hc' & He).
    + change (map (addEnv e1) cs) with (addEnv e1 <$> cs). by rewrite list_lookup_fmap, Hc.
    + exists c'. split; [done|]. by rewrite He, addEnv_env.
Qed.

Lemma fold_addMount_lookup vms : forall (cs : list Container) i c,
  cs !! i = Some c ->
  exists c', fold_left (fun cs vm1 => map (addMount vm1) cs) vms cs !! i = Some c'
    /\ Container_Env c' = Container_Env c.
Proof.
  induction vms as [|vm1 rest IH]; intros cs i c Hc; simpl.
  - by exists c.
  - destruct (IH (map (addMount vm1) cs) i (addMount vm1 c)) as (c' & Hc' & He).
    + change (map (addMount vm1) cs) with (addMount vm1 <$> cs).
      by rewrite list_lookup_fmap, Hc.
    + exists c'. split; [done|]. by rewrite He, addMount_env.
Qed.

Lemma mergeContainers_env spec req i c :
  PodSpec_Containers spec !! i = Some c ->
  exists c', PodSpec_Containers (mergeContainers spec req) !! i = Some c'
    /\ Container_Env c' = fold_left appendEnv (Preset_Env req) (Container_Env c).
Proof.
  intros Hc. unfold mergeContainers. cbn [PodSpec_Containers setVolumes setContainers].
  set (cs1 := map _ (PodSpec_Containers spec)).
  assert (H1 : cs1 !! i = Some (setArgs c (Container_Args c ++ Preset_Args req))).
  { unfold cs1.
    change (map ?f ?l) with (f <$> l). by rewrite list_lookup_fmap, Hc. }
  destruct (fold_addEnv_lookup (Preset_Env req) _ _ _ H1) as (c2 & H2 & E2).
  destruct (fold_addMount_lookup (Preset_VolumeMounts req) _ _ _ H2) as (c3 & H3 & E3).
  exists c3. split; [done|]. by rewrite E3, E2.
Qed.

Lemma mergeRequirement_env annotations labels spec req r i c :
  mergeRequirement mergo_Merge annotations labels spec req = Done r ->
  PodSpec_Containers spec !! i = Some c ->
  exists c', PodSpec_Containers r.2 !! i = Some c'
    /\ Container_Env c' = fold_left appendEnv (Preset_Env req) (Container_Env c).
Proof.
  unfold mergeRequirement. intros Hr Hc.
  destruct (assignAll annotations _) as [a'| |]; simpl in Hr; try done.
  destruct (assignAll labels _) as [l'| |]; simpl in Hr; try done.
  destruct (mergeContainers_env spec req i c Hc) as (c' & Hc' & He).
  exists c'. split; [|done].
  destruct (Preset_PodSpec req) as [overlay|].
  - destruct (mergo_Merge _ overlay) as [spec'|e] eqn:Hm; [|done].
    injection Hr as <-. simpl.
    destruct (Hkeeps _ _ _ Hm) as (extra & ->).
    by apply lookup_app_l_Some.
  - by injection Hr as <-.
Qed.

Lemma mergeRequirements_env presets : forall annotations labels spec r i c,
  mergeRequirements mergo_Merge annotations labels spec presets = Done r ->
  PodSpec_Containers spec !! i = Some c ->
  exists c', PodSpec_Containers r.2 !! i = Some c'
    /\ Container_Env c' = fold_left appendEnv (declaredEnv presets) (Container_Env c).
Proof.
  induction presets as [|req rest IH]; intros annotations labels spec r i c Hr Hc.
  - simpl in Hr. injection Hr as <-. by exists c.
  - simpl in Hr.
    destruct (mergeRequirement mergo_Merge annotations labels spec req) as [r1| |] eqn:H1;
      simpl in Hr; try done.
    destruct (mergeRequirement_env _ _ _ _ _ i c H1 Hc) as (c1 & Hc1 & E1).
    destruct (IH _ _ _ _ i c1 Hr Hc1) as (c' & Hc' & E').
    exists c'. split; [done|].
    unfold declaredEnv in *. simpl. by rewrite fold_left_app, <- E1.
Qed.

Lemma mergeRequirements_total presets : forall a l spec,
  (forall dst src, exists dst', mergo_Merge dst src = Ok dst') ->
  exists r, mergeRequirements mergo_Merge (Some a) (Some l) spec presets = Done r.
Proof.
  intros a l spec Htot. revert a l spec.
  induction presets as [|req rest IH]; intros a l spec; simpl.
  - eauto.
  - unfold mergeRequirement.
    destruct (assignAll_Some a (Preset_Annotations req)) as (a' & ->).
    destruct (assignAll_Some l (Preset_Labels req)) as (l' & ->). simpl.
    destruct (Preset_PodSpec req) as [overlay|]; simpl.
    + destruct (Htot (mergeContainers spec req) overlay) as (spec' & ->). simpl. apply IH.
    + apply IH.
Qed.
End Resolver.

Lemma collectSecrets_flat_map presets :
  collectSecrets presets = flat_map Preset_Secrets presets.
Proof.
  unfold collectSecrets.
  assert (H : forall acc, fold_left (fun secrets req => secrets ++ Preset_Secrets req) presets acc
                          = acc ++ flat_map Preset_Secrets presets).
  { induction presets as [|p rest IH]; intros acc; simpl.
    - by rewrite app_nil_r.
    - by rewrite IH, app_assoc. }
  apply H.
Qed.

Lemma fillMerge_keeps : keepsContainers Instances.fillMerge.
Proof.
  intros dst src dst' H. unfold Instances.fillMerge in H. injection H as <-. simpl.
  destruct (PodSpec_Containers dst) as [|c cs].
  - by exists (PodSpec_Containers src).
  - exists []. by rewrite app_nil_r.
Qed.

Lemma fillMerge_total dst src : exists dst', Instances.fillMerge dst src = Ok dst'.
Proof. unfold Instances.fillMerge. eexists; reflexivity. Qed.

(** *** Validation of the names, in this package *)

Lemma validate_unknown name (options : gset string) description :
  name ∉ options -> is_Some (validate name options description).
Proof. intros H. unfold validate. rewrite bool_decide_eq_false_2; [eauto|done]. Qed.

(** [ApplyRequirements] ends the run on a requirement name, or an excluded
    one, that the preset map does not hold. *)
Lemma ApplyRequirements_rejects_unknown
    (mergo_Merge : PodSpec -> PodSpec -> goresult PodSpec)
    (json_Marshal : list Secret -> goresult string)
    (baseConfig : BaseConfig) (job : JobBase) (requirements excluded : list string)
    (presetMap : gmap string RequirementPreset) (name : string) :
  name ∈ requirements ++ excluded ->
  presetMap !! name = None ->
  exists msg,
    ApplyRequirements mergo_Merge json_Marshal baseConfig job requirements excluded presetMap
    = Exit msg.
Proof.
  intros Hin Hnone. unfold ApplyRequirements.
  assert (Hdom : name ∉ dom presetMap) by (by apply not_elem_of_dom).
  assert (Herr : requirementErrors requirements excluded (dom presetMap) <> []).
  { unfold requirementErrors. apply elem_of_app in Hin as [Hin|Hin].
    - destruct (validate_unknown name (dom presetMap) "requirements" Hdom) as [e He].
      intros Hnil. apply app_eq_nil in Hnil as [Hnil _].
      assert (Hel : e ∈ omap (fun req => validate req (dom presetMap) "requirements")
                               requirements).
      { apply list_elem_of_omap. eauto. }
      rewrite Hnil in Hel. by apply elem_of_nil in Hel.
    - destruct (validate_unknown name (dom presetMap) "excluded_requirements" Hdom)
        as [e He].
      intros Hnil. apply app_eq_nil in Hnil as [_ Hnil].
      assert (Hel : e ∈ omap (fun req => validate req (dom presetMap)
                                             "excluded_requirements") excluded).
      { apply list_elem_of_omap. eauto. }
      rewrite Hnil in Hel. by apply elem_of_nil in Hel. }
  destruct (requirementErrors requirements excluded (dom presetMap)); [done|].
  eexists. reflexivity.
Qed.

(** *** Environment variables and secrets *)

(** C6: a preset's environment variable is appended to a container only
    when the container has no variable of that name.  For every pod
    specification, list of presets and container of the specification:
    the environment of the container after [resolveRequirements] is its
    old environment followed by variables none of which has a name the old
    environment had; a name the container did not have and some preset
    declares ends with exactly one entry, the first declaration in the
    order of the presets; the entries of a name the container had are
    untouched.  The run returns when the overlay does and the maps of the
    job are not nil. *)
Theorem preset_env_first_writer_wins
    (mergo_Merge : PodSpec -> PodSpec -> goresult PodSpec)
    (annotations labels : option (gmap string string)) (spec : PodSpec)
    (presets : list RequirementPreset) (i : nat) (c : Container) :
  keepsContainers mergo_Merge ->
  PodSpec_Containers spec !! i = Some c ->
  (forall r,
      resolveRequirements mergo_Merge annotations labels (Some spec) presets = Done r ->
      exists spec' c',
        r.2 = Some spec' /\ PodSpec_Containers spec' !! i = Some c' /\
        (exists added,
            Container_Env c' = Container_Env c ++ added /\
            forall e, e ∈ added ->
                      hasEnv (EnvVar_Name e) (Container_Env c) = false
                      /\ e ∈ declaredEnv presets) /\
        (forall name e,
            hasEnv name (Container_Env c) = false ->
            List.find (nameIs name) (declaredEnv presets) = Some e ->
            List.filter (nameIs name) (Container_Env c') = [e]) /\
        (forall name,
            hasEnv name (Container_Env c) = true ->
            List.filter (nameIs name) (Container_Env c')
            = List.filter (nameIs name) (Container_Env c)))
  /\ ((forall dst src, exists dst', mergo_Merge dst src = Ok dst') ->
      is_Some annotations -> is_Some labels ->
      exists r,
        resolveRequirements mergo_Merge annotations labels (Some spec) presets = Done r).
Proof.
  intros Hkeeps Hc. split.
  - intros r Hr. unfold resolveRequirements in Hr.
    destruct (mergeRequirements mergo_Merge annotations labels spec presets)
      as [r1| |] eqn:H1; simpl in Hr; try done.
    injection Hr as <-.
    destruct (mergeRequirements_env mergo_Merge Hkeeps presets _ _ _ _ i c H1 Hc)
      as (c' & Hc' & He).
    exists r1.2, c'. split; [done|]. split; [done|]. rewrite He. split; [|split].
    + apply fold_appendEnv_prefix.
    + intros name e Hn Hf. by rewrite fold_appendEnv_filter, Hn, Hf.
    + intros name Hn. by rewrite fold_appendEnv_filter, Hn.
  - intros Htot [a ->] [l ->]. unfold resolveRequirements.
    destruct (mergeRequirements_total mergo_Merge presets a l spec Htot) as (r & ->).
    simpl. eauto.
Qed.

(** C7: when the presets of a job carry a secret, [applySecrets] ends the
    run on a pod specification of more than one container, and on one of
    exactly one container it returns the job with one variable more on
    that container, after the variables it had: [GCP_SECRETS], whose value
    is the serialised list of the secrets.  The other fields of the
    container, of the pod specification and of the job are as they were. *)
Theorem secrets_need_one_container
    (json_Marshal : list Secret -> goresult string)
    (job : JobBase) (presets : list RequirementPreset) (spec : PodSpec) :
  JobBase_Spec job = Some spec ->
  flat_map Preset_Secrets presets <> [] ->
  (1 < List.length (PodSpec_Containers spec) ->
   exists msg, applySecrets json_Marshal job presets = Exit msg)
  /\ (forall c marshal,
         PodSpec_Containers spec = [c] ->
         json_Marshal (flat_map Preset_Secrets presets) = Ok marshal ->
         exists job' spec' c',
           applySecrets json_Marshal job presets = Done job'
           /\ JobBase_Spec job' = Some spec'
           /\ PodSpec_Containers spec' = [c']
           /\ Container_Env c' = Container_Env c ++ [mkEnvVar "GCP_SECRETS" marshal]
           /\ Container_Image c' = Container_Image c
           /\ Container_ImagePullPolicy c' = Container_ImagePullPolicy c
           /\ Container_Command c' = Container_Command c
           /\ Container_Args c' = Container_Args c
           /\ Container_VolumeMounts c' = Container_VolumeMounts c
           /\ Container_Resources c' = Container_Resources c
           /\ Container_Privileged c' = Container_Privileged c
           /\ PodSpec_Volumes spec' = PodSpec_Volumes spec
           /\ PodSpec_NodeSelector spec' = PodSpec_NodeSelector spec
           /\ PodSpec_ServiceAccountName spec' = PodSpec_ServiceAccountName spec
           /\ JobBase_Annotations job' = JobBase_Annotations job
           /\ JobBase_Labels job' = JobBase_Labels job).
Proof.
  intros Hspec Hsec. unfold applySecrets. rewrite collectSecrets_flat_map, Hspec.
  destruct (flat_map Preset_Secrets presets) as [|s secrets] eqn:E; [done|].
  cbn [List.length Nat.eqb]. split.
  - intros Hlen. destruct (json_Marshal (s :: secrets)) as [m|e]; [|eauto].
    destruct (PodSpec_Containers spec) as [|c1 [|c2 cs]]; simpl in Hlen; try lia; eauto.
  - intros c marshal Hcs Hm. rewrite Hm, Hcs. cbv zeta.
    eexists _, _, _. split; [reflexivity|].
    cbn [JobBase_Spec JobBase_Annotations JobBase_Labels].
    split; [reflexivity|].
    cbn [setContainers PodSpec_Containers PodSpec_Volumes PodSpec_NodeSelector
         PodSpec_ServiceAccountName].
    split; [reflexivity|].
    cbn [setEnv Container_Env Container_Image Container_ImagePullPolicy Container_Command
         Container_Args Container_VolumeMounts Container_Resources Container_Privileged].
    repeat split.
Qed.

(** Two presets that declare [X], on a container that has [HOME]: one
    [X], of the first preset, and the [HOME] of the container. *)
Lemma preset_env_first_writer_wins_witness :
  keepsContainers Instances.fillMerge
  /\ PodSpec_Containers Samples.buildSpec !! 0 = Some Samples.buildContainer
  /\ exists r spec' c',
      resolveRequirements Instances.fillMerge (Some ∅) (Some ∅) (Some Samples.buildSpec)
                          [Samples.presetOne; Samples.presetTwo] = Done r
      /\ r.2 = Some spec' /\ PodSpec_Containers spec' !! 0 = Some c'
      /\ List.filter (nameIs "X") (Container_Env c') = [mkEnvVar "X" "1"]
      /\ List.filter (nameIs "HOME") (Container_Env c') = [mkEnvVar "HOME" "/root"].
Proof.
  split; [apply fillMerge_keeps|]. split; [reflexivity|].
  destruct (preset_env_first_writer_wins Instances.fillMerge (Some ∅) (Some ∅)
              Samples.buildSpec [Samples.presetOne; Samples.presetTwo] 0
              Samples.buildContainer fillMerge_keeps eq_refl) as [Hres Htot].
  destruct (Htot fillMerge_total (ex_intro _ _ eq_refl) (ex_intro _ _ eq_refl)) as (r & Er).
  destruct (Hres r Er) as (spec' & c' & E2 & Ec & _ & Hnew & Hold).
  exists r, spec', c'. split; [exact Er|]. split; [exact E2|]. split; [exact Ec|]. split.
  - apply Hnew; reflexivity.
  - rewrite Hold; reflexivity.
Defined.

(** A preset with one secret on a job of one container that has [HOME]:
    the container has [HOME] and then [GCP_SECRETS]. *)
Lemma secrets_need_one_container_witness :
  Decorator.JobBase_Spec Samples.secretJob = Some Samples.buildSpec
  /\ flat_map Preset_Secrets [Samples.secretPreset] <> []
  /\ exists marshal job' spec' c',
      Instances.jsonSecrets (flat_map Preset_Secrets [Samples.secretPreset]) = Ok marshal
      /\ applySecrets Instances.jsonSecrets Samples.secretJob [Samples.secretPreset]
         = Done job'
      /\ Decorator.JobBase_Spec job' = Some spec'
      /\ PodSpec_Containers spec' = [c']
      /\ Container_Env c' = [mkEnvVar "HOME" "/root"; mkEnvVar "GCP_SECRETS" marshal]
      /\ Container_Image c' = "gcr.io/build:latest".
Proof.
  split; [reflexivity|]. split; [discriminate|].
  destruct (secrets_need_one_container Instances.jsonSecrets Samples.secretJob
              [Samples.secretPreset] Samples.buildSpec eq_refl) as [_ Hone];
    [discriminate|].
  destruct (Hone Samples.buildContainer _ eq_refl eq_refl)
    as (job' & spec' & c' & E & Es & Ec & Henv & Himg & _).
  eexists _, job', spec', c'. split; [reflexivity|].
  split; [exact E|]. split; [exact Es|]. split; [exact Ec|].
  split; [exact Henv|exact Himg].
Defined.

(** The same preset on a job of two containers ends the run. *)
Lemma secrets_on_two_containers_exit :
  exists msg,
    applySecrets Instances.jsonSecrets Samples.sidecarJob [Samples.secretPreset] = Exit msg.
Proof. eexists. reflexivity. Qed.

End DecoratorProofs.

(** ** The job-group compiler: properties *)

Module ConfigProofs.
Import GoStrings Matrix Config ConfigSpec Instances Samples StringFacts.

Lemma extends_refl h : extends h h.
Proof. by repeat split. Qed.

Lemma extends_trans h1 h2 h3 : extends h1 h2 -> extends h2 h3 -> extends h1 h3.
Proof.
  intros (D1 & C1 & R1 & P1) (D2 & C2 & R2 & P2). repeat split.
  - set_solver.
  - intros l Hl. rewrite C2, C1; [done|done|]. by apply D1.
  - congruence.
  - congruence.
Qed.

Lemma newStrMap_spec m h :
  exists l h', newStrMap m h = Done (l, h') /\ (l ∉ dom (strMaps h))
    /\ l ∈ dom (strMaps h') /\ strMapAt h' l = m /\ extends h h'.
Proof.
  unfold newStrMap. eexists _, _. split; [reflexivity|].
  pose proof (is_fresh (dom (strMaps h))) as Hf.
  split; [done|]. unfold extends, strMapAt. cbn [strMaps resMaps presetMaps]. repeat split.
  - rewrite dom_insert. set_solver.
  - rewrite lookup_insert_eq. done.
  - rewrite dom_insert. set_solver.
  - intros l Hl. rewrite lookup_insert_ne; [done|]. intros E. rewrite E in Hf. done.
Qed.

Lemma mergeMaps_spec mp1 mp2 h :
  exists l h', mergeMaps mp1 mp2 h = Done (l, h') /\ (l ∉ dom (strMaps h))
    /\ l ∈ dom (strMaps h') /\ strMapAt h' l = mp2 ∪ strMapAt h mp1 /\ extends h h'.
Proof.
  unfold mergeMaps, bind, readStrMap.
  destruct (newStrMap_spec (mp2 ∪ strMapAt h mp1) h) as (l & h' & E & H1 & H2 & H3 & H4).
  exists l, h'. by rewrite E.
Qed.

Lemma empty_union_str (m : gmap string string) : ∅ ∪ m = m.
Proof. apply (left_id_L _ _). Qed.

Lemma bind_Done {A B} (m : M A) (f : A -> M B) h a h' :
  m h = Done (a, h') -> bind m f h = f a h'.
Proof. unfold bind. by intros ->. Qed.

Lemma layerMaps_spec made glob group job h :
  made ∈ dom (strMaps h) ->
  (forall l, glob = Some l -> l ∈ dom (strMaps h)) ->
  exists l h', layerMaps made glob group job h = Done (l, h')
    /\ l ∈ dom (strMaps h')
    /\ strMapAt h' l = default ∅ job ∪ (default ∅ group ∪ strMapAt h (default made glob))
    /\ extends h h'.
Proof.
  intros Hmade Hglob. unfold layerMaps.
  set (cur := match glob with Some l => l | None => made end).
  assert (Hcur : cur ∈ dom (strMaps h)).
  { unfold cur. destruct glob; [by apply Hglob|done]. }
  assert (Ecur : cur = default made glob) by (by destruct glob).
  rewrite <- Ecur. clearbody cur.
  destruct group as [gm|].
  - destruct (mergeMaps_spec cur gm h) as (l1 & h1 & E1 & N1 & D1 & C1 & X1).
    rewrite (bind_Done _ _ _ _ _ E1).
    destruct job as [jm|].
    + destruct (mergeMaps_spec l1 jm h1) as (l2 & h2 & E2 & N2 & D2 & C2 & X2).
      exists l2, h2. split; [done|]. split; [done|]. split.
      * rewrite C2, C1. done.
      * by apply (extends_trans _ h1).
    + exists l1, h1. split; [done|]. split; [done|]. split; [|done].
      rewrite C1. cbn [default from_option]. by rewrite empty_union_str.
  - rewrite (bind_Done _ _ h cur h); [|done].
    destruct job as [jm|].
    + destruct (mergeMaps_spec cur jm h) as (l2 & h2 & E2 & N2 & D2 & C2 & X2).
      exists l2, h2. split; [done|]. split; [done|]. split; [|done].
      rewrite C2. cbn [default from_option]. by rewrite empty_union_str.
    + exists cur, h. split; [done|]. split; [done|]. split.
      * cbn [default from_option]. by rewrite !empty_union_str.
      * apply extends_refl.
Qed.

Lemma layerMaps_done made glob group job h :
  exists l h', layerMaps made glob group job h = Done (l, h')
    /\ resMaps h' = resMaps h /\ presetMaps h' = presetMaps h.
Proof.
  unfold layerMaps.
  set (cur := match glob with Some l => l | None => made end). clearbody cur.
  destruct group as [gm|].
  - destruct (mergeMaps_spec cur gm h) as (l1 & h1 & E1 & N1 & D1 & C1 & _ & _ & R1 & P1).
    rewrite (bind_Done _ _ _ _ _ E1).
    destruct job as [jm|].
    + destruct (mergeMaps_spec l1 jm h1) as (l2 & h2 & E2 & N2 & D2 & C2 & _ & _ & R2 & P2).
      exists l2, h2. split; [done|]. split; congruence.
    + by exists l1, h1.
  - rewrite (bind_Done _ _ h cur h); [|done].
    destruct job as [jm|].
    + destruct (mergeMaps_spec cur jm h) as (l2 & h2 & E2 & N2 & D2 & C2 & _ & _ & R2 & P2).
      by exists l2, h2.
    + by exists cur, h.
Qed.

Lemma layerCluster_tiers g jc job :
  layerCluster (layerCluster (layerCluster "" (Global_Cluster g)) (Jobs_Cluster jc))
               (Job_Cluster job)
  = tierCluster g jc job.
Proof.
  unfold layerCluster, tierCluster, clusterOverrides.
  destruct (negb (Job_Cluster job =? "") && negb (Job_Cluster job =? "default"))%string;
    [done|].
  destruct (negb (Jobs_Cluster jc =? "") && negb (Jobs_Cluster jc =? "default"))%string;
    [done|].
  done.
Qed.

Lemma layerNodeSelector_tiers g jc job :
  layerNodeSelector (layerNodeSelector (layerNodeSelector None (Global_NodeSelector g))
                                       (Jobs_NodeSelector jc)) (Job_NodeSelector job)
  = tierNodeSelector g jc job.
Proof.
  unfold layerNodeSelector, tierNodeSelector.
  destruct (Job_NodeSelector job); [done|].
  destruct (Jobs_NodeSelector jc); [done|].
  by destruct (Global_NodeSelector g).
Qed.

Lemma createContainer_done jc job res h :
  exists cs, createContainer jc job res h = Done (cs, h).
Proof. unfold createContainer. eexists. reflexivity. Qed.

Lemma lift_Done {A} (x : outcome A) (a : A) h : x = Done a -> lift x h = Done (a, h).
Proof. by intros ->. Qed.

(** What [createJobBase] returns, whatever the store holds. *)
Lemma createJobBase_shape g jc job name branch res h refs :
  createExtraRefs (Job_Repos job) branch (Global_PathAliases g) = Done refs ->
  exists jb h' cs,
    createJobBase g jc job name branch res h = Done (jb, h')
    /\ JobBase_Name jb = name
    /\ JobBase_Cluster jb = tierCluster g jc job
    /\ JobBase_Spec jb = Some (mkPodSpec cs [] (tierNodeSelector g jc job) "")
    /\ resMaps h' = resMaps h /\ presetMaps h' = presetMaps h.
Proof.
  intros Hrefs. unfold createJobBase.
  destruct (createContainer_done jc job res h) as (cs & Ec).
  rewrite (bind_Done _ _ _ _ _ Ec).
  rewrite (bind_Done _ _ _ _ _ (lift_Done _ _ h Hrefs)).
  destruct (newStrMap_spec ∅ h) as (l1 & h1 & E1 & _ & _ & _ & _ & _ & R1 & P1).
  rewrite (bind_Done _ _ _ _ _ E1).
  destruct (newStrMap_spec ∅ h1) as (l2 & h2 & E2 & _ & _ & _ & _ & _ & R2 & P2).
  rewrite (bind_Done _ _ _ _ _ E2).
  destruct (layerMaps_done l2 (Global_Annotations g) (Jobs_Annotations jc)
              (Job_Annotations job) h2) as (a & h3 & E3 & R3 & P3).
  rewrite (bind_Done _ _ _ _ _ E3).
  destruct (layerMaps_done l1 (Global_Labels g) (Jobs_Labels jc)
              (Job_Labels job) h3) as (l & h4 & E4 & R4 & P4).
  rewrite (bind_Done _ _ _ _ _ E4).
  unfold ret. eexists _, _, _. split; [reflexivity|].
  cbn [JobBase_Name JobBase_Cluster JobBase_Spec].
  rewrite layerCluster_tiers, layerNodeSelector_tiers.
  repeat split; congruence.
Qed.

(** The annotations and the labels [createJobBase] returns. *)
Lemma createJobBase_maps g jc job name branch res h refs :
  createExtraRefs (Job_Repos job) branch (Global_PathAliases g) = Done refs ->
  wfGlobal g h ->
  exists jb h',
    createJobBase g jc job name branch res h = Done (jb, h')
    /\ strMapAt h' (JobBase_Annotations jb)
       = default ∅ (Job_Annotations job)
           ∪ (default ∅ (Jobs_Annotations jc) ∪ globalStrMap h (Global_Annotations g))
    /\ strMapAt h' (JobBase_Labels jb)
       = default ∅ (Job_Labels job)
           ∪ (default ∅ (Jobs_Labels jc) ∪ globalStrMap h (Global_Labels g))
    /\ extends h h'.
Proof.
  intros Hrefs [HwA HwL]. unfold createJobBase.
  destruct (createContainer_done jc job res h) as (cs & Ec).
  rewrite (bind_Done _ _ _ _ _ Ec).
  rewrite (bind_Done _ _ _ _ _ (lift_Done _ _ h Hrefs)).
  destruct (newStrMap_spec ∅ h) as (l1 & h1 & E1 & N1 & D1 & C1 & X1).
  rewrite (bind_Done _ _ _ _ _ E1).
  destruct (newStrMap_spec ∅ h1) as (l2 & h2 & E2 & N2 & D2 & C2 & X2).
  rewrite (bind_Done _ _ _ _ _ E2).
  pose proof (extends_trans _ _ _ X1 X2) as X12.
  destruct (layerMaps_spec l2 (Global_Annotations g) (Jobs_Annotations jc)
              (Job_Annotations job) h2) as (a & h3 & E3 & D3 & C3 & X3).
  { done. }
  { intros l Hl. apply X12. by apply HwA. }
  rewrite (bind_Done _ _ _ _ _ E3).
  destruct (layerMaps_spec l1 (Global_Labels g) (Jobs_Labels jc)
              (Job_Labels job) h3) as (l & h4 & E4 & D4 & C4 & X4).
  { apply X3. by apply X2. }
  { intros l Hl. apply X3, X12. by apply HwL. }
  rewrite (bind_Done _ _ _ _ _ E4).
  unfold ret. eexists _, _. split; [reflexivity|].
  cbn [JobBase_Annotations JobBase_Labels].
  split; [|split].
  - destruct X4 as (_ & K4 & _). rewrite (K4 a D3), C3. f_equal. f_equal.
    destruct (Global_Annotations g) as [ga|]; cbn [default from_option globalStrMap].
    + destruct X12 as (_ & K & _). by apply K, HwA.
    + done.
  - rewrite C4. f_equal. f_equal.
    destruct (Global_Labels g) as [gl|]; cbn [default from_option globalStrMap].
    + destruct (extends_trans _ _ _ X12 X3) as (_ & K & _). by apply K, HwL.
    + destruct X3 as (_ & K & _). rewrite K; [|by apply X2].
      destruct X2 as (_ & K2 & _). rewrite K2; done.
  - exact (extends_trans _ _ _ X12 (extends_trans _ _ _ X3 X4)).
Qed.

Lemma jobName_eq job jc branch suffix :
  jobName job jc branch suffix
  = Job_Name job +:+ ("_" +:+ Jobs_Repo jc +:+ branchSuffix branch +:+ suffix).
Proof.
  unfold jobName, branchSuffix. destruct (String.eqb branch "master"); cbn [negb].
  - rewrite !string_app_assoc. reflexivity.
  - rewrite !string_app_assoc. reflexivity.
Qed.

Lemma extraRef_done branch pa repo :
  wellFormedRepo repo = true -> exists ref, extraRef branch pa repo = Done ref.
Proof.
  unfold wellFormedRepo, extraRef. intros H.
  destruct (Split (hd "" (Split repo "@")) "/") as [|org [|r rest]]; simpl in H; try done.
  eexists. reflexivity.
Qed.

Lemma createExtraRefs_done repos branch pa :
  Forall (fun r => wellFormedRepo r = true) repos ->
  exists refs, createExtraRefs repos branch pa = Done refs.
Proof.
  induction 1 as [|r rest Hr _ IH]; simpl.
  - eauto.
  - destruct (extraRef_done branch pa r Hr) as (ref & ->).
    destruct IH as (refs & ->). simpl. eauto.
Qed.

Lemma applyModifiersPresubmit_base p mods :
  Presubmit_JobBase (applyModifiersPresubmit p mods) = Presubmit_JobBase p.
Proof.
  unfold applyModifiersPresubmit. revert p.
  induction mods as [|m mods IH]; intros p; simpl; [done|].
  rewrite IH. by repeat destruct (String.eqb _ _).
Qed.

Lemma applyModifiersPostsubmit_base p mods :
  Postsubmit_JobBase (applyModifiersPostsubmit p mods) = Postsubmit_JobBase p.
Proof.
  unfold applyModifiersPostsubmit. revert p.
  induction mods as [|m mods IH]; intros p; simpl; [done|].
  rewrite IH. by repeat destruct (String.eqb _ _).
Qed.

Lemma writeStrMap_done l k v h : exists h', writeStrMap l k v h = Done (tt, h').
Proof. unfold writeStrMap. eexists. reflexivity. Qed.

Lemma writeTestgrid_done t l d h : exists h', writeTestgrid t l d h = Done (tt, h').
Proof.
  unfold writeTestgrid. destruct (Testgrid_Enabled t); [|by exists h].
  destruct (writeStrMap_done l TestGridDashboard d h) as (h1 & E1).
  rewrite (bind_Done _ _ _ _ _ E1).
  destruct (writeStrMap_done l TestGridAlertEmail (Testgrid_AlertEmail t) h1) as (h2 & E2).
  rewrite (bind_Done _ _ _ _ _ E2).
  apply writeStrMap_done.
Qed.

Section Compile.
Variable yaml_Marshal : Job -> goresult string.
Variable yaml_Unmarshal : string -> goresult Job.
Variable resolveRequirements :
  gmap string string -> option PodSpec -> list RequirementPreset ->
  outcome (gmap string string * option PodSpec).
Hypothesis resolve_total :
  forall labels spec presets, exists r, resolveRequirements labels spec presets = Done r.

Lemma applyRequirements_done jb reqs pm h :
  exists jb' h', applyRequirements resolveRequirements jb reqs pm h = Done (jb', h')
    /\ JobBase_Name jb' = JobBase_Name jb.
Proof.
  unfold applyRequirements.
  rewrite (bind_Done _ _ h (strMapAt h (JobBase_Labels jb)) h); [|done].
  destruct (resolve_total (strMapAt h (JobBase_Labels jb)) (JobBase_Spec jb)
              (lookupPresets (presetMapAt h pm) reqs)) as (r & Er).
  rewrite (bind_Done _ _ _ _ _ (lift_Done _ _ h Er)).
  unfold setStrMap, bind, ret. eexists _, _. split; [reflexivity|]. done.
Qed.

Lemma compilePresubmit_done g jc branch job reqs prefix h :
  Forall (fun r => wellFormedRepo r = true) (Job_Repos job) ->
  exists p h', compilePresubmit resolveRequirements g jc branch job reqs prefix h
               = Done (p, h')
    /\ JobBase_Name (Presubmit_JobBase p) = jobName job jc branch "".
Proof.
  intros Hwf. unfold compilePresubmit.
  destruct (createExtraRefs_done _ branch (Global_PathAliases g) Hwf) as (refs & Hrefs).
  destruct (createJobBase_shape g jc job (jobName job jc branch "") branch
              (Jobs_Resources jc) h refs Hrefs) as (jb & h1 & cs & E1 & N1 & _).
  rewrite (bind_Done _ _ _ _ _ E1).
  set (jb1 := match Global_PathAliases g !! Jobs_Org jc with
              | Some pa => setPathAlias jb (pa +:+ "/" +:+ Jobs_Repo jc)
              | None => jb end).
  assert (Hn1 : JobBase_Name jb1 = jobName job jc branch "").
  { unfold jb1. by destruct (Global_PathAliases g !! Jobs_Org jc). }
  clearbody jb1.
  set (ps := if negb (String.eqb (Job_Regex job) "") then _ else _).
  assert (Hps : Presubmit_JobBase ps = jb1).
  { unfold ps. by destruct (negb _). }
  clearbody ps.
  assert (Hw : exists h2, (if Testgrid_Enabled (Global_TestgridConfig g)
               then writeStrMap (JobBase_Annotations jb1) TestGridDashboard prefix
               else ret tt) h1 = Done (tt, h2)).
  { destruct (Testgrid_Enabled _); [apply writeStrMap_done|by exists h1]. }
  destruct Hw as (h2 & E2). rewrite (bind_Done _ _ _ _ _ E2).
  destruct (applyRequirements_done
              (Presubmit_JobBase (applyModifiersPresubmit ps (Job_Modifiers job)))
              reqs (Global_RequirementPresets g) h2) as (jb3 & h3 & E3 & N3).
  rewrite (bind_Done _ _ _ _ _ E3).
  unfold ret. eexists _, _. split; [reflexivity|].
  cbn [Presubmit_JobBase]. by rewrite N3, applyModifiersPresubmit_base, Hps.
Qed.

Lemma compilePostsubmit_done g jc branch job reqs prefix h :
  Forall (fun r => wellFormedRepo r = true) (Job_Repos job) ->
  exists p h', compilePostsubmit resolveRequirements g jc branch job reqs prefix h
               = Done (p, h')
    /\ JobBase_Name (Postsubmit_JobBase p) = jobName job jc branch "_postsubmit".
Proof.
  intros Hwf. unfold compilePostsubmit.
  destruct (createExtraRefs_done _ branch (Global_PathAliases g) Hwf) as (refs & Hrefs).
  destruct (createJobBase_shape g jc job (jobName job jc branch "_postsubmit") branch
              (Jobs_Resources jc) h refs Hrefs) as (jb & h1 & cs & E1 & N1 & _).
  rewrite (bind_Done _ _ _ _ _ E1).
  set (jb1 := match Global_PathAliases g !! Jobs_Org jc with
              | Some pa => setPathAlias jb (pa +:+ "/" +:+ Jobs_Repo jc)
              | None => jb end).
  assert (Hn1 : JobBase_Name jb1 = jobName job jc branch "_postsubmit").
  { unfold jb1. by destruct (Global_PathAliases g !! Jobs_Org jc). }
  clearbody jb1.
  destruct (writeTestgrid_done (Global_TestgridConfig g) (JobBase_Annotations jb1)
              (prefix +:+ "_postsubmit") h1) as (h2 & E2).
  rewrite (bind_Done _ _ _ _ _ E2).
  match goal with |- context [applyRequirements _ ?b reqs _] =>
    destruct (applyRequirements_done b reqs (Global_RequirementPresets g) h2)
      as (jb3 & h3 & E3 & N3) end.
  rewrite (bind_Done _ _ _ _ _ E3).
  unfold ret. eexists _, _. split; [reflexivity|].
  cbn [Postsubmit_JobBase]. by rewrite N3, applyModifiersPostsubmit_base.
Qed.

Lemma compilePeriodic_done g jc branch job reqs prefix h :
  Forall (fun r => wellFormedRepo r = true) (Job_Repos job) ->
  wellFormedRepo (Jobs_Org jc +:+ "/" +:+ Jobs_Repo jc) = true ->
  exists p h', compilePeriodic resolveRequirements g jc branch job reqs prefix h
               = Done (p, h')
    /\ JobBase_Name (Periodic_JobBase p) = jobName job jc branch "_periodic".
Proof.
  intros Hwf Hself. unfold compilePeriodic.
  set (job' := if Nat.eqb (List.length (Job_Repos job)) 0 then _ else job).
  assert (Hwf' : Forall (fun r => wellFormedRepo r = true) (Job_Repos job')).
  { unfold job'. destruct (Nat.eqb _ 0); [|done]. by constructor. }
  clearbody job'.
  destruct (createExtraRefs_done _ branch (Global_PathAliases g) Hwf') as (refs & Hrefs).
  destruct (createJobBase_shape g jc job' (jobName job jc branch "_periodic") branch
              (Jobs_Resources jc) h refs Hrefs) as (jb & h1 & cs & E1 & N1 & _).
  rewrite (bind_Done _ _ _ _ _ E1).
  destruct (writeTestgrid_done (Global_TestgridConfig g) (JobBase_Annotations jb)
              (prefix +:+ "_periodic") h1) as (h2 & E2).
  rewrite (bind_Done _ _ _ _ _ E2).
  destruct (applyRequirements_done jb reqs (Global_RequirementPresets g) h2)
    as (jb3 & h3 & E3 & N3).
  rewrite (bind_Done _ _ _ _ _ E3).
  unfold ret. eexists _, _. split; [reflexivity|].
  cbn [Periodic_JobBase]. by rewrite N3.
Qed.
End Compile.

Lemma expectedNames_app jc branch sel suffix l1 l2 :
  expectedNames jc branch sel suffix (l1 ++ l2)
  = expectedNames jc branch sel suffix l1 ++ expectedNames jc branch sel suffix l2.
Proof. unfold expectedNames. by rewrite List.filter_app, map_app. Qed.

Lemma grows_nil jc branch acc : grows jc branch [] acc acc.
Proof. repeat split; exists []; by rewrite app_nil_r. Qed.

Lemma grows_app jc branch l1 l2 acc1 acc2 acc3 :
  grows jc branch l1 acc1 acc2 -> grows jc branch l2 acc2 acc3 ->
  grows jc branch (l1 ++ l2) acc1 acc3.
Proof.
  intros ((p1 & E1 & N1) & (q1 & F1 & M1) & (r1 & G1 & K1))
         ((p2 & E2 & N2) & (q2 & F2 & M2) & (r2 & G2 & K2)).
  repeat split.
  - exists (p1 ++ p2). rewrite E2, E1, <- app_assoc. split; [done|].
    unfold presubmitNames in *. by rewrite map_app, N1, N2, expectedNames_app.
  - exists (q1 ++ q2). rewrite F2, F1, <- app_assoc. split; [done|].
    unfold postsubmitNames in *. by rewrite map_app, M1, M2, expectedNames_app.
  - exists (r1 ++ r2). rewrite G2, G1, <- app_assoc. split; [done|].
    unfold periodicNames in *. by rewrite map_app, K1, K2, expectedNames_app.
Qed.

Section Convert.
Variable yaml_Marshal : Job -> goresult string.
Variable yaml_Unmarshal : string -> goresult Job.
Variable resolveRequirements :
  gmap string string -> option PodSpec -> list RequirementPreset ->
  outcome (gmap string string * option PodSpec).
Hypothesis resolve_total :
  forall labels spec presets, exists r, resolveRequirements labels spec presets = Done r.

Variable g : GlobalConfig.
Variable jc : JobsConfig.
Variable branch : string.
Hypothesis self_ok : wellFormedRepo (Jobs_Org jc +:+ "/" +:+ Jobs_Repo jc) = true.

Lemma convertJob_done acc job h :
  reposWellFormed job ->
  exists acc' h', convertJob resolveRequirements g jc branch acc job h = Done (acc', h')
    /\ grows jc branch [job] acc acc'.
Proof.
  intros Hwf. unfold convertJob.
  set (prefix := _ +:+ "_" +:+ Jobs_Repo jc). clearbody prefix.
  set (reqs := jobRequirements g jc job). clearbody reqs.
  assert (H1 : exists pre h1,
    (if selectsPresubmit job
     then p <- compilePresubmit resolveRequirements g jc branch job reqs prefix ;;
          ret (acc.1.1 ++ [p])
     else ret acc.1.1) h = Done (pre, h1)
    /\ exists ps, pre = acc.1.1 ++ ps
         /\ presubmitNames ps = expectedNames jc branch selectsPresubmit "" [job]).
  { unfold expectedNames. cbn [List.filter]. destruct (selectsPresubmit job).
    - destruct (compilePresubmit_done resolveRequirements resolve_total g jc branch job
                  reqs prefix h Hwf) as (p & h1 & E & N).
      rewrite (bind_Done _ _ _ _ _ E). eexists _, _. split; [reflexivity|].
      exists [p]. split; [done|]. simpl. by rewrite N.
    - eexists _, _. split; [reflexivity|]. exists []. by rewrite app_nil_r. }
  destruct H1 as (pre & h1 & E1 & G1). rewrite (bind_Done _ _ _ _ _ E1).
  assert (H2 : exists post h2,
    (if selectsPostsubmit job
     then p <- compilePostsubmit resolveRequirements g jc branch job reqs prefix ;;
          ret (acc.1.2 ++ [p])
     else ret acc.1.2) h1 = Done (post, h2)
    /\ exists ps, post = acc.1.2 ++ ps
         /\ postsubmitNames ps
            = expectedNames jc branch selectsPostsubmit "_postsubmit" [job]).
  { unfold expectedNames. cbn [List.filter]. destruct (selectsPostsubmit job).
    - destruct (compilePostsubmit_done resolveRequirements resolve_total g jc branch job
                  reqs prefix h1 Hwf) as (p & h2 & E & N).
      rewrite (bind_Done _ _ _ _ _ E). eexists _, _. split; [reflexivity|].
      exists [p]. split; [done|]. simpl. by rewrite N.
    - eexists _, _. split; [reflexivity|]. exists []. by rewrite app_nil_r. }
  destruct H2 as (post & h2 & E2 & G2). rewrite (bind_Done _ _ _ _ _ E2).
  assert (H3 : exists per h3,
    (if selectsPeriodic job
     then p <- compilePeriodic resolveRequirements g jc branch job reqs prefix ;;
          ret (acc.2 ++ [p])
     else ret acc.2) h2 = Done (per, h3)
    /\ exists ps, per = acc.2 ++ ps
         /\ periodicNames ps = expectedNames jc branch selectsPeriodic "_periodic" [job]).
  { unfold expectedNames. cbn [List.filter]. destruct (selectsPeriodic job).
    - destruct (compilePeriodic_done resolveRequirements resolve_total g jc branch job
                  reqs prefix h2 Hwf self_ok) as (p & h3 & E & N).
      rewrite (bind_Done _ _ _ _ _ E). eexists _, _. split; [reflexivity|].
      exists [p]. split; [done|]. simpl. by rewrite N.
    - eexists _, _. split; [reflexivity|]. exists []. by rewrite app_nil_r. }
  destruct H3 as (per & h3 & E3 & G3). rewrite (bind_Done _ _ _ _ _ E3).
  unfold ret. eexists _, _. split; [reflexivity|].
  split; [|split]; done.
Qed.

Lemma foldM_convertJob_done jobs : forall acc h,
  Forall reposWellFormed jobs ->
  exists acc' h', foldM (convertJob resolveRequirements g jc branch) jobs acc h
                  = Done (acc', h')
    /\ grows jc branch jobs acc acc'.
Proof.
  induction jobs as [|job rest IH]; intros acc h Hwf.
  - exists acc, h. split; [done|]. apply grows_nil.
  - inversion Hwf as [|? ? Hj Hrest]; subst. cbn [foldM].
    destruct (convertJob_done acc job h Hj) as (acc1 & h1 & E1 & G1).
    rewrite (bind_Done _ _ _ _ _ E1).
    destruct (IH acc1 h1 Hrest) as (acc2 & h2 & E2 & G2).
    exists acc2, h2. split; [done|].
    exact (grows_app jc branch [job] rest _ _ _ G1 G2).
Qed.

Lemma storeOutput_stored jobs output acc acc' :
  stored jc (acc, output) -> grows jc branch jobs acc acc' ->
  stored jc (acc', storeOutput jc output acc').
Proof.
  intros (S1 & S2 & S3) ((p & E1 & _) & (q & E2 & _) & (r & E3 & _)).
  unfold stored, storeOutput, presubmitsOf, postsubmitsOf in *.
  cbn [fst snd PresubmitsStatic PostsubmitsStatic Periodics] in *.
  split; [|split].
  - destruct (acc'.1.1) as [|x l] eqn:E; cbn [List.length Nat.ltb Nat.leb].
    + symmetry in E1. apply app_eq_nil in E1 as [E0 _]. rewrite S1. exact E0.
    + rewrite lookup_insert_eq. done.
  - destruct (acc'.1.2) as [|x l] eqn:E; cbn [List.length Nat.ltb Nat.leb].
    + symmetry in E2. apply app_eq_nil in E2 as [E0 _]. rewrite S2. exact E0.
    + rewrite lookup_insert_eq. done.
  - destruct (acc'.2) as [|x l] eqn:E; cbn [List.length Nat.ltb Nat.leb].
    + symmetry in E3. apply app_eq_nil in E3 as [E0 _]. rewrite S3. exact E0.
    + done.
Qed.

Lemma convertParent_done st job h e1 :
  applyMatrixJob yaml_Marshal yaml_Unmarshal job (Jobs_Matrix jc) = Done e1 ->
  Forall reposWellFormed e1 ->
  stored jc st ->
  exists st1 h1,
    convertParent yaml_Marshal yaml_Unmarshal resolveRequirements g jc branch st job h
    = Done (st1, h1)
    /\ stored jc st1 /\ grows jc branch e1 st.1 st1.1.
Proof.
  intros Ee Hw1 Hst. unfold convertParent.
  rewrite (bind_Done _ _ _ _ _ (lift_Done _ _ h Ee)).
  destruct (foldM_convertJob_done e1 st.1 h Hw1) as (acc1 & h1 & E1 & G1).
  rewrite (bind_Done _ _ _ _ _ E1).
  unfold ret. eexists _, _. split; [reflexivity|]. split; [|done].
  apply (storeOutput_stored e1 st.2 st.1 acc1); [|done]. by destruct st.
Qed.

Lemma foldM_convertParent_done jobs : forall st h expanded,
  expandJobs yaml_Marshal yaml_Unmarshal jobs (Jobs_Matrix jc) = Done expanded ->
  Forall reposWellFormed expanded ->
  stored jc st ->
  exists st' h',
    foldM (convertParent yaml_Marshal yaml_Unmarshal resolveRequirements g jc branch)
          jobs st h = Done (st', h')
    /\ stored jc st' /\ grows jc branch expanded st.1 st'.1.
Proof.
  induction jobs as [|job rest IH]; intros st h expanded Hexp Hwf Hst.
  - simpl in Hexp. injection Hexp as <-. exists st, h.
    split; [done|]. split; [done|]. apply grows_nil.
  - cbn [expandJobs] in Hexp.
    destruct (applyMatrixJob yaml_Marshal yaml_Unmarshal job (Jobs_Matrix jc))
      as [e1| |] eqn:Ee; cbn [obind] in Hexp; try done.
    destruct (expandJobs yaml_Marshal yaml_Unmarshal rest (Jobs_Matrix jc))
      as [e2| |] eqn:Er; cbn [obind] in Hexp; try done.
    injection Hexp as <-. apply Forall_app in Hwf as [Hw1 Hw2].
    cbn [foldM].
    destruct (convertParent_done st job h e1 Ee Hw1 Hst) as (st1 & h1 & E1 & S1 & G1).
    rewrite (bind_Done _ _ _ _ _ E1).
    destruct (IH st1 h1 e2 eq_refl Hw2 S1) as (st' & h' & E' & S' & G').
    exists st', h'. split; [done|]. split; [done|].
    exact (grows_app jc branch e1 e2 _ _ _ G1 G').
Qed.

(** What [ConvertJobConfig] returns: it returns when the jobs expand,
    their repositories have the form the extra references need and the
    resolver returns; the names of its descriptors are those of the
    expanded jobs that select the trigger kind, in their order. *)
Lemma ConvertJobConfig_names h expanded :
  expandJobs yaml_Marshal yaml_Unmarshal (Jobs_Jobs jc) (Jobs_Matrix jc) = Done expanded ->
  Forall reposWellFormed expanded ->
  exists out h',
    ConvertJobConfig yaml_Marshal yaml_Unmarshal resolveRequirements (mkClient g) jc branch h
    = Done (out, h')
    /\ presubmitNames (presubmitsOf jc out)
       = expectedNames jc branch selectsPresubmit "" expanded
    /\ postsubmitNames (postsubmitsOf jc out)
       = expectedNames jc branch selectsPostsubmit "_postsubmit" expanded
    /\ periodicNames (Periodics out)
       = expectedNames jc branch selectsPeriodic "_periodic" expanded.
Proof.
  intros Hexp Hwf. unfold ConvertJobConfig. cbn [GlobalConfigOf].
  destruct (foldM_convertParent_done (Jobs_Jobs jc) ([], [], [], mkJobConfig ∅ ∅ []) h
              expanded Hexp Hwf) as (st & h' & E & (S1 & S2 & S3) & G).
  { by repeat split. }
  rewrite (bind_Done _ _ _ _ _ E). unfold ret. exists st.2, h'. split; [done|].
  destruct G as ((p & E1 & N1) & (q & E2 & N2) & (r & E3 & N3)).
  cbn [fst snd app] in *. rewrite S1, S2, S3, E1, E2, E3. done.
Qed.
End Convert.

Lemma lookup_tiers (glob group job : gmap string string) k :
  (job ∪ (group ∪ glob)) !! k = precedence glob group job k.
Proof.
  unfold precedence. rewrite !lookup_union.
  destruct (job !! k), (group !! k), (glob !! k); done.
Qed.

Lemma clusterOverrides_true c : clusterOverrides c = true <-> c <> "" /\ c <> "default".
Proof.
  unfold clusterOverrides. rewrite andb_true_iff, !negb_true_iff.
  split.
  - intros [H1 H2]. split; intros ->; done.
  - intros [H1 H2]. split; by apply String.eqb_neq.
Qed.

Lemma clusterOverrides_false c : clusterOverrides c = false <-> c = "" \/ c = "default".
Proof.
  unfold clusterOverrides. rewrite andb_false_iff, !negb_false_iff, !String.eqb_eq. done.
Qed.

Lemma labelResolver_total labels spec presets :
  exists r, labelResolver labels spec presets = Done r.
Proof.
  unfold labelResolver, Decorator.resolveRequirements.
  destruct spec as [spec|]; [|eexists; reflexivity].
  assert (H : forall l a s, exists r,
             Decorator.mergeRequirements fillMerge a (Some l) s (map clearAnnotations presets)
             = Done r).
  { induction presets as [|p rest IH]; intros l a s; simpl; [eauto|].
    unfold Decorator.mergeRequirement. cbn [clearAnnotations Preset_Annotations].
    unfold Decorator.assignAll at 1. rewrite bool_decide_eq_true_2; [|done]. cbn [obind].
    destruct (Decorator.assignAll (Some l) _) as [l'| |] eqn:E.
    - unfold Decorator.assignAll in E. destruct (bool_decide _); injection E as <-; simpl.
      + destruct (Preset_PodSpec p); simpl; apply IH.
      + destruct (Preset_PodSpec p); simpl; apply IH.
    - unfold Decorator.assignAll in E. by destruct (bool_decide _).
    - unfold Decorator.assignAll in E. by destruct (bool_decide _). }
  destruct (H labels None spec) as (r & ->). simpl. eauto.
Qed.

Lemma NoDup_map_filter {A B} (f : A -> B) (p : A -> bool) (l : list A) :
  NoDup (map f l) -> NoDup (map f (List.filter p l)).
Proof.
  induction l as [|x l IH]; simpl; [done|].
  intros H. apply NoDup_cons in H as [Hx Hl].
  destruct (p x); simpl; [|by apply IH].
  apply NoDup_cons. split; [|by apply IH].
  intros Hin. apply Hx. apply list_elem_of_In in Hin. apply list_elem_of_In.
  apply in_map_iff in Hin as (y & Ey & Hy). apply in_map_iff. exists y. split; [done|].
  apply filter_In in Hy as [Hy _]. done.
Qed.

Lemma NoDup_map_suffix (names : list string) (suffix : string) :
  NoDup names -> NoDup (map (fun n => n +:+ suffix) names).
Proof.
  intros H.
  assert (Hinj : Inj (=) (=) (fun n : string => n +:+ suffix)).
  { intros a b. apply string_app_inj_r. }
  exact (NoDup_fmap_2 (fun n : string => n +:+ suffix) names H).
Qed.

Lemma expectedNames_NoDup jc branch sel suffix jobs :
  NoDup (map Job_Name jobs) -> NoDup (expectedNames jc branch sel suffix jobs).
Proof.
  intros H. unfold expectedNames.
  set (f := fun n : string => n +:+ ("_" +:+ Jobs_Repo jc +:+ branchSuffix branch +:+ suffix)).
  assert (E : map (fun job => jobName job jc branch suffix) (List.filter sel jobs)
              = map f (map Job_Name (List.filter sel jobs))).
  { rewrite map_map. apply map_ext. intros job. apply jobName_eq. }
  rewrite E. apply NoDup_map_suffix. by apply NoDup_map_filter.
Qed.

(** C9 (amended): for every job group and branch, [ConvertJobConfig]
    names the presubmit of an expanded job [<job>_<repo>] on branch
    ["master"] and [<job>_<repo>_<branch>] on another branch, its
    postsubmit that name with [_postsubmit] after it and its periodic that
    name with [_periodic] after it; and when the expanded jobs have
    different names, no two descriptors of one trigger kind share a
    name. *)
Theorem compiled_names_follow_scheme
    (yaml_Marshal : Job -> goresult string) (yaml_Unmarshal : string -> goresult Job)
    (resolveRequirements : gmap string string -> option PodSpec ->
                           list RequirementPreset ->
                           outcome (gmap string string * option PodSpec))
    (g : GlobalConfig) (jc : JobsConfig) (branch : string) (h : Heap)
    (expanded : list Job) :
  (forall labels spec presets, exists r, resolveRequirements labels spec presets = Done r) ->
  wellFormedRepo (Jobs_Org jc +:+ "/" +:+ Jobs_Repo jc) = true ->
  expandJobs yaml_Marshal yaml_Unmarshal (Jobs_Jobs jc) (Jobs_Matrix jc) = Done expanded ->
  Forall reposWellFormed expanded ->
  exists out h',
    ConvertJobConfig yaml_Marshal yaml_Unmarshal resolveRequirements (mkClient g) jc branch h
    = Done (out, h')
    /\ presubmitNames (presubmitsOf jc out)
       = map (fun job => Job_Name job +:+ "_" +:+ Jobs_Repo jc +:+ branchSuffix branch)
             (List.filter selectsPresubmit expanded)
    /\ postsubmitNames (postsubmitsOf jc out)
       = map (fun job => Job_Name job +:+ "_" +:+ Jobs_Repo jc +:+ branchSuffix branch
                           +:+ "_postsubmit")
             (List.filter selectsPostsubmit expanded)
    /\ periodicNames (Periodics out)
       = map (fun job => Job_Name job +:+ "_" +:+ Jobs_Repo jc +:+ branchSuffix branch
                           +:+ "_periodic")
             (List.filter selectsPeriodic expanded)
    /\ (NoDup (map Job_Name expanded) ->
        NoDup (presubmitNames (presubmitsOf jc out))
        /\ NoDup (postsubmitNames (postsubmitsOf jc out))
        /\ NoDup (periodicNames (Periodics out))).
Proof.
  intros Htot Hself Hexp Hwf.
  destruct (ConvertJobConfig_names yaml_Marshal yaml_Unmarshal resolveRequirements Htot
              g jc branch Hself h expanded Hexp Hwf) as (out & h' & E & N1 & N2 & N3).
  exists out, h'. split; [done|]. rewrite N1, N2, N3. unfold expectedNames.
  split; [|split; [|split; [|]]].
  - apply map_ext. intros job. rewrite jobName_eq.
    change ("" : string) with EmptyString.
    assert (Hs : forall s : string, s +:+ "" = s).
    { induction s as [|x s IH]; [done|]. rewrite string_app_cons. by rewrite IH. }
    by rewrite Hs.
  - apply map_ext. intros job. by rewrite jobName_eq.
  - apply map_ext. intros job. by rewrite jobName_eq.
  - intros Hnd. repeat split; by apply expectedNames_NoDup.
Qed.

(** C2 (amended): every call of [ConvertJobConfig], one for each target
    branch, compiles one periodic descriptor for each expanded job whose
    types include periodic, and names it after the branch of the call. *)
Theorem periodic_compiled_per_branch
    (yaml_Marshal : Job -> goresult string) (yaml_Unmarshal : string -> goresult Job)
    (resolveRequirements : gmap string string -> option PodSpec ->
                           list RequirementPreset ->
                           outcome (gmap string string * option PodSpec))
    (g : GlobalConfig) (jc : JobsConfig) (branch : string) (h : Heap)
    (expanded : list Job) :
  (forall labels spec presets, exists r, resolveRequirements labels spec presets = Done r) ->
  wellFormedRepo (Jobs_Org jc +:+ "/" +:+ Jobs_Repo jc) = true ->
  expandJobs yaml_Marshal yaml_Unmarshal (Jobs_Jobs jc) (Jobs_Matrix jc) = Done expanded ->
  Forall reposWellFormed expanded ->
  exists out h',
    ConvertJobConfig yaml_Marshal yaml_Unmarshal resolveRequirements (mkClient g) jc branch h
    = Done (out, h')
    /\ List.length (Periodics out)
       = List.length (List.filter (fun job => contains (Job_Types job) TypePeriodic) expanded)
    /\ forall i p, Periodics out !! i = Some p ->
         exists job,
           List.filter (fun job => contains (Job_Types job) TypePeriodic) expanded !! i
           = Some job
           /\ JobBase_Name (Periodic_JobBase p)
              = Job_Name job +:+ "_" +:+ Jobs_Repo jc
                  +:+ (if String.eqb branch "master" then "" else "_" +:+ branch)
                  +:+ "_periodic".
Proof.
  intros Htot Hself Hexp Hwf.
  destruct (ConvertJobConfig_names yaml_Marshal yaml_Unmarshal resolveRequirements Htot
              g jc branch Hself h expanded Hexp Hwf) as (out & h' & E & _ & _ & N3).
  exists out, h'. split; [done|]. unfold expectedNames, periodicNames in N3.
  fold selectsPeriodic. split.
  - apply (f_equal (@List.length string)) in N3. by rewrite !length_map in N3.
  - intros i p Hp.
    apply (f_equal (fun l => l !! i)) in N3.
    change (map ?f ?l) with (f <$> l) in N3. rewrite !list_lookup_fmap, Hp in N3.
    destruct (List.filter selectsPeriodic expanded !! i) as [job|]; [|done].
    exists job. split; [done|]. simpl in N3. injection N3 as ->.
    by rewrite jobName_eq.
Qed.

Lemma foldM_map_same {A B} (f : B -> A -> M B) (g : A -> A) (l : list A) :
  Forall (fun a => forall b h, f b (g a) h = f b a h) l ->
  forall b h, foldM f (map g l) b h = foldM f l b h.
Proof.
  induction 1 as [|a l Ha _ IH]; intros b h; [done|].
  cbn [map foldM]. unfold bind. rewrite Ha.
  destruct (f b a h) as [[b1 h1]| |]; auto.
Qed.

Section EmptySelector.
Variable yaml_Marshal : Job -> goresult string.
Variable yaml_Unmarshal : string -> goresult Job.
Variable resolveRequirements :
  gmap string string -> option PodSpec -> list RequirementPreset ->
  outcome (gmap string string * option PodSpec).

(** The job is read off its text only. *)
Lemma convertParent_dropEmptySelector g jc branch st parent h :
  omitsEmptySelector yaml_Marshal parent ->
  convertParent yaml_Marshal yaml_Unmarshal resolveRequirements g jc branch st
                (dropEmptySelector parent) h
  = convertParent yaml_Marshal yaml_Unmarshal resolveRequirements g jc branch st parent h.
Proof.
  intros H. unfold dropEmptySelector. case_bool_decide as E; [|done].
  unfold convertParent, applyMatrixJob. by rewrite (H E).
Qed.

(** The list of the jobs is read by the outer loop only. *)
Lemma convertParent_withJobs g jc jobs branch :
  convertParent yaml_Marshal yaml_Unmarshal resolveRequirements g (withJobs jc jobs) branch
  = convertParent yaml_Marshal yaml_Unmarshal resolveRequirements g jc branch.
Proof. reflexivity. Qed.

Lemma ConvertJobConfig_dropEmptySelector g jc parents branch h :
  Forall (omitsEmptySelector yaml_Marshal) parents ->
  ConvertJobConfig yaml_Marshal yaml_Unmarshal resolveRequirements (mkClient g)
                   (withJobs jc parents) branch h
  = ConvertJobConfig yaml_Marshal yaml_Unmarshal resolveRequirements (mkClient g)
                     (withJobs jc (map dropEmptySelector parents)) branch h.
Proof.
  intros Hall. unfold ConvertJobConfig. cbv zeta.
  cbn [GlobalConfigOf Jobs_Jobs withJobs]. rewrite !convertParent_withJobs.
  unfold bind. rewrite foldM_map_same; [done|].
  eapply Forall_impl; [exact Hall|]. intros p Hp b h1.
  by apply convertParent_dropEmptySelector.
Qed.

End EmptySelector.

(** C3 (amended): [createJobBase], run on a store that holds the maps of
    the global configuration, resolves each field on its own, the job
    over the job group over the global configuration.  A key of the
    annotations, and of the labels, has the value of the most specific tier
    that sets it, so a map that is unset or empty takes nothing away.  The
    node selector is the map of the most specific tier whose map is not
    nil, as a whole, be it empty.  The cluster is that of the most specific
    tier whose cluster is neither empty nor ["default"].  The job of these
    statements is the one [createJobBase] is handed, which
    [applyMatrixJob] has marshalled and parsed back: with a marshaller
    that leaves an empty node selector out, a job group compiles as it
    does with the empty node selectors of its jobs taken off, so that an
    empty node selector of a job, unlike one of the job group, replaces
    nothing. *)
Theorem createJobBase_precedence
    (yaml_Marshal : Job -> goresult string) (yaml_Unmarshal : string -> goresult Job)
    (resolveRequirements : gmap string string -> option PodSpec ->
                           list RequirementPreset ->
                           outcome (gmap string string * option PodSpec))
    (g : GlobalConfig) (jc : JobsConfig) (job : Job) (name branch : string)
    (res : option loc) (h : Heap) (refs : list Refs) :
  createExtraRefs (Job_Repos job) branch (Global_PathAliases g) = Done refs ->
  wfGlobal g h ->
  (exists jb h' spec,
    createJobBase g jc job name branch res h = Done (jb, h')
    /\ JobBase_Spec jb = Some spec
    /\ (forall k, strMapAt h' (JobBase_Annotations jb) !! k
                  = precedence (globalStrMap h (Global_Annotations g))
                               (default ∅ (Jobs_Annotations jc))
                               (default ∅ (Job_Annotations job)) k)
    /\ (forall k, strMapAt h' (JobBase_Labels jb) !! k
                  = precedence (globalStrMap h (Global_Labels g))
                               (default ∅ (Jobs_Labels jc))
                               (default ∅ (Job_Labels job)) k)
    /\ PodSpec_NodeSelector spec
       = match Job_NodeSelector job with
         | Some m => Some m
         | None => match Jobs_NodeSelector jc with
                   | Some m => Some m
                   | None => Global_NodeSelector g
                   end
         end
    /\ JobBase_Cluster jb
       = if clusterOverrides (Job_Cluster job) then Job_Cluster job
         else if clusterOverrides (Jobs_Cluster jc) then Jobs_Cluster jc
         else if clusterOverrides (Global_Cluster g) then Global_Cluster g
         else "")
  /\ (forall parents h0,
        Forall (omitsEmptySelector yaml_Marshal) parents ->
        ConvertJobConfig yaml_Marshal yaml_Unmarshal resolveRequirements (mkClient g)
                         (withJobs jc parents) branch h0
        = ConvertJobConfig yaml_Marshal yaml_Unmarshal resolveRequirements (mkClient g)
                           (withJobs jc (map dropEmptySelector parents)) branch h0).
Proof.
  intros Hrefs Hwf. split.
  - destruct (createJobBase_shape g jc job name branch res h refs Hrefs)
      as (jb & h' & cs & E & _ & Hc & Hs & _).
    destruct (createJobBase_maps g jc job name branch res h refs Hrefs Hwf)
      as (jb2 & h2 & E2 & Ha & Hl & _).
    rewrite E in E2. injection E2 as <- <-.
    exists jb, h', (mkPodSpec cs [] (tierNodeSelector g jc job) "").
    split; [done|]. split; [done|].
    split; [intros k; by rewrite Ha, lookup_tiers|].
    split; [intros k; by rewrite Hl, lookup_tiers|].
    split; done.
  - intros parents h0 Hall. by apply ConvertJobConfig_dropEmptySelector.
Qed.

(** C10: a cluster that is empty or ["default"] never sets the cluster of
    the compiled job, at any tier; one that is neither takes over from the
    less specific tiers. *)
Theorem cluster_default_never_overrides
    (g : GlobalConfig) (jc : JobsConfig) (job : Job) (name branch : string)
    (res : option loc) (h : Heap) (refs : list Refs) :
  createExtraRefs (Job_Repos job) branch (Global_PathAliases g) = Done refs ->
  exists jb h',
    createJobBase g jc job name branch res h = Done (jb, h')
    /\ (Job_Cluster job <> "" /\ Job_Cluster job <> "default" ->
        JobBase_Cluster jb = Job_Cluster job)
    /\ (Job_Cluster job = "" \/ Job_Cluster job = "default" ->
        (Jobs_Cluster jc <> "" /\ Jobs_Cluster jc <> "default" ->
         JobBase_Cluster jb = Jobs_Cluster jc)
        /\ (Jobs_Cluster jc = "" \/ Jobs_Cluster jc = "default" ->
            (Global_Cluster g <> "" /\ Global_Cluster g <> "default" ->
             JobBase_Cluster jb = Global_Cluster g)
            /\ (Global_Cluster g = "" \/ Global_Cluster g = "default" ->
                JobBase_Cluster jb = ""))).
Proof.
  intros Hrefs.
  destruct (createJobBase_shape g jc job name branch res h refs Hrefs)
    as (jb & h' & cs & E & _ & Hc & _).
  exists jb, h'. split; [done|]. rewrite Hc. unfold tierCluster.
  split.
  - intros H. apply clusterOverrides_true in H. by rewrite H.
  - intros H. apply clusterOverrides_false in H. rewrite H. split.
    + intros H2. apply clusterOverrides_true in H2. by rewrite H2.
    + intros H2. apply clusterOverrides_false in H2. rewrite H2. split.
      * intros H3. apply clusterOverrides_true in H3. by rewrite H3.
      * intros H3. apply clusterOverrides_false in H3. by rewrite H3.
Qed.

Lemma elem_of_nonempty {A} (x : A) (l : list A) : x ∈ l -> l <> [].
Proof. intros H ->. by apply elem_of_nil in H. Qed.

Section Validate.
Variable cron_Parse : string -> goresult unit.
Variable time_ParseDuration : string -> goresult unit.

Lemma validatePeriodic_in_errors fileName jc job h msg :
  job ∈ Jobs_Jobs jc ->
  msg ∈ validatePeriodic cron_Parse time_ParseDuration fileName job ->
  msg ∈ validationErrors cron_Parse time_ParseDuration fileName jc h.
Proof.
  intros Hjob Hmsg. unfold validationErrors.
  apply elem_of_app; right. apply elem_of_app; right.
  apply list_elem_of_In, in_flat_map. exists job. split; [by apply list_elem_of_In|].
  apply list_elem_of_In. unfold validateJob.
  apply elem_of_app; right. apply elem_of_app; right. apply elem_of_app; right.
  apply elem_of_app; left. done.
Qed.

Lemma ValidateJobConfig_exits cli fileName jc h msg :
  msg ∈ validationErrors cron_Parse time_ParseDuration fileName jc h ->
  exists text, ValidateJobConfig cron_Parse time_ParseDuration cli fileName jc h = Exit text.
Proof.
  intros Hmsg. unfold ValidateJobConfig.
  destruct (validationErrors _ _ fileName jc h) as [|e errs].
  - by apply elem_of_nil in Hmsg.
  - eexists. reflexivity.
Qed.
End Validate.

(** C8: for a job whose types include periodic, [ValidateJobConfig] ends
    the run when cron and interval are both set and when neither is, and
    the check of the schedule reports nothing when exactly one is set and
    its parser accepts it. *)
Theorem periodic_schedule_exclusive
    (cron_Parse time_ParseDuration : string -> goresult unit)
    (cli : Client) (fileName : string) (jc : JobsConfig) (job : Job) (h : Heap) :
  job ∈ Jobs_Jobs jc ->
  contains (Job_Types job) TypePeriodic = true ->
  (Job_Cron job <> "" -> Job_Interval job <> "" ->
   (fileName +:+ ": cron and interval cannot be both set in periodic " +:+ Job_Name job)
     ∈ validationErrors cron_Parse time_ParseDuration fileName jc h
   /\ exists text,
       ValidateJobConfig cron_Parse time_ParseDuration cli fileName jc h = Exit text)
  /\ (Job_Cron job = "" -> Job_Interval job = "" ->
      (fileName +:+ ": cron and interval cannot be both empty in periodic " +:+ Job_Name job)
        ∈ validationErrors cron_Parse time_ParseDuration fileName jc h
      /\ exists text,
          ValidateJobConfig cron_Parse time_ParseDuration cli fileName jc h = Exit text)
  /\ (Job_Cron job <> "" -> Job_Interval job = "" ->
      cron_Parse (Job_Cron job) = Ok tt ->
      validatePeriodic cron_Parse time_ParseDuration fileName job = [])
  /\ (Job_Cron job = "" -> Job_Interval job <> "" ->
      time_ParseDuration (Job_Interval job) = Ok tt ->
      validatePeriodic cron_Parse time_ParseDuration fileName job = []).
Proof.
  intros Hjob Hper.
  assert (Hboth : forall msg,
             msg ∈ validatePeriodic cron_Parse time_ParseDuration fileName job ->
             msg ∈ validationErrors cron_Parse time_ParseDuration fileName jc h
             /\ exists text,
                 ValidateJobConfig cron_Parse time_ParseDuration cli fileName jc h = Exit text).
  { intros msg Hmsg.
    pose proof (validatePeriodic_in_errors _ _ fileName jc job h msg Hjob Hmsg) as Hin.
    split; [done|]. by apply (ValidateJobConfig_exits _ _ cli fileName jc h msg). }
  split; [|split; [|split]].
  - intros Hc Hi. apply Hboth. unfold validatePeriodic. rewrite Hper.
    apply String.eqb_neq in Hc, Hi. rewrite Hc, Hi. cbn [negb andb]. by apply list_elem_of_singleton.
  - intros Hc Hi. apply Hboth. unfold validatePeriodic. rewrite Hper, Hc, Hi.
    cbn. by apply list_elem_of_singleton.
  - intros Hc Hi Hp. unfold validatePeriodic. rewrite Hper, Hi.
    apply String.eqb_neq in Hc. rewrite Hc. cbn [negb andb String.eqb]. by rewrite Hp.
  - intros Hc Hi Hp. unfold validatePeriodic. rewrite Hper, Hc.
    apply String.eqb_neq in Hi. rewrite Hi. cbn [negb andb String.eqb]. by rewrite Hp.
Qed.

(** *** The global configuration under reading and validation *)

(** [ReadJobConfig] hands the resource map of the global configuration
    to the job group and writes the profiles of the group into it. *)
Lemma ReadJobConfig_writes_global_resources cli jobs h l :
  Global_Resources (GlobalConfigOf cli) = Some l ->
  exists jc h',
    ReadJobConfig cli jobs h = Done (jc, h')
    /\ Jobs_Resources jc = Some l
    /\ resMapAt h' (Some l) = resMapAt h (Jobs_Resources jobs) ∪ resMapAt h (Some l).
Proof.
  intros Hl. unfold ReadJobConfig. rewrite Hl.
  unfold bind, ret.
  destruct (Global_RequirementPresets (GlobalConfigOf cli)) as [pl|].
  - eexists _, _. split; [reflexivity|]. split; [reflexivity|].
    unfold resMapAt at 1. cbn [resMaps]. rewrite lookup_insert_eq. done.
  - unfold newPresetMap. cbn [resMaps strMaps presetMaps].
    eexists _, _. split; [reflexivity|]. split; [reflexivity|].
    unfold resMapAt at 1. cbn [resMaps]. rewrite lookup_insert_eq. done.
Qed.

(** The names [ConvertJobConfig] resolves for a job start with the base
    requirements of the global configuration, whatever they are. *)
Lemma jobRequirements_base g jc job :
  exists rest, jobRequirements g jc job = Global_BaseRequirements g ++ rest.
Proof.
  unfold jobRequirements.
  generalize (Job_Requirements job ++ Jobs_Requirements jc) as names.
  assert (H : forall names acc, exists rest,
             fold_left (fun requirements req =>
                          if negb (contains requirements req) then requirements ++ [req]
                          else requirements) names acc = acc ++ rest).
  { induction names as [|n names IH]; intros acc; simpl.
    - exists []. by rewrite app_nil_r.
    - destruct (negb (contains acc n)).
      + destruct (IH (acc ++ [n])) as (rest & ->). exists (n :: rest).
        by rewrite <- app_assoc.
      + apply IH. }
  intros names. apply H.
Qed.

(** A name that the map does not hold resolves to the zero preset. *)
Lemma lookupPresets_unknown presetMap name :
  presetMap !! name = None -> lookupPresets presetMap [name] = [zeroPreset].
Proof. intros H. unfold lookupPresets. simpl. by rewrite H. Qed.

(** [ValidateJobConfig] does not read the global configuration: the base
    requirements are not among the names it checks. *)
Lemma ValidateJobConfig_ignores_global
    (cron_Parse time_ParseDuration : string -> goresult unit)
    (cli1 cli2 : Client) (fileName : string) (jc : JobsConfig) (h : Heap) :
  ValidateJobConfig cron_Parse time_ParseDuration cli1 fileName jc h
  = ValidateJobConfig cron_Parse time_ParseDuration cli2 fileName jc h.
Proof. reflexivity. Qed.

(** *** Closed examples *)

(** A job with a cron schedule alone passes the check; in the same group
    a job with a cron schedule and an interval ends the validation. *)
Lemma periodic_schedule_exclusive_witness :
  nightly ∈ Jobs_Jobs scheduleGroup
  /\ contains (Job_Types nightly) TypePeriodic = true
  /\ validatePeriodic parseCron parseDuration "jobs.yaml" nightly = []
  /\ exists text,
      ValidateJobConfig parseCron parseDuration (mkClient plainGlobal) "jobs.yaml"
                        scheduleGroup emptyHeap
      = Exit text.
Proof.
  split; [apply list_elem_of_here|]. split; [reflexivity|]. split.
  - destruct (periodic_schedule_exclusive parseCron parseDuration (mkClient plainGlobal)
                "jobs.yaml" scheduleGroup
                nightly emptyHeap (list_elem_of_here _ _) eq_refl) as (_ & _ & Hcron & _).
    apply Hcron; [discriminate|reflexivity|reflexivity].
  - destruct (periodic_schedule_exclusive parseCron parseDuration (mkClient plainGlobal)
                "jobs.yaml" scheduleGroup
                clash emptyHeap (list_elem_of_further _ _ _ (list_elem_of_here _ _)) eq_refl)
      as (Hboth & _).
    destruct Hboth as [_ Hexit]; [discriminate|discriminate|]. exact Hexit.
Defined.

(** The naming example of the specification on the branch
    [release-1.2]. *)
Lemma compiled_names_follow_scheme_witness :
  wellFormedRepo (Jobs_Org namingGroup +:+ "/" +:+ Jobs_Repo namingGroup) = true
  /\ expandJobs sexpMarshal sexpUnmarshal (Jobs_Jobs namingGroup) (Jobs_Matrix namingGroup)
     = Done [unitTest; nightly]
  /\ Forall reposWellFormed [unitTest; nightly]
  /\ exists out h',
      compile (mkClient plainGlobal) namingGroup "release-1.2" emptyHeap = Done (out, h')
      /\ presubmitNames (presubmitsOf namingGroup out) = ["unit-test_myrepo_release-1.2"]
      /\ postsubmitNames (postsubmitsOf namingGroup out)
         = ["unit-test_myrepo_release-1.2_postsubmit"]
      /\ periodicNames (Periodics out) = ["nightly_myrepo_release-1.2_periodic"].
Proof.
  assert (Hexp : expandJobs sexpMarshal sexpUnmarshal (Jobs_Jobs namingGroup)
                            (Jobs_Matrix namingGroup) = Done [unitTest; nightly]).
  { vm_compute. reflexivity. }
  assert (Hwf : Forall reposWellFormed [unitTest; nightly]).
  { repeat constructor. }
  split; [reflexivity|]. split; [exact Hexp|]. split; [exact Hwf|].
  destruct (compiled_names_follow_scheme sexpMarshal sexpUnmarshal labelResolver plainGlobal
              namingGroup "release-1.2" emptyHeap [unitTest; nightly] labelResolver_total
              eq_refl Hexp Hwf) as (out & h' & E & N1 & N2 & N3 & _).
  exists out, h'. split; [exact E|]. rewrite N1, N2, N3. repeat split.
Defined.

(** One periodic job, compiled for the branch [release-1.2]. *)
Lemma periodic_compiled_per_branch_witness :
  wellFormedRepo (Jobs_Org nightlyGroup +:+ "/" +:+ Jobs_Repo nightlyGroup) = true
  /\ expandJobs sexpMarshal sexpUnmarshal (Jobs_Jobs nightlyGroup) (Jobs_Matrix nightlyGroup)
     = Done [nightly]
  /\ Forall reposWellFormed [nightly]
  /\ exists out h',
      compile (mkClient plainGlobal) nightlyGroup "release-1.2" emptyHeap = Done (out, h')
      /\ List.length (Periodics out) = 1.
Proof.
  assert (Hexp : expandJobs sexpMarshal sexpUnmarshal (Jobs_Jobs nightlyGroup)
                            (Jobs_Matrix nightlyGroup) = Done [nightly]).
  { vm_compute. reflexivity. }
  assert (Hwf : Forall reposWellFormed [nightly]).
  { repeat constructor. }
  split; [reflexivity|]. split; [exact Hexp|]. split; [exact Hwf|].
  destruct (periodic_compiled_per_branch sexpMarshal sexpUnmarshal labelResolver plainGlobal
              nightlyGroup "release-1.2" emptyHeap [nightly] labelResolver_total
              eq_refl Hexp Hwf) as (out & h' & E & Hlen & _).
  exists out, h'. split; [exact E|]. rewrite Hlen. reflexivity.
Defined.

(** C2 as it is written does not hold: the job group of one periodic
    job and two target branches is compiled once for each branch, and each
    of the two calls returns a periodic descriptor of its own, named after
    its branch. *)
Lemma periodic_compiled_for_each_branch :
  match compile (mkClient plainGlobal) nightlyGroup "master" emptyHeap with
  | Done (out1, h1) =>
      match compile (mkClient plainGlobal) nightlyGroup "release-1.2" h1 with
      | Done (out2, _) =>
          periodicNames (Periodics out1) = ["nightly_myrepo_periodic"]
          /\ periodicNames (Periodics out2) = ["nightly_myrepo_release-1.2_periodic"]
      | _ => False
      end
  | _ => False
  end.
Proof. vm_compute. split; reflexivity. Qed.

Lemma wfGlobal_tier : wfGlobal tierGlobal tierHeap.
Proof.
  split; intros l Hl; [|discriminate].
  injection Hl as <-. apply elem_of_dom. eexists. reflexivity.
Qed.

(** The precedence example of the specification: global annotations
    [{a:1}], group annotations [{a:2,b:2}], job annotations [{b:3}] compile
    to [{a:2,b:3}].  And a job that declares an empty node selector, under
    a global configuration that selects the [pool] of builds: the
    presubmit of the job has the node selector of the global
    configuration. *)
Lemma createJobBase_precedence_witness :
  createExtraRefs (Job_Repos tierJob) "master" (Global_PathAliases tierGlobal) = Done []
  /\ wfGlobal tierGlobal tierHeap
  /\ (exists jb h',
      createJobBase tierGlobal tierGroup tierJob "unit-test_myrepo" "master" None tierHeap
      = Done (jb, h')
      /\ strMapAt h' (JobBase_Annotations jb) !! "a" = Some "2"
      /\ strMapAt h' (JobBase_Annotations jb) !! "b" = Some "3"
      /\ forall k, k <> "a" -> k <> "b" -> strMapAt h' (JobBase_Annotations jb) !! k = None)
  /\ Job_NodeSelector emptySelectorJob = Some ∅
  /\ Forall (omitsEmptySelector sexpMarshal) [emptySelectorJob]
  /\ exists out h',
      compile (mkClient tierGlobal) (withJobs tierGroup [emptySelectorJob]) "master" tierHeap
      = Done (out, h')
      /\ map (fun p => PodSpec_NodeSelector <$> JobBase_Spec (Presubmit_JobBase p))
             (presubmitsOf tierGroup out)
         = [Some (Some {["pool" := "build"]})].
Proof.
  assert (Homit : Forall (omitsEmptySelector sexpMarshal) [emptySelectorJob]).
  { repeat constructor. }
  destruct (createJobBase_precedence sexpMarshal sexpUnmarshal labelResolver
              tierGlobal tierGroup tierJob "unit-test_myrepo" "master"
              None tierHeap [] eq_refl wfGlobal_tier)
    as [(jb & h' & spec & E & _ & Ha & _) Hdrop].
  split; [reflexivity|]. split; [exact wfGlobal_tier|]. split; [|split; [reflexivity|split]].
  - exists jb, h'. split; [exact E|]. rewrite !Ha. split; [reflexivity|].
    split; [reflexivity|].
    intros k Ka Kb. rewrite Ha. unfold precedence.
    cbn [tierJob tierGroup tierGlobal withTiers withGroupTiers withGlobalTiers
         Job_Annotations Jobs_Annotations Global_Annotations default from_option
         globalStrMap id].
    rewrite lookup_singleton_ne; [|congruence].
    rewrite lookup_insert_ne; [|congruence].
    rewrite lookup_singleton_ne; [|congruence].
    unfold strMapAt, tierHeap. cbn [strMaps]. rewrite lookup_singleton_eq.
    cbn [default from_option id]. apply lookup_singleton_ne. congruence.
  - exact Homit.
  - unfold compile. rewrite (Hdrop [emptySelectorJob] tierHeap Homit).
    eexists _, _. split; vm_compute; reflexivity.
Defined.

(** C3 as it is written does not hold for the node selector: the job
    group declares an empty node selector, and the compiled job has the
    empty one for the [pool] selector of the global configuration, in
    [createJobBase] and in the presubmit that [ConvertJobConfig] returns
    for the job group. *)
Lemma empty_node_selector_erases :
  Global_NodeSelector tierGlobal = Some {["pool" := "build"]}
  /\ Jobs_NodeSelector emptySelectorGroup = Some ∅
  /\ Job_NodeSelector unitTest = None
  /\ match createJobBase tierGlobal emptySelectorGroup unitTest "unit-test_myrepo" "master"
                         None tierHeap with
     | Done (jb, _) => PodSpec_NodeSelector <$> JobBase_Spec jb = Some (Some ∅)
     | _ => False
     end
  /\ match compile (mkClient tierGlobal) (withJobs emptySelectorGroup [unitTest]) "master"
                   tierHeap with
     | Done (out, _) =>
         map (fun p => PodSpec_NodeSelector <$> JobBase_Spec (Presubmit_JobBase p))
             (presubmitsOf emptySelectorGroup out)
         = [Some (Some ∅)]
     | _ => False
     end.
Proof. vm_compute. repeat split. Qed.

(** A job that declares the cluster ["default"] keeps the cluster of its
    job group. *)
Lemma cluster_default_never_overrides_witness :
  createExtraRefs (Job_Repos defaultClusterJob) "master" (Global_PathAliases plainGlobal)
  = Done []
  /\ exists jb h',
      createJobBase plainGlobal clusterGroup defaultClusterJob "unit-test_myrepo" "master"
                    None emptyHeap = Done (jb, h')
      /\ JobBase_Cluster jb = "build-cluster".
Proof.
  split; [reflexivity|].
  destruct (cluster_default_never_overrides plainGlobal clusterGroup defaultClusterJob
              "unit-test_myrepo" "master" None emptyHeap [] eq_refl)
    as (jb & h' & E & _ & Hgroup).
  exists jb, h'. split; [exact E|].
  destruct (Hgroup (or_intror eq_refl)) as [Hset _]. apply Hset. split; discriminate.
Defined.

(** C9 as it is written does not hold for the uniqueness: the job group
    declares one job, [lint], whose command takes the two values of the
    axis [go]; the two expanded jobs have the name of the template, and the
    compiled output has two presubmits of one name. *)
Lemma expanded_jobs_share_a_name :
  match compile (mkClient plainGlobal) lintGroup "master" emptyHeap with
  | Done (out, _) =>
      presubmitNames (presubmitsOf lintGroup out) = ["lint_myrepo"; "lint_myrepo"]
      /\ ~ NoDup (presubmitNames (presubmitsOf lintGroup out))
  | _ => False
  end.
Proof.
  vm_compute. split; [reflexivity|].
  intros H. apply NoDup_cons in H as [H _]. apply H. apply list_elem_of_here.
Qed.

(** C4 at a base requirement that no preset defines: the document is
    read and validated without an error, the names handed to
    [applyRequirements] hold the undefined name, its preset is the zero
    preset, and the job is compiled. *)
Theorem undefined_base_requirement_is_applied :
  Global_BaseRequirements sharedGlobal = ["ghost"]
  /\ presetMapAt sharedHeap (Global_RequirementPresets sharedGlobal) !! "ghost" = None
  /\ match (jc <- ReadJobConfig (mkClient sharedGlobal) sharedDocument ;;
            _ <- ValidateJobConfig parseCron parseDuration (mkClient sharedGlobal) "jobs.yaml" jc ;;
            out <- compile (mkClient sharedGlobal) jc "master" ;;
            ret (jc, out)) sharedHeap with
     | Done (jc, out, h') =>
         validationErrors parseCron parseDuration "jobs.yaml" jc h' = []
         /\ jobRequirements sharedGlobal jc unitTest = ["ghost"]
         /\ lookupPresets (presetMapAt h' (Global_RequirementPresets sharedGlobal))
                          (jobRequirements sharedGlobal jc unitTest) = [zeroPreset]
         /\ presubmitNames (presubmitsOf jc out) = ["unit-test_myrepo"]
     | _ => False
     end.
Proof. vm_compute. repeat split. Qed.

(** C5 at a global configuration with a resource profile and
    annotations: reading a job group that has a profile of its own writes
    that profile into the map of the global configuration, and compiling
    the group with testgrid on writes the testgrid annotations into the
    annotations of the global configuration. *)
Theorem global_settings_are_written :
  resMapAt sharedHeap (Global_Resources sharedGlobal) !! "large" = None
  /\ globalStrMap sharedHeap (Global_Annotations sharedGlobal) = {["owner" := "infra"]}
  /\ match ReadJobConfig (mkClient sharedGlobal) sharedDocument sharedHeap with
     | Done (jc, h1) =>
         resMapAt h1 (Global_Resources sharedGlobal) !! "large"
         = Some (mkResourceRequirements {["cpu" := 8000%Z]} ∅)
         /\ match compile (mkClient sharedGlobal) jc "master" h1 with
            | Done (_, h2) =>
                globalStrMap h2 (Global_Annotations sharedGlobal)
                = <[TestGridDashboard := "myorg_myrepo_postsubmit"]>
                    (<[TestGridAlertEmail := "oncall@example.com"]>
                       (<[TestGridNumFailures := "3"]> {["owner" := "infra"]}))
            | _ => False
            end
     | _ => False
     end.
Proof. vm_compute. repeat split. Qed.

End ConfigProofs.

(** ** More facts on the Go string functions *)

Module GoStringsFacts.
Import GoStrings StringFacts ExpansionSpec.

Lemma string_app_nil_r (a : string) : a +:+ "" = a.
Proof.
  induction a as [|x a IH]; [done|]. rewrite string_app_cons. by f_equal.
Qed.

Lemma rev_app_append (a : string) : forall b c,
  String.rev_app (a +:+ b) c = String.rev_app b (String.rev_app a c).
Proof.
  induction a as [|x a IH]; intros b c; [done|].
  rewrite string_app_cons. simpl. apply IH.
Qed.

Lemma rev_app_rev_app (a : string) : forall b c,
  String.rev_app (String.rev_app a b) c = String.rev_app b (a +:+ c).
Proof.
  induction a as [|x a IH]; intros b c; [done|].
  simpl. rewrite IH. simpl. by rewrite string_app_cons.
Qed.

Lemma rev_rev (s : string) : String.rev (String.rev s) = s.
Proof.
  unfold String.rev. rewrite rev_app_rev_app. simpl. apply string_app_nil_r.
Qed.

Lemma rev_snoc (s : string) (c : ascii) :
  String.rev (s +:+ String c "") = String c (String.rev s).
Proof. unfold String.rev. by rewrite rev_app_append. Qed.

Lemma dropPrefix_refl_char (c : ascii) (s : string) :
  dropPrefix (String c "") (String c s) = Some s.
Proof. simpl. by rewrite Ascii.eqb_refl. Qed.

Lemma TrimSuffix_snoc (s : string) (c : ascii) :
  TrimSuffix (s +:+ String c "") (String c "") = s.
Proof.
  unfold TrimSuffix, TrimPrefix. rewrite rev_snoc.
  change (String.rev (String c "")) with (String c "").
  rewrite dropPrefix_refl_char. apply rev_rev.
Qed.

(** One step of [Split] on a separator of one character. *)
Lemma splitFrom_char (c d : ascii) (s cur : string) :
  splitFrom (String c "") (String d s) 0 cur
  = if Ascii.eqb c d then String.rev cur :: splitFrom (String c "") s 0 ""
    else splitFrom (String c "") s 0 (String d cur).
Proof.
  cbn [splitFrom]. unfold HasPrefix. cbn [dropPrefix].
  destruct (Ascii.eqb c d); reflexivity.
Qed.

Lemma splitFrom_length (c : ascii) (s : string) : forall cur,
  List.length (splitFrom (String c "") s 0 cur) = S (countChar c s).
Proof.
  induction s as [|d s IH]; intros cur; [done|].
  rewrite splitFrom_char. cbn [countChar].
  destruct (Ascii.eqb c d); cbn [List.length]; rewrite IH; lia.
Qed.

Lemma Split_length (c : ascii) (s : string) :
  List.length (Split s (String c "")) = S (countChar c s).
Proof. apply splitFrom_length. Qed.

Lemma splitFrom_free (c : ascii) (a : string) : forall rest cur,
  countChar c a = 0 ->
  splitFrom (String c "") (a +:+ rest) 0 cur
  = splitFrom (String c "") rest 0 (String.rev_app a cur).
Proof.
  induction a as [|d a IH]; intros rest cur H; [done|].
  rewrite string_app_cons, splitFrom_char. cbn [countChar] in H.
  destruct (Ascii.eqb c d); [lia|]. rewrite IH by lia. reflexivity.
Qed.

(** A piece that is free of the separator is split off whole. *)
Lemma Split_free_cons (c : ascii) (a b : string) :
  countChar c a = 0 ->
  Split (a +:+ String c b) (String c "") = a :: Split b (String c "").
Proof.
  intros H. unfold Split. rewrite splitFrom_free by done.
  rewrite splitFrom_char, Ascii.eqb_refl. f_equal.
  unfold String.rev. rewrite rev_app_rev_app. simpl. apply string_app_nil_r.
Qed.

Lemma Split_free (c : ascii) (a : string) :
  countChar c a = 0 -> Split a (String c "") = [a].
Proof.
  intros H. unfold Split. rewrite <- (string_app_nil_r a) at 1.
  rewrite splitFrom_free by done. simpl. f_equal.
  unfold String.rev. rewrite rev_app_rev_app. simpl. apply string_app_nil_r.
Qed.

Lemma countChar_app (c : ascii) (a b : string) :
  countChar c (a +:+ b) = countChar c a + countChar c b.
Proof.
  induction a as [|d a IH]; [done|]. rewrite string_app_cons. cbn [countChar].
  rewrite IH. lia.
Qed.

End GoStringsFacts.

(** ** More properties of the matrix expansion *)

Module MatrixFacts.
Import GoStrings Matrix MatrixSpec ExpansionSpec StringFacts GoStringsFacts MatrixProofs.

Implicit Types (matrix : gmap string (list string)) (combs : list string)
  (yamlStr axis : string).

(** What the regular expression finds has the form [$(], class
    characters, [)]. *)
Lemma findAllFrom_sound s : forall skip m,
  m ∈ findAllFrom s skip ->
  exists r, r <> EmptyString /\ allVarChars r = true /\ m = "$(" +:+ r +:+ ")".
Proof.
  induction s as [|c s IH]; intros skip m Hm.
  - by apply elem_of_nil in Hm.
  - cbn [findAllFrom] in Hm. destruct skip as [|k]; [|by eapply IH].
    destruct (matchVarSub (String c s)) as [m0|] eqn:E; [|by eapply IH].
    apply elem_of_cons in Hm as [->|Hm]; [|by eapply IH].
    destruct (matchVarSub_sound _ _ E) as (r & rest & ? & ? & ? & _). by exists r.
Qed.

Lemma stripVarSubExpression_match r :
  stripVarSubExpression ("$(" +:+ r +:+ ")") = r.
Proof.
  unfold stripVarSubExpression.
  assert (TrimPrefix ("$(" +:+ r +:+ ")") "$(" = r +:+ ")") as -> by done.
  apply TrimSuffix_snoc.
Qed.

(** The loop of [validateString] keeps [result] free of duplicates and
    [set] equal to its elements. *)
Lemma validateStep_fold exprs : forall acc,
  NoDup acc.1 -> (forall x, x ∈ acc.2 <-> x ∈ acc.1) ->
  NoDup (fold_left validateStep exprs acc).1
  /\ (forall x, x ∈ (fold_left validateStep exprs acc).1
                <-> x ∈ acc.1 \/ x ∈ map stripVarSubExpression exprs).
Proof.
  induction exprs as [|e exprs IH]; intros acc Hnd Hset.
  - split; [done|]. intros x. cbn. rewrite elem_of_nil. tauto.
  - cbn [fold_left map]. unfold validateStep at 2 4.
    case_bool_decide as Hin.
    + destruct (IH acc Hnd Hset) as [H1 H2]. split; [done|].
      intros x. rewrite H2, elem_of_cons. apply Hset in Hin.
      split; [tauto|]. intros [?|[->|?]]; tauto.
    + destruct (IH (acc.1 ++ [stripVarSubExpression e],
                    {[stripVarSubExpression e]} ∪ acc.2)) as [H1 H2].
      * cbn. apply NoDup_app. split; [done|]. split; [|apply NoDup_singleton].
        intros x Hx ->%list_elem_of_singleton. apply Hin, Hset, Hx.
      * intros x. cbn. rewrite elem_of_union, elem_of_singleton, elem_of_app,
          list_elem_of_singleton, Hset. tauto.
      * split; [done|]. intros x. rewrite H2. cbn.
        rewrite elem_of_app, list_elem_of_singleton, elem_of_cons. tauto.
Qed.

(** X1: the expressions [getVarSubstitutionExpressions] returns for a template
    hold no expression twice, and they are exactly the matches of the
    pattern with their brackets taken off. *)
Theorem expressions_listed_once yamlStr :
  NoDup (getVarSubstitutionExpressions yamlStr)
  /\ forall e, e ∈ getVarSubstitutionExpressions yamlStr
               <-> e ∈ map stripVarSubExpression (FindAllString yamlStr).
Proof.
  unfold getVarSubstitutionExpressions, validateString.
  destruct (validateStep_fold (FindAllString yamlStr) ([], ∅)) as [H1 H2].
  - apply NoDup_nil_2.
  - intros x. cbn. rewrite elem_of_nil. set_solver.
  - split; [done|]. intros e. rewrite H2. cbn. rewrite elem_of_nil. tauto.
Qed.

(** X2: every expression returned for a template is not empty, is made of
    characters of the class of the pattern only, and stands in the template
    between [$(] and [)]. *)
Theorem expressions_are_bracket_contents yamlStr e :
  e ∈ getVarSubstitutionExpressions yamlStr ->
  e <> EmptyString /\ allVarChars e = true
  /\ ("$(" +:+ e +:+ ")") ∈ FindAllString yamlStr.
Proof.
  intros He. unfold getVarSubstitutionExpressions, validateString in He.
  destruct (validateStep_fold (FindAllString yamlStr) ([], ∅)) as [_ H2].
  - apply NoDup_nil_2.
  - intros x. cbn. rewrite elem_of_nil. set_solver.
  - apply H2 in He as [He|He]; [by apply elem_of_nil in He|].
    apply list_elem_of_In, in_map_iff in He as (m & <- & Hm%list_elem_of_In).
    destruct (findAllFrom_sound _ _ _ Hm) as (r & Hr & Hall & ->).
    rewrite stripVarSubExpression_match. done.
Qed.

Lemma expressions_are_bracket_contents_witness :
  "matrix.arch" ∈ getVarSubstitutionExpressions archTemplate
  /\ "matrix.arch" <> EmptyString /\ allVarChars "matrix.arch" = true
  /\ "$(matrix.arch)" ∈ FindAllString archTemplate.
Proof.
  assert ("matrix.arch" ∈ getVarSubstitutionExpressions archTemplate) as H.
  { vm_compute. apply list_elem_of_here. }
  split; [exact H|]. exact (expressions_are_bracket_contents archTemplate "matrix.arch" H).
Defined.

(** The accumulator of [resolveCombinations] gets the expansions
    appended. *)
Lemma fold_resolve_flat matrix combs (f : string -> string) :
  (forall dest res, resolveCombinations combs dest matrix res
                    = res ++ expansions matrix combs dest) ->
  forall lst res,
    fold_left (fun res v => resolveCombinations combs (f v) matrix res) lst res
    = res ++ flat_map (fun v => expansions matrix combs (f v)) lst.
Proof.
  intros H lst. induction lst as [|v lst IH]; intros res; cbn [fold_left flat_map].
  - by rewrite app_nil_r.
  - rewrite IH, H, <- app_assoc. reflexivity.
Qed.

Lemma resolveCombinations_expansions matrix combs : forall dest res,
  resolveCombinations combs dest matrix res = res ++ expansions matrix combs dest.
Proof.
  induction combs as [|c combs IH]; intros dest res; [done|].
  cbn [resolveCombinations expansions].
  apply (fold_resolve_flat matrix combs (fun v => replace dest c v) IH).
Qed.

Lemma applyMatrix_expansions yamlStr matrix :
  applyMatrix yamlStr matrix
  = expansions matrix (matrixCombs (getVarSubstitutionExpressions yamlStr) matrix) yamlStr.
Proof.
  unfold applyMatrix.
  destruct (getVarSubstitutionExpressions yamlStr) as [|e l] eqn:E; [done|].
  cbn [List.length Nat.eqb]. by rewrite resolveCombinations_expansions.
Qed.

(** X3: a template that names no axis of the matrix, neither as [$(matrix.X)]
    nor as [$(X)], expands to itself alone, whatever other expressions it
    holds. *)
Theorem template_without_axis_expands_to_itself yamlStr matrix :
  referencedAxes yamlStr matrix = [] -> bareAxes yamlStr matrix = [] ->
  applyMatrix yamlStr matrix = [yamlStr].
Proof.
  intros Href Hbare. rewrite applyMatrix_expansions, (matrixCombs_no_bare _ _ Hbare), Href.
  reflexivity.
Qed.

Lemma template_without_axis_expands_to_itself_witness :
  referencedAxes shellTemplate archMatrix = [] /\ bareAxes shellTemplate archMatrix = []
  /\ getVarSubstitutionExpressions shellTemplate = ["date"]
  /\ applyMatrix shellTemplate archMatrix = [shellTemplate].
Proof.
  assert (referencedAxes shellTemplate archMatrix = []) as H1 by (vm_compute; reflexivity).
  assert (bareAxes shellTemplate archMatrix = []) as H2 by (vm_compute; reflexivity).
  split; [exact H1|]. split; [exact H2|]. split; [vm_compute; reflexivity|].
  exact (template_without_axis_expands_to_itself shellTemplate archMatrix H1 H2).
Defined.

(** X4: for a template that refers to the axes [a] and [b], in this order of
    first appearance, and names no axis bare, the expansions come with the
    values of [a] changing slowest: for each value of [a] in turn, one
    template for each value of [b], both placeholders replaced. *)
Theorem two_axes_expand_first_axis_slowest yamlStr matrix a b :
  referencedAxes yamlStr matrix = [a; b] -> bareAxes yamlStr matrix = [] ->
  applyMatrix yamlStr matrix
  = flat_map (fun va => map (fun vb => replace (replace yamlStr a va) b vb)
                            (default [] (matrix !! b)))
             (default [] (matrix !! a)).
Proof.
  intros Href Hbare. rewrite applyMatrix_expansions, (matrixCombs_no_bare _ _ Hbare), Href.
  cbn [expansions]. apply flat_map_ext. intros va.
  induction (default [] (matrix !! b)) as [|vb l IH]; [done|].
  cbn [flat_map map app]. by rewrite IH.
Qed.

Lemma two_axes_expand_first_axis_slowest_witness :
  referencedAxes osArchTemplate osArchMatrix = ["os"; "arch"]
  /\ bareAxes osArchTemplate osArchMatrix = []
  /\ applyMatrix osArchTemplate osArchMatrix
     = ["name: build-linux-amd64"; "name: build-linux-arm64";
        "name: build-darwin-amd64"; "name: build-darwin-arm64"].
Proof.
  assert (referencedAxes osArchTemplate osArchMatrix = ["os"; "arch"]) as H1
    by (vm_compute; reflexivity).
  assert (bareAxes osArchTemplate osArchMatrix = []) as H2 by (vm_compute; reflexivity).
  split; [exact H1|]. split; [exact H2|].
  rewrite (two_axes_expand_first_axis_slowest osArchTemplate osArchMatrix "os" "arch" H1 H2).
  vm_compute. reflexivity.
Defined.

End MatrixFacts.

(** ** Lemmas on the computations of the package config *)

Module ConfigLemmas.
Import GoStrings Matrix Config ConfigSpec.

Lemma bind_inv {A B} (m : M A) (f : A -> M B) h b h' :
  bind m f h = Done (b, h') ->
  exists a h1, m h = Done (a, h1) /\ f a h1 = Done (b, h').
Proof. unfold bind. destruct (m h) as [[a h1]| |]; [eauto|done|done]. Qed.

Lemma contains_elem (l : list string) (x : string) : contains l x = true <-> x ∈ l.
Proof. unfold contains. by rewrite bool_decide_eq_true, elem_of_list_to_set. Qed.

Lemma contains_cons (m : string) (l : list string) (x : string) :
  contains (m :: l) x = String.eqb m x || contains l x.
Proof.
  apply eq_true_iff_eq. rewrite orb_true_iff, !contains_elem, elem_of_cons, String.eqb_eq.
  split; intros [?|?]; auto.
Qed.

Lemma validate_None x opts d : validate x opts d = None <-> x ∈ opts.
Proof.
  unfold validate.
  destruct (existsb (fun opt => String.eqb x opt) opts) eqn:E; cbn [negb].
  - split; [intros _|done].
    apply existsb_exists in E as (y & Hy & ->%String.eqb_eq). by apply list_elem_of_In.
  - split; [done|]. intros Hin.
    assert (existsb (fun opt => String.eqb x opt) opts = true) as E'; [|congruence].
    apply existsb_exists. exists x. split; [by apply list_elem_of_In|apply String.eqb_refl].
Qed.

Lemma omap_nil_Forall {A B} (f : A -> option B) (l : list A) :
  omap f l = [] <-> Forall (fun x => f x = None) l.
Proof.
  induction l as [|a l IH]; [by split; [constructor|]|].
  cbn [omap list_omap]. destruct (f a) eqn:E.
  - split; [done|]. intros H. inversion H; congruence.
  - rewrite IH. split; [by constructor|]. intros H. by inversion H.
Qed.

Lemma flat_map_nil_Forall {A B} (f : A -> list B) (l : list A) :
  flat_map f l = [] <-> Forall (fun x => f x = []) l.
Proof.
  induction l as [|a l IH]; [by split; [constructor|]|].
  cbn [flat_map]. split.
  - intros [H1 H2]%app_eq_nil. constructor; [done|by apply IH].
  - intros H. inversion H as [|? ? H1 H2]. rewrite H1. by apply IH.
Qed.

Lemma preset_names (m : gmap string RequirementPreset) (r : string) :
  r ∈ map fst (map_to_list m) <-> is_Some (m !! r).
Proof.
  rewrite list_elem_of_In, in_map_iff. split.
  - intros ([k v] & <- & H%list_elem_of_In%elem_of_map_to_list). by exists v.
  - intros [v Hv]. exists (r, v). split; [done|].
    by apply list_elem_of_In, elem_of_map_to_list.
Qed.

End ConfigLemmas.

(** ** What the validation accepts *)

Module ValidationFacts.
Import GoStrings Matrix Config ConfigSpec ExpansionSpec ValidationSpec.
Import StringFacts GoStringsFacts ConfigLemmas.

Section Validate.
Variable cron_Parse : string -> goresult unit.
Variable time_ParseDuration : string -> goresult unit.

Lemma validatePeriodic_nil fileName job :
  validatePeriodic cron_Parse time_ParseDuration fileName job = []
  <-> (TypePeriodic ∈ Job_Types job -> scheduleAccepted cron_Parse time_ParseDuration job).
Proof.
  unfold validatePeriodic, scheduleAccepted.
  destruct (contains (Job_Types job) TypePeriodic) eqn:Ec.
  - apply contains_elem in Ec.
    destruct (String.eqb_spec (Job_Cron job) "") as [Hc|Hc],
             (String.eqb_spec (Job_Interval job) "") as [Hi|Hi]; cbn [negb andb].
    + split; [done|]. intros H. destruct (H Ec) as [(?&_)|(_&?&_)]; done.
    + destruct (time_ParseDuration (Job_Interval job)) as [u|e] eqn:Ed.
      * split; [|done]. intros _ _. right. eauto.
      * split; [done|]. intros H.
        destruct (H Ec) as [(?&_)|(_&_&u&Hu)]; [done|congruence].
    + destruct (cron_Parse (Job_Cron job)) as [u|e] eqn:Ed.
      * split; [|done]. intros _ _. left. eauto.
      * split; [done|]. intros H.
        destruct (H Ec) as [(_&_&u&Hu)|(?&_)]; [congruence|done].
    + split; [done|]. intros H. destruct (H Ec) as [(_&?&_)|(?&_)]; done.
  - split; [|done]. intros _ Hin. apply contains_elem in Hin. congruence.
Qed.

Lemma validateJob_nil fileName resources (presets : gmap string RequirementPreset) job :
  validateJob cron_Parse time_ParseDuration fileName resources
              (map fst (map_to_list presets)) job = []
  <-> jobAccepted cron_Parse time_ParseDuration resources presets job.
Proof.
  unfold validateJob, jobAccepted.
  rewrite !app_nil, !omap_nil_Forall, validatePeriodic_nil.
  assert ((if negb (String.eqb (Job_Resources job) "")
           then match resources !! Job_Resources job with
                | Some _ => []
                | None => [fileName +:+ ": job '" +:+ Job_Name job
                             +:+ "' has nonexistant resource '" +:+ Job_Resources job +:+ "'"]
                end
           else []) = []
          <-> (Job_Resources job = "" \/ is_Some (resources !! Job_Resources job))) as ->.
  { destruct (String.eqb_spec (Job_Resources job) "") as [He|He]; cbn [negb].
    - split; auto.
    - destruct (resources !! Job_Resources job) eqn:E.
      + split; [intros _; right; eauto|done].
      + split; [done|]. intros [?|[? ?]]; done. }
  assert (forall l : list string,
           Forall (fun x => validate x (map fst (map_to_list presets)) "requirements" = None) l
           <-> Forall (fun r => is_Some (presets !! r)) l) as Hreq.
  { intros l. apply Forall_iff. intros x. by rewrite validate_None, preset_names. }
  rewrite Hreq.
  assert (forall opts d (l : list string),
           Forall (fun x => validate x opts d = None) l
           <-> Forall (fun x => x ∈ opts) l) as Hopt.
  { intros opts d l. apply Forall_iff. intros x. apply validate_None. }
  rewrite !Hopt.
  assert (Forall (fun x => (if negb (Nat.eqb (List.length (Split x "/")) 2)
                            then Some (fileName +:+ ": repo " +:+ x
                                         +:+ " not valid, should take form org/repo")
                            else None) = None) (Job_Repos job)
          <-> Forall (fun repo => countChar "/" repo = 1) (Job_Repos job)) as ->.
  { apply Forall_iff. intros x. rewrite (Split_length "/" x).
    destruct (Nat.eqb_spec (S (countChar "/" x)) 2); cbn [negb]; split; (done || lia). }
  tauto.
Qed.

Lemma validationErrors_nil fileName jc h :
  validationErrors cron_Parse time_ParseDuration fileName jc h = []
  <-> groupAccepted cron_Parse time_ParseDuration jc h.
Proof.
  unfold validationErrors, groupAccepted.
  rewrite !app_nil, omap_nil_Forall, flat_map_nil_Forall.
  assert ((if String.eqb (Jobs_Image jc) "" then [fileName +:+ ": image must be set"]
           else []) = [] <-> Jobs_Image jc <> "") as ->.
  { destruct (String.eqb_spec (Jobs_Image jc) ""); split; done. }
  assert (Forall (fun x => validate x (map fst (map_to_list
                     (presetMapAt h (Jobs_RequirementPresets jc)))) "requirements" = None)
                 (Jobs_Requirements jc)
          <-> Forall (fun r => is_Some (presetMapAt h (Jobs_RequirementPresets jc) !! r))
                     (Jobs_Requirements jc)) as ->.
  { apply Forall_iff. intros x. by rewrite validate_None, preset_names. }
  assert (Forall (fun x => validateJob cron_Parse time_ParseDuration fileName
                             (resMapAt h (Jobs_Resources jc))
                             (map fst (map_to_list
                                (presetMapAt h (Jobs_RequirementPresets jc)))) x = [])
                 (Jobs_Jobs jc)
          <-> Forall (jobAccepted cron_Parse time_ParseDuration
                        (resMapAt h (Jobs_Resources jc))
                        (presetMapAt h (Jobs_RequirementPresets jc))) (Jobs_Jobs jc)) as ->.
  { apply Forall_iff. intros x. apply validateJob_nil. }
  tauto.
Qed.

End Validate.

(** X6: [ValidateJobConfig] returns, and leaves the store as it is, exactly when
    the image of the group is set, every requirement name of the group and
    of its jobs is a key of the presets, and every job has a known resource
    profile or none, modifiers and trigger types among the three known ones,
    a schedule that its parser takes if the job is periodic, and
    repositories with exactly one slash; it ends the run exactly when one of
    these fails. *)
Theorem ValidateJobConfig_accepts_exactly
    (cron_Parse time_ParseDuration : string -> goresult unit)
    (cli : Client) (fileName : string) (jc : JobsConfig) (h : Heap) :
  (groupAccepted cron_Parse time_ParseDuration jc h
   <-> ValidateJobConfig cron_Parse time_ParseDuration cli fileName jc h = Done (tt, h))
  /\ (~ groupAccepted cron_Parse time_ParseDuration jc h
      <-> exists text,
            ValidateJobConfig cron_Parse time_ParseDuration cli fileName jc h = Exit text).
Proof.
  rewrite <- (validationErrors_nil cron_Parse time_ParseDuration fileName jc h).
  unfold ValidateJobConfig.
  destruct (validationErrors cron_Parse time_ParseDuration fileName jc h) as [|e l].
  - split; [done|]. split; [done|]. intros [? ?]; done.
  - split; [done|]. split; [eauto|done].
Qed.

End ValidationFacts.

(** ** Reading a job group, and the extra repositories *)

Module ReadFacts.
Import GoStrings Matrix Config ConfigSpec ExpansionSpec ValidationSpec.
Import StringFacts GoStringsFacts ConfigLemmas ConfigProofs.

Lemma lookup_union_first {V} (m1 m2 : gmap string V) (k : string) :
  (m1 ∪ m2) !! k = match m1 !! k with Some v => Some v | None => m2 !! k end.
Proof.
  rewrite lookup_union. destruct (m1 !! k), (m2 !! k); reflexivity.
Qed.

Lemma lookup_fresh_insert {V} (M : gmap loc (gmap string V)) (m : gmap string V)
    (r : option loc) :
  match r with
  | Some l => default ∅ (<[fresh (dom M) := m]> M !! l)
  | None => ∅
  end
  = if decide (r = Some (fresh (dom M))) then m
    else match r with Some l => default ∅ (M !! l) | None => ∅ end.
Proof.
  destruct r as [l|]; [|done].
  destruct (decide (Some l = Some (fresh (dom M)))) as [[= ->]|Hne].
  - by rewrite lookup_insert_eq.
  - rewrite lookup_insert_ne; [done|]. congruence.
Qed.

Lemma lookup_fresh_dangling {V} (M : gmap loc (gmap string V)) (r : option loc) :
  r = Some (fresh (dom M)) ->
  match r with Some l => default ∅ (M !! l) | None => ∅ end = (∅ : gmap string V).
Proof.
  intros ->. pose proof (is_fresh (dom M)) as Hf.
  apply not_elem_of_dom in Hf. by rewrite Hf.
Qed.

Lemma union_fresh {V} (M : gmap loc (gmap string V)) (r : option loc) :
  match r with
  | Some l => default ∅ (<[fresh (dom M) := ∅]> M !! l)
  | None => ∅
  end ∪ (∅ : gmap string V)
  = match r with Some l => default ∅ (M !! l) | None => ∅ end ∪ ∅.
Proof.
  rewrite lookup_fresh_insert. destruct (decide (r = Some (fresh (dom M)))) as [E|]; [|done].
  by rewrite (lookup_fresh_dangling M r E).
Qed.

(** What [ReadJobConfig] returns and stores. *)
Lemma ReadJobConfig_spec cli jobs h :
  exists jc h' lr lp,
    ReadJobConfig cli jobs h = Done (jc, h')
    /\ jc = mkJobsConfig (Jobs_Jobs jobs) (Jobs_Repo jobs) (Jobs_Org jobs)
              (if Nat.eqb (List.length (Jobs_Branches jobs)) 0 then ["master"]
               else Jobs_Branches jobs)
              (Jobs_Matrix jobs) (Jobs_Env jobs) (Jobs_Image jobs)
              (Jobs_ImagePullPolicy jobs) (Jobs_SupportReleaseBranching jobs)
              (Jobs_Cluster jobs) (Jobs_NodeSelector jobs) (Jobs_Annotations jobs)
              (Jobs_Labels jobs) (Some lr) (Jobs_Requirements jobs) (Some lp)
    /\ resMapAt h' (Some lr)
       = resMapAt h (Jobs_Resources jobs) ∪ resMapAt h (Global_Resources (GlobalConfigOf cli))
    /\ presetMapAt h' (Some lp)
       = presetMapAt h (Jobs_RequirementPresets jobs)
           ∪ presetMapAt h (Global_RequirementPresets (GlobalConfigOf cli))
    /\ strMaps h' = strMaps h
    /\ (Global_Resources (GlobalConfigOf cli) = None -> lr ∉ dom (resMaps h))
    /\ (Global_RequirementPresets (GlobalConfigOf cli) = None -> lp ∉ dom (presetMaps h)).
Proof.
  unfold ReadJobConfig, bind, ret, newResMap, newPresetMap.
  destruct (Global_Resources (GlobalConfigOf cli)) as [lr|];
    destruct (Global_RequirementPresets (GlobalConfigOf cli)) as [lp|];
    (eexists _, _, _, _; split; [reflexivity|]; split; [reflexivity|]);
    unfold resMapAt, presetMapAt; cbn [strMaps resMaps presetMaps];
    rewrite ?lookup_insert_eq; cbn [default from_option id];
    rewrite ?union_fresh;
    repeat split; try done; intros _; apply is_fresh.
Qed.

(** X8: [ReadJobConfig] returns for every document; with no branch in the
    document the branches are [master]; the resource profiles and the
    presets the job group works with are those of the document and those of
    the global configuration, the entry of the document winning on a key
    both hold. *)
Theorem ReadJobConfig_local_entries_win (cli : Client) (jobs : JobsConfig) (h : Heap) :
  exists jc h',
    ReadJobConfig cli jobs h = Done (jc, h')
    /\ Jobs_Branches jc
       = match Jobs_Branches jobs with [] => ["master"] | _ => Jobs_Branches jobs end
    /\ Jobs_Jobs jc = Jobs_Jobs jobs
    /\ (forall k, resMapAt h' (Jobs_Resources jc) !! k
                  = match resMapAt h (Jobs_Resources jobs) !! k with
                    | Some v => Some v
                    | None => resMapAt h (Global_Resources (GlobalConfigOf cli)) !! k
                    end)
    /\ (forall k, presetMapAt h' (Jobs_RequirementPresets jc) !! k
                  = match presetMapAt h (Jobs_RequirementPresets jobs) !! k with
                    | Some v => Some v
                    | None =>
                        presetMapAt h (Global_RequirementPresets (GlobalConfigOf cli)) !! k
                    end).
Proof.
  destruct (ReadJobConfig_spec cli jobs h) as (jc & h' & lr & lp & E & -> & Hr & Hp & _).
  eexists _, h'. split; [exact E|].
  cbn [Jobs_Branches Jobs_Jobs Jobs_Resources Jobs_RequirementPresets].
  split; [by destruct (Jobs_Branches jobs)|]. split; [done|]. split.
  - intros k. rewrite Hr. apply lookup_union_first.
  - intros k. rewrite Hp. apply lookup_union_first.
Qed.

End ReadFacts.

Module ExtraRefsFacts.
Import GoStrings Matrix Config ConfigSpec ExpansionSpec ValidationSpec.
Import StringFacts GoStringsFacts ConfigLemmas ConfigProofs.

Lemma hd_splitFrom (c : ascii) (s : string) : forall cur,
  hd "" (splitFrom (String c "") s 0 cur) = String.rev_app cur (beforeChar c s).
Proof.
  induction s as [|d s IH]; intros cur; [done|].
  rewrite splitFrom_char. cbn [beforeChar].
  destruct (Ascii.eqb c d); [done|]. by rewrite IH.
Qed.

Lemma hd_Split (c : ascii) (s : string) : hd "" (Split s (String c "")) = beforeChar c s.
Proof. apply hd_splitFrom. Qed.

Lemma wellFormedRepo_slash repo :
  wellFormedRepo repo = true <-> 0 < countChar "/" (beforeChar "@" repo).
Proof.
  unfold wellFormedRepo. rewrite (hd_Split "@" repo), (Split_length "/").
  rewrite Nat.leb_le. lia.
Qed.

Lemma extraRef_panics branch pa repo :
  wellFormedRepo repo = false -> extraRef branch pa repo = Panic "index out of range".
Proof.
  unfold wellFormedRepo, extraRef. intros H.
  by destruct (Split (hd "" (Split repo "@")) "/") as [|org [|r rest]].
Qed.

Lemma createExtraRefs_length repos branch pa : forall refs,
  createExtraRefs repos branch pa = Done refs -> List.length refs = List.length repos.
Proof.
  induction repos as [|r repos IH]; intros refs H; cbn [createExtraRefs] in H.
  - by injection H as <-.
  - destruct (extraRef branch pa r) as [ref| |]; cbn [obind] in H; try done.
    destruct (createExtraRefs repos branch pa) as [refs'| |]; cbn [obind] in H; try done.
    injection H as <-. cbn [List.length]. by rewrite (IH refs').
Qed.

Lemma createExtraRefs_panics repos branch pa :
  Exists (fun r => wellFormedRepo r = false) repos ->
  exists msg, createExtraRefs repos branch pa = Panic msg.
Proof.
  induction repos as [|r repos IH]; intros H; [by apply Exists_nil in H|].
  cbn [createExtraRefs].
  destruct (wellFormedRepo r) eqn:Er.
  - destruct (extraRef_done branch pa r Er) as (ref & ->). cbn [obind].
    apply Exists_cons in H as [H|H]; [congruence|].
    destruct (IH H) as (msg & ->). cbn [obind]. eauto.
  - rewrite (extraRef_panics _ _ _ Er). cbn [obind]. eauto.
Qed.

(** X10: [createExtraRefs] returns, with one reference for each repository,
    exactly when every repository has a slash before its first at sign, and
    it panics exactly when one of them has none. *)
Theorem createExtraRefs_needs_slash_before_at
    (repos : list string) (branch : string) (pa : gmap string string) :
  (Forall (fun r => 0 < countChar "/" (beforeChar "@" r)) repos
   <-> exists refs, createExtraRefs repos branch pa = Done refs
                    /\ List.length refs = List.length repos)
  /\ (Exists (fun r => countChar "/" (beforeChar "@" r) = 0) repos
      <-> exists msg, createExtraRefs repos branch pa = Panic msg).
Proof.
  assert (Hdec : forall r, wellFormedRepo r = false
                           <-> countChar "/" (beforeChar "@" r) = 0).
  { intros r. pose proof (wellFormedRepo_slash r).
    destruct (wellFormedRepo r); split; intros; (done || lia || (exfalso; intuition lia)). }
  assert (Hall : Forall (fun r => 0 < countChar "/" (beforeChar "@" r)) repos
                 -> exists refs, createExtraRefs repos branch pa = Done refs
                                 /\ List.length refs = List.length repos).
  { intros H.
    destruct (createExtraRefs_done repos branch pa) as (refs & E).
    { eapply Forall_impl; [exact H|]. intros r Hr. by apply wellFormedRepo_slash. }
    exists refs. split; [done|]. by eapply createExtraRefs_length. }
  assert (Hex : Exists (fun r => countChar "/" (beforeChar "@" r) = 0) repos
                -> exists msg, createExtraRefs repos branch pa = Panic msg).
  { intros H. apply createExtraRefs_panics.
    eapply Exists_impl; [exact H|]. intros r Hr. by apply Hdec. }
  assert (Hcases : Forall (fun r => 0 < countChar "/" (beforeChar "@" r)) repos
                   \/ Exists (fun r => countChar "/" (beforeChar "@" r) = 0) repos).
  { clear Hall Hex. induction repos as [|r l IH]; [left; constructor|].
    destruct (Nat.eq_dec (countChar "/" (beforeChar "@" r)) 0) as [E|E].
    - right. by left.
    - destruct IH as [IH|IH].
      + left. constructor; [lia|done].
      + right. by right. }
  split; split; [exact Hall| |exact Hex|].
  - intros (refs & E & _). destruct Hcases as [?|Hx]; [done|].
    destruct (Hex Hx) as (msg & E'). congruence.
  - intros (msg & E). destruct Hcases as [Ha|?]; [|done].
    destruct (Hall Ha) as (refs & E' & _). congruence.
Qed.

Lemma beforeChar_free (c : ascii) (a rest : string) :
  countChar c a = 0 -> beforeChar c (a +:+ String c rest) = a.
Proof.
  induction a as [|d a IH]; intros H.
  - change ("" +:+ String c rest) with (String c rest). cbn [beforeChar].
    by rewrite Ascii.eqb_refl.
  - rewrite string_app_cons. cbn [beforeChar countChar] in *.
    destruct (Ascii.eqb c d); [lia|]. rewrite IH by lia. done.
Qed.

Lemma extraRef_parses defaultBranch pa org repo branch :
  plainRepo (org, repo, branch) ->
  extraRef defaultBranch pa (repoText org repo branch)
  = Done (refOf defaultBranch pa org repo branch).
Proof.
  intros ([Ho1 Ho2] & [Hr1 Hr2] & Hb). cbn [fst snd] in *.
  unfold extraRef, repoText, refOf.
  assert (Hor : countChar "@" (org +:+ "/" +:+ repo) = 0).
  { rewrite !countChar_app. cbn [countChar]. cbn. lia. }
  assert (Hs : Split (org +:+ "/" +:+ repo) "/" = [org; repo]).
  { change (org +:+ "/" +:+ repo) with (org +:+ String "/" repo).
    rewrite (Split_free_cons "/" org repo Ho1).
    by rewrite (Split_free "/" repo Hr1). }
  destruct branch as [b|].
  - assert (Split (org +:+ "/" +:+ repo +:+ "@" +:+ b) "@" = [org +:+ "/" +:+ repo; b]) as ->.
    { replace (org +:+ "/" +:+ repo +:+ "@" +:+ b)
        with ((org +:+ "/" +:+ repo) +:+ String "@" b)
        by (by rewrite !string_app_assoc).
      rewrite (Split_free_cons "@" _ b Hor). by rewrite (Split_free "@" b Hb). }
    cbn [hd]. rewrite Hs. done.
  - assert (org +:+ "/" +:+ repo +:+ "" = org +:+ "/" +:+ repo) as ->.
    { by rewrite <- !string_app_assoc, string_app_nil_r. }
    rewrite (Split_free "@" _ Hor). cbn [hd]. rewrite Hs. done.
Qed.

(** X11: repositories written [org/repo] or [org/repo@branch], with no slash or
    at sign inside the organisation and the name and no at sign inside the
    branch, are read back by [createExtraRefs] as those organisations, names
    and branches, with the default branch where none is written and the path
    alias of the organisation where it has one. *)
Theorem createExtraRefs_reads_repo_text
    (specs : list (string * string * option string)) (defaultBranch : string)
    (pa : gmap string string) :
  Forall plainRepo specs ->
  createExtraRefs (map (fun s => repoText s.1.1 s.1.2 s.2) specs) defaultBranch pa
  = Done (map (fun s => refOf defaultBranch pa s.1.1 s.1.2 s.2) specs).
Proof.
  induction 1 as [|[[org repo] branch] specs Hs _ IH]; [done|].
  cbn [map createExtraRefs fst snd].
  rewrite (extraRef_parses _ _ _ _ _ Hs). cbn [obind]. rewrite IH. done.
Qed.

End ExtraRefsFacts.

(** ** What [ConvertJobConfig] returns, read back from its result *)

Module CompileFacts.
Import GoStrings Matrix Config ConfigSpec CompileSpec ExpansionSpec ValidationSpec.
Import StringFacts ConfigLemmas ConfigProofs.

Lemma keepsStore_refl g h : keepsStore g h h.
Proof. by unfold keepsStore. Qed.

Lemma keepsStore_trans g h1 h2 h3 :
  keepsStore g h1 h2 -> keepsStore g h2 h3 -> keepsStore g h1 h3.
Proof.
  intros (D1 & K1 & R1 & P1) (D2 & K2 & R2 & P2). unfold keepsStore.
  split; [set_solver|]. split; [|split; congruence].
  intros l Hl Ha Hb. rewrite K2, K1; auto.
Qed.

Lemma extends_keepsStore g h h' : extends h h' -> keepsStore g h h'.
Proof. intros (D & K & R & P). unfold keepsStore. repeat split; auto. Qed.

(** A write to a map that is new since [h0], or that is one of the two
    maps of the global configuration. *)
Lemma store_write g h0 h l m :
  keepsStore g h0 h ->
  Global_Annotations g = Some l \/ Global_Labels g = Some l \/ l ∉ dom (strMaps h0) ->
  keepsStore g h0 (mkHeap (<[l := m]> (strMaps h)) (resMaps h) (presetMaps h)).
Proof.
  intros (D & K & R & P) Hl. unfold keepsStore. cbn [strMaps resMaps presetMaps].
  split; [rewrite dom_insert; intros x Hx; apply elem_of_union; right; by apply D|].
  split; [|done].
  intros l' Hl' Ha Hb. unfold strMapAt at 1. cbn [strMaps].
  rewrite lookup_insert_ne.
  - by apply K.
  - intros E. subst l'. destruct Hl as [Hl|[Hl|Hl]];
      [exact (Ha Hl)|exact (Hb Hl)|exact (Hl Hl')].
Qed.

Lemma writeStrMap_keeps g h0 l k v h h' :
  keepsStore g h0 h ->
  Global_Annotations g = Some l \/ Global_Labels g = Some l \/ l ∉ dom (strMaps h0) ->
  writeStrMap l k v h = Done (tt, h') -> keepsStore g h0 h'.
Proof.
  intros K Hl. unfold writeStrMap. intros [= <-]. by apply store_write.
Qed.

Lemma writeTestgrid_keeps g h0 t l d h h' :
  keepsStore g h0 h ->
  Global_Annotations g = Some l \/ Global_Labels g = Some l \/ l ∉ dom (strMaps h0) ->
  writeTestgrid t l d h = Done (tt, h') -> keepsStore g h0 h'.
Proof.
  intros K Hl. unfold writeTestgrid. destruct (Testgrid_Enabled t).
  - intros H.
    apply bind_inv in H as ([] & h1 & E1 & H).
    apply bind_inv in H as ([] & h2 & E2 & H).
    pose proof (writeStrMap_keeps _ _ _ _ _ _ _ K Hl E1) as K1.
    pose proof (writeStrMap_keeps _ _ _ _ _ _ _ K1 Hl E2) as K2.
    exact (writeStrMap_keeps _ _ _ _ _ _ _ K2 Hl H).
  - by intros [= <-].
Qed.

Lemma layerMaps_origin made glob group job h :
  exists l h', layerMaps made glob group job h = Done (l, h')
    /\ extends h h' /\ (l = made \/ glob = Some l \/ l ∉ dom (strMaps h)).
Proof.
  unfold layerMaps.
  set (cur := match glob with Some l => l | None => made end).
  assert (Hcur : cur = made \/ glob = Some cur) by (unfold cur; destruct glob; auto).
  clearbody cur.
  destruct group as [gm|].
  - destruct (mergeMaps_spec cur gm h) as (l1 & h1 & E1 & N1 & D1 & C1 & X1).
    rewrite (bind_Done _ _ _ _ _ E1).
    destruct job as [jm|].
    + destruct (mergeMaps_spec l1 jm h1) as (l2 & h2 & E2 & N2 & D2 & C2 & X2).
      exists l2, h2. split; [done|]. split; [by apply (extends_trans _ h1)|].
      right. right. intros Hin. apply N2. by apply X1.
    + exists l1, h1. auto.
  - rewrite (bind_Done _ _ h cur h); [|done].
    destruct job as [jm|].
    + destruct (mergeMaps_spec cur jm h) as (l2 & h2 & E2 & N2 & D2 & C2 & X2).
      exists l2, h2. auto.
    + exists cur, h. split; [done|]. split; [apply extends_refl|]. tauto.
Qed.

(** All of what [createJobBase] returns. *)
Lemma createJobBase_full g jc job name branch res h refs :
  createExtraRefs (Job_Repos job) branch (Global_PathAliases g) = Done refs ->
  exists cs la an h',
    createContainer jc job res h = Done (cs, h)
    /\ createJobBase g jc job name branch res h
       = Done (mkJobBase name (Job_MaxConcurrency job)
                 (Some (mkPodSpec cs [] (tierNodeSelector g jc job) ""))
                 (mkUtilityConfig (Some true) "" refs (Job_Timeout job))
                 la an (tierCluster g jc job), h')
    /\ extends h h'
    /\ (Global_Annotations g = Some an \/ an ∉ dom (strMaps h))
    /\ (Global_Labels g = Some la \/ la ∉ dom (strMaps h)).
Proof.
  intros Hrefs. unfold createJobBase.
  destruct (createContainer_done jc job res h) as (cs & Ec).
  rewrite (bind_Done _ _ _ _ _ Ec).
  rewrite (bind_Done _ _ _ _ _ (lift_Done _ _ h Hrefs)).
  destruct (newStrMap_spec ∅ h) as (l1 & h1 & E1 & N1 & D1 & _ & X1).
  rewrite (bind_Done _ _ _ _ _ E1).
  destruct (newStrMap_spec ∅ h1) as (l2 & h2 & E2 & N2 & D2 & _ & X2).
  rewrite (bind_Done _ _ _ _ _ E2).
  destruct (layerMaps_origin l2 (Global_Annotations g) (Jobs_Annotations jc)
              (Job_Annotations job) h2) as (a & h3 & E3 & X3 & O3).
  rewrite (bind_Done _ _ _ _ _ E3).
  destruct (layerMaps_origin l1 (Global_Labels g) (Jobs_Labels jc)
              (Job_Labels job) h3) as (l & h4 & E4 & X4 & O4).
  rewrite (bind_Done _ _ _ _ _ E4).
  unfold ret. rewrite layerCluster_tiers, layerNodeSelector_tiers.
  exists cs, l, a, h4. split; [done|]. split; [reflexivity|].
  pose proof (extends_trans _ _ _ X1 X2) as X12.
  pose proof (extends_trans _ _ _ X12 X3) as X13.
  split; [exact (extends_trans _ _ _ X13 X4)|]. split.
  - destruct O3 as [->|[?|O3]]; [|by left|].
    + right. intros Hin. apply N2. by apply X1.
    + right. intros Hin. apply O3. by apply X12.
  - destruct O4 as [->|[?|O4]]; [by right|by left|].
    right. intros Hin. apply O4. by apply X13.
Qed.

Lemma createJobBase_refs g jc job name branch res h jb h' :
  createJobBase g jc job name branch res h = Done (jb, h') ->
  exists refs, createExtraRefs (Job_Repos job) branch (Global_PathAliases g) = Done refs.
Proof.
  unfold createJobBase.
  destruct (createContainer_done jc job res h) as (cs & Ec).
  rewrite (bind_Done _ _ _ _ _ Ec).
  destruct (createExtraRefs (Job_Repos job) branch (Global_PathAliases g)) as [refs| |];
    [eauto|done|done].
Qed.

Section Resolver.
Variable resolveRequirements :
  gmap string string -> option PodSpec -> list RequirementPreset ->
  outcome (gmap string string * option PodSpec).

Lemma applyRequirements_inv jb reqs pm h jb' h' :
  applyRequirements resolveRequirements jb reqs pm h = Done (jb', h') ->
  exists r,
    resolveRequirements (strMapAt h (JobBase_Labels jb)) (JobBase_Spec jb)
                        (lookupPresets (presetMapAt h pm) reqs) = Done r
    /\ jb' = setSpec jb r.2
    /\ h' = mkHeap (<[JobBase_Labels jb := r.1]> (strMaps h)) (resMaps h) (presetMaps h).
Proof.
  unfold applyRequirements, bind, readStrMap, lift, setStrMap, ret.
  destruct (resolveRequirements _ _ _) as [r| |]; [|done|done].
  intros [= <- <-]. eauto.
Qed.

Lemma applyModifiersPresubmit_flags mods : forall p,
  Presubmit_AlwaysRun (applyModifiersPresubmit p mods)
  = Presubmit_AlwaysRun p && negb (contains mods ModifierSkipped)
  /\ Presubmit_Optional (applyModifiersPresubmit p mods)
     = Presubmit_Optional p || contains mods ModifierOptional
  /\ Presubmit_SkipReport (applyModifiersPresubmit p mods)
     = Presubmit_SkipReport p || contains mods ModifierHidden
  /\ Presubmit_Branches (applyModifiersPresubmit p mods) = Presubmit_Branches p
  /\ Presubmit_RunIfChanged (applyModifiersPresubmit p mods) = Presubmit_RunIfChanged p.
Proof.
  unfold applyModifiersPresubmit.
  induction mods as [|m mods IH]; intros p.
  - cbn. by rewrite andb_true_r, !orb_false_r.
  - cbn [fold_left]. rewrite !contains_cons.
    match goal with |- context [fold_left ?f mods ?q] =>
      destruct (IH q) as (-> & -> & -> & -> & ->) end.
    unfold ModifierOptional, ModifierHidden, ModifierSkipped.
    destruct (String.eqb_spec m "optional") as [->|H1]; [cbn; by rewrite orb_true_r|].
    destruct (String.eqb_spec m "hidden") as [->|H2]; [cbn; by rewrite orb_true_r|].
    destruct (String.eqb_spec m "skipped") as [->|H3]; [cbn; by rewrite andb_false_r|].
    done.
Qed.

Lemma applyModifiersPostsubmit_flags mods : forall p,
  Postsubmit_SkipReport (applyModifiersPostsubmit p mods)
  = Postsubmit_SkipReport p || contains mods ModifierHidden
  /\ Postsubmit_Branches (applyModifiersPostsubmit p mods) = Postsubmit_Branches p
  /\ Postsubmit_RunIfChanged (applyModifiersPostsubmit p mods) = Postsubmit_RunIfChanged p.
Proof.
  unfold applyModifiersPostsubmit.
  induction mods as [|m mods IH]; intros p.
  - cbn. by rewrite !orb_false_r.
  - cbn [fold_left]. rewrite !contains_cons.
    match goal with |- context [fold_left ?f mods ?q] =>
      destruct (IH q) as (-> & -> & ->) end.
    unfold ModifierOptional, ModifierHidden.
    destruct (String.eqb_spec m "optional") as [->|H1]; [done|].
    destruct (String.eqb_spec m "hidden") as [->|H2]; [cbn; by rewrite orb_true_r|].
    done.
Qed.

End Resolver.


Section Compile.
Variable resolveRequirements :
  gmap string string -> option PodSpec -> list RequirementPreset ->
  outcome (gmap string string * option PodSpec).
Variable g : GlobalConfig.
Variable jc : JobsConfig.
Variable branch : string.

(** The presubmit [compilePresubmit] returns, field by field. *)
Lemma compilePresubmit_inv job reqs prefix h p h' :
  compilePresubmit resolveRequirements g jc branch job reqs prefix h = Done (p, h') ->
  exists refs cs la an spec',
    createExtraRefs (Job_Repos job) branch (Global_PathAliases g) = Done refs
    /\ createContainer jc job (Jobs_Resources jc) h = Done (cs, h)
    /\ p = mkPresubmit
             (setSpec (withOrgAlias g jc
                (mkJobBase (jobName job jc branch "") (Job_MaxConcurrency job)
                   (Some (mkPodSpec cs [] (tierNodeSelector g jc job) ""))
                   (mkUtilityConfig (Some true) "" refs (Job_Timeout job))
                   la an (tierCluster g jc job))) spec')
             (String.eqb (Job_Regex job) ""
              && negb (contains (Job_Modifiers job) ModifierSkipped))
             (contains (Job_Modifiers job) ModifierOptional)
             (contains (Job_Modifiers job) ModifierHidden)
             ["^" +:+ branch +:+ "$"] (Job_Regex job)
    /\ keepsStore g h h'.
Proof.
  intros H. unfold compilePresubmit in H.
  apply bind_inv in H as (jb & h1 & E1 & H).
  destruct (createJobBase_refs _ _ _ _ _ _ _ _ _ E1) as (refs & Hrefs).
  destruct (createJobBase_full g jc job (jobName job jc branch "") branch
              (Jobs_Resources jc) h refs Hrefs)
    as (cs & la & an & h1' & Ec & E1' & X & Oa & Ol).
  rewrite E1' in E1. injection E1 as <- <-.
  cbv zeta in H.
  match type of H with context [match Global_PathAliases g !! Jobs_Org jc with
                                | Some pa => setPathAlias ?b _ | None => _ end] =>
    change (match Global_PathAliases g !! Jobs_Org jc with
            | Some pa => setPathAlias b (pa +:+ "/" +:+ Jobs_Repo jc)
            | None => b end) with (withOrgAlias g jc b) in H;
    set (jb := b) in * end.
  assert (Ea : JobBase_Annotations (withOrgAlias g jc jb) = an).
  { unfold withOrgAlias. by destruct (Global_PathAliases g !! Jobs_Org jc). }
  assert (El : JobBase_Labels (withOrgAlias g jc jb) = la).
  { unfold withOrgAlias. by destruct (Global_PathAliases g !! Jobs_Org jc). }
  apply bind_inv in H as ([] & h2 & E2 & H).
  apply bind_inv in H as (jb3 & h3 & E3 & H).
  unfold ret in H. injection H as <- <-.
  apply applyRequirements_inv in E3 as (r & Er & -> & ->).
  rewrite applyModifiersPresubmit_base in *.
  match goal with |- context [applyModifiersPresubmit ?q (Job_Modifiers job)] =>
    destruct (applyModifiersPresubmit_flags (Job_Modifiers job) q)
      as (F1 & F2 & F3 & F4 & F5); rewrite F1, F2, F3, F4, F5;
    assert (Hq : Presubmit_JobBase q = withOrgAlias g jc jb
                 /\ Presubmit_AlwaysRun q = String.eqb (Job_Regex job) ""
                 /\ Presubmit_Optional q = false /\ Presubmit_SkipReport q = false
                 /\ Presubmit_Branches q = ["^" +:+ branch +:+ "$"]
                 /\ Presubmit_RunIfChanged q = Job_Regex job)
      by (destruct (String.eqb_spec (Job_Regex job) "") as [->|]; done);
    destruct Hq as (Q0 & Q1 & Q2 & Q3 & Q4 & Q5); rewrite Q0, Q1, Q2, Q3, Q4, Q5 in * end.
  exists refs, cs, la, an, r.2. split; [done|]. split; [done|]. split; [done|].
  rewrite El. apply store_write; [|tauto].
  assert (K1 : keepsStore g h h1') by (by apply extends_keepsStore).
  destruct (Testgrid_Enabled (Global_TestgridConfig g)).
  - rewrite Ea in E2. eapply writeStrMap_keeps; [exact K1| |exact E2]. tauto.
  - unfold ret in E2. by injection E2 as <-.
Qed.

Lemma compilePostsubmit_inv job reqs prefix h p h' :
  compilePostsubmit resolveRequirements g jc branch job reqs prefix h = Done (p, h') ->
  exists refs cs la an spec',
    createExtraRefs (Job_Repos job) branch (Global_PathAliases g) = Done refs
    /\ createContainer jc job (Jobs_Resources jc) h = Done (cs, h)
    /\ p = mkPostsubmit
             (setSpec (withOrgAlias g jc
                (mkJobBase (jobName job jc branch "_postsubmit") (Job_MaxConcurrency job)
                   (Some (mkPodSpec cs [] (tierNodeSelector g jc job) ""))
                   (mkUtilityConfig (Some true) "" refs (Job_Timeout job))
                   la an (tierCluster g jc job))) spec')
             ["^" +:+ branch +:+ "$"] (Job_Regex job)
             (contains (Job_Modifiers job) ModifierHidden)
    /\ keepsStore g h h'.
Proof.
  intros H. unfold compilePostsubmit in H.
  apply bind_inv in H as (jb & h1 & E1 & H).
  destruct (createJobBase_refs _ _ _ _ _ _ _ _ _ E1) as (refs & Hrefs).
  destruct (createJobBase_full g jc job (jobName job jc branch "_postsubmit") branch
              (Jobs_Resources jc) h refs Hrefs)
    as (cs & la & an & h1' & Ec & E1' & X & Oa & Ol).
  rewrite E1' in E1. injection E1 as <- <-.
  cbv zeta in H.
  match type of H with context [match Global_PathAliases g !! Jobs_Org jc with
                                | Some pa => setPathAlias ?b _ | None => _ end] =>
    change (match Global_PathAliases g !! Jobs_Org jc with
            | Some pa => setPathAlias b (pa +:+ "/" +:+ Jobs_Repo jc)
            | None => b end) with (withOrgAlias g jc b) in H;
    set (jb := b) in * end.
  assert (Ea : JobBase_Annotations (withOrgAlias g jc jb) = an).
  { unfold withOrgAlias. by destruct (Global_PathAliases g !! Jobs_Org jc). }
  assert (El : JobBase_Labels (withOrgAlias g jc jb) = la).
  { unfold withOrgAlias. by destruct (Global_PathAliases g !! Jobs_Org jc). }
  apply bind_inv in H as ([] & h2 & E2 & H).
  apply bind_inv in H as (jb3 & h3 & E3 & H).
  unfold ret in H. injection H as <- <-.
  apply applyRequirements_inv in E3 as (r & Er & -> & ->).
  rewrite applyModifiersPostsubmit_base in *.
  match goal with |- context [applyModifiersPostsubmit ?q (Job_Modifiers job)] =>
    destruct (applyModifiersPostsubmit_flags (Job_Modifiers job) q)
      as (F1 & F2 & F3); rewrite F1, F2, F3 end.
  cbn [Postsubmit_JobBase Postsubmit_SkipReport Postsubmit_Branches
       Postsubmit_RunIfChanged orb] in *.
  assert ((if negb (String.eqb (Job_Regex job) "") then Job_Regex job else "")
          = Job_Regex job) as ->
    by (by destruct (String.eqb_spec (Job_Regex job) "") as [->|]).
  exists refs, cs, la, an, r.2. split; [done|]. split; [done|]. split; [done|].
  rewrite El. apply store_write; [|tauto].
  rewrite Ea in E2. eapply writeTestgrid_keeps; [|shelve|exact E2].
  - by apply extends_keepsStore.
  Unshelve. tauto.
Qed.

Lemma compilePeriodic_inv job reqs prefix h p h' :
  compilePeriodic resolveRequirements g jc branch job reqs prefix h = Done (p, h') ->
  exists refs cs la an spec',
    createExtraRefs (Job_Repos (withOwnRepo jc job)) branch (Global_PathAliases g)
    = Done refs
    /\ createContainer jc (withOwnRepo jc job) (Jobs_Resources jc) h = Done (cs, h)
    /\ p = mkPeriodic
             (setSpec
                (mkJobBase (jobName job jc branch "_periodic") (Job_MaxConcurrency job)
                   (Some (mkPodSpec cs [] (tierNodeSelector g jc job) ""))
                   (mkUtilityConfig (Some true) "" refs (Job_Timeout job))
                   la an (tierCluster g jc job)) spec')
             (Job_Interval job) (Job_Cron job)
    /\ keepsStore g h h'.
Proof.
  intros H. unfold compilePeriodic in H. cbv zeta in H.
  change (if Nat.eqb (List.length (Job_Repos job)) 0
          then setRepos job [Jobs_Org jc +:+ "/" +:+ Jobs_Repo jc] else job)
    with (withOwnRepo jc job) in H.
  assert (Hsame : Job_MaxConcurrency (withOwnRepo jc job) = Job_MaxConcurrency job
                  /\ Job_Timeout (withOwnRepo jc job) = Job_Timeout job
                  /\ tierNodeSelector g jc (withOwnRepo jc job) = tierNodeSelector g jc job
                  /\ tierCluster g jc (withOwnRepo jc job) = tierCluster g jc job
                  /\ Job_Interval (withOwnRepo jc job) = Job_Interval job
                  /\ Job_Cron (withOwnRepo jc job) = Job_Cron job).
  { unfold withOwnRepo. by destruct (Nat.eqb _ 0). }
  destruct Hsame as (S1 & S2 & S3 & S4 & S5 & S6).
  apply bind_inv in H as (jb & h1 & E1 & H).
  destruct (createJobBase_refs _ _ _ _ _ _ _ _ _ E1) as (refs & Hrefs).
  destruct (createJobBase_full g jc (withOwnRepo jc job) (jobName job jc branch "_periodic")
              branch (Jobs_Resources jc) h refs Hrefs)
    as (cs & la & an & h1' & Ec & E1' & X & Oa & Ol).
  rewrite E1' in E1. injection E1 as <- <-.
  apply bind_inv in H as ([] & h2 & E2 & H).
  apply bind_inv in H as (jb3 & h3 & E3 & H).
  unfold ret in H. injection H as <- <-.
  apply applyRequirements_inv in E3 as (r & Er & -> & ->).
  cbn [JobBase_Annotations JobBase_Labels] in *.
  rewrite S1, S2, S3, S4, S5, S6.
  exists refs, cs, la, an, r.2. split; [done|]. split; [done|]. split; [done|].
  apply store_write; [|tauto].
  eapply writeTestgrid_keeps; [|shelve|exact E2].
  - by apply extends_keepsStore.
  Unshelve. tauto.
Qed.

Lemma tracks_nil acc : tracks resolveRequirements g jc branch [] acc acc.
Proof.
  unfold tracks. repeat split; exists []; rewrite app_nil_r; (split; [done|constructor]).
Qed.

Lemma tracks_app l1 l2 acc1 acc2 acc3 :
  tracks resolveRequirements g jc branch l1 acc1 acc2 ->
  tracks resolveRequirements g jc branch l2 acc2 acc3 ->
  tracks resolveRequirements g jc branch (l1 ++ l2) acc1 acc3.
Proof.
  intros ((p1 & A1 & B1) & (q1 & C1 & D1) & (r1 & E1 & F1))
         ((p2 & A2 & B2) & (q2 & C2 & D2) & (r2 & E2 & F2)).
  unfold tracks. rewrite !List.filter_app. repeat split.
  - exists (p1 ++ p2). split; [by rewrite A2, A1, app_assoc|by apply Forall2_app].
  - exists (q1 ++ q2). split; [by rewrite C2, C1, app_assoc|by apply Forall2_app].
  - exists (r1 ++ r2). split; [by rewrite E2, E1, app_assoc|by apply Forall2_app].
Qed.

Lemma convertJob_inv acc job h acc' h' :
  convertJob resolveRequirements g jc branch acc job h = Done (acc', h') ->
  tracks resolveRequirements g jc branch [job] acc acc' /\ keepsStore g h h'.
Proof.
  intros H. unfold convertJob in H. cbv zeta in H.
  change ((if negb (String.eqb branch "master") then Jobs_Org jc +:+ "_" +:+ branch
           else Jobs_Org jc) +:+ "_" +:+ Jobs_Repo jc)
    with (testgridPrefix jc branch) in H.
  apply bind_inv in H as (ps & h1 & E1 & H).
  apply bind_inv in H as (qs & h2 & E2 & H).
  apply bind_inv in H as (rs & h3 & E3 & H).
  unfold ret in H. injection H as <- <-.
  unfold tracks. cbn [List.filter fst snd].
  assert (P1 : (exists l, ps = acc.1.1 ++ l
                  /\ Forall2 (presubmitOf resolveRequirements g jc branch) l
                       (if selectsPresubmit job then [job] else []))
               /\ keepsStore g h h1).
  { destruct (selectsPresubmit job).
    - apply bind_inv in E1 as (p & h1' & E1 & H). unfold ret in H. injection H as <- <-.
      split.
      + exists [p]. split; [done|]. constructor; [|constructor]. by exists h, h1'.
      + by destruct (compilePresubmit_inv _ _ _ _ _ _ E1) as (?&?&?&?&?&_&_&_&K).
    - unfold ret in E1. injection E1 as <- <-. split; [|apply keepsStore_refl].
      exists []. rewrite app_nil_r. split; [done|constructor]. }
  assert (P2 : (exists l, qs = acc.1.2 ++ l
                  /\ Forall2 (postsubmitOf resolveRequirements g jc branch) l
                       (if selectsPostsubmit job then [job] else []))
               /\ keepsStore g h1 h2).
  { destruct (selectsPostsubmit job).
    - apply bind_inv in E2 as (p & h2' & E2 & H). unfold ret in H. injection H as <- <-.
      split.
      + exists [p]. split; [done|]. constructor; [|constructor]. by exists h1, h2'.
      + by destruct (compilePostsubmit_inv _ _ _ _ _ _ E2) as (?&?&?&?&?&_&_&_&K).
    - unfold ret in E2. injection E2 as <- <-. split; [|apply keepsStore_refl].
      exists []. rewrite app_nil_r. split; [done|constructor]. }
  assert (P3 : (exists l, rs = acc.2 ++ l
                  /\ Forall2 (periodicOf resolveRequirements g jc branch) l
                       (if selectsPeriodic job then [job] else []))
               /\ keepsStore g h2 h3).
  { destruct (selectsPeriodic job).
    - apply bind_inv in E3 as (p & h3' & E3 & H). unfold ret in H. injection H as <- <-.
      split.
      + exists [p]. split; [done|]. constructor; [|constructor]. by exists h2, h3'.
      + by destruct (compilePeriodic_inv _ _ _ _ _ _ E3) as (?&?&?&?&?&_&_&_&K).
    - unfold ret in E3. injection E3 as <- <-. split; [|apply keepsStore_refl].
      exists []. rewrite app_nil_r. split; [done|constructor]. }
  destruct P1 as [P1 K1], P2 as [P2 K2], P3 as [P3 K3].
  split; [done|]. exact (keepsStore_trans _ _ _ _ K1 (keepsStore_trans _ _ _ _ K2 K3)).
Qed.

Lemma foldM_convertJob_inv jobs : forall acc h acc' h',
  foldM (convertJob resolveRequirements g jc branch) jobs acc h = Done (acc', h') ->
  tracks resolveRequirements g jc branch jobs acc acc' /\ keepsStore g h h'.
Proof.
  induction jobs as [|job jobs IH]; intros acc h acc' h' H.
  - cbn in H. injection H as <- <-. split; [apply tracks_nil|apply keepsStore_refl].
  - cbn [foldM] in H. apply bind_inv in H as (acc1 & h1 & E1 & H).
    destruct (convertJob_inv _ _ _ _ _ E1) as [T1 K1].
    destruct (IH _ _ _ _ H) as [T2 K2].
    split; [exact (tracks_app [job] jobs _ _ _ T1 T2)|].
    exact (keepsStore_trans _ _ _ _ K1 K2).
Qed.

End Compile.


Section Convert.
Variable yaml_Marshal : Job -> goresult string.
Variable yaml_Unmarshal : string -> goresult Job.
Variable resolveRequirements :
  gmap string string -> option PodSpec -> list RequirementPreset ->
  outcome (gmap string string * option PodSpec).
Variable g : GlobalConfig.
Variable jc : JobsConfig.
Variable branch : string.

Lemma storeOutput_outputOf acc acc' :
  (exists l, acc'.1.1 = acc.1.1 ++ l) -> (exists l, acc'.1.2 = acc.1.2 ++ l) ->
  (exists l, acc'.2 = acc.2 ++ l) ->
  storeOutput jc (outputOf jc acc) acc' = outputOf jc acc'.
Proof.
  intros (l1 & E1) (l2 & E2) (l3 & E3). unfold storeOutput, outputOf.
  cbn [PresubmitsStatic PostsubmitsStatic Periodics]. f_equal.
  - destruct (acc'.1.1) as [|x l] eqn:E; cbn [List.length Nat.ltb Nat.leb].
    + symmetry in E1. apply app_eq_nil in E1 as [-> _]. done.
    + destruct (acc.1.1); [apply insert_empty|apply insert_singleton_eq].
  - destruct (acc'.1.2) as [|x l] eqn:E; cbn [List.length Nat.ltb Nat.leb].
    + symmetry in E2. apply app_eq_nil in E2 as [-> _]. done.
    + destruct (acc.1.2); [apply insert_empty|apply insert_singleton_eq].
  - destruct (acc'.2) as [|x l] eqn:E; cbn [List.length Nat.ltb Nat.leb]; [|done].
    symmetry in E3. by apply app_eq_nil in E3 as [-> _].
Qed.

Lemma convertParent_inv st job h st' h' :
  convertParent yaml_Marshal yaml_Unmarshal resolveRequirements g jc branch st job h
  = Done (st', h') ->
  exists e,
    applyMatrixJob yaml_Marshal yaml_Unmarshal job (Jobs_Matrix jc) = Done e
    /\ tracks resolveRequirements g jc branch e st.1 st'.1
    /\ keepsStore g h h'
    /\ (st.2 = outputOf jc st.1 -> st'.2 = outputOf jc st'.1).
Proof.
  intros H. unfold convertParent in H.
  apply bind_inv in H as (e & h1 & E1 & H).
  assert (applyMatrixJob yaml_Marshal yaml_Unmarshal job (Jobs_Matrix jc) = Done e
          /\ h1 = h) as [Ee ->].
  { unfold lift in E1.
    destruct (applyMatrixJob yaml_Marshal yaml_Unmarshal job (Jobs_Matrix jc));
      [by injection E1 as <- <-|done|done]. }
  apply bind_inv in H as (acc & h2 & E2 & H).
  unfold ret in H. injection H as <- <-.
  destruct (foldM_convertJob_inv _ _ _ _ _ _ _ _ _ E2) as [T K].
  exists e. split; [done|]. split; [done|]. split; [done|].
  cbn [fst snd]. intros ->.
  destruct T as ((l1 & A1 & _) & (l2 & A2 & _) & (l3 & A3 & _)).
  apply storeOutput_outputOf; eauto.
Qed.

Lemma foldM_convertParent_inv jobs : forall st h st' h',
  foldM (convertParent yaml_Marshal yaml_Unmarshal resolveRequirements g jc branch)
        jobs st h = Done (st', h') ->
  exists expanded,
    expandJobs yaml_Marshal yaml_Unmarshal jobs (Jobs_Matrix jc) = Done expanded
    /\ tracks resolveRequirements g jc branch expanded st.1 st'.1
    /\ keepsStore g h h'
    /\ (st.2 = outputOf jc st.1 -> st'.2 = outputOf jc st'.1).
Proof.
  induction jobs as [|job jobs IH]; intros st h st' h' H.
  - cbn in H. injection H as <- <-. exists []. split; [done|].
    split; [apply tracks_nil|]. split; [apply keepsStore_refl|done].
  - cbn [foldM] in H. apply bind_inv in H as (st1 & h1 & E1 & H).
    destruct (convertParent_inv _ _ _ _ _ E1) as (e & Ee & T1 & K1 & O1).
    destruct (IH _ _ _ _ H) as (r & Er & T2 & K2 & O2).
    exists (e ++ r). cbn [expandJobs]. rewrite Ee. cbn [obind]. rewrite Er. cbn [obind].
    split; [done|]. split; [exact (tracks_app _ _ _ _ _ _ _ _ _ T1 T2)|].
    split; [exact (keepsStore_trans _ _ _ _ K1 K2)|]. auto.
Qed.

(** The output of [ConvertJobConfig], read back: the expanded jobs, one
    descriptor for each job and kind, the one key of the two maps, and
    the store. *)
Lemma ConvertJobConfig_inv cli h out h' :
  GlobalConfigOf cli = g ->
  ConvertJobConfig yaml_Marshal yaml_Unmarshal resolveRequirements cli jc branch h
  = Done (out, h') ->
  exists expanded acc,
    expandJobs yaml_Marshal yaml_Unmarshal (Jobs_Jobs jc) (Jobs_Matrix jc) = Done expanded
    /\ out = outputOf jc acc
    /\ Forall2 (presubmitOf resolveRequirements g jc branch) acc.1.1
               (List.filter selectsPresubmit expanded)
    /\ Forall2 (postsubmitOf resolveRequirements g jc branch) acc.1.2
               (List.filter selectsPostsubmit expanded)
    /\ Forall2 (periodicOf resolveRequirements g jc branch) acc.2
               (List.filter selectsPeriodic expanded)
    /\ keepsStore g h h'.
Proof.
  intros Hg H. unfold ConvertJobConfig in H. cbv zeta in H. rewrite Hg in H.
  apply bind_inv in H as (st & h1 & E & H). unfold ret in H. injection H as <- <-.
  destruct (foldM_convertParent_inv _ _ _ _ _ E) as (expanded & Ee & T & K & O).
  destruct T as ((l1 & A1 & B1) & (l2 & A2 & B2) & (l3 & A3 & B3)).
  cbn [fst snd app] in *. subst l1 l2 l3.
  exists expanded, st.1. split; [done|]. split; [by apply O|]. done.
Qed.

Lemma presubmitsOf_outputOf acc : presubmitsOf jc (outputOf jc acc) = acc.1.1.
Proof.
  unfold presubmitsOf, outputOf. cbn [PresubmitsStatic].
  destruct (acc.1.1); [done|]. by rewrite lookup_singleton_eq.
Qed.

Lemma postsubmitsOf_outputOf acc : postsubmitsOf jc (outputOf jc acc) = acc.1.2.
Proof.
  unfold postsubmitsOf, outputOf. cbn [PostsubmitsStatic].
  destruct (acc.1.2); [done|]. by rewrite lookup_singleton_eq.
Qed.

End Convert.

End CompileFacts.

(** ** The descriptors of a compiled job group *)

Module CompiledJobs.
Import GoStrings Matrix Config ConfigSpec CompileSpec ExpansionSpec ValidationSpec.
Import StringFacts ConfigLemmas ConfigProofs CompileFacts ExtraRefsFacts.

Lemma contains_decide (l : list string) (x : string) : contains l x = bool_decide (x ∈ l).
Proof.
  apply eq_true_iff_eq. by rewrite contains_elem, bool_decide_eq_true.
Qed.

Lemma withOrgAlias_utility g jc jb :
  JobBase_UtilityConfig (withOrgAlias g jc jb)
  = mkUtilityConfig (Utility_Decorate (JobBase_UtilityConfig jb))
      (match Global_PathAliases g !! Jobs_Org jc with
       | Some pa => pa +:+ "/" +:+ Jobs_Repo jc
       | None => Utility_PathAlias (JobBase_UtilityConfig jb)
       end)
      (Utility_ExtraRefs (JobBase_UtilityConfig jb))
      (Utility_DecorationTimeout (JobBase_UtilityConfig jb)).
Proof.
  unfold withOrgAlias. destruct (Global_PathAliases g !! Jobs_Org jc); [done|].
  by destruct (JobBase_UtilityConfig jb).
Qed.

(** X13: the presubmits of the output stand one to one, in order, for the
    expanded jobs that select the presubmit kind; each runs always exactly
    when its job has no change pattern and not the modifier [skipped], is
    optional exactly with the modifier [optional], skips the report exactly
    with [hidden], has the change pattern of the job, the branch matcher
    [^branch$], and the path alias of the organisation when it has one. *)
Theorem presubmit_triggers_follow_the_job
    (yaml_Marshal : Job -> goresult string) (yaml_Unmarshal : string -> goresult Job)
    (resolveRequirements : gmap string string -> option PodSpec ->
                           list RequirementPreset ->
                           outcome (gmap string string * option PodSpec))
    (g : GlobalConfig) (jc : JobsConfig) (branch : string) (h : Heap)
    (expanded : list Job) :
  (forall labels spec presets, exists r, resolveRequirements labels spec presets = Done r) ->
  wellFormedRepo (Jobs_Org jc +:+ "/" +:+ Jobs_Repo jc) = true ->
  expandJobs yaml_Marshal yaml_Unmarshal (Jobs_Jobs jc) (Jobs_Matrix jc) = Done expanded ->
  Forall reposWellFormed expanded ->
  exists out h',
    ConvertJobConfig yaml_Marshal yaml_Unmarshal resolveRequirements (mkClient g) jc branch h
    = Done (out, h')
    /\ Forall2 (fun p job =>
         Presubmit_AlwaysRun p
         = bool_decide (Job_Regex job = "" /\ ModifierSkipped ∉ Job_Modifiers job)
         /\ Presubmit_Optional p = bool_decide (ModifierOptional ∈ Job_Modifiers job)
         /\ Presubmit_SkipReport p = bool_decide (ModifierHidden ∈ Job_Modifiers job)
         /\ Presubmit_RunIfChanged p = Job_Regex job
         /\ Presubmit_Branches p = ["^" +:+ branch +:+ "$"]
         /\ Utility_PathAlias (JobBase_UtilityConfig (Presubmit_JobBase p))
            = match Global_PathAliases g !! Jobs_Org jc with
              | Some pa => pa +:+ "/" +:+ Jobs_Repo jc
              | None => ""
              end)
       (presubmitsOf jc out) (List.filter selectsPresubmit expanded).
Proof.
  intros Htotal Hself Hexp Hwf.
  destruct (ConvertJobConfig_names yaml_Marshal yaml_Unmarshal resolveRequirements Htotal
              g jc branch Hself h expanded Hexp Hwf) as (out & h' & E & _).
  exists out, h'. split; [exact E|].
  destruct (ConvertJobConfig_inv yaml_Marshal yaml_Unmarshal resolveRequirements g jc branch
              (mkClient g) h out h' eq_refl E)
    as (expanded' & acc & Ee & -> & F1 & _).
  rewrite Hexp in Ee. injection Ee as <-.
  rewrite presubmitsOf_outputOf.
  eapply Forall2_impl; [exact F1|].
  intros p job (h1 & h2 & Hc).
  apply compilePresubmit_inv in Hc as (refs & cs & la & an & spec' & _ & _ & -> & _).
  cbn [Presubmit_AlwaysRun Presubmit_Optional Presubmit_SkipReport Presubmit_RunIfChanged
       Presubmit_Branches Presubmit_JobBase setSpec JobBase_UtilityConfig].
  rewrite withOrgAlias_utility, !contains_decide. cbn [Utility_PathAlias JobBase_UtilityConfig].
  repeat split; try done.
  apply eq_true_iff_eq.
  rewrite andb_true_iff, negb_true_iff, String.eqb_eq, bool_decide_eq_false,
    bool_decide_eq_true. done.
Qed.

(** X14: the postsubmits of the output stand one to one, in order, for the
    expanded jobs that select the postsubmit kind, whatever their modifiers;
    each skips the report exactly with the modifier [hidden], and has the
    change pattern of the job, the branch matcher [^branch$] and the path
    alias of the organisation. *)
Theorem postsubmit_triggers_follow_the_job
    (yaml_Marshal : Job -> goresult string) (yaml_Unmarshal : string -> goresult Job)
    (resolveRequirements : gmap string string -> option PodSpec ->
                           list RequirementPreset ->
                           outcome (gmap string string * option PodSpec))
    (g : GlobalConfig) (jc : JobsConfig) (branch : string) (h : Heap)
    (expanded : list Job) :
  (forall labels spec presets, exists r, resolveRequirements labels spec presets = Done r) ->
  wellFormedRepo (Jobs_Org jc +:+ "/" +:+ Jobs_Repo jc) = true ->
  expandJobs yaml_Marshal yaml_Unmarshal (Jobs_Jobs jc) (Jobs_Matrix jc) = Done expanded ->
  Forall reposWellFormed expanded ->
  exists out h',
    ConvertJobConfig yaml_Marshal yaml_Unmarshal resolveRequirements (mkClient g) jc branch h
    = Done (out, h')
    /\ Forall2 (fun p job =>
         Postsubmit_SkipReport p = bool_decide (ModifierHidden ∈ Job_Modifiers job)
         /\ Postsubmit_RunIfChanged p = Job_Regex job
         /\ Postsubmit_Branches p = ["^" +:+ branch +:+ "$"]
         /\ Utility_PathAlias (JobBase_UtilityConfig (Postsubmit_JobBase p))
            = match Global_PathAliases g !! Jobs_Org jc with
              | Some pa => pa +:+ "/" +:+ Jobs_Repo jc
              | None => ""
              end)
       (postsubmitsOf jc out) (List.filter selectsPostsubmit expanded).
Proof.
  intros Htotal Hself Hexp Hwf.
  destruct (ConvertJobConfig_names yaml_Marshal yaml_Unmarshal resolveRequirements Htotal
              g jc branch Hself h expanded Hexp Hwf) as (out & h' & E & _).
  exists out, h'. split; [exact E|].
  destruct (ConvertJobConfig_inv yaml_Marshal yaml_Unmarshal resolveRequirements g jc branch
              (mkClient g) h out h' eq_refl E)
    as (expanded' & acc & Ee & -> & _ & F2 & _).
  rewrite Hexp in Ee. injection Ee as <-.
  rewrite postsubmitsOf_outputOf.
  eapply Forall2_impl; [exact F2|].
  intros p job (h1 & h2 & Hc).
  apply compilePostsubmit_inv in Hc as (refs & cs & la & an & spec' & _ & _ & -> & _).
  cbn [Postsubmit_SkipReport Postsubmit_RunIfChanged
       Postsubmit_Branches Postsubmit_JobBase setSpec JobBase_UtilityConfig].
  rewrite withOrgAlias_utility, !contains_decide. cbn [Utility_PathAlias JobBase_UtilityConfig].
  done.
Qed.

Lemma plainWord_self_ok org repo :
  plainWord org -> plainWord repo -> wellFormedRepo (org +:+ "/" +:+ repo) = true.
Proof.
  intros Ho Hr. destruct (wellFormedRepo (org +:+ "/" +:+ repo)) eqn:E; [done|].
  pose proof (extraRef_panics "" ∅ _ E) as Hp.
  pose proof (extraRef_parses "" ∅ org repo None) as Hd.
  unfold repoText in Hd.
  assert (org +:+ "/" +:+ repo +:+ "" = org +:+ "/" +:+ repo) as Hs.
  { by rewrite <- !string_app_assoc, GoStringsFacts.string_app_nil_r. }
  rewrite Hs in Hd. rewrite Hd in Hp; [done|]. exact (conj Ho (conj Hr I)).
Qed.

(** X15: the periodics of the output stand one to one, in order, for the expanded
    jobs that select the periodic kind; each has the interval and the cron
    schedule of its job; a job that names no repository checks out the
    repository of the job group at the branch of the call, and one that
    names repositories checks out those. *)
Theorem periodic_keeps_schedule_and_checks_out_own_repo
    (yaml_Marshal : Job -> goresult string) (yaml_Unmarshal : string -> goresult Job)
    (resolveRequirements : gmap string string -> option PodSpec ->
                           list RequirementPreset ->
                           outcome (gmap string string * option PodSpec))
    (g : GlobalConfig) (jc : JobsConfig) (branch : string) (h : Heap)
    (expanded : list Job) :
  (forall labels spec presets, exists r, resolveRequirements labels spec presets = Done r) ->
  plainWord (Jobs_Org jc) -> plainWord (Jobs_Repo jc) ->
  expandJobs yaml_Marshal yaml_Unmarshal (Jobs_Jobs jc) (Jobs_Matrix jc) = Done expanded ->
  Forall reposWellFormed expanded ->
  exists out h',
    ConvertJobConfig yaml_Marshal yaml_Unmarshal resolveRequirements (mkClient g) jc branch h
    = Done (out, h')
    /\ Forall2 (fun p job =>
         Periodic_Interval p = Job_Interval job
         /\ Periodic_Cron p = Job_Cron job
         /\ (Job_Repos job = [] ->
             Utility_ExtraRefs (JobBase_UtilityConfig (Periodic_JobBase p))
             = [refOf branch (Global_PathAliases g) (Jobs_Org jc) (Jobs_Repo jc) None])
         /\ (Job_Repos job <> [] ->
             createExtraRefs (Job_Repos job) branch (Global_PathAliases g)
             = Done (Utility_ExtraRefs (JobBase_UtilityConfig (Periodic_JobBase p)))))
       (Periodics out) (List.filter selectsPeriodic expanded).
Proof.
  intros Htotal Horg Hrepo Hexp Hwf.
  pose proof (plainWord_self_ok _ _ Horg Hrepo) as Hself.
  destruct (ConvertJobConfig_names yaml_Marshal yaml_Unmarshal resolveRequirements Htotal
              g jc branch Hself h expanded Hexp Hwf) as (out & h' & E & _).
  exists out, h'. split; [exact E|].
  destruct (ConvertJobConfig_inv yaml_Marshal yaml_Unmarshal resolveRequirements g jc branch
              (mkClient g) h out h' eq_refl E)
    as (expanded' & acc & Ee & -> & _ & _ & F3 & _).
  rewrite Hexp in Ee. injection Ee as <-.
  cbn [outputOf Periodics].
  eapply Forall2_impl; [exact F3|].
  intros p job (h1 & h2 & Hc).
  apply compilePeriodic_inv in Hc as (refs & cs & la & an & spec' & Hrefs & _ & -> & _).
  cbn [Periodic_Interval Periodic_Cron Periodic_JobBase setSpec JobBase_UtilityConfig
       Utility_ExtraRefs].
  split; [done|]. split; [done|]. unfold withOwnRepo in Hrefs. split.
  - intros Hnil. rewrite Hnil in Hrefs. cbn [List.length Nat.eqb setRepos Job_Repos] in Hrefs.
    pose proof (extraRef_parses branch (Global_PathAliases g) (Jobs_Org jc) (Jobs_Repo jc)
                  None (conj Horg (conj Hrepo I))) as Hd.
    unfold repoText in Hd.
    assert (Jobs_Org jc +:+ "/" +:+ Jobs_Repo jc +:+ "" = Jobs_Org jc +:+ "/" +:+ Jobs_Repo jc)
      as Hs by (by rewrite <- !string_app_assoc, GoStringsFacts.string_app_nil_r).
    rewrite Hs in Hd. cbn [createExtraRefs] in Hrefs. rewrite Hd in Hrefs.
    cbn [obind] in Hrefs. by injection Hrefs as <-.
  - intros Hne. destruct (Job_Repos job) as [|r l] eqn:Er; [done|].
    cbn [List.length Nat.eqb] in Hrefs. by rewrite Er in Hrefs.
Qed.

(** X16: the two maps of the output hold no key but [org/repo] of the job group,
    and they hold this key exactly when some expanded job selects the kind:
    no empty list is stored; the three lists have one descriptor for each
    expanded job that selects their kind. *)
Theorem output_maps_hold_the_group_key_only
    (yaml_Marshal : Job -> goresult string) (yaml_Unmarshal : string -> goresult Job)
    (resolveRequirements : gmap string string -> option PodSpec ->
                           list RequirementPreset ->
                           outcome (gmap string string * option PodSpec))
    (g : GlobalConfig) (jc : JobsConfig) (branch : string) (h : Heap)
    (expanded : list Job) :
  (forall labels spec presets, exists r, resolveRequirements labels spec presets = Done r) ->
  wellFormedRepo (Jobs_Org jc +:+ "/" +:+ Jobs_Repo jc) = true ->
  expandJobs yaml_Marshal yaml_Unmarshal (Jobs_Jobs jc) (Jobs_Matrix jc) = Done expanded ->
  Forall reposWellFormed expanded ->
  exists out h',
    ConvertJobConfig yaml_Marshal yaml_Unmarshal resolveRequirements (mkClient g) jc branch h
    = Done (out, h')
    /\ (forall k, k <> Jobs_Org jc +:+ "/" +:+ Jobs_Repo jc ->
          PresubmitsStatic out !! k = None /\ PostsubmitsStatic out !! k = None)
    /\ (is_Some (PresubmitsStatic out !! (Jobs_Org jc +:+ "/" +:+ Jobs_Repo jc))
        <-> List.filter selectsPresubmit expanded <> [])
    /\ (is_Some (PostsubmitsStatic out !! (Jobs_Org jc +:+ "/" +:+ Jobs_Repo jc))
        <-> List.filter selectsPostsubmit expanded <> [])
    /\ List.length (presubmitsOf jc out) = List.length (List.filter selectsPresubmit expanded)
    /\ List.length (postsubmitsOf jc out)
       = List.length (List.filter selectsPostsubmit expanded)
    /\ List.length (Periodics out) = List.length (List.filter selectsPeriodic expanded).
Proof.
  intros Htotal Hself Hexp Hwf.
  destruct (ConvertJobConfig_names yaml_Marshal yaml_Unmarshal resolveRequirements Htotal
              g jc branch Hself h expanded Hexp Hwf) as (out & h' & E & _).
  exists out, h'. split; [exact E|].
  destruct (ConvertJobConfig_inv yaml_Marshal yaml_Unmarshal resolveRequirements g jc branch
              (mkClient g) h out h' eq_refl E)
    as (expanded' & acc & Ee & -> & F1 & F2 & F3 & _).
  rewrite Hexp in Ee. injection Ee as <-.
  rewrite presubmitsOf_outputOf, postsubmitsOf_outputOf.
  apply Forall2_length in F1, F2, F3.
  unfold outputOf. cbn [PresubmitsStatic PostsubmitsStatic Periodics].
  split; [|split; [|split; [|done]]].
  - intros k Hk. split.
    + destruct (acc.1.1); [done|]. by rewrite lookup_singleton_ne.
    + destruct (acc.1.2); [done|]. by rewrite lookup_singleton_ne.
  - destruct (acc.1.1) as [|p l], (List.filter selectsPresubmit expanded) as [|j js];
      try done.
    + split; [by intros [? ?]|done].
    + rewrite lookup_singleton_eq. split; [done|eauto].
  - destruct (acc.1.2) as [|p l], (List.filter selectsPostsubmit expanded) as [|j js];
      try done.
    + split; [by intros [? ?]|done].
    + rewrite lookup_singleton_eq. split; [done|eauto].
Qed.

(** X17: of the maps of annotations and of labels that are there before the
    call, [ConvertJobConfig] writes to those of the global configuration
    only, and it writes to no map of resource profiles and to no map of
    presets.  The statement is about these four kinds of map, the ones
    the store holds.  It does not cover the node selectors: [createJobBase]
    stores them into the pod specification as the maps they are (lines
    617-625) and the resolver is handed them with it (line 693); here they
    are kept by their contents, and the resolver, which is outside the
    file, acts on the labels and on the pod specification through what it
    returns. *)
Theorem ConvertJobConfig_keeps_other_annotations_and_labels
    (yaml_Marshal : Job -> goresult string) (yaml_Unmarshal : string -> goresult Job)
    (resolveRequirements : gmap string string -> option PodSpec ->
                           list RequirementPreset ->
                           outcome (gmap string string * option PodSpec))
    (g : GlobalConfig) (jc : JobsConfig) (branch : string) (h : Heap)
    (expanded : list Job) :
  (forall labels spec presets, exists r, resolveRequirements labels spec presets = Done r) ->
  wellFormedRepo (Jobs_Org jc +:+ "/" +:+ Jobs_Repo jc) = true ->
  expandJobs yaml_Marshal yaml_Unmarshal (Jobs_Jobs jc) (Jobs_Matrix jc) = Done expanded ->
  Forall reposWellFormed expanded ->
  exists out h',
    ConvertJobConfig yaml_Marshal yaml_Unmarshal resolveRequirements (mkClient g) jc branch h
    = Done (out, h')
    /\ resMaps h' = resMaps h
    /\ presetMaps h' = presetMaps h
    /\ dom (strMaps h) ⊆ dom (strMaps h')
    /\ forall l, l ∈ dom (strMaps h) ->
         Global_Annotations g <> Some l -> Global_Labels g <> Some l ->
         strMapAt h' l = strMapAt h l.
Proof.
  intros Htotal Hself Hexp Hwf.
  destruct (ConvertJobConfig_names yaml_Marshal yaml_Unmarshal resolveRequirements Htotal
              g jc branch Hself h expanded Hexp Hwf) as (out & h' & E & _).
  exists out, h'. split; [exact E|].
  destruct (ConvertJobConfig_inv yaml_Marshal yaml_Unmarshal resolveRequirements g jc branch
              (mkClient g) h out h' eq_refl E)
    as (_ & _ & _ & _ & _ & _ & _ & (D & K & R & P)).
  done.
Qed.

Lemma bind_ext {A B} (m : M A) (f f' : A -> M B) h :
  (forall a h1, f a h1 = f' a h1) -> bind m f h = bind m f' h.
Proof. intros H. unfold bind. destruct (m h) as [[a h1]| |]; auto. Qed.

Lemma bind_ext2 {A B} (m m' : M A) (f f' : A -> M B) h :
  m h = m' h -> (forall a h1, f a h1 = f' a h1) -> bind m f h = bind m' f' h.
Proof. intros Hm H. unfold bind. rewrite Hm. destruct (m' h) as [[a h1]| |]; auto. Qed.

Lemma foldM_ext {A B} (f f' : B -> A -> M B) (l : list A) :
  (forall b a h, f b a h = f' b a h) -> forall b h, foldM f l b h = foldM f' l b h.
Proof.
  intros H. induction l as [|a l IH]; intros b h; [done|].
  cbn [foldM]. unfold bind. rewrite H. destruct (f' b a h) as [[b1 h1]| |]; auto.
Qed.

Lemma lookupPresets_empty reqs :
  map (fun _ => zeroPreset) (lookupPresets ∅ reqs) = lookupPresets ∅ reqs.
Proof.
  unfold lookupPresets. induction reqs as [|r reqs IH]; [done|].
  cbn [map]. rewrite IH, lookup_empty. done.
Qed.

Section ZeroPresets.
Variable resolveRequirements :
  gmap string string -> option PodSpec -> list RequirementPreset ->
  outcome (gmap string string * option PodSpec).
Variable g : GlobalConfig.
Hypothesis Hnone : Global_RequirementPresets g = None.

Lemma applyRequirements_zero jb reqs h :
  applyRequirements resolveRequirements jb reqs None h
  = applyRequirements (onZeroPresets resolveRequirements) jb reqs None h.
Proof.
  unfold applyRequirements, onZeroPresets. cbn [presetMapAt].
  by rewrite lookupPresets_empty.
Qed.

Lemma compilePresubmit_zero jc branch job reqs prefix h :
  compilePresubmit resolveRequirements g jc branch job reqs prefix h
  = compilePresubmit (onZeroPresets resolveRequirements) g jc branch job reqs prefix h.
Proof.
  unfold compilePresubmit. rewrite Hnone. apply bind_ext. intros jb h1. cbv zeta.
  apply bind_ext. intros u h2. unfold bind. by rewrite applyRequirements_zero.
Qed.

Lemma compilePostsubmit_zero jc branch job reqs prefix h :
  compilePostsubmit resolveRequirements g jc branch job reqs prefix h
  = compilePostsubmit (onZeroPresets resolveRequirements) g jc branch job reqs prefix h.
Proof.
  unfold compilePostsubmit. rewrite Hnone. apply bind_ext. intros jb h1. cbv zeta.
  apply bind_ext. intros u h2. unfold bind. by rewrite applyRequirements_zero.
Qed.

Lemma compilePeriodic_zero jc branch job reqs prefix h :
  compilePeriodic resolveRequirements g jc branch job reqs prefix h
  = compilePeriodic (onZeroPresets resolveRequirements) g jc branch job reqs prefix h.
Proof.
  unfold compilePeriodic. rewrite Hnone. cbv zeta. apply bind_ext. intros jb h1.
  apply bind_ext. intros u h2. unfold bind. by rewrite applyRequirements_zero.
Qed.

Lemma convertJob_zero jc branch acc job h :
  convertJob resolveRequirements g jc branch acc job h
  = convertJob (onZeroPresets resolveRequirements) g jc branch acc job h.
Proof.
  unfold convertJob. cbv zeta.
  apply bind_ext2.
  { destruct (selectsPresubmit job); [|done].
    apply bind_ext2; [apply compilePresubmit_zero|done]. }
  intros ps h1. apply bind_ext2.
  { destruct (selectsPostsubmit job); [|done].
    apply bind_ext2; [apply compilePostsubmit_zero|done]. }
  intros qs h2. apply bind_ext2; [|done].
  destruct (selectsPeriodic job); [|done].
  apply bind_ext2; [apply compilePeriodic_zero|done].
Qed.

Lemma ConvertJobConfig_zero yaml_Marshal yaml_Unmarshal cli jc branch h :
  GlobalConfigOf cli = g ->
  ConvertJobConfig yaml_Marshal yaml_Unmarshal resolveRequirements cli jc branch h
  = ConvertJobConfig yaml_Marshal yaml_Unmarshal (onZeroPresets resolveRequirements)
      cli jc branch h.
Proof.
  intros Hg. unfold ConvertJobConfig. cbv zeta. rewrite Hg.
  apply bind_ext2; [|done].
  apply foldM_ext. intros st job h0. unfold convertParent.
  apply bind_ext. intros e h1. apply bind_ext2; [|done].
  apply foldM_ext. intros. apply convertJob_zero.
Qed.

End ZeroPresets.

(** X9: when the global configuration has no preset map, the presets the
    document of a job group declares are in the map the validation reads,
    but [ConvertJobConfig] looks the names up in the nil map of the global
    configuration: its outcome is that of a resolver that is handed zero
    presets only. *)
Theorem group_presets_are_not_applied_without_global_presets
    (yaml_Marshal : Job -> goresult string) (yaml_Unmarshal : string -> goresult Job)
    (resolveRequirements : gmap string string -> option PodSpec ->
                           list RequirementPreset ->
                           outcome (gmap string string * option PodSpec))
    (cli : Client) (jobs jc : JobsConfig) (branch : string) (h h1 : Heap) :
  Global_RequirementPresets (GlobalConfigOf cli) = None ->
  ReadJobConfig cli jobs h = Done (jc, h1) ->
  presetMapAt h1 (Jobs_RequirementPresets jc) = presetMapAt h (Jobs_RequirementPresets jobs)
  /\ presetMapAt h1 (Global_RequirementPresets (GlobalConfigOf cli)) = ∅
  /\ ConvertJobConfig yaml_Marshal yaml_Unmarshal resolveRequirements cli jc branch h1
     = ConvertJobConfig yaml_Marshal yaml_Unmarshal (onZeroPresets resolveRequirements)
         cli jc branch h1.
Proof.
  intros Hnone Hread.
  destruct (ReadFacts.ReadJobConfig_spec cli jobs h)
    as (jc' & h' & lr & lp & E & -> & _ & Hp & _).
  rewrite E in Hread. injection Hread as <- <-.
  cbn [Jobs_RequirementPresets]. rewrite Hp, Hnone. cbn [presetMapAt].
  split; [apply (right_id_L ∅ (∪))|]. split; [done|].
  by apply (ConvertJobConfig_zero resolveRequirements (GlobalConfigOf cli)).
Qed.

(** X18: the job base [createJobBase] returns has a pod of exactly one container
    and no volume; the container is privileged, has no arguments and no
    mounts, the command of the job, the image and the pull policy of the job
    or else of the group, the variables of the job followed by all those of
    the group, a name of both kept twice, and the resource profile the job
    names, or else [default], or none when the map lacks it; the job base is
    decorated and has the timeout and the concurrency of the job. *)
Theorem createJobBase_runs_one_privileged_container
    (g : GlobalConfig) (jc : JobsConfig) (job : Job) (name branch : string)
    (res : option loc) (h : Heap) (refs : list Refs) :
  createExtraRefs (Job_Repos job) branch (Global_PathAliases g) = Done refs ->
  exists jb h' spec c,
    createJobBase g jc job name branch res h = Done (jb, h')
    /\ JobBase_Spec jb = Some spec
    /\ PodSpec_Containers spec = [c] /\ PodSpec_Volumes spec = []
    /\ Container_Image c = (if decide (Job_Image job = "") then Jobs_Image jc
                            else Job_Image job)
    /\ Container_ImagePullPolicy c
       = (if decide (Job_ImagePullPolicy job = "") then Jobs_ImagePullPolicy jc
          else Job_ImagePullPolicy job)
    /\ Container_Command c = Job_Command job /\ Container_Args c = []
    /\ Container_Env c = Job_Env job ++ Jobs_Env jc
    /\ Container_VolumeMounts c = []
    /\ Container_Privileged c = Some true
    /\ Container_Resources c
       = default zeroResources
           (resMapAt h res !! (if decide (Job_Resources job = "") then DefaultResource
                               else Job_Resources job))
    /\ JobBase_MaxConcurrency jb = Job_MaxConcurrency job
    /\ JobBase_UtilityConfig jb = mkUtilityConfig (Some true) "" refs (Job_Timeout job).
Proof.
  intros Hrefs.
  destruct (createJobBase_full g jc job name branch res h refs Hrefs)
    as (cs & la & an & h' & Ec & E & _).
  unfold createContainer in Ec. injection Ec as <-.
  eexists _, h', _, _. split; [exact E|]. cbn.
  split; [reflexivity|]. split; [reflexivity|]. split; [reflexivity|].
  split; [by destruct (String.eqb_spec (Job_Image job) ""), (decide (Job_Image job = ""))|].
  split; [by destruct (String.eqb_spec (Job_ImagePullPolicy job) ""),
                      (decide (Job_ImagePullPolicy job = ""))|].
  split; [done|]. split; [done|].
  split; [by destruct (Job_Env job)|]. split; [done|]. split; [done|].
  split; [|done].
  destruct (String.eqb_spec (Job_Resources job) ""), (decide (Job_Resources job = ""));
    try done; cbn [negb]; by destruct (resMapAt h res !! _).
Qed.

End CompiledJobs.

(** ** The jobs of a matrix, and what validation leaves open *)

Module ExpandedJobs.
Import GoStrings Matrix Config ConfigSpec CompileSpec ExpansionSpec ValidationSpec.
Import StringFacts ConfigLemmas ConfigProofs CompileFacts ExtraRefsFacts ValidationFacts.

Section Codec.
Variable yaml_Marshal : Job -> goresult string.
Variable yaml_Unmarshal : string -> goresult Job.

Lemma unmarshal_fold_stuck (ts : list string) (x : outcome (list Job)) :
  (forall jobs, x <> Done jobs) ->
  fold_left (fun jobs jobYaml =>
               obind jobs (fun jobs =>
                 match yaml_Unmarshal jobYaml with
                 | Ok job => Done (jobs ++ [job])
                 | Err e => Exit ("failed to unmarshal the yaml to Job: " +:+ e)
                 end)) ts x = x.
Proof.
  revert x. induction ts as [|t ts IH]; intros x Hx; [done|].
  cbn [fold_left]. destruct x as [jobs| |]; [by destruct (Hx jobs)| |]; by apply IH.
Qed.

Lemma unmarshal_fold (ts : list string) : forall acc jobs,
  fold_left (fun jobs jobYaml =>
               obind jobs (fun jobs =>
                 match yaml_Unmarshal jobYaml with
                 | Ok job => Done (jobs ++ [job])
                 | Err e => Exit ("failed to unmarshal the yaml to Job: " +:+ e)
                 end)) ts (Done acc) = Done jobs
  <-> exists js, jobs = acc ++ js /\ Forall2 (fun t j => yaml_Unmarshal t = Ok j) ts js.
Proof.
  induction ts as [|t ts IH]; intros acc jobs.
  - cbn [fold_left]. split.
    + intros [= <-]. exists []. split; [by rewrite app_nil_r|constructor].
    + intros (js & -> & H). inversion H. by rewrite app_nil_r.
  - cbn [fold_left obind]. destruct (yaml_Unmarshal t) as [j|e] eqn:Et.
    + rewrite IH. split.
      * intros (js & -> & H). exists (j :: js). split; [by rewrite <- app_assoc|].
        by constructor.
      * intros (js & -> & H). inversion H as [|? j' ? js' Hj Hjs]; subst.
        rewrite Et in Hj. injection Hj as <-.
        exists js'. split; [by rewrite <- app_assoc|done].
    + rewrite unmarshal_fold_stuck by done. split; [done|].
      intros (js & -> & H). inversion H as [|? j' ? js' Hj Hjs]; subst. congruence.
Qed.

Lemma unmarshal_fold_no_panic (ts : list string) : forall x msg,
  (forall m, x <> Panic m) ->
  fold_left (fun jobs jobYaml =>
               obind jobs (fun jobs =>
                 match yaml_Unmarshal jobYaml with
                 | Ok job => Done (jobs ++ [job])
                 | Err e => Exit ("failed to unmarshal the yaml to Job: " +:+ e)
                 end)) ts x <> Panic msg.
Proof.
  induction ts as [|t ts IH]; intros x msg Hx; [apply Hx|].
  cbn [fold_left]. apply IH. intros m.
  destruct x as [jobs| |]; cbn [obind]; [by destruct (yaml_Unmarshal t)|done|apply Hx].
Qed.

End Codec.

(** X5: [applyMatrixJob] returns jobs exactly when the job is marshalled and
    every template of its expansion is parsed, and then it returns one job
    for each template, in order; it never panics, and one template that does
    not parse ends the run, so no part of an expansion is returned without
    the rest. *)
Theorem applyMatrixJob_all_or_nothing
    (yaml_Marshal : Job -> goresult string) (yaml_Unmarshal : string -> goresult Job)
    (job : Job) (matrix : gmap string (list string)) :
  (forall jobs,
      applyMatrixJob yaml_Marshal yaml_Unmarshal job matrix = Done jobs
      <-> exists yamlStr,
            yaml_Marshal job = Ok yamlStr
            /\ Forall2 (fun t j => yaml_Unmarshal t = Ok j) (applyMatrix yamlStr matrix) jobs)
  /\ (forall msg, applyMatrixJob yaml_Marshal yaml_Unmarshal job matrix <> Panic msg)
  /\ (forall yamlStr t e,
        yaml_Marshal job = Ok yamlStr -> t ∈ applyMatrix yamlStr matrix ->
        yaml_Unmarshal t = Err e ->
        exists msg, applyMatrixJob yaml_Marshal yaml_Unmarshal job matrix = Exit msg).
Proof.
  unfold applyMatrixJob, unmarshalJobs.
  destruct (yaml_Marshal job) as [y|e] eqn:Em.
  - assert (Hiff : forall jobs,
      fold_left (fun jobs jobYaml =>
               obind jobs (fun jobs =>
                 match yaml_Unmarshal jobYaml with
                 | Ok job => Done (jobs ++ [job])
                 | Err e => Exit ("failed to unmarshal the yaml to Job: " +:+ e)
                 end)) (applyMatrix y matrix) (Done []) = Done jobs
      <-> Forall2 (fun t j => yaml_Unmarshal t = Ok j) (applyMatrix y matrix) jobs).
    { intros jobs. rewrite unmarshal_fold. split.
      - by intros (js & -> & H).
      - intros H. by exists jobs. }
    split; [|split].
    + intros jobs. rewrite Hiff. split; [by exists y|]. by intros (y' & [= <-] & H).
    + intros msg. by apply unmarshal_fold_no_panic.
    + intros y' t e [= <-] Hin Ht.
      match goal with |- exists msg, ?x = Exit msg =>
        destruct x as [jobs|msg|msg] eqn:E; [|eauto|] end.
      * pose proof (proj1 (Hiff jobs) eq_refl) as HF. exfalso. clear Hiff E.
        induction HF as [|t' j ts js Hj _ IH].
        -- by apply elem_of_nil in Hin.
        -- apply elem_of_cons in Hin as [->|Hin]; [congruence|by apply IH].
      * exfalso. revert E. by apply unmarshal_fold_no_panic.
  - split; [|split]; [|done|done].
    intros jobs. split; [done|]. by intros (y & ? & _).
Qed.

(** X7: the validation of the repositories is weaker than what [createExtraRefs]
    needs: in a job group the validation accepts, a repository whose slash
    does not come before its first at sign still has exactly one slash, and
    [createJobBase] panics on the job that names it. *)
Theorem accepted_repo_can_stop_createJobBase
    (cron_Parse time_ParseDuration : string -> goresult unit)
    (cli : Client) (fileName : string) (jc : JobsConfig) (h h0 : Heap)
    (g : GlobalConfig) (job : Job) (name branch repo : string) (res : option loc) :
  groupAccepted cron_Parse time_ParseDuration jc h ->
  job ∈ Jobs_Jobs jc -> repo ∈ Job_Repos job ->
  countChar "/" (beforeChar "@" repo) = 0 ->
  ValidateJobConfig cron_Parse time_ParseDuration cli fileName jc h = Done (tt, h)
  /\ countChar "/" repo = 1
  /\ exists msg, createJobBase g jc job name branch res h0 = Panic msg.
Proof.
  intros Hacc Hjob Hrepo Hslash. split; [|split].
  - unfold ValidateJobConfig.
    by rewrite (proj2 (validationErrors_nil cron_Parse time_ParseDuration fileName jc h) Hacc).
  - destruct Hacc as (_ & _ & Hjobs).
    rewrite Forall_forall in Hjobs. destruct (Hjobs job Hjob) as (_ & _ & _ & _ & _ & Hrepos).
    rewrite Forall_forall in Hrepos. by apply Hrepos.
  - destruct (createExtraRefs_panics (Job_Repos job) branch (Global_PathAliases g))
      as (msg & Hp).
    { apply Exists_exists. exists repo. split; [done|].
      destruct (wellFormedRepo repo) eqn:E; [|done].
      apply wellFormedRepo_slash in E. lia. }
    exists msg. unfold createJobBase.
    destruct (createContainer_done jc job res h0) as (cs & Ec).
    rewrite (bind_Done _ _ _ _ _ Ec). unfold bind, lift. by rewrite Hp.
Qed.

End ExpandedJobs.

(** ** The requirement names of a job *)

Module RequirementNames.
Import GoStrings Matrix Config ConfigSpec ConfigLemmas.

Lemma append_missing (l : list string) : forall acc,
  exists added,
    fold_left (fun requirements req =>
                 if negb (contains requirements req) then requirements ++ [req]
                 else requirements) l acc = acc ++ added
    /\ NoDup added
    /\ (forall x, x ∈ added <-> x ∈ l /\ x ∉ acc)
    /\ sublist added l.
Proof.
  induction l as [|x l IH]; intros acc; cbn [fold_left].
  - exists []. rewrite app_nil_r. split; [done|]. split; [apply NoDup_nil_2|].
    split; [|done]. intros y. rewrite !elem_of_nil. tauto.
  - destruct (contains acc x) eqn:Ec; cbn [negb].
    + apply contains_elem in Ec.
      destruct (IH acc) as (added & -> & Hnd & Hin & Hsub).
      exists added. split; [done|]. split; [done|]. split; [|by apply sublist_cons].
      intros y. rewrite Hin, elem_of_cons. split; [tauto|].
      intros [[->|?] ?]; tauto.
    + assert (Hx : x ∉ acc) by (intros H; apply contains_elem in H; congruence).
      destruct (IH (acc ++ [x])) as (added & -> & Hnd & Hin & Hsub).
      exists (x :: added). split; [by rewrite <- app_assoc|].
      split; [|split; [|by apply sublist_skip]].
      * apply NoDup_cons. split; [|done]. intros H. apply Hin in H as [_ H].
        apply H, elem_of_app. right. apply list_elem_of_here.
      * intros y. rewrite !elem_of_cons, Hin, elem_of_app, list_elem_of_singleton.
        destruct (decide (y = x)) as [->|Hne]; [tauto|]. tauto.
Qed.

(** X12: the requirement names of a job are the base requirements of the global
    configuration, as they are, followed by the names of the job and then of
    the group that are not among them, each once and in the order of the
    list of the job followed by that of the group. *)
Theorem job_requirements_keep_first_mention
    (settings : GlobalConfig) (jobsConfig : JobsConfig) (job : Job) :
  exists added,
    jobRequirements settings jobsConfig job = Global_BaseRequirements settings ++ added
    /\ NoDup added
    /\ (forall x, x ∈ added
                  <-> (x ∈ Job_Requirements job \/ x ∈ Jobs_Requirements jobsConfig)
                      /\ x ∉ Global_BaseRequirements settings)
    /\ sublist added (Job_Requirements job ++ Jobs_Requirements jobsConfig)
    /\ (forall x, x ∈ jobRequirements settings jobsConfig job
                  <-> x ∈ Global_BaseRequirements settings
                      \/ x ∈ Job_Requirements job \/ x ∈ Jobs_Requirements jobsConfig).
Proof.
  unfold jobRequirements.
  destruct (append_missing (Job_Requirements job ++ Jobs_Requirements jobsConfig)
              (Global_BaseRequirements settings)) as (added & -> & Hnd & Hin & Hsub).
  exists added. split; [done|]. split; [done|]. split; [|split; [done|]].
  - intros x. by rewrite Hin, elem_of_app.
  - intros x. rewrite elem_of_app, Hin, elem_of_app.
    destruct (decide (x ∈ Global_BaseRequirements settings)); tauto.
Qed.

End RequirementNames.

(** ** The testgrid annotations of a compiled job *)

Module TestgridFacts.
Import GoStrings Matrix Config ConfigSpec CompileSpec ExpansionSpec ValidationSpec.
Import StringFacts ConfigLemmas ConfigProofs CompileFacts ExtraRefsFacts.





Section Resolver.
Variable resolveRequirements :
  gmap string string -> option PodSpec -> list RequirementPreset ->
  outcome (gmap string string * option PodSpec).


End Resolver.


End TestgridFacts.

(** ** More properties of the package decorator *)

Module DecoratorFacts.
Import Decorator DecoratorSpec OverlaySpec DecoratorProofs.

(** Appending what is new by its key: the loops on the environment, the
    volumes and the mounts. *)
Section Dedup.
Context {A : Type} (key : A -> string).

Lemma dedup_has_filter name (l : list A) :
  existsb (fun y => String.eqb (key y) name) l = false ->
  List.filter (fun x => String.eqb (key x) name) l = [].
Proof.
  induction l as [|e l IH]; cbn [existsb List.filter]; [done|].
  destruct (String.eqb (key e) name); cbn [orb]; [done|]. apply IH.
Qed.

Lemma fold_dedup_filter name (declared : list A) : forall l,
  List.filter (fun x => String.eqb (key x) name)
    (fold_left (fun l x => if existsb (fun y => String.eqb (key y) (key x)) l then l
                           else l ++ [x]) declared l)
  = if existsb (fun y => String.eqb (key y) name) l
    then List.filter (fun x => String.eqb (key x) name) l
    else match List.find (fun x => String.eqb (key x) name) declared with
         | Some e => [e]
         | None => []
         end.
Proof.
  induction declared as [|e1 rest IH]; intros l; cbn [fold_left List.find].
  - destruct (existsb _ l) eqn:Hh; [done|]. by apply dedup_has_filter.
  - rewrite IH.
    destruct (existsb (fun y => String.eqb (key y) (key e1)) l) eqn:H1.
    + destruct (existsb (fun y => String.eqb (key y) name) l) eqn:Hh; [done|].
      destruct (String.eqb (key e1) name) eqn:E; [|done].
      apply String.eqb_eq in E. rewrite <- E in Hh. congruence.
    + rewrite existsb_app, List.filter_app. cbn [existsb List.filter]. rewrite orb_false_r.
      destruct (String.eqb (key e1) name) eqn:E.
      * apply String.eqb_eq in E. subst name. rewrite H1. cbn [orb].
        by rewrite (dedup_has_filter _ _ H1).
      * rewrite orb_false_r.
        destruct (existsb (fun y => String.eqb (key y) name) l); [by rewrite app_nil_r|done].
Qed.

Lemma fold_dedup_prefix (declared : list A) : forall l,
  exists added,
    fold_left (fun l x => if existsb (fun y => String.eqb (key y) (key x)) l then l
                          else l ++ [x]) declared l = l ++ added
    /\ forall e, e ∈ added -> e ∈ declared.
Proof.
  induction declared as [|e1 rest IH]; intros l; cbn [fold_left].
  - exists []. split; [by rewrite app_nil_r|]. intros e He. by apply elem_of_nil in He.
  - destruct (existsb (fun y => String.eqb (key y) (key e1)) l).
    + destruct (IH l) as (added & -> & Hadd). exists added. split; [done|].
      intros e He. apply elem_of_cons. right. by apply Hadd.
    + destruct (IH (l ++ [e1])) as (added & -> & Hadd). exists (e1 :: added).
      split; [by rewrite <- app_assoc|].
      intros e He. apply elem_of_cons in He as [->|He]; apply elem_of_cons; [by left|].
      right. by apply Hadd.
Qed.

End Dedup.

Lemma fold_map_commute {A B} (f : B -> A -> A) (xs : list B) : forall l : list A,
  fold_left (fun l x => map (f x) l) xs l = map (fun a => fold_left (fun a x => f x a) xs a) l.
Proof.
  induction xs as [|x xs IH]; intros l; cbn [fold_left].
  - by rewrite map_id.
  - by rewrite IH, map_map.
Qed.

Lemma setEnv_id c : setEnv c (Container_Env c) = c.
Proof. by destruct c. Qed.

Lemma setVolumeMounts_id c : setVolumeMounts c (Container_VolumeMounts c) = c.
Proof. by destruct c. Qed.

Lemma fold_addEnv_closed envs : forall c,
  fold_left (fun c e1 => addEnv e1 c) envs c
  = setEnv c (fold_left appendEnv envs (Container_Env c)).
Proof.
  induction envs as [|e envs IH]; intros c; cbn [fold_left].
  - by rewrite setEnv_id.
  - rewrite IH. unfold addEnv, appendEnv.
    destruct (hasEnv (EnvVar_Name e) (Container_Env c)); [done|]. done.
Qed.

Lemma fold_addMount_closed vms : forall c,
  fold_left (fun c vm1 => addMount vm1 c) vms c
  = setVolumeMounts c (fold_left appendMount vms (Container_VolumeMounts c)).
Proof.
  induction vms as [|vm vms IH]; intros c; cbn [fold_left].
  - by rewrite setVolumeMounts_id.
  - rewrite IH. unfold addMount, appendMount.
    destruct (hasMount (VolumeMount_MountPath vm) (Container_VolumeMounts c)); [done|]. done.
Qed.

(** [mergeContainers] in one step. *)
Lemma mergeContainers_closed spec req :
  mergeContainers spec req
  = mkPodSpec (map (overlayContainer req) (PodSpec_Containers spec))
              (fold_left addVolume (Preset_Volumes req) (PodSpec_Volumes spec))
              (PodSpec_NodeSelector spec) (PodSpec_ServiceAccountName spec).
Proof.
  unfold mergeContainers, setVolumes, setContainers.
  cbn [PodSpec_Containers PodSpec_Volumes PodSpec_NodeSelector PodSpec_ServiceAccountName].
  f_equal. rewrite !fold_map_commute, !map_map. apply map_ext. intros c.
  rewrite fold_addEnv_closed, fold_addMount_closed. done.
Qed.

Lemma overlayContainer_twice p q pq c :
  Preset_Args pq = Preset_Args p ++ Preset_Args q ->
  Preset_Env pq = Preset_Env p ++ Preset_Env q ->
  Preset_VolumeMounts pq = Preset_VolumeMounts p ++ Preset_VolumeMounts q ->
  overlayContainer q (overlayContainer p c) = overlayContainer pq c.
Proof.
  intros Ha He Hm. unfold overlayContainer.
  cbn [Container_Image Container_ImagePullPolicy Container_Command Container_Args
       Container_Env Container_VolumeMounts Container_Resources Container_Privileged].
  by rewrite Ha, He, Hm, <- app_assoc, !fold_left_app.
Qed.

Lemma overlayContainer_zero c req :
  Preset_Args req = [] -> Preset_Env req = [] -> Preset_VolumeMounts req = [] ->
  overlayContainer req c = c.
Proof.
  intros Ha He Hm. unfold overlayContainer. rewrite Ha, He, Hm, app_nil_r.
  by destruct c.
Qed.

Lemma joinPresets_snoc presets q :
  Preset_Annotations (joinPresets (presets ++ [q]))
  = Preset_Annotations q ∪ Preset_Annotations (joinPresets presets)
  /\ Preset_Labels (joinPresets (presets ++ [q]))
     = Preset_Labels q ∪ Preset_Labels (joinPresets presets)
  /\ Preset_Env (joinPresets (presets ++ [q]))
     = Preset_Env (joinPresets presets) ++ Preset_Env q
  /\ Preset_Args (joinPresets (presets ++ [q]))
     = Preset_Args (joinPresets presets) ++ Preset_Args q
  /\ Preset_Volumes (joinPresets (presets ++ [q]))
     = Preset_Volumes (joinPresets presets) ++ Preset_Volumes q
  /\ Preset_VolumeMounts (joinPresets (presets ++ [q]))
     = Preset_VolumeMounts (joinPresets presets) ++ Preset_VolumeMounts q
  /\ Preset_PodSpec (joinPresets (presets ++ [q])) = None.
Proof.
  unfold joinPresets.
  cbn [Preset_Annotations Preset_Labels Preset_Env Preset_Args Preset_Volumes
       Preset_VolumeMounts Preset_PodSpec].
  rewrite !fold_left_app, !flat_map_app. cbn [fold_left flat_map].
  by rewrite !app_nil_r.
Qed.

Lemma union_empty_str (m1 m2 : gmap string string) : m2 ∪ m1 = ∅ <-> m1 = ∅ /\ m2 = ∅.
Proof.
  split.
  - intros H. pose proof (map_positive_l _ _ H) as ->.
    rewrite (left_id_L ∅ (∪)) in H. done.
  - intros [-> ->]. apply (left_id_L ∅ (∪)).
Qed.

Lemma assignAll_value (m src : gmap string string) :
  assignAll (Some m) src = Done (Some (src ∪ m)).
Proof.
  unfold assignAll. case_bool_decide as H; [|done].
  rewrite H. by rewrite (left_id_L ∅ (∪)).
Qed.

Lemma assignAll_nil (src : gmap string string) :
  assignAll None src
  = if bool_decide (src = ∅) then Done None else Panic "assignment to entry in nil map".
Proof. done. Qed.

Lemma assignAll_twice dst (m1 m2 : gmap string string) :
  obind (assignAll dst m1) (fun d => assignAll d m2) = assignAll dst (m2 ∪ m1).
Proof.
  destruct dst as [m|].
  - rewrite !assignAll_value. cbn [obind]. rewrite assignAll_value.
    by rewrite (assoc_L (∪)).
  - rewrite !assignAll_nil.
    destruct (bool_decide (m1 = ∅)) eqn:E1; cbn [obind].
    + apply bool_decide_eq_true in E1. subst m1. rewrite assignAll_nil.
      by rewrite (right_id_L ∅ (∪)).
    + apply bool_decide_eq_false in E1.
      rewrite bool_decide_eq_false_2; [done|].
      intros H. apply union_empty_str in H. tauto.
Qed.

Lemma obind_ext {A B} (x : outcome A) (f f' : A -> outcome B) :
  (forall a, f a = f' a) -> obind x f = obind x f'.
Proof. intros H. destruct x; cbn [obind]; auto. Qed.

Lemma obind_assoc {A B C} (x : outcome A) (f : A -> outcome B) (k : B -> outcome C) :
  obind (obind x f) k = obind x (fun a => obind (f a) k).
Proof. by destruct x. Qed.

Lemma fold_overlay_join presets : forall c,
  fold_left (fun c req => overlayContainer req c) presets c
  = overlayContainer (joinPresets presets) c.
Proof.
  induction presets as [|q presets IH] using rev_ind; intros c.
  - cbn [fold_left]. by rewrite overlayContainer_zero.
  - rewrite fold_left_app. cbn [fold_left]. rewrite IH.
    destruct (joinPresets_snoc presets q) as (_ & _ & He & Ha & _ & Hm & _).
    by apply overlayContainer_twice.
Qed.

Lemma fold_union_lookup (field : RequirementPreset -> gmap string string) presets k :
  forall m0 : gmap string string,
    fold_left (fun m req => field req ∪ m) presets m0 !! k
    = match lastDeclared field presets k with
      | Some v => Some v
      | None => m0 !! k
      end.
Proof.
  unfold lastDeclared.
  assert (Hacc : forall l acc,
    fold_left (fun acc req => match field req !! k with Some v => Some v | None => acc end)
              l acc
    = match fold_left (fun acc req => match field req !! k with
                                      | Some v => Some v | None => acc end) l None with
      | Some v => Some v
      | None => acc
      end).
  { induction l as [|p l IH]; intros acc; cbn [fold_left]; [done|].
    rewrite IH. rewrite (IH (match field p !! k with Some v => Some v | None => None end)).
    destruct (fold_left _ l None); [done|]. by destruct (field p !! k). }
  induction presets as [|p presets IH]; intros m0; cbn [fold_left]; [done|].
  rewrite IH, (Hacc presets (match field p !! k with Some v => Some v | None => None end)).
  destruct (fold_left _ presets None); [done|].
  rewrite lookup_union. destruct (field p !! k), (m0 !! k); done.
Qed.

Section Merge.
Variable mergo_Merge : PodSpec -> PodSpec -> goresult PodSpec.

Lemma mergeRequirement_free a l spec req :
  Preset_PodSpec req = None ->
  mergeRequirement mergo_Merge a l spec req
  = obind (assignAll a (Preset_Annotations req)) (fun a' =>
    obind (assignAll l (Preset_Labels req)) (fun l' =>
    Done (a', l', mergeContainers spec req))).
Proof. unfold mergeRequirement. by intros ->. Qed.

Lemma mergeContainers_twice spec p q pq :
  Preset_Args pq = Preset_Args p ++ Preset_Args q ->
  Preset_Env pq = Preset_Env p ++ Preset_Env q ->
  Preset_Volumes pq = Preset_Volumes p ++ Preset_Volumes q ->
  Preset_VolumeMounts pq = Preset_VolumeMounts p ++ Preset_VolumeMounts q ->
  mergeContainers (mergeContainers spec p) q = mergeContainers spec pq.
Proof.
  intros Ha He Hv Hm. rewrite !mergeContainers_closed.
  cbn [PodSpec_Containers PodSpec_Volumes PodSpec_NodeSelector PodSpec_ServiceAccountName].
  rewrite map_map, Hv, fold_left_app. f_equal.
  apply map_ext. intros c. by apply overlayContainer_twice.
Qed.

Lemma mergeRequirement_twice a l spec p q pq :
  Preset_PodSpec p = None -> Preset_PodSpec q = None -> Preset_PodSpec pq = None ->
  Preset_Annotations pq = Preset_Annotations q ∪ Preset_Annotations p ->
  Preset_Labels pq = Preset_Labels q ∪ Preset_Labels p ->
  Preset_Args pq = Preset_Args p ++ Preset_Args q ->
  Preset_Env pq = Preset_Env p ++ Preset_Env q ->
  Preset_Volumes pq = Preset_Volumes p ++ Preset_Volumes q ->
  Preset_VolumeMounts pq = Preset_VolumeMounts p ++ Preset_VolumeMounts q ->
  obind (mergeRequirement mergo_Merge a l spec p)
        (fun r => mergeRequirement mergo_Merge r.1.1 r.1.2 r.2 q)
  = mergeRequirement mergo_Merge a l spec pq.
Proof.
  intros Hp Hq Hpq HA HL Ha He Hv Hm.
  rewrite (mergeRequirement_free _ _ _ _ Hp), (mergeRequirement_free _ _ _ _ Hpq).
  rewrite HA, HL, <- !assignAll_twice, <- (mergeContainers_twice spec p q pq Ha He Hv Hm).
  generalize (mergeContainers spec p) as spec1. intros spec1.
  destruct a as [am|], l as [lm|];
    rewrite ?assignAll_value, ?assignAll_nil; cbn [obind fst snd];
    repeat (case_bool_decide; cbn [obind fst snd]);
    rewrite ?(mergeRequirement_free _ _ _ _ Hq), ?assignAll_value, ?assignAll_nil;
    cbn [obind fst snd];
    repeat (case_bool_decide; cbn [obind fst snd]); try done; try congruence.
Qed.

Lemma mergeRequirements_app ps : forall qs a l spec,
  mergeRequirements mergo_Merge a l spec (ps ++ qs)
  = obind (mergeRequirements mergo_Merge a l spec ps)
          (fun r => mergeRequirements mergo_Merge r.1.1 r.1.2 r.2 qs).
Proof.
  induction ps as [|p ps IH]; intros qs a l spec; [done|].
  cbn [app mergeRequirements]. rewrite obind_assoc. apply obind_ext. intros r. apply IH.
Qed.

Lemma mergeRequirements_single a l spec q :
  mergeRequirements mergo_Merge a l spec [q] = mergeRequirement mergo_Merge a l spec q.
Proof.
  cbn [mergeRequirements]. by destruct (mergeRequirement _ _ _ _ _) as [[[? ?] ?]| |].
Qed.

Lemma mergeContainers_zero spec req :
  Preset_Args req = [] -> Preset_Env req = [] -> Preset_Volumes req = [] ->
  Preset_VolumeMounts req = [] -> mergeContainers spec req = spec.
Proof.
  intros Ha He Hv Hm. rewrite mergeContainers_closed, Hv. cbn [fold_left].
  rewrite (map_ext _ id), map_id; [by destruct spec|].
  intros c. by apply overlayContainer_zero.
Qed.

Lemma mergeRequirements_join presets : forall a l spec,
  overlayFree presets ->
  mergeRequirements mergo_Merge a l spec presets
  = mergeRequirement mergo_Merge a l spec (joinPresets presets).
Proof.
  induction presets as [|q presets IH] using rev_ind; intros a l spec Hfree.
  - rewrite mergeRequirement_free by done.
    cbn [mergeRequirements joinPresets fold_left Preset_Annotations Preset_Labels].
    assert (forall d, assignAll d ∅ = Done d) as Hd.
    { intros d. unfold assignAll. by rewrite bool_decide_eq_true_2. }
    rewrite !Hd. cbn [obind]. by rewrite mergeContainers_zero.
  - unfold overlayFree in Hfree. apply Forall_app in Hfree as [Hps Hq].
    inversion Hq as [|? ? Hq1 _]; subst.
    rewrite mergeRequirements_app.
    rewrite (obind_ext _ _ (fun r => mergeRequirement mergo_Merge r.1.1 r.1.2 r.2 q))
      by (intros r; apply mergeRequirements_single).
    rewrite IH by done.
    destruct (joinPresets_snoc presets q) as (HA & HL & He & Ha & Hv & Hm & Hn).
    by apply mergeRequirement_twice.
Qed.

Lemma mergeRequirement_container annotations labels spec req r i c :
  keepsContainers mergo_Merge ->
  mergeRequirement mergo_Merge annotations labels spec req = Done r ->
  PodSpec_Containers spec !! i = Some c ->
  PodSpec_Containers r.2 !! i = Some (overlayContainer req c).
Proof.
  intros Hkeeps Hr Hc. unfold mergeRequirement in Hr.
  destruct (assignAll annotations _) as [a'| |]; cbn [obind] in Hr; try done.
  destruct (assignAll labels _) as [l'| |]; cbn [obind] in Hr; try done.
  assert (Hm : PodSpec_Containers (mergeContainers spec req) !! i
               = Some (overlayContainer req c)).
  { rewrite mergeContainers_closed. cbn [PodSpec_Containers].
    change (map ?f ?l) with (f <$> l). by rewrite list_lookup_fmap, Hc. }
  destruct (Preset_PodSpec req) as [overlay|].
  - destruct (mergo_Merge _ overlay) as [spec'|e] eqn:Hmerge; [|done].
    injection Hr as <-. cbn [snd].
    destruct (Hkeeps _ _ _ Hmerge) as (extra & ->). by apply lookup_app_l_Some.
  - by injection Hr as <-.
Qed.

Lemma mergeRequirements_container presets : forall annotations labels spec r i c,
  keepsContainers mergo_Merge ->
  mergeRequirements mergo_Merge annotations labels spec presets = Done r ->
  PodSpec_Containers spec !! i = Some c ->
  PodSpec_Containers r.2 !! i = Some (overlayContainer (joinPresets presets) c).
Proof.
  intros annotations labels spec r i c Hkeeps. rewrite <- fold_overlay_join.
  revert annotations labels spec r c.
  induction presets as [|req rest IH]; intros annotations labels spec r c Hr Hc.
  - cbn in Hr. by injection Hr as <-.
  - cbn [mergeRequirements] in Hr.
    destruct (mergeRequirement mergo_Merge annotations labels spec req) as [r1| |] eqn:H1;
      cbn [obind] in Hr; try done.
    pose proof (mergeRequirement_container _ _ _ _ _ i c Hkeeps H1 Hc) as Hc1.
    cbn [fold_left]. by apply (IH _ _ _ _ _ Hr Hc1).
Qed.

Lemma mergeRequirement_maps am lm spec req r :
  mergeRequirement mergo_Merge (Some am) (Some lm) spec req = Done r ->
  r.1.1 = Some (Preset_Annotations req ∪ am) /\ r.1.2 = Some (Preset_Labels req ∪ lm).
Proof.
  unfold mergeRequirement. rewrite !assignAll_value. cbn [obind].
  destruct (Preset_PodSpec req) as [overlay|].
  - destruct (mergo_Merge _ overlay); [|done]. by intros [= <-].
  - by intros [= <-].
Qed.

Lemma mergeRequirements_maps presets : forall am lm spec r,
  mergeRequirements mergo_Merge (Some am) (Some lm) spec presets = Done r ->
  r.1.1 = Some (fold_left (fun m req => Preset_Annotations req ∪ m) presets am)
  /\ r.1.2 = Some (fold_left (fun m req => Preset_Labels req ∪ m) presets lm).
Proof.
  induction presets as [|req rest IH]; intros am lm spec r Hr.
  - cbn in Hr. by injection Hr as <-.
  - cbn [mergeRequirements] in Hr.
    destruct (mergeRequirement mergo_Merge (Some am) (Some lm) spec req)
      as [[[a1 l1] s1]| |] eqn:H1; cbn [obind] in Hr; try done.
    destruct (mergeRequirement_maps _ _ _ _ _ H1) as [Ea El].
    cbn [fst snd] in *. subst a1 l1. cbn [fold_left]. by apply (IH _ _ _ _ Hr).
Qed.

End Merge.

End DecoratorFacts.

(** ** Presets laid over a job *)

Module PresetOverlay.
Import Decorator DecoratorSpec OverlaySpec DecoratorProofs DecoratorFacts.

(** X19: for an overlay that keeps the containers of the pod in place, every
    container gets the arguments of all the presets after its own, in the
    order of the presets and with nothing left out; it keeps its mounts and
    gets, after them, mounts of the presets: for a path it had no mount at,
    the first mount the presets declare, once, and nothing at a path it had
    a mount at; its image, pull policy, command, resources and security
    context stay.  The run returns when the overlay does and the maps of the
    job are not nil. *)
Theorem presets_reach_every_container
    (mergo_Merge : PodSpec -> PodSpec -> goresult PodSpec)
    (annotations labels : option (gmap string string)) (spec : PodSpec)
    (presets : list RequirementPreset) (i : nat) (c : Container) :
  keepsContainers mergo_Merge ->
  PodSpec_Containers spec !! i = Some c ->
  (forall r,
      resolveRequirements mergo_Merge annotations labels (Some spec) presets = Done r ->
      exists spec' c',
        r.2 = Some spec' /\ PodSpec_Containers spec' !! i = Some c'
        /\ Container_Args c' = Container_Args c ++ flat_map Preset_Args presets
        /\ (exists added,
              Container_VolumeMounts c' = Container_VolumeMounts c ++ added
              /\ forall vm, vm ∈ added -> vm ∈ flat_map Preset_VolumeMounts presets)
        /\ (forall path vm,
              hasMount path (Container_VolumeMounts c) = false ->
              List.find (pathIs path) (flat_map Preset_VolumeMounts presets) = Some vm ->
              List.filter (pathIs path) (Container_VolumeMounts c') = [vm])
        /\ (forall path,
              hasMount path (Container_VolumeMounts c) = true ->
              List.filter (pathIs path) (Container_VolumeMounts c')
              = List.filter (pathIs path) (Container_VolumeMounts c))
        /\ Container_Image c' = Container_Image c
        /\ Container_ImagePullPolicy c' = Container_ImagePullPolicy c
        /\ Container_Command c' = Container_Command c
        /\ Container_Resources c' = Container_Resources c
        /\ Container_Privileged c' = Container_Privileged c)
  /\ ((forall dst src, exists dst', mergo_Merge dst src = Ok dst') ->
      is_Some annotations -> is_Some labels ->
      exists r,
        resolveRequirements mergo_Merge annotations labels (Some spec) presets = Done r).
Proof.
  intros Hkeeps Hc. split.
  - intros r Hr. unfold resolveRequirements in Hr.
    destruct (mergeRequirements mergo_Merge annotations labels spec presets)
      as [r1| |] eqn:H1; cbn [obind] in Hr; try done.
    injection Hr as <-. cbn [snd].
    pose proof (mergeRequirements_container mergo_Merge presets _ _ _ _ i c Hkeeps H1 Hc)
      as Hc'.
    exists r1.2, (overlayContainer (joinPresets presets) c).
    split; [done|]. split; [done|].
    unfold overlayContainer, joinPresets.
    cbn [Container_Args Container_VolumeMounts Container_Image Container_ImagePullPolicy
         Container_Command Container_Resources Container_Privileged
         Preset_Args Preset_VolumeMounts].
    split; [done|]. split; [|split; [|split; [|done]]].
    + apply (fold_dedup_prefix VolumeMount_MountPath).
    + intros path vm Hh Hf.
      pose proof (fold_dedup_filter VolumeMount_MountPath path
                    (flat_map Preset_VolumeMounts presets) (Container_VolumeMounts c)) as E.
      unfold hasMount in Hh. rewrite Hh in E. unfold pathIs in *. rewrite Hf in E. exact E.
    + intros path Hh.
      pose proof (fold_dedup_filter VolumeMount_MountPath path
                    (flat_map Preset_VolumeMounts presets) (Container_VolumeMounts c)) as E.
      unfold hasMount in Hh. rewrite Hh in E. exact E.
  - intros Htot [a ->] [l ->]. unfold resolveRequirements.
    destruct (mergeRequirements_total mergo_Merge presets a l spec Htot) as (r & ->).
    cbn [obind]. eauto.
Qed.

(** X20: presets without a partial pod specification act as one:
    [resolveRequirements] on a list of them has the outcome, a panic on a
    nil map included, that it has on the one preset whose lists are their
    lists one after the other and whose maps are their maps with the later
    preset over the earlier. *)
Theorem presets_without_overlay_act_as_one
    (mergo_Merge : PodSpec -> PodSpec -> goresult PodSpec)
    (annotations labels : option (gmap string string)) (spec : option PodSpec)
    (presets : list RequirementPreset) :
  overlayFree presets ->
  resolveRequirements mergo_Merge annotations labels spec presets
  = resolveRequirements mergo_Merge annotations labels spec [joinPresets presets].
Proof.
  intros Hfree. destruct spec as [spec|]; [|done].
  unfold resolveRequirements.
  by rewrite mergeRequirements_single, mergeRequirements_join.
Qed.

(** X21: for presets without a partial pod specification and a job whose maps are
    not nil, [resolveRequirements] returns; the volumes of the pod are kept
    and followed by volumes of the presets only: a name the pod had no
    volume of gets the first volume the presets declare under it, once, and
    a name it had keeps its volumes; the number of containers, the node
    selector and the service account stay. *)
Theorem preset_volumes_first_writer_wins
    (mergo_Merge : PodSpec -> PodSpec -> goresult PodSpec)
    (a l : gmap string string) (spec : PodSpec) (presets : list RequirementPreset) :
  overlayFree presets ->
  exists a' l' spec',
    resolveRequirements mergo_Merge (Some a) (Some l) (Some spec) presets
    = Done (Some a', Some l', Some spec')
    /\ (exists added,
          PodSpec_Volumes spec' = PodSpec_Volumes spec ++ added
          /\ forall v, v ∈ added -> v ∈ flat_map Preset_Volumes presets)
    /\ (forall name v,
          hasVolume name (PodSpec_Volumes spec) = false ->
          List.find (volumeIs name) (flat_map Preset_Volumes presets) = Some v ->
          List.filter (volumeIs name) (PodSpec_Volumes spec') = [v])
    /\ (forall name,
          hasVolume name (PodSpec_Volumes spec) = true ->
          List.filter (volumeIs name) (PodSpec_Volumes spec')
          = List.filter (volumeIs name) (PodSpec_Volumes spec))
    /\ List.length (PodSpec_Containers spec') = List.length (PodSpec_Containers spec)
    /\ PodSpec_NodeSelector spec' = PodSpec_NodeSelector spec
    /\ PodSpec_ServiceAccountName spec' = PodSpec_ServiceAccountName spec.
Proof.
  intros Hfree. unfold resolveRequirements.
  rewrite mergeRequirements_join by done.
  rewrite mergeRequirement_free by done. rewrite !assignAll_value. cbn [obind fst snd].
  eexists _, _, _. split; [reflexivity|].
  rewrite mergeContainers_closed.
  cbn [PodSpec_Volumes PodSpec_Containers PodSpec_NodeSelector PodSpec_ServiceAccountName
       joinPresets Preset_Volumes].
  split; [|split; [|split; [|split; [by rewrite length_map|done]]]].
  - apply (fold_dedup_prefix Volume_Name).
  - intros name v Hh Hf.
    pose proof (fold_dedup_filter Volume_Name name
                  (flat_map Preset_Volumes presets) (PodSpec_Volumes spec)) as E.
    unfold hasVolume in Hh. rewrite Hh in E. unfold volumeIs in *. rewrite Hf in E. exact E.
  - intros name Hh.
    pose proof (fold_dedup_filter Volume_Name name
                  (flat_map Preset_Volumes presets) (PodSpec_Volumes spec)) as E.
    unfold hasVolume in Hh. rewrite Hh in E. exact E.
Qed.

(** X22: on annotations and labels the last preset wins, unlike on the variables:
    after [resolveRequirements] on a pod specification that is not nil, and
    on maps that are not nil, a key has the value of the last preset that
    declares it, and its old value when no preset does; the run returns
    when the overlay does.  On a nil pod specification no preset is
    applied, and the two maps are as they were. *)
Theorem preset_labels_last_writer_wins
    (mergo_Merge : PodSpec -> PodSpec -> goresult PodSpec)
    (a l : gmap string string) (spec : PodSpec) (presets : list RequirementPreset) :
  resolveRequirements mergo_Merge (Some a) (Some l) None presets
  = Done (Some a, Some l, None)
  /\ (forall r,
      resolveRequirements mergo_Merge (Some a) (Some l) (Some spec) presets = Done r ->
      exists a' l',
        r.1.1 = Some a' /\ r.1.2 = Some l'
        /\ (forall k, a' !! k = match lastDeclared Preset_Annotations presets k with
                                | Some v => Some v
                                | None => a !! k
                                end)
        /\ (forall k, l' !! k = match lastDeclared Preset_Labels presets k with
                                | Some v => Some v
                                | None => l !! k
                                end))
  /\ ((forall dst src, exists dst', mergo_Merge dst src = Ok dst') ->
      exists r,
        resolveRequirements mergo_Merge (Some a) (Some l) (Some spec) presets = Done r).
Proof.
  split; [reflexivity|]. split.
  - intros r Hr. unfold resolveRequirements in Hr.
    destruct (mergeRequirements mergo_Merge (Some a) (Some l) spec presets)
      as [r1| |] eqn:H1; cbn [obind] in Hr; try done.
    injection Hr as <-. cbn [fst snd].
    destruct (mergeRequirements_maps mergo_Merge presets _ _ _ _ H1) as [-> ->].
    eexists _, _. split; [reflexivity|]. split; [reflexivity|].
    split; intros k; apply fold_union_lookup.
  - intros Htot. unfold resolveRequirements.
    destruct (mergeRequirements_total mergo_Merge presets a l spec Htot) as (r & ->).
    cbn [obind]. eauto.
Qed.

Lemma mergeRequirements_nil_annotations
    (mergo_Merge : PodSpec -> PodSpec -> goresult PodSpec) presets :
  forall labels spec,
    (forall dst src, exists dst', mergo_Merge dst src = Ok dst') ->
    Exists (fun req => Preset_Annotations req <> ∅) presets ->
    exists msg, mergeRequirements mergo_Merge None labels spec presets = Panic msg.
Proof.
  induction presets as [|req rest IH]; intros labels spec Htot Hex.
  - by apply Exists_nil in Hex.
  - cbn [mergeRequirements]. unfold mergeRequirement at 1. rewrite assignAll_nil.
    case_bool_decide as Ha; cbn [obind]; [|eauto].
    apply Exists_cons in Hex as [Hex|Hex]; [done|].
    destruct (assignAll labels (Preset_Labels req)) as [l1| |] eqn:El; cbn [obind];
      [| |eauto].
    + destruct (Preset_PodSpec req) as [overlay|]; cbn [obind fst snd].
      * destruct (Htot (mergeContainers spec req) overlay) as (s1 & ->). cbn [obind fst snd].
        by apply IH.
      * by apply IH.
    + unfold assignAll in El. by repeat case_match.
Qed.

Lemma mergeRequirements_nil_labels
    (mergo_Merge : PodSpec -> PodSpec -> goresult PodSpec) presets :
  forall annotations spec,
    (forall dst src, exists dst', mergo_Merge dst src = Ok dst') ->
    Exists (fun req => Preset_Labels req <> ∅) presets ->
    exists msg, mergeRequirements mergo_Merge annotations None spec presets = Panic msg.
Proof.
  induction presets as [|req rest IH]; intros annotations spec Htot Hex.
  - by apply Exists_nil in Hex.
  - cbn [mergeRequirements]. unfold mergeRequirement at 1.
    destruct (assignAll annotations (Preset_Annotations req)) as [a1| |] eqn:Ea;
      cbn [obind]; [| |eauto].
    + rewrite assignAll_nil. case_bool_decide as Hl; cbn [obind]; [|eauto].
      apply Exists_cons in Hex as [Hex|Hex]; [done|].
      destruct (Preset_PodSpec req) as [overlay|]; cbn [obind fst snd].
      * destruct (Htot (mergeContainers spec req) overlay) as (s1 & ->). cbn [obind fst snd].
        by apply IH.
      * by apply IH.
    + unfold assignAll in Ea. by repeat case_match.
Qed.

(** X23: on a nil pod specification [resolveRequirements] does nothing, whatever
    the presets; on nil annotations it panics when some preset has an
    annotation, and on nil labels when some preset has a label, as long as
    the overlay returns; with presets that have neither, and no partial pod
    specification, nil maps are left nil and the run returns. *)
Theorem resolveRequirements_on_nil_arguments
    (mergo_Merge : PodSpec -> PodSpec -> goresult PodSpec)
    (annotations labels : option (gmap string string)) (spec : PodSpec)
    (presets : list RequirementPreset) :
  resolveRequirements mergo_Merge annotations labels None presets
  = Done (annotations, labels, None)
  /\ ((forall dst src, exists dst', mergo_Merge dst src = Ok dst') ->
      Exists (fun req => Preset_Annotations req <> ∅) presets ->
      exists msg,
        resolveRequirements mergo_Merge None labels (Some spec) presets = Panic msg)
  /\ ((forall dst src, exists dst', mergo_Merge dst src = Ok dst') ->
      Exists (fun req => Preset_Labels req <> ∅) presets ->
      exists msg,
        resolveRequirements mergo_Merge annotations None (Some spec) presets = Panic msg)
  /\ (Forall (fun req => Preset_Annotations req = ∅ /\ Preset_Labels req = ∅) presets ->
      overlayFree presets ->
      exists spec',
        resolveRequirements mergo_Merge None None (Some spec) presets
        = Done (None, None, Some spec')).
Proof.
  split; [done|]. split; [|split].
  - intros Htot Hex. unfold resolveRequirements.
    destruct (mergeRequirements_nil_annotations mergo_Merge presets labels spec Htot Hex)
      as (msg & ->). cbn [obind]. eauto.
  - intros Htot Hex. unfold resolveRequirements.
    destruct (mergeRequirements_nil_labels mergo_Merge presets annotations spec Htot Hex)
      as (msg & ->). cbn [obind]. eauto.
  - intros Hempty Hfree. unfold resolveRequirements.
    assert (forall s, exists s',
              mergeRequirements mergo_Merge None None s presets = Done (None, None, s'))
      as Hdone.
    { clear spec. induction Hempty as [|req rest [Ha Hl] _ IH]; intros s; [eexists; done|].
      inversion Hfree as [|? ? Hn Hrest]; subst.
      cbn [mergeRequirements]. rewrite mergeRequirement_free by done.
      rewrite Ha, Hl, !assignAll_nil, !bool_decide_eq_true_2 by done.
      cbn [obind fst snd]. by apply IH. }
    destruct (Hdone spec) as (s' & ->). cbn [obind fst snd]. eauto.
Qed.

End PresetOverlay.

(** ** The arithmetic of the CPU-aware tuning *)

Module Float64Facts.
Import Decorator.
Local Open Scope Z_scope.

Lemma nearestEven_exact (x q : Z) : (0 < q -> nearestEven (x * q) q = x).
Proof.
  intros Hq. unfold nearestEven. cbv zeta.
  rewrite Z.mod_mul by lia. rewrite Z.div_mul by lia.
  destruct (Z.ltb_spec (2 * 0) q); [done|lia].
Qed.

(** The nearest integer is no more than a half away. *)
Lemma nearestEven_bounds (p q : Z) :
  (0 < q -> 2 * p - q <= 2 * (q * nearestEven p q) <= 2 * p + q).
Proof.
  intros Hq. unfold nearestEven. cbv zeta.
  pose proof (Z.div_mod p q ltac:(lia)) as Hdm.
  pose proof (Z.mod_pos_bound p q Hq) as Hr.
  destruct (Z.ltb_spec (2 * (p mod q)) q); [lia|].
  destruct (Z.ltb_spec q (2 * (p mod q))); [lia|].
  destruct (Z.even (p / q)); lia.
Qed.

(** An integer of up to 53 bits is a float. *)
Lemma float64OfInt_small (m : Z) : (0 < m <= 2 ^ 53 -> float64OfInt m = m).
Proof.
  intros Hm. unfold float64OfInt. cbv zeta.
  destruct (Z.leb_spec (Z.log2 m - 52) 0) as [|Hs]; [done|].
  assert (Hl : (Z.log2 m <= 53)).
  { change 53 with (Z.log2 (2 ^ 53)). apply Z.log2_le_mono. lia. }
  assert (Z.log2 m = 53) as El by lia.
  assert (m = (2 ^ 53)) as ->.
  { pose proof (Z.log2_spec m ltac:(lia)) as Hspec. rewrite El in Hspec. lia. }
  reflexivity.
Qed.

(** The quotient of such an integer by 1000 keeps nine bits or more
    behind the point. *)
Lemma float64Quot_small (m : Z) :
  (0 < m <= 2 ^ 53) ->
  exists s, (9 <= s) /\ float64Quot m 1000 = (nearestEven (m * 2 ^ s) 1000, s).
Proof.
  intros Hm. unfold float64Quot. cbv zeta.
  assert (Hl : (Z.log2 m <= 53)).
  { change 53 with (Z.log2 (2 ^ 53)). apply Z.log2_le_mono. lia. }
  pose proof (Z.log2_nonneg m) as Hl0.
  change (Z.log2 1000) with 9.
  set (e0 := (Z.log2 m - 9)).
  set (e := if (m * 2 ^ Z.max 0 (- e0) <? 1000 * 2 ^ Z.max 0 e0) then (e0 - 1) else e0).
  assert (He : (e <= 43)).
  { subst e.
    destruct (Z.ltb_spec (m * 2 ^ Z.max 0 (- e0)) (1000 * 2 ^ Z.max 0 e0)) as [|Hge]; [lia|].
    destruct (Z.eq_dec e0 44) as [E|]; [|lia].
    rewrite E in Hge. rewrite Z.max_r, Z.max_l in Hge by lia. lia. }
  exists (52 - e). split; [lia|].
  rewrite (Z.max_r 0 (52 - e)) by lia. rewrite (Z.max_l 0 (- (52 - e))) by lia.
  by rewrite Z.mul_1_r.
Qed.

(** Up to 2^53 thousandths the float arithmetic gives the ceiling of the
    quotient. *)
Lemma ceilCores_bounds (milli : Z) :
  (- 2 ^ 53 <= milli <= 2 ^ 53 ->
   1000 * (ceilCores milli - 1) < milli <= 1000 * ceilCores milli).
Proof.
  intros Hm.
  assert (Hkey : forall m, (0 < m <= 2 ^ 53) ->
            exists n d, float64Quot (float64OfInt m) 1000 = (n, Z.log2 d) /\ (0 < d)
              /\ (2 ^ Z.log2 d = d) /\ (0 <= Z.log2 d)
              /\ (((m mod 1000 = 0) /\ n = (m / 1000 * d))
                  \/ (0 < m mod 1000 /\ m / 1000 * d < n < (m / 1000 + 1) * d))).
  { intros m Hm'. rewrite float64OfInt_small by done.
    destruct (float64Quot_small m Hm') as (s & Hs & ->).
    assert (Hd : (512 <= 2 ^ s)).
    { change 512 with (2 ^ 9). apply Z.pow_le_mono_r; lia. }
    exists (nearestEven (m * 2 ^ s) 1000), (2 ^ s).
    rewrite Z.log2_pow2 by lia. split; [done|]. split; [lia|]. split; [done|].
    split; [lia|].
    pose proof (Z.div_mod m 1000 ltac:(lia)) as Hdm.
    pose proof (Z.mod_pos_bound m 1000 ltac:(lia)) as Hr.
    destruct (Z.eq_dec (m mod 1000) 0) as [E|E].
    - left. split; [done|].
      replace (m * 2 ^ s) with (m / 1000 * 2 ^ s * 1000) by lia.
      by apply nearestEven_exact.
    - right. split; [lia|].
      pose proof (nearestEven_bounds (m * 2 ^ s) 1000 ltac:(lia)) as Hb.
      set (n := nearestEven (m * 2 ^ s) 1000) in *.
      set (d := (2 ^ s)) in *. set (k := (m / 1000)) in *.
      set (r := (m mod 1000)) in *.
      assert (m * d = 1000 * (k * d) + r * d) as Hmd by lia.
      assert (d <= r * d) by nia. assert (r * d <= 999 * d) by nia.
      lia. }
  unfold ceilCores. destruct milli as [|p|p].
  - lia.
  - destruct (Hkey (Z.pos p) ltac:(lia)) as (n & d & -> & Hd & Ed & Hs & Hcase).
    unfold ceilScaled. cbn [fst snd].
    destruct (Z.leb_spec 0 (Z.log2 d)); [|lia]. rewrite Ed.
    pose proof (Z.div_mod (Z.pos p) 1000 ltac:(lia)) as Hdm.
    pose proof (Z.mod_pos_bound (Z.pos p) 1000 ltac:(lia)) as Hr.
    destruct Hcase as [[E ->]|[E Hn]].
    + replace (- (Z.pos p / 1000 * d)) with (- (Z.pos p / 1000) * d) by lia.
      rewrite Z.div_mul by lia. lia.
    + assert (- n / d = - (Z.pos p / 1000 + 1)) as ->; [|lia].
      symmetry. apply (Z.div_unique _ _ _ ((Z.pos p / 1000 + 1) * d - n)); lia.
  - destruct (Hkey (- Z.neg p) ltac:(lia)) as (n & d & -> & Hd & Ed & Hs & Hcase).
    unfold floorScaled. cbn [fst snd].
    destruct (Z.leb_spec 0 (Z.log2 d)); [|lia]. rewrite Ed.
    pose proof (Z.div_mod (- Z.neg p) 1000 ltac:(lia)) as Hdm.
    pose proof (Z.mod_pos_bound (- Z.neg p) 1000 ltac:(lia)) as Hr.
    destruct Hcase as [[E ->]|[E Hn]].
    + rewrite Z.div_mul by lia. lia.
    + assert (n / d = - Z.neg p / 1000) as ->; [|lia].
      symmetry. apply (Z.div_unique _ _ _ (n - (- Z.neg p / 1000) * d)); lia.
Qed.

(** Beyond 2^53 thousandths the conversion to [float64] rounds: here it
    rounds the limit down to a multiple of 1000, and the result is one
    below the ceiling of the quotient.  At the ends of [int64] the
    conversion gives 2^63. *)
Lemma ceilCores_rounds_beyond_53_bits :
  ceilCores 9007199254741001 = 9007199254741
  /\ ceilCores 9223372036854775807 = 9223372036854776
  /\ ceilCores (-9223372036854775808) = (-9223372036854776)
  /\ ceilCores 1 = 1 /\ ceilCores (-1) = 0 /\ ceilCores 2500 = 3.
Proof. vm_compute. repeat split. Qed.

End Float64Facts.

(** ** Secrets and the CPU-aware tuning *)

Module JobTuning.
Import Decorator DecoratorSpec OverlaySpec DecoratorProofs DecoratorFacts Float64Facts.

(** X24: with the tuning off [applyAutoMaxProcs] returns the job as it is; with
    it on, a nil pod specification is a panic, and otherwise every container
    with a CPU limit other than zero has one variable more, after its own
    and also when it has one of that name: [GOMAXPROCS], with the value that
    line 76 computes in [float64] from the limit in thousandths; for a limit
    of up to 2^53 thousandths this is the limit in whole cores rounded up,
    the least integer that is not below it.  The other fields of the
    container, a container without a limit and everything else of the job
    stay. *)
Theorem applyAutoMaxProcs_sets_GOMAXPROCS (baseConfig : BaseConfig) (job : JobBase) :
  (AutoMaxProcs baseConfig = false -> applyAutoMaxProcs baseConfig job = Done job)
  /\ (AutoMaxProcs baseConfig = true -> JobBase_Spec job = None ->
      exists msg, applyAutoMaxProcs baseConfig job = Panic msg)
  /\ (forall spec,
        AutoMaxProcs baseConfig = true -> JobBase_Spec job = Some spec ->
        exists job' spec',
          applyAutoMaxProcs baseConfig job = Done job'
          /\ JobBase_Annotations job' = JobBase_Annotations job
          /\ JobBase_Labels job' = JobBase_Labels job
          /\ JobBase_Spec job' = Some spec'
          /\ PodSpec_Volumes spec' = PodSpec_Volumes spec
          /\ PodSpec_NodeSelector spec' = PodSpec_NodeSelector spec
          /\ PodSpec_ServiceAccountName spec' = PodSpec_ServiceAccountName spec
          /\ List.length (PodSpec_Containers spec') = List.length (PodSpec_Containers spec)
          /\ forall i c,
               PodSpec_Containers spec !! i = Some c ->
               exists c',
                 PodSpec_Containers spec' !! i = Some c'
                 /\ Container_Image c' = Container_Image c
                 /\ Container_ImagePullPolicy c' = Container_ImagePullPolicy c
                 /\ Container_Command c' = Container_Command c
                 /\ Container_Args c' = Container_Args c
                 /\ Container_VolumeMounts c' = Container_VolumeMounts c
                 /\ Container_Resources c' = Container_Resources c
                 /\ Container_Privileged c' = Container_Privileged c
                 /\ (cpuLimit c = 0%Z -> Container_Env c' = Container_Env c)
                 /\ (cpuLimit c <> 0%Z ->
                     Container_Env c'
                     = Container_Env c
                         ++ [mkEnvVar "GOMAXPROCS" (pretty (ceilCores (cpuLimit c)))]
                     /\ ((- 2 ^ 53 <= cpuLimit c <= 2 ^ 53)%Z ->
                         (1000 * (ceilCores (cpuLimit c) - 1) < cpuLimit c
                          <= 1000 * ceilCores (cpuLimit c))%Z))).
Proof.
  unfold applyAutoMaxProcs. split; [by intros ->|]. split.
  - by intros -> ->; eauto.
  - intros spec -> ->. cbn [negb]. eexists _, _. split; [reflexivity|].
    cbn [JobBase_Annotations JobBase_Labels JobBase_Spec].
    split; [done|]. split; [done|]. split; [reflexivity|].
    cbn [setContainers PodSpec_Volumes PodSpec_Containers PodSpec_NodeSelector
         PodSpec_ServiceAccountName].
    do 3 (split; [done|]). split; [by rewrite length_map|].
    intros i c Hc. change (map ?f ?l) with (f <$> l). rewrite list_lookup_fmap, Hc.
    cbn [fmap option_fmap option_map]. eexists. split; [reflexivity|].
    destruct (Z.eqb_spec (cpuLimit c) 0) as [E|E]; cbn [negb].
    + do 7 (split; [done|]). split; [done|]. by intros H.
    + cbn [setEnv Container_Image Container_ImagePullPolicy Container_Command
           Container_Args Container_VolumeMounts Container_Resources
           Container_Privileged Container_Env].
      do 7 (split; [done|]). split; [by intros H|]. intros _. split; [done|].
      apply ceilCores_bounds.
Qed.

(** X25: [applySecrets] with presets that have no secret returns the job as it
    is, whatever its containers; with a secret, the run ends when the
    secrets are not marshalled or the pod has no container, and a nil pod
    specification is a panic. *)
Theorem applySecrets_without_secrets_or_containers
    (json_Marshal : list Secret -> goresult string)
    (job : JobBase) (presets : list RequirementPreset) :
  (flat_map Preset_Secrets presets = [] -> applySecrets json_Marshal job presets = Done job)
  /\ (flat_map Preset_Secrets presets <> [] ->
      (forall e, json_Marshal (flat_map Preset_Secrets presets) = Err e ->
                 exists msg, applySecrets json_Marshal job presets = Exit msg)
      /\ (forall marshal,
            json_Marshal (flat_map Preset_Secrets presets) = Ok marshal ->
            JobBase_Spec job = None ->
            exists msg, applySecrets json_Marshal job presets = Panic msg)
      /\ (forall marshal spec,
            json_Marshal (flat_map Preset_Secrets presets) = Ok marshal ->
            JobBase_Spec job = Some spec -> PodSpec_Containers spec = [] ->
            exists msg, applySecrets json_Marshal job presets = Exit msg)).
Proof.
  unfold applySecrets. rewrite collectSecrets_flat_map. split.
  - by intros ->.
  - intros Hne. destruct (flat_map Preset_Secrets presets) as [|s l] eqn:E; [done|].
    cbn [List.length Nat.eqb]. split; [|split].
    + intros e ->. eauto.
    + intros marshal -> ->. eauto.
    + intros marshal spec -> -> ->. eauto.
Qed.

End JobTuning.

(** ** The generated file and the report of the differences *)

Module ReportFacts.
Import GoStrings Config ConfigFiles ConfigDiff ReportSpec.

(** X26: on a file system that reads back what was written, [CheckConfig] finds
    no difference in the file that [WriteConfig] has just written for the
    same configuration: the file holds the header of the global
    configuration followed by the text of the configuration. *)
Theorem CheckConfig_accepts_what_WriteConfig_wrote
    (Files : Type)
    (ioutil_ReadFile : string -> Files -> goresult string)
    (ioutil_WriteFile : string -> string -> Files -> goresult Files)
    (os_MkdirAll : string -> Files -> goresult Files)
    (filepath_Dir : string -> string)
    (yaml_Marshal : JobConfig -> Heap -> goresult string)
    (cli : Client) (jobs : JobConfig) (fname : string) (fs fs' : Files) (h : Heap) :
  (forall path content fs1 fs2,
      ioutil_WriteFile path content fs1 = Ok fs2 -> ioutil_ReadFile path fs2 = Ok content) ->
  WriteConfig Files ioutil_WriteFile os_MkdirAll filepath_Dir yaml_Marshal cli jobs fname fs h
  = Done fs' ->
  CheckConfig Files ioutil_ReadFile yaml_Marshal cli jobs fname fs' h = None
  /\ forall text,
       yaml_Marshal jobs h = Ok text ->
       ioutil_ReadFile fname fs' = Ok (Global_AutogenHeader (GlobalConfigOf cli) +:+ text).
Proof.
  intros Hrw Hw. unfold WriteConfig in Hw. unfold CheckConfig.
  destruct (yaml_Marshal jobs h) as [bs|e]; [|done].
  cbv zeta in Hw.
  destruct (os_MkdirAll (filepath_Dir fname) fs) as [fs1|e]; [|done].
  destruct (ioutil_WriteFile fname _ fs1) as [fs2|e] eqn:E; [|done].
  injection Hw as <-. rewrite (Hrw _ _ _ _ E). cbv zeta. rewrite String.eqb_refl.
  split; [done|]. by intros text [= <-].
Qed.

(** What [CheckConfig] takes for up to date. *)
Lemma CheckConfig_compares_header_and_text
    (Files : Type)
    (ioutil_ReadFile : string -> Files -> goresult string)
    (yaml_Marshal : JobConfig -> Heap -> goresult string)
    (cli : Client) (jobs : JobConfig) (file : string) (fs : Files) (h : Heap) :
  CheckConfig Files ioutil_ReadFile yaml_Marshal cli jobs file fs h = None
  <-> exists text,
        yaml_Marshal jobs h = Ok text
        /\ ioutil_ReadFile file fs = Ok (Global_AutogenHeader (GlobalConfigOf cli) +:+ text).
Proof.
  unfold CheckConfig.
  destruct (ioutil_ReadFile file fs) as [current|e].
  - destruct (yaml_Marshal jobs h) as [text|e].
    + cbv zeta.
      destruct (String.eqb_spec current (Global_AutogenHeader (GlobalConfigOf cli) +:+ text))
        as [->|Hne]; cbn [negb].
      * split; [eauto|done].
      * split; [done|]. intros (t & [= <-] & [= ?]). done.
    + split; [done|]. by intros (t & ? & _).
  - split; [done|]. by intros (t & _ & ?).
Qed.

Lemma find_None {A} (f : A -> bool) (l : list A) :
  List.find f l = None <-> forall x, x ∈ l -> f x = false.
Proof.
  induction l as [|a l IH]; cbn [List.find].
  - split; [|done]. intros _ x Hx. by apply elem_of_nil in Hx.
  - destruct (f a) eqn:E.
    + split; [done|]. intros H. rewrite (H a) in E; [done|]. apply list_elem_of_here.
    + rewrite IH. split.
      * intros H x Hx. apply elem_of_cons in Hx as [->|Hx]; auto.
      * intros H x Hx. apply H. by apply list_elem_of_further.
Qed.

Lemma elem_of_flat_map {A B} (f : A -> list B) (l : list A) (y : B) :
  y ∈ flat_map f l <-> exists x, x ∈ l /\ y ∈ f x.
Proof.
  rewrite list_elem_of_In, in_flat_map. split.
  - intros (x & Hx & Hy). exists x. by rewrite !list_elem_of_In.
  - intros (x & Hx & Hy). exists x. by rewrite <- !list_elem_of_In.
Qed.

Lemma elem_of_range {V} (range : gmap string (list V) -> list (list V))
    (m : gmap string (list V)) (x : V) :
  visitsValues range ->
  x ∈ concat (range m) <-> exists key l, m !! key = Some l /\ x ∈ l.
Proof.
  intros Hv. rewrite list_elem_of_In, in_concat. split.
  - intros (l & Hl & Hx). apply (Permutation_in _ (Hv m)) in Hl.
    apply in_map_iff in Hl as ([k l'] & <- & Hkl%list_elem_of_In%elem_of_map_to_list).
    exists k, l'. split; [done|]. by apply list_elem_of_In.
  - intros (k & l & Hk & Hx). exists l. split; [|by apply list_elem_of_In].
    apply (Permutation_in _ (Permutation_sym (Hv m))).
    apply in_map_iff. exists (k, l). split; [done|].
    by apply list_elem_of_In, elem_of_map_to_list.
Qed.

Section Report.
Variable rangePresubmits : gmap string (list Presubmit) -> list (list Presubmit).
Variable rangePostsubmits : gmap string (list Postsubmit) -> list (list Postsubmit).
Variable pretty_DiffPresubmit : Presubmit -> Presubmit -> list string.
Variable pretty_DiffPostsubmit : Postsubmit -> Postsubmit -> list string.
Hypothesis visitsPresubmits : visitsValues rangePresubmits.
Hypothesis visitsPostsubmits : visitsValues rangePostsubmits.

Lemma holdsPresubmit_range c n :
  holdsPresubmit c n
  <-> exists job, job ∈ concat (rangePresubmits (PresubmitsStatic c))
                  /\ presubmitName job = n.
Proof.
  unfold holdsPresubmit. split.
  - intros (k & l & job & Hk & Hj & Hn). exists job. split; [|done].
    apply (elem_of_range _ _ _ visitsPresubmits). eauto.
  - intros (job & Hj & Hn). apply (elem_of_range _ _ _ visitsPresubmits) in Hj
      as (k & l & Hk & Hj). eauto 6.
Qed.

Lemma holdsPostsubmit_range c n :
  holdsPostsubmit c n
  <-> exists job, job ∈ concat (rangePostsubmits (PostsubmitsStatic c))
                  /\ postsubmitName job = n.
Proof.
  unfold holdsPostsubmit. split.
  - intros (k & l & job & Hk & Hj & Hn). exists job. split; [|done].
    apply (elem_of_range _ _ _ visitsPostsubmits). eauto.
  - intros (job & Hj & Hn). apply (elem_of_range _ _ _ visitsPostsubmits) in Hj
      as (k & l & Hk & Hj). eauto 6.
Qed.

Lemma getPresubmit_None pj n :
  getPresubmit rangePresubmits pj n = None <-> ~ holdsPresubmit pj n.
Proof.
  unfold getPresubmit. rewrite find_None, holdsPresubmit_range. split.
  - intros H (job & Hj & Hn). specialize (H job Hj). rewrite Hn, String.eqb_refl in H. done.
  - intros H job Hj. destruct (String.eqb_spec (presubmitName job) n); [|done].
    destruct H. eauto.
Qed.

(** The lines of two arguments that one job of the result gives. *)
Lemma diffPresubmit_pairs pj job (a n : string) :
  [a; n] ∈ diffPresubmit rangePresubmits pretty_DiffPresubmit pj job ->
  n = presubmitName job
  /\ ((a = newline +:+ "Created unknown presubmit job" /\ ~ holdsPresubmit pj n)
      \/ a = newline +:+ "Diff for").
Proof.
  unfold diffPresubmit.
  destruct (getPresubmit rangePresubmits pj (presubmitName job)) as [cur|] eqn:E.
  - intros [H|H]%elem_of_app.
    + destruct (Nat.ltb 0 _); [|by apply elem_of_nil in H].
      apply list_elem_of_singleton in H. injection H as -> ->. auto.
    + apply list_elem_of_In, in_map_iff in H as (d & [=] & _).
  - intros H. apply list_elem_of_singleton in H. injection H as -> ->.
    split; [done|]. left. split; [done|]. by apply getPresubmit_None.
Qed.

Lemma diffPostsubmit_pairs allCurrent job (a n : string) :
  [a; n] ∈ diffPostsubmit pretty_DiffPostsubmit allCurrent job ->
  n = postsubmitName job
  /\ ((a = newline +:+ "Created unknown job:"
       /\ forall ps, ps ∈ allCurrent -> postsubmitName ps <> n)
      \/ a = newline +:+ "Diff for").
Proof.
  unfold diffPostsubmit.
  destruct (List.find _ allCurrent) as [cur|] eqn:E.
  - intros [H|H]%elem_of_app.
    + destruct (Nat.ltb 0 _); [|by apply elem_of_nil in H].
      apply list_elem_of_singleton in H. injection H as -> ->. auto.
    + apply list_elem_of_In, in_map_iff in H as (d & [=] & _).
  - intros H. apply list_elem_of_singleton in H. injection H as -> ->.
    split; [done|]. left. split; [done|].
    intros ps Hps Hn. apply find_None with (x := ps) in E; [|done].
    by rewrite Hn, String.eqb_refl in E.
Qed.

Lemma missing_pairs {J} (name : J -> string) (known : gset string) (jobs : list J)
    (a n : string) :
  [a; n] ∈ flat_map (fun job => if bool_decide (name job ∈ known) then []
                                else [["Missing"; name job]]) jobs
  <-> a = "Missing" /\ (n ∉ known) /\ exists job, job ∈ jobs /\ name job = n.
Proof.
  rewrite elem_of_flat_map. split.
  - intros (job & Hj & H). case_bool_decide as Hk; [by apply elem_of_nil in H|].
    apply list_elem_of_singleton in H. injection H as -> ->. eauto.
  - intros (-> & Hk & job & Hj & <-). exists job. split; [done|].
    rewrite bool_decide_eq_false_2 by done. apply list_elem_of_here.
Qed.

Lemma known_names {J} (name : J -> string) (jobs : list J) (n : string) :
  n ∈ (list_to_set (map name jobs) : gset string) <-> exists job, job ∈ jobs /\ name job = n.
Proof.
  rewrite elem_of_list_to_set, list_elem_of_In, in_map_iff. split.
  - intros (job & <- & Hj). exists job. by rewrite list_elem_of_In.
  - intros (job & Hj & <-). exists job. by rewrite <- list_elem_of_In.
Qed.

Lemma DiffConfig_pairs cli result existing (a n : string) :
  [a; n] ∈ DiffConfig rangePresubmits rangePostsubmits pretty_DiffPresubmit
                      pretty_DiffPostsubmit cli result existing
  <-> (exists job, job ∈ concat (rangePresubmits (PresubmitsStatic result))
                   /\ [a; n] ∈ diffPresubmit rangePresubmits pretty_DiffPresubmit
                                             existing job)
      \/ (a = "Missing" /\ holdsPresubmit existing n /\ ~ holdsPresubmit result n)
      \/ (exists job, job ∈ concat (rangePostsubmits (PostsubmitsStatic result))
                      /\ [a; n] ∈ diffPostsubmit pretty_DiffPostsubmit
                           (concat (rangePostsubmits (PostsubmitsStatic existing))) job)
      \/ (a = "Missing" /\ holdsPostsubmit existing n /\ ~ holdsPostsubmit result n).
Proof.
  unfold DiffConfig, diffConfigPresubmit, diffConfigPostsubmit. cbv zeta.
  rewrite !elem_of_app, !list_elem_of_singleton, !missing_pairs, !elem_of_flat_map.
  rewrite !known_names, !holdsPresubmit_range, !holdsPostsubmit_range.
  split.
  - intros [[=]|[[H|H]|[[=]|[H|H]]]]; tauto.
  - intros [H|[H|[H|H]]]; tauto.
Qed.

End Report.

Lemma created_is_not_diff_for :
  newline +:+ "Created unknown presubmit job" <> newline +:+ "Diff for"
  /\ newline +:+ "Created unknown job:" <> newline +:+ "Diff for"
  /\ newline +:+ "Created unknown presubmit job" <> newline +:+ "Created unknown job:"
  /\ newline +:+ "Created unknown presubmit job" <> "Missing"
  /\ newline +:+ "Created unknown job:" <> "Missing"
  /\ "Missing" <> newline +:+ "Diff for".
Proof. repeat split; intros H; vm_compute in H; discriminate H. Qed.

(** X27: whatever the order in which the maps are visited and whatever the
    differences of two jobs look like, [DiffConfig] prints [Created unknown
    presubmit job] with a name exactly for the names of presubmits the
    result has and the existing configuration lacks, [Created unknown job:]
    likewise for the postsubmits, and [Missing] with a name exactly for the
    names of presubmits or postsubmits the existing configuration has and
    the result lacks. *)
Theorem DiffConfig_reports_created_and_missing
    (rangePresubmits : gmap string (list Presubmit) -> list (list Presubmit))
    (rangePostsubmits : gmap string (list Postsubmit) -> list (list Postsubmit))
    (pretty_DiffPresubmit : Presubmit -> Presubmit -> list string)
    (pretty_DiffPostsubmit : Postsubmit -> Postsubmit -> list string)
    (cli : Client) (result existing : JobConfig) (n : string) :
  visitsValues rangePresubmits -> visitsValues rangePostsubmits ->
  ([newline +:+ "Created unknown presubmit job"; n]
     ∈ DiffConfig rangePresubmits rangePostsubmits pretty_DiffPresubmit
                  pretty_DiffPostsubmit cli result existing
   <-> holdsPresubmit result n /\ ~ holdsPresubmit existing n)
  /\ ([newline +:+ "Created unknown job:"; n]
        ∈ DiffConfig rangePresubmits rangePostsubmits pretty_DiffPresubmit
                     pretty_DiffPostsubmit cli result existing
      <-> holdsPostsubmit result n /\ ~ holdsPostsubmit existing n)
  /\ (["Missing"; n]
        ∈ DiffConfig rangePresubmits rangePostsubmits pretty_DiffPresubmit
                     pretty_DiffPostsubmit cli result existing
      <-> (holdsPresubmit existing n /\ ~ holdsPresubmit result n)
          \/ (holdsPostsubmit existing n /\ ~ holdsPostsubmit result n)).
Proof.
  intros Hpre Hpost.
  destruct created_is_not_diff_for as (D1 & D2 & D3 & D4 & D5 & D6).
  rewrite !(DiffConfig_pairs _ _ _ _ Hpre Hpost).
  split; [|split].
  - split.
    + intros [(job & Hj & H)|[(E & _)|[(job & Hj & H)|(E & _)]]]; try done.
      * destruct (diffPresubmit_pairs _ _ Hpre _ _ _ _ H) as [-> [[_ Hn]|E]]; [|done].
        split; [|done]. apply (holdsPresubmit_range _ Hpre). eauto.
      * destruct (diffPostsubmit_pairs _ _ _ _ _ H) as [_ [[E _]|E]]; done.
    + intros [Hr He]. left.
      apply (holdsPresubmit_range _ Hpre) in Hr as (job & Hj & <-).
      exists job. split; [done|]. unfold diffPresubmit.
      rewrite (proj2 (getPresubmit_None _ Hpre existing (presubmitName job)) He).
      apply list_elem_of_here.
  - split.
    + intros [(job & Hj & H)|[(E & _)|[(job & Hj & H)|(E & _)]]]; try done.
      * destruct (diffPresubmit_pairs _ _ Hpre _ _ _ _ H) as [_ [[E _]|E]]; [|done].
        by symmetry in E.
      * destruct (diffPostsubmit_pairs _ _ _ _ _ H) as [-> [[_ Hn]|E]]; [|done].
        split; [apply (holdsPostsubmit_range _ Hpost); eauto|].
        intros (ps & Hps & Hname)%(holdsPostsubmit_range _ Hpost). by apply (Hn ps).
    + intros [Hr He]. right. right. left.
      apply (holdsPostsubmit_range _ Hpost) in Hr as (job & Hj & <-).
      exists job. split; [done|]. unfold diffPostsubmit.
      assert (List.find (fun ps => String.eqb (postsubmitName ps) (postsubmitName job))
                (concat (rangePostsubmits (PostsubmitsStatic existing))) = None) as ->.
      { apply find_None. intros ps Hps.
        destruct (String.eqb_spec (postsubmitName ps) (postsubmitName job)) as [E|]; [|done].
        destruct He. apply (holdsPostsubmit_range _ Hpost). eauto. }
      apply list_elem_of_here.
  - split.
    + intros [(job & Hj & H)|[(_ & H)|[(job & Hj & H)|(_ & H)]]]; auto.
      * destruct (diffPresubmit_pairs _ _ Hpre _ _ _ _ H) as [_ [[E _]|E]]; [|done].
        by symmetry in E.
      * destruct (diffPostsubmit_pairs _ _ _ _ _ H) as [_ [[E _]|E]]; [|done].
        by symmetry in E.
    + intros [H|H]; [right; left|right; right; right]; done.
Qed.

End ReportFacts.

(** ** The properties above on the closed examples *)

Module Examples.
Import GoStrings Matrix Config Instances ConfigSpec Samples MoreSamples.
Import ExpansionSpec ValidationSpec CompileSpec ReportSpec.
Import ConfigFiles ConfigDiff ConfigProofs.

Lemma Forall2_map_eq {A B C} (f : A -> C) (g : B -> C) (l : list A) (k : list B) :
  Forall2 (fun a b => f a = g b) l k -> map f l = map g k.
Proof. induction 1 as [|a b l k H _ IH]; cbn [map]; congruence. Qed.

(** A job group with a repository written [org@branch/repo]: the
    validation takes it, and the compilation panics. *)
Lemma accepted_repo_can_stop_createJobBase_witness :
  groupAccepted parseCron parseDuration strayRepoGroup emptyHeap
  /\ strayRepoJob ∈ Jobs_Jobs strayRepoGroup
  /\ "myorg@main/tools" ∈ Job_Repos strayRepoJob
  /\ countChar "/" (beforeChar "@" "myorg@main/tools") = 0
  /\ ValidateJobConfig parseCron parseDuration (mkClient plainGlobal) "jobs.yaml"
                       strayRepoGroup emptyHeap = Done (tt, emptyHeap)
  /\ (exists msg,
        createJobBase plainGlobal strayRepoGroup strayRepoJob "integ_myrepo" "master" None
                      emptyHeap = Panic msg)
  /\ compile (mkClient plainGlobal) strayRepoGroup "master" emptyHeap
     = Panic "index out of range".
Proof.
  assert (Hacc : groupAccepted parseCron parseDuration strayRepoGroup emptyHeap).
  { apply (ValidationFacts.validationErrors_nil parseCron parseDuration "jobs.yaml").
    vm_compute. reflexivity. }
  assert (Hjob : strayRepoJob ∈ Jobs_Jobs strayRepoGroup) by apply list_elem_of_here.
  assert (Hrepo : "myorg@main/tools" ∈ Job_Repos strayRepoJob) by apply list_elem_of_here.
  destruct (ExpandedJobs.accepted_repo_can_stop_createJobBase parseCron parseDuration
              (mkClient plainGlobal) "jobs.yaml" strayRepoGroup emptyHeap emptyHeap
              plainGlobal strayRepoJob "integ_myrepo" "master" "myorg@main/tools" None
              Hacc Hjob Hrepo eq_refl) as (Hv & _ & Hp).
  split; [exact Hacc|]. split; [exact Hjob|]. split; [exact Hrepo|]. split; [reflexivity|].
  split; [exact Hv|]. split; [exact Hp|]. vm_compute. reflexivity.
Defined.

(** A job group that declares the preset [docker] and requires it,
    under a global configuration without presets: the name passes the
    validation, and the label of the preset is not on the compiled
    job. *)
Lemma group_presets_are_not_applied_without_global_presets_witness :
  Global_RequirementPresets (GlobalConfigOf (mkClient plainGlobal)) = None
  /\ ReadJobConfig (mkClient plainGlobal) groupPresetDocument groupPresetHeap
     = Done (groupPresetRead, groupPresetReadHeap)
  /\ presetMapAt groupPresetReadHeap (Jobs_RequirementPresets groupPresetRead) !! "docker"
     = Some dockerPreset
  /\ validationErrors parseCron parseDuration "jobs.yaml" groupPresetRead
                      groupPresetReadHeap = []
  /\ compile (mkClient plainGlobal) groupPresetRead "master" groupPresetReadHeap
     = ConvertJobConfig sexpMarshal sexpUnmarshal (onZeroPresets labelResolver)
         (mkClient plainGlobal) groupPresetRead "master" groupPresetReadHeap
  /\ match compile (mkClient plainGlobal) groupPresetRead "master" groupPresetReadHeap with
     | Done (out, h2) =>
         map (fun p => strMapAt h2 (JobBase_Labels (Presubmit_JobBase p)))
             (presubmitsOf groupPresetRead out) = [∅]
     | _ => False
     end.
Proof.
  assert (Hread : ReadJobConfig (mkClient plainGlobal) groupPresetDocument groupPresetHeap
                  = Done (groupPresetRead, groupPresetReadHeap)).
  { vm_compute. reflexivity. }
  destruct (CompiledJobs.group_presets_are_not_applied_without_global_presets
              sexpMarshal sexpUnmarshal labelResolver (mkClient plainGlobal)
              groupPresetDocument groupPresetRead "master" groupPresetHeap
              groupPresetReadHeap eq_refl Hread) as (H1 & _ & H3).
  split; [reflexivity|]. split; [exact Hread|].
  split; [rewrite H1; vm_compute; reflexivity|].
  split; [vm_compute; reflexivity|]. split; [exact H3|]. vm_compute. reflexivity.
Defined.

(** Two repositories, the second with a branch and an aliased
    organisation. *)
Lemma createExtraRefs_reads_repo_text_witness :
  Forall plainRepo repoSpecs
  /\ createExtraRefs ["kubernetes/test-infra"; "istio/proxy@release-1.8"] "master" istioAlias
     = Done [mkRefs "kubernetes" "test-infra" "master" "";
             mkRefs "istio" "proxy" "release-1.8" "istio.io/proxy"].
Proof.
  assert (H : Forall plainRepo repoSpecs).
  { repeat constructor. }
  split; [exact H|].
  exact (ExtraRefsFacts.createExtraRefs_reads_repo_text repoSpecs "master" istioAlias H).
Defined.

(** The job [unit-test], with no trigger type, and the job [docs], with
    a pattern and the three modifiers. *)
Lemma presubmit_triggers_follow_the_job_witness :
  wellFormedRepo (Jobs_Org triggerGroup +:+ "/" +:+ Jobs_Repo triggerGroup) = true
  /\ expandJobs sexpMarshal sexpUnmarshal (Jobs_Jobs triggerGroup) (Jobs_Matrix triggerGroup)
     = Done [unitTest; docsJob]
  /\ Forall reposWellFormed [unitTest; docsJob]
  /\ exists out h',
      compile (mkClient plainGlobal) triggerGroup "master" emptyHeap = Done (out, h')
      /\ map Presubmit_AlwaysRun (presubmitsOf triggerGroup out) = [true; false]
      /\ map Presubmit_Optional (presubmitsOf triggerGroup out) = [false; true]
      /\ map Presubmit_SkipReport (presubmitsOf triggerGroup out) = [false; true]
      /\ map Presubmit_RunIfChanged (presubmitsOf triggerGroup out) = [""; "^docs/"]
      /\ map Presubmit_Branches (presubmitsOf triggerGroup out)
         = [["^master$"]; ["^master$"]].
Proof.
  assert (Hexp : expandJobs sexpMarshal sexpUnmarshal (Jobs_Jobs triggerGroup)
                            (Jobs_Matrix triggerGroup) = Done [unitTest; docsJob]).
  { vm_compute. reflexivity. }
  assert (Hwf : Forall reposWellFormed [unitTest; docsJob]).
  { repeat constructor. }
  split; [reflexivity|]. split; [exact Hexp|]. split; [exact Hwf|].
  destruct (CompiledJobs.presubmit_triggers_follow_the_job sexpMarshal sexpUnmarshal
              labelResolver plainGlobal triggerGroup "master" emptyHeap [unitTest; docsJob]
              labelResolver_total eq_refl Hexp Hwf) as (out & h' & E & F).
  exists out, h'. split; [exact E|].
  split; [|split; [|split; [|split]]].
  - rewrite (Forall2_map_eq _ _ _ _
               (Forall2_impl _ _ _ _ F (fun p j H => proj1 H))).
    vm_compute. reflexivity.
  - rewrite (Forall2_map_eq _ _ _ _
               (Forall2_impl _ _ _ _ F (fun p j H => proj1 (proj2 H)))).
    vm_compute. reflexivity.
  - rewrite (Forall2_map_eq _ _ _ _
               (Forall2_impl _ _ _ _ F (fun p j H => proj1 (proj2 (proj2 H))))).
    vm_compute. reflexivity.
  - rewrite (Forall2_map_eq _ _ _ _
               (Forall2_impl _ _ _ _ F (fun p j H => proj1 (proj2 (proj2 (proj2 H)))))).
    vm_compute. reflexivity.
  - rewrite (Forall2_map_eq _ (fun _ => ["^master$"]) _ _
               (Forall2_impl _ _ _ _ F
                  (fun p j H => proj1 (proj2 (proj2 (proj2 (proj2 H))))))).
    vm_compute. reflexivity.
Defined.

Lemma postsubmit_triggers_follow_the_job_witness :
  wellFormedRepo (Jobs_Org triggerGroup +:+ "/" +:+ Jobs_Repo triggerGroup) = true
  /\ expandJobs sexpMarshal sexpUnmarshal (Jobs_Jobs triggerGroup) (Jobs_Matrix triggerGroup)
     = Done [unitTest; docsJob]
  /\ Forall reposWellFormed [unitTest; docsJob]
  /\ exists out h',
      compile (mkClient plainGlobal) triggerGroup "master" emptyHeap = Done (out, h')
      /\ map Postsubmit_SkipReport (postsubmitsOf triggerGroup out) = [false; true]
      /\ map Postsubmit_RunIfChanged (postsubmitsOf triggerGroup out) = [""; "^docs/"].
Proof.
  assert (Hexp : expandJobs sexpMarshal sexpUnmarshal (Jobs_Jobs triggerGroup)
                            (Jobs_Matrix triggerGroup) = Done [unitTest; docsJob]).
  { vm_compute. reflexivity. }
  assert (Hwf : Forall reposWellFormed [unitTest; docsJob]).
  { repeat constructor. }
  split; [reflexivity|]. split; [exact Hexp|]. split; [exact Hwf|].
  destruct (CompiledJobs.postsubmit_triggers_follow_the_job sexpMarshal sexpUnmarshal
              labelResolver plainGlobal triggerGroup "master" emptyHeap [unitTest; docsJob]
              labelResolver_total eq_refl Hexp Hwf) as (out & h' & E & F).
  exists out, h'. split; [exact E|]. split.
  - rewrite (Forall2_map_eq _ _ _ _
               (Forall2_impl _ _ _ _ F (fun p j H => proj1 H))).
    vm_compute. reflexivity.
  - rewrite (Forall2_map_eq _ _ _ _
               (Forall2_impl _ _ _ _ F (fun p j H => proj1 (proj2 H)))).
    vm_compute. reflexivity.
Defined.

(** The nightly job names no repository: on the branch [release-1.2]
    it checks out the repository of the group at that branch. *)
Lemma periodic_keeps_schedule_and_checks_out_own_repo_witness :
  plainWord (Jobs_Org nightlyGroup) /\ plainWord (Jobs_Repo nightlyGroup)
  /\ expandJobs sexpMarshal sexpUnmarshal (Jobs_Jobs nightlyGroup) (Jobs_Matrix nightlyGroup)
     = Done [nightly]
  /\ Forall reposWellFormed [nightly]
  /\ exists out h',
      compile (mkClient plainGlobal) nightlyGroup "release-1.2" emptyHeap = Done (out, h')
      /\ map Periodic_Cron (Periodics out) = ["0 3 * * *"]
      /\ map Periodic_Interval (Periodics out) = [""]
      /\ Forall (fun p => Utility_ExtraRefs (JobBase_UtilityConfig (Periodic_JobBase p))
                          = [mkRefs "myorg" "myrepo" "release-1.2" ""]) (Periodics out).
Proof.
  assert (Horg : plainWord (Jobs_Org nightlyGroup)) by (split; reflexivity).
  assert (Hrepo : plainWord (Jobs_Repo nightlyGroup)) by (split; reflexivity).
  assert (Hexp : expandJobs sexpMarshal sexpUnmarshal (Jobs_Jobs nightlyGroup)
                            (Jobs_Matrix nightlyGroup) = Done [nightly]).
  { vm_compute. reflexivity. }
  assert (Hwf : Forall reposWellFormed [nightly]).
  { repeat constructor. }
  split; [exact Horg|]. split; [exact Hrepo|]. split; [exact Hexp|]. split; [exact Hwf|].
  destruct (CompiledJobs.periodic_keeps_schedule_and_checks_out_own_repo
              sexpMarshal sexpUnmarshal labelResolver plainGlobal nightlyGroup "release-1.2"
              emptyHeap [nightly] labelResolver_total Horg Hrepo Hexp Hwf)
    as (out & h' & E & F).
  exists out, h'. split; [exact E|]. split; [|split].
  - rewrite (Forall2_map_eq _ _ _ _
               (Forall2_impl _ _ _ _ F (fun p j H => proj1 (proj2 H)))).
    vm_compute. reflexivity.
  - rewrite (Forall2_map_eq _ _ _ _
               (Forall2_impl _ _ _ _ F (fun p j H => proj1 H))).
    vm_compute. reflexivity.
  - change (List.filter selectsPeriodic [nightly]) with [nightly] in F.
    inversion F as [|p j ps js (_ & _ & Hown & _) Hrest]; subst.
    inversion Hrest; subst. constructor; [|constructor]. exact (Hown eq_refl).
Defined.

(** A job group of one periodic job: no key in the two maps. *)
Lemma output_maps_hold_the_group_key_only_witness :
  wellFormedRepo (Jobs_Org nightlyGroup +:+ "/" +:+ Jobs_Repo nightlyGroup) = true
  /\ expandJobs sexpMarshal sexpUnmarshal (Jobs_Jobs nightlyGroup) (Jobs_Matrix nightlyGroup)
     = Done [nightly]
  /\ Forall reposWellFormed [nightly]
  /\ exists out h',
      compile (mkClient plainGlobal) nightlyGroup "master" emptyHeap = Done (out, h')
      /\ PresubmitsStatic out !! "myorg/myrepo" = None
      /\ PostsubmitsStatic out !! "myorg/myrepo" = None
      /\ PresubmitsStatic out !! "istio/istio" = None
      /\ List.length (Periodics out) = 1.
Proof.
  assert (Hexp : expandJobs sexpMarshal sexpUnmarshal (Jobs_Jobs nightlyGroup)
                            (Jobs_Matrix nightlyGroup) = Done [nightly]).
  { vm_compute. reflexivity. }
  assert (Hwf : Forall reposWellFormed [nightly]).
  { repeat constructor. }
  split; [reflexivity|]. split; [exact Hexp|]. split; [exact Hwf|].
  destruct (CompiledJobs.output_maps_hold_the_group_key_only sexpMarshal sexpUnmarshal
              labelResolver plainGlobal nightlyGroup "master" emptyHeap [nightly]
              labelResolver_total eq_refl Hexp Hwf)
    as (out & h' & E & Hother & Hpre & Hpost & _ & _ & Hlen).
  exists out, h'. split; [exact E|]. split; [|split; [|split]].
  - destruct (PresubmitsStatic out !! "myorg/myrepo") as [l|] eqn:El; [|reflexivity].
    exfalso. apply (proj1 Hpre); [eauto|reflexivity].
  - destruct (PostsubmitsStatic out !! "myorg/myrepo") as [l|] eqn:El; [|reflexivity].
    exfalso. apply (proj1 Hpost); [eauto|reflexivity].
  - apply (Hother "istio/istio"). discriminate.
  - exact Hlen.
Defined.

(** With testgrid on, the annotations of the global configuration at
    location 0 are written; the map at location 1 is as it was. *)
Lemma ConvertJobConfig_keeps_other_annotations_and_labels_witness :
  wellFormedRepo (Jobs_Org namingGroup +:+ "/" +:+ Jobs_Repo namingGroup) = true
  /\ expandJobs sexpMarshal sexpUnmarshal (Jobs_Jobs namingGroup) (Jobs_Matrix namingGroup)
     = Done [unitTest; nightly]
  /\ Forall reposWellFormed [unitTest; nightly]
  /\ exists out h',
      compile (mkClient testgridGlobal) namingGroup "master" twoMapHeap = Done (out, h')
      /\ strMapAt h' 1 = {["team" := "build"]}
      /\ resMaps h' = ∅ /\ presetMaps h' = ∅.
Proof.
  assert (Hexp : expandJobs sexpMarshal sexpUnmarshal (Jobs_Jobs namingGroup)
                            (Jobs_Matrix namingGroup) = Done [unitTest; nightly]).
  { vm_compute. reflexivity. }
  assert (Hwf : Forall reposWellFormed [unitTest; nightly]).
  { repeat constructor. }
  split; [reflexivity|]. split; [exact Hexp|]. split; [exact Hwf|].
  destruct (CompiledJobs.ConvertJobConfig_keeps_other_annotations_and_labels
              sexpMarshal sexpUnmarshal labelResolver testgridGlobal namingGroup "master"
              twoMapHeap [unitTest; nightly] labelResolver_total eq_refl Hexp Hwf)
    as (out & h' & E & Hr & Hp & _ & Hkeep).
  exists out, h'. split; [exact E|]. split; [|split; [exact Hr|exact Hp]].
  rewrite (Hkeep 1).
  - vm_compute. reflexivity.
  - apply elem_of_dom. eexists. vm_compute. reflexivity.
  - discriminate.
  - discriminate.
Defined.

(** A job and its group both declare [GOFLAGS]: the container has the
    two, that of the job first. *)
Lemma createJobBase_runs_one_privileged_container_witness :
  createExtraRefs (Job_Repos envJob) "master" (Global_PathAliases plainGlobal) = Done []
  /\ exists jb h' spec c,
      createJobBase plainGlobal envGroup envJob "unit-test_myrepo" "master" None emptyHeap
      = Done (jb, h')
      /\ JobBase_Spec jb = Some spec /\ PodSpec_Containers spec = [c]
      /\ Container_Image c = "gcr.io/build:latest"
      /\ Container_Env c = [mkEnvVar "GOFLAGS" "-mod=vendor"; mkEnvVar "GOFLAGS" "-mod=mod";
                            mkEnvVar "CI" "true"]
      /\ Container_Privileged c = Some true.
Proof.
  split; [reflexivity|].
  destruct (CompiledJobs.createJobBase_runs_one_privileged_container plainGlobal envGroup
              envJob "unit-test_myrepo" "master" None emptyHeap [] eq_refl)
    as (jb & h' & spec & c & E & Hs & Hc & _ & Hi & _ & _ & _ & He & _ & Hp & _).
  exists jb, h', spec, c. split; [exact E|]. split; [exact Hs|]. split; [exact Hc|].
  split; [rewrite Hi; reflexivity|]. split; [rewrite He; reflexivity|]. exact Hp.
Defined.

Lemma mapWrite_read path content (fs1 fs2 : gmap string string) :
  mapWrite path content fs1 = Ok fs2 -> mapRead path fs2 = Ok content.
Proof. intros [= <-]. unfold mapRead. by rewrite lookup_insert_eq. Qed.

(** An empty configuration written to, and checked against, a file of
    a file system that is a map. *)
Lemma CheckConfig_accepts_what_WriteConfig_wrote_witness :
  (forall path content fs1 fs2,
      mapWrite path content fs1 = Ok fs2 -> mapRead path fs2 = Ok content)
  /\ WriteConfig (gmap string string) mapWrite mapMkdirAll jobsDir periodicsText
                 (mkClient plainGlobal) (mkJobConfig ∅ ∅ []) "jobs/out.yaml" ∅ emptyHeap
     = Done {["jobs/out.yaml" := DefaultAutogenHeader]}
  /\ CheckConfig (gmap string string) mapRead periodicsText (mkClient plainGlobal)
                 (mkJobConfig ∅ ∅ []) "jobs/out.yaml"
                 {["jobs/out.yaml" := DefaultAutogenHeader]} emptyHeap = None
  /\ CheckConfig (gmap string string) mapRead periodicsText (mkClient plainGlobal)
                 (mkJobConfig ∅ ∅ []) "jobs/out.yaml" ∅ emptyHeap <> None.
Proof.
  assert (Hw : WriteConfig (gmap string string) mapWrite mapMkdirAll jobsDir periodicsText
                 (mkClient plainGlobal) (mkJobConfig ∅ ∅ []) "jobs/out.yaml" ∅ emptyHeap
               = Done {["jobs/out.yaml" := DefaultAutogenHeader]}).
  { vm_compute. reflexivity. }
  split; [exact mapWrite_read|]. split; [exact Hw|]. split; [|discriminate].
  exact (proj1 (ReportFacts.CheckConfig_accepts_what_WriteConfig_wrote (gmap string string)
                  mapRead mapWrite mapMkdirAll jobsDir periodicsText (mkClient plainGlobal)
                  (mkJobConfig ∅ ∅ []) "jobs/out.yaml" ∅ _ emptyHeap mapWrite_read Hw)).
Defined.

Lemma inKeyOrder_visits {V} : visitsValues (@inKeyOrder V).
Proof. intros m. apply Permutation_refl. Qed.

(** The newer configuration has [a] and [b], the older one [b] and
    [c]. *)
Lemma DiffConfig_reports_created_and_missing_witness :
  visitsValues (@inKeyOrder Presubmit) /\ visitsValues (@inKeyOrder Postsubmit)
  /\ DiffConfig inKeyOrder inKeyOrder clusterDiffPresubmit clusterDiffPostsubmit
                (mkClient plainGlobal) newerConfig olderConfig
     = [["Presubmit diff:"];
        [newline +:+ "Created unknown presubmit job"; "a"];
        [newline +:+ "Diff for"; "b"]; ["Cluster:  != build"];
        ["Missing"; "c"];
        [newline +:+ newline +:+ "Postsubmit diff:"];
        [newline +:+ "Created unknown job:"; "a_postsubmit"];
        ["Missing"; "c_postsubmit"]]
  /\ (holdsPresubmit newerConfig "a" /\ ~ holdsPresubmit olderConfig "a")
  /\ ((holdsPresubmit olderConfig "c" /\ ~ holdsPresubmit newerConfig "c")
      \/ (holdsPostsubmit olderConfig "c" /\ ~ holdsPostsubmit newerConfig "c")).
Proof.
  assert (E : DiffConfig inKeyOrder inKeyOrder clusterDiffPresubmit clusterDiffPostsubmit
                (mkClient plainGlobal) newerConfig olderConfig
              = [["Presubmit diff:"];
                 [newline +:+ "Created unknown presubmit job"; "a"];
                 [newline +:+ "Diff for"; "b"]; ["Cluster:  != build"];
                 ["Missing"; "c"];
                 [newline +:+ newline +:+ "Postsubmit diff:"];
                 [newline +:+ "Created unknown job:"; "a_postsubmit"];
                 ["Missing"; "c_postsubmit"]]).
  { vm_compute. reflexivity. }
  split; [exact inKeyOrder_visits|]. split; [exact inKeyOrder_visits|].
  split; [exact E|]. split.
  - destruct (ReportFacts.DiffConfig_reports_created_and_missing inKeyOrder inKeyOrder
                clusterDiffPresubmit clusterDiffPostsubmit (mkClient plainGlobal)
                newerConfig olderConfig "a" inKeyOrder_visits inKeyOrder_visits)
      as (Hc & _ & _).
    apply Hc. rewrite E. apply list_elem_of_further, list_elem_of_here.
  - destruct (ReportFacts.DiffConfig_reports_created_and_missing inKeyOrder inKeyOrder
                clusterDiffPresubmit clusterDiffPostsubmit (mkClient plainGlobal)
                newerConfig olderConfig "c" inKeyOrder_visits inKeyOrder_visits)
      as (_ & _ & Hm).
    apply Hm. rewrite E. do 4 apply list_elem_of_further. apply list_elem_of_here.
Defined.


End Examples.

Module OverlayExamples.
Import Instances Samples MoreSamples Decorator DecoratorSpec OverlaySpec DecoratorProofs.

(** Two presets on the build container: the arguments of both, one
    mount at [/cache], that of the first preset. *)
Lemma presets_reach_every_container_witness :
  keepsContainers fillMerge
  /\ PodSpec_Containers buildSpec !! 0 = Some buildContainer
  /\ exists r spec' c',
      resolveRequirements fillMerge (Some ∅) (Some ∅) (Some buildSpec)
                          [cachePreset; scratchPreset] = Done r
      /\ r.2 = Some spec' /\ PodSpec_Containers spec' !! 0 = Some c'
      /\ Container_Args c' = ["--cache"; "--verbose"]
      /\ List.filter (pathIs "/cache") (Container_VolumeMounts c')
         = [mkVolumeMount "cache" "/cache"]
      /\ Container_Image c' = "gcr.io/build:latest".
Proof.
  split; [apply fillMerge_keeps|]. split; [reflexivity|].
  destruct (PresetOverlay.presets_reach_every_container fillMerge (Some ∅) (Some ∅)
              buildSpec [cachePreset; scratchPreset] 0 buildContainer fillMerge_keeps eq_refl)
    as [Hres Htot].
  destruct (Htot fillMerge_total (ex_intro _ _ eq_refl) (ex_intro _ _ eq_refl)) as (r & Er).
  destruct (Hres r Er) as (spec' & c' & E2 & Ec & Ha & _ & Hnew & _ & Hi & _).
  exists r, spec', c'. split; [exact Er|]. split; [exact E2|]. split; [exact Ec|].
  split; [rewrite Ha; reflexivity|]. split; [|rewrite Hi; reflexivity].
  apply Hnew; reflexivity.
Defined.

(** The same two presets, one after the other and as one. *)
Lemma presets_without_overlay_act_as_one_witness :
  overlayFree [cachePreset; scratchPreset]
  /\ resolveRequirements fillMerge (Some ∅) (Some ∅) (Some buildSpec)
                         [cachePreset; scratchPreset]
     = resolveRequirements fillMerge (Some ∅) (Some ∅) (Some buildSpec)
         [mkRequirementPreset {["owner" := "scratch"]} {["cache" := "on"]} []
            ["--cache"; "--verbose"]
            [mkVolume "cache" "emptyDir"; mkVolume "cache" "hostPath";
             mkVolume "scratch" "emptyDir"]
            [mkVolumeMount "cache" "/cache"; mkVolumeMount "scratch" "/cache";
             mkVolumeMount "scratch" "/tmp"] None []].
Proof.
  assert (H : overlayFree [cachePreset; scratchPreset]) by (repeat constructor).
  split; [exact H|].
  rewrite (PresetOverlay.presets_without_overlay_act_as_one fillMerge (Some ∅) (Some ∅)
             (Some buildSpec) [cachePreset; scratchPreset] H).
  vm_compute. reflexivity.
Defined.

(** The volume [cache] of the first preset stays; [scratch] is added. *)
Lemma preset_volumes_first_writer_wins_witness :
  overlayFree [cachePreset; scratchPreset]
  /\ exists a' l' spec',
      resolveRequirements fillMerge (Some ∅) (Some ∅) (Some buildSpec)
                          [cachePreset; scratchPreset] = Done (Some a', Some l', Some spec')
      /\ List.filter (volumeIs "cache") (PodSpec_Volumes spec')
         = [mkVolume "cache" "emptyDir"]
      /\ List.filter (volumeIs "scratch") (PodSpec_Volumes spec')
         = [mkVolume "scratch" "emptyDir"].
Proof.
  assert (H : overlayFree [cachePreset; scratchPreset]) by (repeat constructor).
  split; [exact H|].
  destruct (PresetOverlay.preset_volumes_first_writer_wins fillMerge ∅ ∅ buildSpec
              [cachePreset; scratchPreset] H)
    as (a' & l' & spec' & E & _ & Hnew & _).
  exists a', l', spec'. split; [exact E|]. split; apply Hnew; reflexivity.
Defined.

End OverlayExamples.
